(** * Aseprite codec (deno-ase-format): a shallow embedding and its properties

    The development follows the layout of the TypeScript sources:

    - [src/types.ts]           the data model (records, enums, error codes);
    - [src/util/tags.ts]       tag playback and slice lookup;
    - [src/util/tile.ts]       tile value packing;
    - [src/util/decode.ts]     linked cel resolution;
    - [src/binary/reader.ts], [src/chunks/*.ts], [src/parse.ts]   the decoder;
    - [src/binary/writer.ts], [src/chunks/encode.ts], [src/encode.ts] the encoder.

    JavaScript numbers that the codec only ever uses as integers are [Z];
    fixed-width reads and writes spell out their wrap-around.  Exceptions are
    values of [Result]. *)

From Stdlib Require Import String Ascii ZArith List Bool Lia Sorted DecimalString.
From Stdlib Require Import Strings.Byte.
Import ListNotations.
Open Scope Z_scope.

Set Implicit Arguments.
Set Warnings "-register-all".

(* ================================================================== *)
(** * JavaScript values *)

(** A JavaScript string is a sequence of UTF-16 code units. *)
Definition JsString := list Z.

Definition str (s : string) : JsString :=
  map (fun a => Z.of_N (N_of_ascii a)) (list_ascii_of_string s).

Definition jsstr_eqb (a b : JsString) : bool :=
  if list_eq_dec Z.eq_dec a b then true else false.

(** [Uint8Array]: a sequence of bytes. *)
Definition Bytes := list byte.

Definition byte_val (b : byte) : Z := Z.of_N (Byte.to_N b).

Definition byte_of_Z (z : Z) : byte :=
  match Byte.of_N (Z.to_N (z mod 256)) with
  | Some b => b
  | None => x00
  end.

(** A JavaScript [number] as the property sub-format meets it: either an
    integer, or a non-integral (or non-finite) double, which is carried by
    its IEEE-754 binary64 bit pattern. *)
Inductive JsNumber :=
| NInt (z : Z)
| NDouble (bits : Z).

(* ================================================================== *)
(** * Errors ([src/types.ts], Error Types) *)

Inductive AseErrorCode :=
| BAD_MAGIC
| OUT_OF_BOUNDS
| BAD_CHUNK_SIZE
| UNSUPPORTED_COLOR_DEPTH
| INVALID_CEL_TYPE
| INVALID_LAYER_TYPE
| DECOMPRESSION_FAILED
| COMPRESSION_FAILED
| INVALID_LINKED_CEL
| MISSING_TILESET.

(** The messages of the plain [Error]s thrown by the reader, the writer and
    the chunk parsers. *)
Inductive ErrorMessage :=
| ReaderOutOfBounds
| ReaderInvalidSeek
| UnknownCelType (celType : Z)
| WriterStringTooLong
| WriterInvalidUuid
| WriterInvalidSeek.

(** What a [throw] carries: a plain [Error], the codec's [AseFormatError]
    with its code, an exception raised by the JavaScript runtime itself
    (a [TypeError] or [RangeError] of a typed array or of a conversion), or
    whatever an injected compression provider rejects with. *)
Inductive JsError :=
| Error (m : ErrorMessage)
| AseFormatError (code : AseErrorCode)
| RuntimeError
| ProviderError.

Inductive Result (A : Type) :=
| Ok (a : A)
| Throw (e : JsError).
Arguments Ok {A} a.
Arguments Throw {A} e.

Definition bindR {A B} (r : Result A) (k : A -> Result B) : Result B :=
  match r with
  | Ok a => k a
  | Throw e => Throw e
  end.

Declare Scope result_scope.
Delimit Scope result_scope with result.
Notation "x <-- r ;;; k" := (bindR r (fun x => k))
  (at level 61, r at next level, right associativity) : result_scope.
Notation "' p <-- r ;;; k" := (bindR r (fun p => k))
  (at level 61, p pattern, r at next level, right associativity) : result_scope.

(* ================================================================== *)
(** * Constants and enums ([src/types.ts]) *)

Definition ASE_FILE_MAGIC : Z := 0xa5e0.
Definition ASE_FRAME_MAGIC : Z := 0xf1fa.

Module LayerType.
Definition Normal : Z := 0.
Definition Group : Z := 1.
Definition Tilemap : Z := 2.
End LayerType.

Module CelType.
Definition RawImage : Z := 0.
Definition Linked : Z := 1.
Definition CompressedImage : Z := 2.
Definition CompressedTilemap : Z := 3.
End CelType.

Module TagDirection.
Definition Forward : Z := 0.
Definition Reverse : Z := 1.
Definition PingPong : Z := 2.
Definition PingPongReverse : Z := 3.
End TagDirection.

Module SliceFlags.
Definition Has9Patch : Z := 1.
Definition HasPivot : Z := 2.
End SliceFlags.

Module ColorProfileType.
Definition None_ : Z := 0.
Definition sRGB : Z := 1.
Definition EmbeddedICC : Z := 2.
End ColorProfileType.

Module TilesetFlags.
Definition IncludeLinkToExternal : Z := 1.
Definition IncludeTilesInFile : Z := 2.
Definition TileHeightMatchesCelHeight : Z := 4.
Definition ZeroIsEmptyTile : Z := 8.
End TilesetFlags.

Module UserDataFlags.
Definition HasText : Z := 1.
Definition HasColor : Z := 2.
Definition HasProperties : Z := 4.
End UserDataFlags.

Module PropertyType.
Definition Null : Z := 0x0000.
Definition Bool : Z := 0x0001.
Definition Int8 : Z := 0x0002.
Definition Uint8 : Z := 0x0003.
Definition Int16 : Z := 0x0004.
Definition Uint16 : Z := 0x0005.
Definition Int32 : Z := 0x0006.
Definition Uint32 : Z := 0x0007.
Definition Int64 : Z := 0x0008.
Definition Uint64 : Z := 0x0009.
Definition Fixed : Z := 0x000a.
Definition Float : Z := 0x000b.
Definition Double : Z := 0x000c.
Definition String : Z := 0x000d.
Definition Point : Z := 0x000e.
Definition Size : Z := 0x000f.
Definition Rect : Z := 0x0010.
Definition Vector : Z := 0x0011.
Definition PropertiesMap : Z := 0x0012.
Definition UUID : Z := 0x0013.
End PropertyType.

Module ChunkType.
Definition OldPalette1 : Z := 0x0004.
Definition OldPalette2 : Z := 0x0011.
Definition Layer : Z := 0x2004.
Definition Cel : Z := 0x2005.
Definition CelExtra : Z := 0x2006.
Definition ColorProfile : Z := 0x2007.
Definition ExternalFiles : Z := 0x2008.
Definition Mask : Z := 0x2016.
Definition Path : Z := 0x2017.
Definition Tags : Z := 0x2018.
Definition Palette : Z := 0x2019.
Definition UserData : Z := 0x2020.
Definition Slice : Z := 0x2022.
Definition Tileset : Z := 0x2023.
(** [Object.values(ChunkType)] *)
Definition values : list Z :=
  [OldPalette1; OldPalette2; Layer; Cel; CelExtra; ColorProfile;
   ExternalFiles; Mask; Path; Tags; Palette; UserData; Slice; Tileset].
End ChunkType.

(* ================================================================== *)
(** * The data model ([src/types.ts])

    Optional fields ([field?: T]) are [option]s.  Fields of one record are
    prefixed with the record's name, since Rocq projections share one name
    space.  The 16.16 fixed-point numbers of [CelExtra] and [ColorProfile]
    are carried by their signed 32-bit numerator: the value is
    [raw / 65536]. *)

Record AseHeader := {
  hdr_fileSize : Z;
  hdr_magic : Z;
  hdr_frameCount : Z;
  hdr_width : Z;
  hdr_height : Z;
  hdr_colorDepth : Z;
  hdr_flags : Z;
  hdr_speed : Z;
  hdr_transparentIndex : Z;
  hdr_colorCount : Z;
  hdr_pixelWidth : Z;
  hdr_pixelHeight : Z;
  hdr_gridX : Z;
  hdr_gridY : Z;
  hdr_gridWidth : Z;
  hdr_gridHeight : Z
}.

(** [PropertyValue]: the union of [src/types.ts].  A UUID is a string.  A
    JavaScript [Map] keeps its entries in insertion order, so it is an
    association list. *)
Inductive PropertyValue :=
| PNull
| PBool (b : bool)
| PNumber (n : JsNumber)
| PBigInt (z : Z)
| PString (s : JsString)
| PPoint (x y : Z)
| PSize (width height : Z)
| PRect (x y width height : Z)
| PVector (elements : list PropertyValue)
| PMap (entries : list (JsString * PropertyValue))
| PUnknown (unknownType : Z).

Definition JsMap (V : Type) := list (JsString * V).

(** [Map.prototype.set]: an existing key keeps its position. *)
Fixpoint map_set {V} (m : JsMap V) (k : JsString) (v : V) : JsMap V :=
  match m with
  | [] => [(k, v)]
  | (k', v') :: rest =>
      if jsstr_eqb k' k then (k', v) :: rest else (k', v') :: map_set rest k v
  end.

Definition PropertiesMap := JsMap (JsMap PropertyValue).

Record RGBA := { rgba_r : Z; rgba_g : Z; rgba_b : Z; rgba_a : Z }.

Record UserData := {
  ud_text : option JsString;
  ud_color : option RGBA;
  ud_properties : option PropertiesMap
}.

Record Layer := {
  layer_flags : Z;
  layer_type : Z;
  layer_childLevel : Z;
  layer_defaultWidth : Z;
  layer_defaultHeight : Z;
  layer_blendMode : Z;
  layer_opacity : Z;
  layer_name : JsString;
  layer_tilesetIndex : option Z;
  layer_userData : option UserData
}.

Inductive DataKind := KindRaw | KindZlib.

Record CelImageData := {
  cid_kind : DataKind;
  cid_bytes : Bytes;
  cid_decoded : option Bytes
}.

Record TilemapMasks := {
  tileIdMask : Z;
  xFlipMask : Z;
  yFlipMask : Z;
  rotationMask : Z
}.

Record CelExtra := {
  extra_flags : Z;
  extra_preciseX : Z;
  extra_preciseY : Z;
  extra_celWidth : Z;
  extra_celHeight : Z
}.

(** The four cel variants; [cel.type] is the variant's tag. *)
Inductive CelVariant :=
| RawImageCel (width height : Z) (data : CelImageData)
| LinkedCel (linkedFrameIndex : Z)
| CompressedImageCel (width height : Z) (data : CelImageData)
| CompressedTilemapCel (width height bitsPerTile : Z) (masks : TilemapMasks)
    (data : CelImageData) (decodedTiles : option (list Z)).

Record Cel := {
  cel_layerIndex : Z;
  cel_x : Z;
  cel_y : Z;
  cel_opacity : Z;
  cel_zIndex : Z;
  cel_userData : option UserData;
  cel_extra : option CelExtra;
  cel_variant : CelVariant
}.

Definition cel_type (c : Cel) : Z :=
  match cel_variant c with
  | RawImageCel _ _ _ => CelType.RawImage
  | LinkedCel _ => CelType.Linked
  | CompressedImageCel _ _ _ => CelType.CompressedImage
  | CompressedTilemapCel _ _ _ _ _ _ => CelType.CompressedTilemap
  end.

Record PaletteEntry := {
  pe_r : Z; pe_g : Z; pe_b : Z; pe_a : Z;
  pe_name : option JsString
}.

Record Palette := {
  pal_size : Z;
  pal_firstIndex : Z;
  pal_lastIndex : Z;
  pal_entries : list (option PaletteEntry)
}.

Record RGB := { rgb_r : Z; rgb_g : Z; rgb_b : Z }.

Record Tag := {
  tag_fromFrame : Z;
  tag_toFrame : Z;
  tag_direction : Z;
  tag_repeat : Z;
  tag_color : RGB;
  tag_name : JsString;
  tag_userData : option UserData
}.

Record Rect := { rect_x : Z; rect_y : Z; rect_width : Z; rect_height : Z }.
Record Point := { pt_x : Z; pt_y : Z }.

Record SliceKey := {
  key_frameIndex : Z;
  key_x : Z;
  key_y : Z;
  key_width : Z;
  key_height : Z;
  key_center : option Rect;
  key_pivot : option Point
}.

Record Slice := {
  slice_name : JsString;
  slice_flags : Z;
  slice_keys : list SliceKey;
  slice_userData : option UserData
}.

Record Tileset := {
  ts_id : Z;
  ts_flags : Z;
  ts_tileCount : Z;
  ts_tileWidth : Z;
  ts_tileHeight : Z;
  ts_baseIndex : Z;
  ts_name : JsString;
  ts_externalFileId : option Z;
  ts_externalTilesetId : option Z;
  ts_compressedData : option Bytes;
  ts_decodedPixels : option Bytes;
  ts_userData : option UserData;
  ts_tileUserData : option (list (option UserData))
}.

Record ColorProfile := {
  cp_type : Z;
  cp_flags : Z;
  cp_gamma : option Z;
  cp_iccData : option Bytes
}.

Record ExternalFile := {
  ef_id : Z;
  ef_type : Z;
  ef_fileName : JsString
}.

Record OldPalettePacket := {
  pkt_skipCount : Z;
  pkt_colors : list RGB
}.

Record UnknownChunk := {
  unk_type : Z;
  unk_rawData : Bytes
}.

(** The [Chunk] union.  [OtherChunk] is a chunk object of a type outside
    the union's known members that carries no [rawData]. *)
Inductive ChunkBody :=
| LayerChunk (layer : Layer)
| CelChunk (cel : Cel)
| CelExtraChunk (extra : CelExtra)
| PaletteChunk (palette : Palette)
| OldPaletteChunk (type : Z) (packets : list OldPalettePacket)
| TagsChunk (tags : list Tag)
| UserDataChunk (userData : UserData)
| SliceChunk (slice : Slice)
| TilesetChunk (tileset : Tileset)
| ColorProfileChunk (profile : ColorProfile)
| ExternalFilesChunk (files : list ExternalFile)
| OtherChunk (type : Z).

Record Chunk := {
  chunk_rawData : option Bytes;
  chunk_body : ChunkBody
}.

Definition chunk_type (c : Chunk) : Z :=
  match chunk_body c with
  | LayerChunk _ => ChunkType.Layer
  | CelChunk _ => ChunkType.Cel
  | CelExtraChunk _ => ChunkType.CelExtra
  | PaletteChunk _ => ChunkType.Palette
  | OldPaletteChunk t _ => t
  | TagsChunk _ => ChunkType.Tags
  | UserDataChunk _ => ChunkType.UserData
  | SliceChunk _ => ChunkType.Slice
  | TilesetChunk _ => ChunkType.Tileset
  | ColorProfileChunk _ => ChunkType.ColorProfile
  | ExternalFilesChunk _ => ChunkType.ExternalFiles
  | OtherChunk t => t
  end.

Record Frame := {
  frame_durationMs : Z;
  frame_cels : list Cel;
  frame_chunks : option (list Chunk)
}.

Record AsepriteFile := {
  file_header : AseHeader;
  file_frames : list Frame;
  file_layers : list Layer;
  file_tags : option (list Tag);
  file_slices : option (list Slice);
  file_palette : option Palette;
  file_tilesets : option (list Tileset);
  file_colorProfile : option ColorProfile;
  file_externalFiles : option (list ExternalFile);
  file_userData : option UserData;
  file_unknownChunks : option (list UnknownChunk)
}.

Record ParseOptions := {
  preserveChunks : bool;
  preserveCompressed : bool;
  decodeImages : bool;
  strict : bool
}.

(** [DEFAULT_OPTIONS] of [src/parse.ts]. *)
Definition DEFAULT_OPTIONS : ParseOptions :=
  {| preserveChunks := true; preserveCompressed := true;
     decodeImages := false; strict := true |}.

(* ================================================================== *)
(** * Tag and slice utilities ([src/util/tags.ts]) *)

Record TagFrameRange := {
  tfr_name : JsString;
  tfr_from : Z;
  tfr_to : Z;
  tfr_direction : Z;
  tfr_repeat : Z;
  tfr_frameCount : Z;
  tfr_playbackOrder : list Z
}.

(** [for (let i = start; cond(i); i = step(i)) out.push(i)], unrolled at
    most [fuel] times. *)
Fixpoint for_push (fuel : nat) (cond : Z -> bool) (step : Z -> Z)
    (i : Z) (out : list Z) : list Z :=
  match fuel with
  | O => out
  | S fuel' =>
      if cond i then for_push fuel' cond step (step i) (out ++ [i]) else out
  end.

(** The four loop shapes of [resolveTagFrameRange].  Each one is given as
    many unrollings as the distance between its bounds, which is the number
    of times its condition can hold ([for_up_le_fuel] and its siblings show
    that more unrollings change nothing). *)

(** [for (let i = a; i <= b; i++) out.push(i)] *)
Definition for_up_le (a b : Z) (out : list Z) : list Z :=
  for_push (Z.to_nat (b - a + 1)) (fun i => i <=? b) Z.succ a out.

(** [for (let i = a; i >= b; i--) out.push(i)] *)
Definition for_down_ge (a b : Z) (out : list Z) : list Z :=
  for_push (Z.to_nat (a - b + 1)) (fun i => i >=? b) Z.pred a out.

(** [for (let i = a; i > b; i--) out.push(i)] *)
Definition for_down_gt (a b : Z) (out : list Z) : list Z :=
  for_push (Z.to_nat (a - b)) (fun i => i >? b) Z.pred a out.

(** [for (let i = a; i < b; i++) out.push(i)] *)
Definition for_up_lt (a b : Z) (out : list Z) : list Z :=
  for_push (Z.to_nat (b - a)) (fun i => i <? b) Z.succ a out.

Definition resolveTagFrameRange (tag : Tag) : TagFrameRange :=
  let from := tag_fromFrame tag in
  let to := tag_toFrame tag in
  let frameCount := to - from + 1 in
  let playbackOrder : list Z := [] in
  let playbackOrder :=
    if tag_direction tag =? TagDirection.Forward then
      for_up_le from to playbackOrder
    else if tag_direction tag =? TagDirection.Reverse then
      for_down_ge to from playbackOrder
    else if tag_direction tag =? TagDirection.PingPong then
      let playbackOrder := for_up_le from to playbackOrder in
      for_down_gt (to - 1) from playbackOrder
    else if tag_direction tag =? TagDirection.PingPongReverse then
      let playbackOrder := for_down_ge to from playbackOrder in
      for_up_lt (from + 1) to playbackOrder
    else playbackOrder in
  {| tfr_name := tag_name tag;
     tfr_from := from;
     tfr_to := to;
     tfr_direction := tag_direction tag;
     tfr_repeat := tag_repeat tag;
     tfr_frameCount := frameCount;
     tfr_playbackOrder := playbackOrder |}.

(** [Array.prototype.find] *)
Definition array_find {A} (p : A -> bool) (l : list A) : option A :=
  List.find p l.

Definition getTagFrameRange (file : AsepriteFile) (tagName : JsString)
    : option TagFrameRange :=
  match file_tags file with
  | None => None
  | Some tags =>
      match array_find (fun t => jsstr_eqb (tag_name t) tagName) tags with
      | None => None
      | Some tag => Some (resolveTagFrameRange tag)
      end
  end.

Record ResolvedSliceKey := {
  rsk_name : JsString;
  rsk_frameIndex : Z;
  rsk_x : Z;
  rsk_y : Z;
  rsk_width : Z;
  rsk_height : Z;
  rsk_center : option Rect;
  rsk_pivot : option Point
}.

(** The loop of [getSliceAtFrame]:
    [for (const key of slice.keys)
       if (key.frameIndex <= frameIndex) applicableKey = key; else break;] *)
Fixpoint applicableKey_loop (keys : list SliceKey) (frameIndex : Z)
    (applicableKey : option SliceKey) : option SliceKey :=
  match keys with
  | [] => applicableKey
  | key :: rest =>
      if key_frameIndex key <=? frameIndex
      then applicableKey_loop rest frameIndex (Some key)
      else applicableKey
  end.

Definition getSliceAtFrame (file : AsepriteFile) (sliceName : JsString)
    (frameIndex : Z) : option ResolvedSliceKey :=
  match file_slices file with
  | None => None
  | Some slices =>
      match array_find (fun s => jsstr_eqb (slice_name s) sliceName) slices with
      | None => None
      | Some slice =>
          if (Z.of_nat (length (slice_keys slice)) =? 0) then None
          else
            match applicableKey_loop (slice_keys slice) frameIndex None with
            | None => None
            | Some applicableKey =>
                Some {| rsk_name := sliceName;
                        rsk_frameIndex := key_frameIndex applicableKey;
                        rsk_x := key_x applicableKey;
                        rsk_y := key_y applicableKey;
                        rsk_width := key_width applicableKey;
                        rsk_height := key_height applicableKey;
                        rsk_center := key_center applicableKey;
                        rsk_pivot := key_pivot applicableKey |}
            end
      end
  end.

(* ================================================================== *)
(** * Tile values ([src/util/tile.ts])

    JavaScript's [&] and [|] convert both operands with ToInt32 and yield a
    signed 32-bit integer. *)

Definition toInt32 (z : Z) : Z :=
  let int32bit := z mod 2 ^ 32 in
  if int32bit >=? 2 ^ 31 then int32bit - 2 ^ 32 else int32bit.

Definition toUint32 (z : Z) : Z := z mod 2 ^ 32.

Definition js_and (a b : Z) : Z := toInt32 (Z.land (toInt32 a) (toInt32 b)).
Definition js_or (a b : Z) : Z := toInt32 (Z.lor (toInt32 a) (toInt32 b)).

Record DecodedTile := {
  tileId : Z;
  xFlip : bool;
  yFlip : bool;
  rotation : bool
}.

Definition decodeTileValue (value : Z) (masks : TilemapMasks) : DecodedTile :=
  {| tileId := js_and value (tileIdMask masks);
     xFlip := negb (js_and value (xFlipMask masks) =? 0);
     yFlip := negb (js_and value (yFlipMask masks) =? 0);
     rotation := negb (js_and value (rotationMask masks) =? 0) |}.

Definition encodeTileValue (tile : DecodedTile) (masks : TilemapMasks) : Z :=
  let value := js_and (tileId tile) (tileIdMask masks) in
  let value := if xFlip tile then js_or value (xFlipMask masks) else value in
  let value := if yFlip tile then js_or value (yFlipMask masks) else value in
  let value := if rotation tile then js_or value (rotationMask masks) else value in
  value.

(* ================================================================== *)
(** * Linked cel resolution ([src/util/decode.ts]) *)

(** [resolveLinkedCel] calls itself on the cel it finds.  [fuel] bounds the
    depth of these calls; [None] is a resolution that has not returned
    within that depth. *)
Fixpoint resolveLinkedCel (fuel : nat) (file : AsepriteFile) (cel : Cel)
    : option (Result Cel) :=
  match fuel with
  | O => None
  | S fuel' =>
      match cel_variant cel with
      | LinkedCel linkedFrameIndex =>
          if (linkedFrameIndex <? 0)
             || (linkedFrameIndex >=? Z.of_nat (length (file_frames file)))
          then Some (Throw (AseFormatError INVALID_LINKED_CEL))
          else
            match nth_error (file_frames file) (Z.to_nat linkedFrameIndex) with
            | None => Some (Throw RuntimeError)
            | Some linkedFrame =>
                match array_find
                        (fun c => cel_layerIndex c =? cel_layerIndex cel)
                        (frame_cels linkedFrame) with
                | None => Some (Throw (AseFormatError INVALID_LINKED_CEL))
                | Some linkedCel => resolveLinkedCel fuel' file linkedCel
                end
            end
      | _ => Some (Ok cel)
      end
  end.

(* ================================================================== *)
(** * Specification-side definitions

    The definitions below follow the words of the specification; the
    properties compare them with the code above. *)

(** [a, a+1, ..., a+n-1] *)
Definition spec_ascending (a : Z) (n : nat) : list Z :=
  map (fun k => a + Z.of_nat k) (seq 0 n).

(** [a, a-1, ..., a-n+1] *)
Definition spec_descending (a : Z) (n : nat) : list Z :=
  map (fun k => a - Z.of_nat k) (seq 0 n).

(** Tag playback resolution as the specification words it: Forward is
    [from..to]; Reverse is [to..from]; PingPong is [from..to] then
    [to-1..from+1]; PingPongReverse is [to..from] then [from+1..to-1]. *)
Definition spec_playbackOrder (direction from to : Z) : list Z :=
  let n := Z.to_nat (to - from) in
  if direction =? TagDirection.Forward then spec_ascending from (S n)
  else if direction =? TagDirection.Reverse then spec_descending to (S n)
  else if direction =? TagDirection.PingPong then
    spec_ascending from (S n) ++ spec_descending (to - 1) (n - 1)
  else if direction =? TagDirection.PingPongReverse then
    spec_descending to (S n) ++ spec_ascending (from + 1) (n - 1)
  else [].

(** The length the specification gives for a playback order. *)
Definition spec_playbackLength (direction from to : Z) : Z :=
  if (direction =? TagDirection.Forward) || (direction =? TagDirection.Reverse)
  then to - from + 1
  else if to >? from then 2 * (to - from) else 1.

Definition mkTag (from to direction : Z) : Tag :=
  {| tag_fromFrame := from; tag_toFrame := to; tag_direction := direction;
     tag_repeat := 0; tag_color := {| rgb_r := 0; rgb_g := 0; rgb_b := 0 |};
     tag_name := str "test"; tag_userData := None |}.

(** [Slice.keys] sorted by frame index, ascending. *)
Definition keys_sorted (keys : list SliceKey) : Prop :=
  StronglySorted (fun a b => key_frameIndex a <= key_frameIndex b) keys.

(** The keys that qualify for a query frame: those with
    [frameIndex <= queryFrame]. *)
Definition spec_qualifying (keys : list SliceKey) (queryFrame : Z)
    : list SliceKey :=
  filter (fun k => key_frameIndex k <=? queryFrame) keys.

(** [keyIndex(slice, f)]: in a sorted key list the qualifying keys are the
    leading ones, so the key the lookup answers with is the last of them. *)
Definition spec_keyIndex (keys : list SliceKey) (queryFrame : Z) : option nat :=
  match length (spec_qualifying keys queryFrame) with
  | O => None
  | S i => Some i
  end.

(** The record [getSliceAtFrame] builds from a key. *)
Definition spec_resolved (sliceName : JsString) (key : SliceKey)
    : ResolvedSliceKey :=
  {| rsk_name := sliceName;
     rsk_frameIndex := key_frameIndex key;
     rsk_x := key_x key;
     rsk_y := key_y key;
     rsk_width := key_width key;
     rsk_height := key_height key;
     rsk_center := key_center key;
     rsk_pivot := key_pivot key |}.

Definition mkKey (frameIndex x width : Z) : SliceKey :=
  {| key_frameIndex := frameIndex; key_x := x; key_y := 0;
     key_width := width; key_height := 1;
     key_center := None; key_pivot := None |}.

Definition emptyHeader : AseHeader :=
  {| hdr_fileSize := 0; hdr_magic := ASE_FILE_MAGIC; hdr_frameCount := 0;
     hdr_width := 0; hdr_height := 0; hdr_colorDepth := 32; hdr_flags := 0;
     hdr_speed := 0; hdr_transparentIndex := 0; hdr_colorCount := 0;
     hdr_pixelWidth := 1; hdr_pixelHeight := 1; hdr_gridX := 0;
     hdr_gridY := 0; hdr_gridWidth := 16; hdr_gridHeight := 16 |}.

Definition fileWith (frames : list Frame) (slices : option (list Slice))
    : AsepriteFile :=
  {| file_header := emptyHeader; file_frames := frames; file_layers := [];
     file_tags := None; file_slices := slices; file_palette := None;
     file_tilesets := None; file_colorProfile := None;
     file_externalFiles := None; file_userData := None;
     file_unknownChunks := None |}.

(** The slice of the specification's lookup scenario: keys at frames 0
    and 2. *)
Definition hitbox : Slice :=
  {| slice_name := str "hitbox"; slice_flags := 0;
     slice_keys := [mkKey 0 10 20; mkKey 2 15 25];
     slice_userData := None |}.

(** "[v]'s set bits lie within the union of the four masks", read on the
    32-bit patterns the bitwise operators work with. *)
Definition within_union (v : Z) (m : TilemapMasks) : Prop :=
  js_and v (js_or (js_or (js_or (tileIdMask m) (xFlipMask m)) (yFlipMask m))
                  (rotationMask m))
  = toInt32 v.

(** A flag mask is whole in [v]: [v] has none of its bits or all of them.
    A one-bit mask is whole in every value. *)
Definition flag_whole (v mask : Z) : Prop :=
  js_and v mask = 0 \/ js_and v mask = toInt32 mask.

Definition is_u32 (z : Z) : Prop := 0 <= z < 2 ^ 32.

(** [bits_of w f]: [w] is a signed 32-bit value whose bit [k <= 31] is
    [f k]. *)
Definition bits_of (w : Z) (f : Z -> bool) : Prop :=
  forall n, 0 <= n -> Z.testbit w n = f (Z.min n 31).

(** The four masks are pairwise disjoint 32-bit values. *)
Definition masks_partition (m : TilemapMasks) : Prop :=
  is_u32 (tileIdMask m) /\ is_u32 (xFlipMask m)
  /\ is_u32 (yFlipMask m) /\ is_u32 (rotationMask m)
  /\ Z.land (tileIdMask m) (xFlipMask m) = 0
  /\ Z.land (tileIdMask m) (yFlipMask m) = 0
  /\ Z.land (tileIdMask m) (rotationMask m) = 0
  /\ Z.land (xFlipMask m) (yFlipMask m) = 0
  /\ Z.land (xFlipMask m) (rotationMask m) = 0
  /\ Z.land (yFlipMask m) (rotationMask m) = 0.

(** The masks Aseprite writes. *)
Definition standardMasks : TilemapMasks :=
  {| tileIdMask := 0x1fffffff; xFlipMask := 0x20000000;
     yFlipMask := 0x40000000; rotationMask := 0x80000000 |}.

(** Disjoint masks with a two-bit x-flip mask. *)
Definition wideFlipMasks : TilemapMasks :=
  {| tileIdMask := 1; xFlipMask := 6; yFlipMask := 8; rotationMask := 16 |}.

Definition is_linked (c : Cel) : bool := cel_type c =? CelType.Linked.

(** One hop of a link: [c] is Linked, its frame index is in range and the
    first cel of that frame on [c]'s layer is [c']. *)
Definition linksTo (file : AsepriteFile) (c c' : Cel) : Prop :=
  exists k frame,
    cel_variant c = LinkedCel k
    /\ 0 <= k < Z.of_nat (length (file_frames file))
    /\ nth_error (file_frames file) (Z.to_nat k) = Some frame
    /\ array_find (fun x => cel_layerIndex x =? cel_layerIndex c)
                  (frame_cels frame) = Some c'.

(** A link that cannot be followed: the frame index is out of range, or
    the target frame has no cel on the same layer. *)
Definition brokenLink (file : AsepriteFile) (c : Cel) : Prop :=
  exists k,
    cel_variant c = LinkedCel k
    /\ (k < 0
        \/ Z.of_nat (length (file_frames file)) <= k
        \/ exists frame,
             nth_error (file_frames file) (Z.to_nat k) = Some frame
             /\ array_find (fun x => cel_layerIndex x =? cel_layerIndex c)
                           (frame_cels frame) = None).

(** The cels met when following links from a cel. *)
Inductive reaches (file : AsepriteFile) : Cel -> Cel -> Prop :=
| reaches_here : forall c, reaches file c c
| reaches_hop : forall c c1 c2,
    linksTo file c c1 -> reaches file c1 c2 -> reaches file c c2.

(** Every Linked cel stored in the file points to an earlier frame (the
    validator's "references forward frame" rule). *)
Definition linksBackward (file : AsepriteFile) : Prop :=
  forall (i : nat) (frame : Frame) (c : Cel) (k : Z),
    nth_error (file_frames file) i = Some frame ->
    In c (frame_cels frame) ->
    cel_variant c = LinkedCel k ->
    k < Z.of_nat i.

Definition mkCel (layerIndex : Z) (variant : CelVariant) : Cel :=
  {| cel_layerIndex := layerIndex; cel_x := 0; cel_y := 0;
     cel_opacity := 255; cel_zIndex := 0; cel_userData := None;
     cel_extra := None; cel_variant := variant |}.

Definition mkFrame (cels : list Cel) : Frame :=
  {| frame_durationMs := 100; frame_cels := cels; frame_chunks := None |}.

(** A cel of frame 0 that links to frame 0, that is, to itself. *)
Definition selfLinkedCel : Cel := mkCel 0 (LinkedCel 0).
Definition selfLinkedFile : AsepriteFile :=
  fileWith [mkFrame [selfLinkedCel]] None.

(** The specification's linked-cel scenario: frame 0 holds a raw image,
    frame 1 links to it. *)
Definition rawCel : Cel :=
  mkCel 0 (RawImageCel 1 1
             {| cid_kind := KindRaw; cid_bytes := [x00; x00; x00; x00];
                cid_decoded := None |}).
Definition linkedFile : AsepriteFile :=
  fileWith [mkFrame [rawCel]; mkFrame [mkCel 0 (LinkedCel 0)]] None.

(* ================================================================== *)
(** * The JavaScript runtime

    What the codec takes from its platform and this development does not
    define: the UTF-8 codecs, IEEE-754 arithmetic, the depth of the call
    stack, and the implicit conversions applied when a value is cast to a
    type it does not have.  Every property below holds for every
    runtime. *)

Class JsRuntime := {
  (** [new TextDecoder("utf-8").decode(bytes)] *)
  utf8_decode : Bytes -> JsString;
  (** [new TextEncoder().encode(string)] *)
  utf8_encode : JsString -> Bytes;
  (** [parseInt(string, radix)]; [None] is [NaN] *)
  js_parseInt : JsString -> Z -> option Z;
  (** the number read by [getFloat32] / [getFloat64] from a bit pattern *)
  number_of_f32_bits : Z -> JsNumber;
  number_of_f64_bits : Z -> JsNumber;
  (** the binary64 pattern of [raw / 65536] *)
  f64_bits_of_fixed : Z -> Z;
  (** the binary64 pattern of an integer *)
  f64_bits_of_int : Z -> Z;
  (** the binary32 pattern [setFloat32] stores for a number *)
  f32_bits_of_number : JsNumber -> Z;
  (** [Math.round(value * 65536)] *)
  fixed_raw_of_number : JsNumber -> Z;
  (** nested calls after which the engine throws [RangeError] *)
  maxCallDepth : nat;
  (** what [encodePropertyValue(writer, value, propType)] writes when
      [value] is cast to a type it does not have; [None] when the
      conversion throws a [TypeError] *)
  encode_mistyped : Bytes -> PropertyValue -> Z -> option Bytes
}.

(* ================================================================== *)
(** * BinaryReader ([src/binary/reader.ts])

    The reader is its byte array and its offset; a method is a function
    from a reader to a result and the reader after it. *)

Record BinaryReader := {
  rd_data : Bytes;
  rd_offset : Z
}.

Definition Parser (A : Type) : Type := BinaryReader -> Result (A * BinaryReader).

Definition ret {A} (a : A) : Parser A := fun r => Ok (a, r).

Definition bind {A B} (p : Parser A) (k : A -> Parser B) : Parser B :=
  fun r => match p r with
           | Ok (a, r') => k a r'
           | Throw e => Throw e
           end.

Definition throw {A} (e : JsError) : Parser A := fun _ => Throw e.

Declare Scope parser_scope.
Delimit Scope parser_scope with parser.
Notation "x <- p ;; k" := (bind p (fun x => k))
  (at level 61, p at next level, right associativity) : parser_scope.
Notation "p ;; k" := (bind p (fun _ => k))
  (at level 61, right associativity) : parser_scope.
Open Scope parser_scope.

Definition rd_length (r : BinaryReader) : Z := Z.of_nat (length (rd_data r)).

Definition get_offset : Parser Z := fun r => Ok (rd_offset r, r).

(** [ensureBytes(count)] *)
Definition ensureBytes (count : Z) : Parser unit :=
  fun r =>
    if rd_offset r + count >? rd_length r
    then Throw (Error ReaderOutOfBounds)
    else Ok (tt, r).

(** Little-endian value of a byte sequence. *)
Fixpoint le_value (bs : Bytes) : Z :=
  match bs with
  | [] => 0
  | b :: rest => byte_val b + 256 * le_value rest
  end.

(** Two's complement reading of a [bits]-bit value. *)
Definition to_signed (bits : Z) (z : Z) : Z :=
  if z >=? 2 ^ (bits - 1) then z - 2 ^ bits else z.

(** [DataView.prototype.getUintN(offset, true)]: the view throws a
    [RangeError] outside the buffer. *)
Definition view_get (size : nat) (r : BinaryReader) : Result Z :=
  if (rd_offset r <? 0) || (rd_offset r + Z.of_nat size >? rd_length r)
  then Throw RuntimeError
  else Ok (le_value (firstn size (skipn (Z.to_nat (rd_offset r)) (rd_data r)))).

Definition advance (count : Z) : Parser unit :=
  fun r => Ok (tt, {| rd_data := rd_data r; rd_offset := rd_offset r + count |}).

Definition read_unsigned (size : nat) : Parser Z :=
  ensureBytes (Z.of_nat size) ;;
  fun r => match view_get size r with
           | Ok v => (advance (Z.of_nat size) ;; ret v) r
           | Throw e => Throw e
           end.

Definition read_signed (size : nat) : Parser Z :=
  v <- read_unsigned size ;;
  ret (to_signed (8 * Z.of_nat size) v).

Definition u8 : Parser Z := read_unsigned 1.
Definition u16 : Parser Z := read_unsigned 2.
Definition i16 : Parser Z := read_signed 2.
Definition u32 : Parser Z := read_unsigned 4.
Definition i32 : Parser Z := read_signed 4.
Definition u64 : Parser Z := read_unsigned 8.
Definition i64 : Parser Z := read_signed 8.

(** [fixed16_16()]: the signed numerator [raw]; the value is [raw / 65536]. *)
Definition fixed16_16 : Parser Z := read_signed 4.

(** [TypedArray.prototype.subarray(begin, end)] *)
Definition relative_index (i len : Z) : Z :=
  if i <? 0 then Z.max (len + i) 0 else Z.min i len.

Definition subarray (data : Bytes) (begin end_ : Z) : Bytes :=
  let len := Z.of_nat (length data) in
  let b := relative_index begin len in
  let e := relative_index end_ len in
  firstn (Z.to_nat (e - b)) (skipn (Z.to_nat b) data).

(** [bytes(count)] *)
Definition bytes (count : Z) : Parser Bytes :=
  ensureBytes count ;;
  fun r =>
    let slice := subarray (rd_data r) (rd_offset r) (rd_offset r + count) in
    (advance count ;; ret slice) r.

(** [skip(count)] *)
Definition skip (count : Z) : Parser unit :=
  ensureBytes count ;; advance count.

(** [seek(offset)] *)
Definition seek (offset : Z) : Parser unit :=
  fun r =>
    if (offset <? 0) || (offset >? rd_length r)
    then Throw (Error ReaderInvalidSeek)
    else Ok (tt, {| rd_data := rd_data r; rd_offset := offset |}).

Section Reader.
Context {rt : JsRuntime}.

(** [string()] *)
Definition string_ : Parser JsString :=
  length <- u16 ;;
  if length =? 0 then ret []
  else
    bs <- bytes length ;;
    ret (utf8_decode bs).

(** The two lower-case hexadecimal digits of a byte:
    [b.toString(16).padStart(2, "0")]. *)
Definition hex_digit (d : Z) : Z :=
  if d <? 10 then 48 + d else 87 + d.

Definition hex_byte (b : byte) : JsString :=
  [hex_digit (byte_val b / 16); hex_digit (byte_val b mod 16)].

(** [String.prototype.slice(start, end)] for [0 <= start <= end] *)
Definition str_slice (s : JsString) (start end_ : nat) : JsString :=
  firstn (end_ - start) (skipn start s).

(** [uuid()] *)
Definition uuid : Parser JsString :=
  bs <- bytes 16 ;;
  let hex := concat (map hex_byte bs) in
  ret (str_slice hex 0 8 ++ str "-" ++ str_slice hex 8 12 ++ str "-"
       ++ str_slice hex 12 16 ++ str "-" ++ str_slice hex 16 20 ++ str "-"
       ++ str_slice hex 20 32).

(** [for (let i = 0; i < count; i++) out.push(body())] *)
Fixpoint repeat_push {A} (count : nat) (body : Parser A) (out : list A)
    : Parser (list A) :=
  match count with
  | O => ret out
  | S count' => a <- body ;; repeat_push count' body (out ++ [a])
  end.

(** [flags & bit], as a condition *)
Definition has_flag (flags bit : Z) : bool := negb (js_and flags bit =? 0).
End Reader.

(* ================================================================== *)
(** * Chunk parsers ([src/chunks/*.ts]) *)

Section ChunkParsers.
Context {rt : JsRuntime}.

(** [parseLayerChunk] ([src/chunks/layer.ts]) *)
Definition parseLayerChunk : Parser Layer :=
  flags <- u16 ;;
  type <- u16 ;;
  childLevel <- u16 ;;
  defaultWidth <- u16 ;;
  defaultHeight <- u16 ;;
  blendMode <- u16 ;;
  opacity <- u8 ;;
  skip 3 ;;
  name <- string_ ;;
  tilesetIndex <-
    (if type =? LayerType.Tilemap
     then (i <- u32 ;; ret (Some i))
     else ret None) ;;
  ret {| layer_flags := flags;
         layer_type := type;
         layer_childLevel := childLevel;
         layer_defaultWidth := defaultWidth;
         layer_defaultHeight := defaultHeight;
         layer_blendMode := blendMode;
         layer_opacity := opacity;
         layer_name := name;
         layer_tilesetIndex := tilesetIndex;
         layer_userData := None |}.

(** [parseCelChunk] ([src/chunks/cel.ts]) *)
Definition parseCelChunk (chunkEndOffset : Z) : Parser Cel :=
  layerIndex <- u16 ;;
  x <- i16 ;;
  y <- i16 ;;
  opacity <- u8 ;;
  celType <- u16 ;;
  zIndex <- i16 ;;
  skip 5 ;;
  let mk variant :=
    {| cel_layerIndex := layerIndex; cel_x := x; cel_y := y;
       cel_opacity := opacity; cel_zIndex := zIndex;
       cel_userData := None; cel_extra := None;
       cel_variant := variant |} in
  if celType =? CelType.RawImage then
    width <- u16 ;;
    height <- u16 ;;
    offset <- get_offset ;;
    let remainingBytes := chunkEndOffset - offset in
    bs <- bytes remainingBytes ;;
    ret (mk (RawImageCel width height
               {| cid_kind := KindRaw; cid_bytes := bs; cid_decoded := None |}))
  else if celType =? CelType.Linked then
    linkedFrameIndex <- u16 ;;
    ret (mk (LinkedCel linkedFrameIndex))
  else if celType =? CelType.CompressedImage then
    width <- u16 ;;
    height <- u16 ;;
    offset <- get_offset ;;
    let remainingBytes := chunkEndOffset - offset in
    bs <- bytes remainingBytes ;;
    ret (mk (CompressedImageCel width height
               {| cid_kind := KindZlib; cid_bytes := bs; cid_decoded := None |}))
  else if celType =? CelType.CompressedTilemap then
    width <- u16 ;;
    height <- u16 ;;
    bitsPerTile <- u16 ;;
    tileIdMask <- u32 ;;
    xFlipMask <- u32 ;;
    yFlipMask <- u32 ;;
    rotationMask <- u32 ;;
    skip 10 ;;
    offset <- get_offset ;;
    let remainingBytes := chunkEndOffset - offset in
    bs <- bytes remainingBytes ;;
    ret (mk (CompressedTilemapCel width height bitsPerTile
               {| tileIdMask := tileIdMask; xFlipMask := xFlipMask;
                  yFlipMask := yFlipMask; rotationMask := rotationMask |}
               {| cid_kind := KindZlib; cid_bytes := bs; cid_decoded := None |}
               None))
  else
    throw (Error (UnknownCelType celType)).

(** [parseCelExtraChunk] *)
Definition parseCelExtraChunk : Parser CelExtra :=
  flags <- u32 ;;
  preciseX <- fixed16_16 ;;
  preciseY <- fixed16_16 ;;
  celWidth <- fixed16_16 ;;
  celHeight <- fixed16_16 ;;
  ret {| extra_flags := flags; extra_preciseX := preciseX;
         extra_preciseY := preciseY; extra_celWidth := celWidth;
         extra_celHeight := celHeight |}.

(** [parsePaletteChunk] ([src/chunks/palette.ts]) *)
Definition PALETTE_ENTRY_HAS_NAME : Z := 1.

Definition parsePaletteEntry : Parser (option PaletteEntry) :=
  entryFlags <- u16 ;;
  r <- u8 ;;
  g <- u8 ;;
  b <- u8 ;;
  a <- u8 ;;
  name <-
    (if has_flag entryFlags PALETTE_ENTRY_HAS_NAME
     then (s <- string_ ;; ret (Some s))
     else ret None) ;;
  ret (Some {| pe_r := r; pe_g := g; pe_b := b; pe_a := a; pe_name := name |}).

Definition parsePaletteChunk : Parser Palette :=
  size <- u32 ;;
  firstIndex <- u32 ;;
  lastIndex <- u32 ;;
  skip 8 ;;
  entries <- repeat_push (Z.to_nat (lastIndex - firstIndex + 1))
                         parsePaletteEntry [] ;;
  ret {| pal_size := size; pal_firstIndex := firstIndex;
         pal_lastIndex := lastIndex; pal_entries := entries |}.

(** [parseOldPaletteChunk] *)
Definition parseOldPaletteColor : Parser RGB :=
  r <- u8 ;;
  g <- u8 ;;
  b <- u8 ;;
  ret {| rgb_r := r; rgb_g := g; rgb_b := b |}.

Definition parseOldPalettePacket : Parser OldPalettePacket :=
  skipCount <- u8 ;;
  colorCount <- u8 ;;
  let colorCount := if colorCount =? 0 then 256 else colorCount in
  colors <- repeat_push (Z.to_nat colorCount) parseOldPaletteColor [] ;;
  ret {| pkt_skipCount := skipCount; pkt_colors := colors |}.

Definition parseOldPaletteChunk : Parser (list OldPalettePacket) :=
  packetCount <- u16 ;;
  repeat_push (Z.to_nat packetCount) parseOldPalettePacket [].

(** [parseTagsChunk] ([src/chunks/tags.ts]) *)
Definition parseTag : Parser Tag :=
  fromFrame <- u16 ;;
  toFrame <- u16 ;;
  direction <- u8 ;;
  repeat_ <- u16 ;;
  skip 6 ;;
  r <- u8 ;;
  g <- u8 ;;
  b <- u8 ;;
  skip 1 ;;
  name <- string_ ;;
  ret {| tag_fromFrame := fromFrame; tag_toFrame := toFrame;
         tag_direction := direction; tag_repeat := repeat_;
         tag_color := {| rgb_r := r; rgb_g := g; rgb_b := b |};
         tag_name := name; tag_userData := None |}.

Definition parseTagsChunk : Parser (list Tag) :=
  tagCount <- u16 ;;
  skip 8 ;;
  repeat_push (Z.to_nat tagCount) parseTag [].

(** [parseSliceChunk] ([src/chunks/slice.ts]) *)
Definition parseSliceKey (flags : Z) : Parser SliceKey :=
  frameIndex <- u32 ;;
  x <- i32 ;;
  y <- i32 ;;
  width <- u32 ;;
  height <- u32 ;;
  center <-
    (if has_flag flags SliceFlags.Has9Patch then
       centerX <- i32 ;;
       centerY <- i32 ;;
       centerWidth <- u32 ;;
       centerHeight <- u32 ;;
       ret (Some {| rect_x := centerX; rect_y := centerY;
                    rect_width := centerWidth; rect_height := centerHeight |})
     else ret None) ;;
  pivot <-
    (if has_flag flags SliceFlags.HasPivot then
       pivotX <- i32 ;;
       pivotY <- i32 ;;
       ret (Some {| pt_x := pivotX; pt_y := pivotY |})
     else ret None) ;;
  ret {| key_frameIndex := frameIndex; key_x := x; key_y := y;
         key_width := width; key_height := height;
         key_center := center; key_pivot := pivot |}.

Definition parseSliceChunk : Parser Slice :=
  keyCount <- u32 ;;
  flags <- u32 ;;
  skip 4 ;;
  name <- string_ ;;
  keys <- repeat_push (Z.to_nat keyCount) (parseSliceKey flags) [] ;;
  ret {| slice_name := name; slice_flags := flags; slice_keys := keys;
         slice_userData := None |}.

(** [parseTilesetChunk] ([src/chunks/tileset.ts]) *)
Definition parseTilesetChunk : Parser Tileset :=
  id <- u32 ;;
  flags <- u32 ;;
  tileCount <- u32 ;;
  tileWidth <- u16 ;;
  tileHeight <- u16 ;;
  baseIndex <- i16 ;;
  skip 14 ;;
  name <- string_ ;;
  link <-
    (if has_flag flags TilesetFlags.IncludeLinkToExternal then
       externalFileId <- u32 ;;
       externalTilesetId <- u32 ;;
       ret (Some externalFileId, Some externalTilesetId)
     else ret (None, None)) ;;
  compressedData <-
    (if has_flag flags TilesetFlags.IncludeTilesInFile then
       compressedLength <- u32 ;;
       bs <- bytes compressedLength ;;
       ret (Some bs)
     else ret None) ;;
  ret {| ts_id := id; ts_flags := flags; ts_tileCount := tileCount;
         ts_tileWidth := tileWidth; ts_tileHeight := tileHeight;
         ts_baseIndex := baseIndex; ts_name := name;
         ts_externalFileId := fst link;
         ts_externalTilesetId := snd link;
         ts_compressedData := compressedData;
         ts_decodedPixels := None;
         ts_userData := None;
         ts_tileUserData := None |}.

(** [parseColorProfileChunk] ([src/chunks/color_profile.ts]) *)
Definition COLOR_PROFILE_HAS_GAMMA : Z := 1.

Definition parseColorProfileChunk : Parser ColorProfile :=
  type <- u16 ;;
  flags <- u16 ;;
  gammaRaw <- fixed16_16 ;;
  skip 8 ;;
  let gamma := if has_flag flags COLOR_PROFILE_HAS_GAMMA
               then Some gammaRaw else None in
  iccData <-
    (if type =? ColorProfileType.EmbeddedICC then
       iccLength <- u32 ;;
       bs <- bytes iccLength ;;
       ret (Some bs)
     else ret None) ;;
  ret {| cp_type := type; cp_flags := flags; cp_gamma := gamma;
         cp_iccData := iccData |}.

(** [parseExternalFilesChunk] ([src/chunks/external_files.ts]) *)
Definition parseExternalFile : Parser ExternalFile :=
  id <- u32 ;;
  type <- u8 ;;
  skip 7 ;;
  fileName <- string_ ;;
  ret {| ef_id := id; ef_type := type; ef_fileName := fileName |}.

Definition parseExternalFilesChunk : Parser (list ExternalFile) :=
  entryCount <- u32 ;;
  skip 8 ;;
  repeat_push (Z.to_nat entryCount) parseExternalFile [].
End ChunkParsers.

(* ================================================================== *)
(** * User data chunk parser ([src/chunks/user_data.ts]) *)

Section UserDataParser.
Context {rt : JsRuntime}.

Definition f32 : Parser JsNumber :=
  bits <- u32 ;; ret (number_of_f32_bits bits).

Definition f64 : Parser JsNumber :=
  bits <- u64 ;; ret (number_of_f64_bits bits).

(** The number [raw / 65536] that [fixed16_16()] returns. *)
Definition number_of_fixed (raw : Z) : JsNumber :=
  if raw mod 65536 =? 0 then NInt (raw / 65536)
  else NDouble (f64_bits_of_fixed raw).

(** [for (let i = 0; i < count; i++) { const [k, v] = body(); map.set(k, v) }] *)
Fixpoint repeat_set {V} (count : nat) (body : Parser (JsString * V))
    (map : JsMap V) : Parser (JsMap V) :=
  match count with
  | O => ret map
  | S count' =>
      kv <- body ;;
      repeat_set count' body (map_set map (fst kv) (snd kv))
  end.

(** [parsePropertyValue]; [depth] is the call depth left before the engine
    gives up with a [RangeError]. *)
Fixpoint parsePropertyValue (depth : nat) (propType : Z) : Parser PropertyValue :=
  match depth with
  | O => throw RuntimeError
  | S depth' =>
      if propType =? PropertyType.Null then ret PNull
      else if propType =? PropertyType.Bool then
        v <- u8 ;; ret (PBool (negb (v =? 0)))
      else if propType =? PropertyType.Int8 then
        v <- u8 ;; ret (PNumber (NInt (v - 128)))
      else if propType =? PropertyType.Uint8 then
        v <- u8 ;; ret (PNumber (NInt v))
      else if propType =? PropertyType.Int16 then
        v <- i16 ;; ret (PNumber (NInt v))
      else if propType =? PropertyType.Uint16 then
        v <- u16 ;; ret (PNumber (NInt v))
      else if propType =? PropertyType.Int32 then
        v <- i32 ;; ret (PNumber (NInt v))
      else if propType =? PropertyType.Uint32 then
        v <- u32 ;; ret (PNumber (NInt v))
      else if propType =? PropertyType.Int64 then
        v <- i64 ;; ret (PBigInt v)
      else if propType =? PropertyType.Uint64 then
        v <- u64 ;; ret (PBigInt v)
      else if propType =? PropertyType.Fixed then
        raw <- fixed16_16 ;; ret (PNumber (number_of_fixed raw))
      else if propType =? PropertyType.Float then
        v <- f32 ;; ret (PNumber v)
      else if propType =? PropertyType.Double then
        v <- f64 ;; ret (PNumber v)
      else if propType =? PropertyType.String then
        s <- string_ ;; ret (PString s)
      else if propType =? PropertyType.Point then
        x <- i32 ;; y <- i32 ;; ret (PPoint x y)
      else if propType =? PropertyType.Size then
        width <- i32 ;; height <- i32 ;; ret (PSize width height)
      else if propType =? PropertyType.Rect then
        x <- i32 ;; y <- i32 ;; width <- i32 ;; height <- i32 ;;
        ret (PRect x y width height)
      else if propType =? PropertyType.Vector then
        elementCount <- u32 ;;
        elementType <- u16 ;;
        elements <- repeat_push (Z.to_nat elementCount)
                                (parsePropertyValue depth' elementType) [] ;;
        ret (PVector elements)
      else if propType =? PropertyType.PropertiesMap then
        mapSize <- u32 ;;
        map <- repeat_set (Z.to_nat mapSize)
                 (key <- string_ ;;
                  valueType <- u16 ;;
                  value <- parsePropertyValue depth' valueType ;;
                  ret (key, value))
                 [] ;;
        ret (PMap map)
      else if propType =? PropertyType.UUID then
        s <- uuid ;; ret (PString s)
      else
        (* Unknown property type - return raw type info *)
        ret (PUnknown propType)
  end.

(** The decimal digits of a non-negative integer, as in a template
    string. *)
Definition decimal (z : Z) : JsString :=
  str (NilZero.string_of_uint (N.to_uint (Z.to_N z))).

(** [parsePropertiesMap] *)
Definition parsePropertiesMap : Parser PropertiesMap :=
  propertiesMapSize <- u32 ;;
  repeat_set (Z.to_nat propertiesMapSize)
    (extensionId <- u32 ;;
     let extensionKey := str "ext_" ++ decimal extensionId in
     propertyCount <- u32 ;;
     properties <- repeat_set (Z.to_nat propertyCount)
                     (propertyName <- string_ ;;
                      propertyType <- u16 ;;
                      propertyValue <- parsePropertyValue maxCallDepth propertyType ;;
                      ret (propertyName, propertyValue))
                     [] ;;
     ret (extensionKey, properties))
    [].

(** [parseUserDataChunk] *)
Definition parseUserDataChunk : Parser UserData :=
  flags <- u32 ;;
  text <-
    (if has_flag flags UserDataFlags.HasText
     then (s <- string_ ;; ret (Some s))
     else ret None) ;;
  color <-
    (if has_flag flags UserDataFlags.HasColor then
       r <- u8 ;;
       g <- u8 ;;
       b <- u8 ;;
       a <- u8 ;;
       ret (Some {| rgba_r := r; rgba_g := g; rgba_b := b; rgba_a := a |})
     else ret None) ;;
  properties <-
    (if has_flag flags UserDataFlags.HasProperties
     then (m <- parsePropertiesMap ;; ret (Some m))
     else ret None) ;;
  ret {| ud_text := text; ud_color := color; ud_properties := properties |}.
End UserDataParser.

(* ================================================================== *)
(** * Parser ([src/parse.ts])

    The parser mutates the objects it has created (a later UserData chunk
    sets [userData] on a layer that already sits in [layers] and in the
    frame's chunk list).  The model keeps these objects in a heap, one
    table per class, and passes references (positions in a table) around;
    the returned file is read off the final heap. *)

Record Heap := {
  heap_layers : list Layer;
  heap_cels : list Cel;
  heap_tags : list Tag;
  heap_slices : list Slice;
  heap_tilesets : list Tileset
}.

Definition emptyHeap : Heap :=
  {| heap_layers := []; heap_cels := []; heap_tags := [];
     heap_slices := []; heap_tilesets := [] |}.

(** [update i f l]: the object at reference [i] is changed by [f]. *)
Fixpoint update {A} (i : nat) (f : A -> A) (l : list A) : list A :=
  match l, i with
  | [], _ => []
  | x :: rest, O => f x :: rest
  | x :: rest, S i' => x :: update i' f rest
  end.

(** [array[index] = value] on a JavaScript array: writing past the end
    extends the array and leaves holes. *)
Definition array_set {A} (l : list (option A)) (index : Z) (value : A)
    : list (option A) :=
  let i := Z.to_nat index in
  if (i <? length l)%nat
  then update i (fun _ => Some value) l
  else l ++ repeat None (i - length l) ++ [Some value].

(** A chunk as the parser holds it: mutable objects by reference. *)
Inductive ChunkRef :=
| RefLayer (layer : nat)
| RefCel (cel : nat)
| RefCelExtra (extra : CelExtra)
| RefPalette (palette : Palette)
| RefOldPalette (type : Z) (packets : list OldPalettePacket)
| RefTags (tags : list nat)
| RefUserData (userData : UserData)
| RefSlice (slice : nat)
| RefTileset (tileset : nat)
| RefColorProfile (profile : ColorProfile)
| RefExternalFiles (files : list ExternalFile)
| RefUnknown (unknown : UnknownChunk).

Definition ref_type (c : ChunkRef) : Z :=
  match c with
  | RefLayer _ => ChunkType.Layer
  | RefCel _ => ChunkType.Cel
  | RefCelExtra _ => ChunkType.CelExtra
  | RefPalette _ => ChunkType.Palette
  | RefOldPalette t _ => t
  | RefTags _ => ChunkType.Tags
  | RefUserData _ => ChunkType.UserData
  | RefSlice _ => ChunkType.Slice
  | RefTileset _ => ChunkType.Tileset
  | RefColorProfile _ => ChunkType.ColorProfile
  | RefExternalFiles _ => ChunkType.ExternalFiles
  | RefUnknown u => unk_type u
  end.

(** [ParseContext] *)
Inductive AttachTarget :=
| TargetLayer (layer : nat)
| TargetCel (cel : nat)
| TargetSlice (slice : nat)
| TargetTileset (tileset : nat)
| TargetSprite.

Inductive Phase := PhaseTileset | PhaseTiles.

Record PendingTileset := {
  pend_tileset : nat;
  pend_phase : Phase;
  pend_tileIndex : Z
}.

Record ParseContext := {
  lastAttachTarget : option AttachTarget;
  pendingTagUserData : option (list nat);
  pendingTagUserDataIndex : Z;
  pendingTilesetUserData : option PendingTileset;
  frameIndex : Z;
  lastCel : option nat
}.

Definition set_layer_userData (ud : UserData) (l : Layer) : Layer :=
  {| layer_flags := layer_flags l; layer_type := layer_type l;
     layer_childLevel := layer_childLevel l;
     layer_defaultWidth := layer_defaultWidth l;
     layer_defaultHeight := layer_defaultHeight l;
     layer_blendMode := layer_blendMode l; layer_opacity := layer_opacity l;
     layer_name := layer_name l; layer_tilesetIndex := layer_tilesetIndex l;
     layer_userData := Some ud |}.

Definition set_cel_userData (ud : UserData) (c : Cel) : Cel :=
  {| cel_layerIndex := cel_layerIndex c; cel_x := cel_x c; cel_y := cel_y c;
     cel_opacity := cel_opacity c; cel_zIndex := cel_zIndex c;
     cel_userData := Some ud; cel_extra := cel_extra c;
     cel_variant := cel_variant c |}.

Definition set_cel_extra (extra : CelExtra) (c : Cel) : Cel :=
  {| cel_layerIndex := cel_layerIndex c; cel_x := cel_x c; cel_y := cel_y c;
     cel_opacity := cel_opacity c; cel_zIndex := cel_zIndex c;
     cel_userData := cel_userData c; cel_extra := Some extra;
     cel_variant := cel_variant c |}.

Definition set_tag_userData (ud : UserData) (t : Tag) : Tag :=
  {| tag_fromFrame := tag_fromFrame t; tag_toFrame := tag_toFrame t;
     tag_direction := tag_direction t; tag_repeat := tag_repeat t;
     tag_color := tag_color t; tag_name := tag_name t;
     tag_userData := Some ud |}.

Definition set_slice_userData (ud : UserData) (s : Slice) : Slice :=
  {| slice_name := slice_name s; slice_flags := slice_flags s;
     slice_keys := slice_keys s; slice_userData := Some ud |}.

Definition set_tileset_userData (ud : option UserData)
    (tud : option (list (option UserData))) (t : Tileset) : Tileset :=
  {| ts_id := ts_id t; ts_flags := ts_flags t; ts_tileCount := ts_tileCount t;
     ts_tileWidth := ts_tileWidth t; ts_tileHeight := ts_tileHeight t;
     ts_baseIndex := ts_baseIndex t; ts_name := ts_name t;
     ts_externalFileId := ts_externalFileId t;
     ts_externalTilesetId := ts_externalTilesetId t;
     ts_compressedData := ts_compressedData t;
     ts_decodedPixels := ts_decodedPixels t;
     ts_userData := ud; ts_tileUserData := tud |}.

Definition with_layers (h : Heap) (ls : list Layer) : Heap :=
  {| heap_layers := ls; heap_cels := heap_cels h; heap_tags := heap_tags h;
     heap_slices := heap_slices h; heap_tilesets := heap_tilesets h |}.
Definition with_cels (h : Heap) (cs : list Cel) : Heap :=
  {| heap_layers := heap_layers h; heap_cels := cs; heap_tags := heap_tags h;
     heap_slices := heap_slices h; heap_tilesets := heap_tilesets h |}.
Definition with_tags (h : Heap) (ts : list Tag) : Heap :=
  {| heap_layers := heap_layers h; heap_cels := heap_cels h; heap_tags := ts;
     heap_slices := heap_slices h; heap_tilesets := heap_tilesets h |}.
Definition with_slices (h : Heap) (ss : list Slice) : Heap :=
  {| heap_layers := heap_layers h; heap_cels := heap_cels h;
     heap_tags := heap_tags h; heap_slices := ss;
     heap_tilesets := heap_tilesets h |}.
Definition with_tilesets (h : Heap) (ts : list Tileset) : Heap :=
  {| heap_layers := heap_layers h; heap_cels := heap_cels h;
     heap_tags := heap_tags h; heap_slices := heap_slices h;
     heap_tilesets := ts |}.

(** The context after a chunk that sets the attachment target and clears
    (or, for Tags and Tileset, sets) the two cursors. *)
Definition retarget (ctx : ParseContext) (target : option AttachTarget)
    (tags : option (list nat)) (tileset : option PendingTileset)
    (cel : option nat) : ParseContext :=
  {| lastAttachTarget := target;
     pendingTagUserData := tags;
     pendingTagUserDataIndex :=
       match tags with Some _ => 0 | None => pendingTagUserDataIndex ctx end;
     pendingTilesetUserData := tileset;
     frameIndex := frameIndex ctx;
     lastCel := cel |}.

(** The attachment block of the UserData case of [parseChunk]. *)
Definition attachUserData (ctx : ParseContext) (heap : Heap) (ud : UserData)
    : ParseContext * Heap :=
  let tagSlot :=
    match pendingTagUserData ctx with
    | Some tags =>
        if pendingTagUserDataIndex ctx <? Z.of_nat (length tags)
        then Some (nth_error tags (Z.to_nat (pendingTagUserDataIndex ctx)))
        else None
    | None => None
    end in
  match tagSlot with
  | Some tag =>
      ({| lastAttachTarget := lastAttachTarget ctx;
          pendingTagUserData := pendingTagUserData ctx;
          pendingTagUserDataIndex := pendingTagUserDataIndex ctx + 1;
          pendingTilesetUserData := pendingTilesetUserData ctx;
          frameIndex := frameIndex ctx;
          lastCel := lastCel ctx |},
       match tag with
       | Some t => with_tags heap (update t (set_tag_userData ud) (heap_tags heap))
       | None => heap
       end)
  | None =>
      match pendingTilesetUserData ctx with
      | Some pend =>
          match pend_phase pend with
          | PhaseTileset =>
              ({| lastAttachTarget := lastAttachTarget ctx;
                  pendingTagUserData := pendingTagUserData ctx;
                  pendingTagUserDataIndex := pendingTagUserDataIndex ctx;
                  pendingTilesetUserData :=
                    Some {| pend_tileset := pend_tileset pend;
                            pend_phase := PhaseTiles;
                            pend_tileIndex := 0 |};
                  frameIndex := frameIndex ctx;
                  lastCel := lastCel ctx |},
               with_tilesets heap
                 (update (pend_tileset pend)
                    (fun t => set_tileset_userData (Some ud) (ts_tileUserData t) t)
                    (heap_tilesets heap)))
          | PhaseTiles =>
              ({| lastAttachTarget := lastAttachTarget ctx;
                  pendingTagUserData := pendingTagUserData ctx;
                  pendingTagUserDataIndex := pendingTagUserDataIndex ctx;
                  pendingTilesetUserData :=
                    Some {| pend_tileset := pend_tileset pend;
                            pend_phase := PhaseTiles;
                            pend_tileIndex := pend_tileIndex pend + 1 |};
                  frameIndex := frameIndex ctx;
                  lastCel := lastCel ctx |},
               with_tilesets heap
                 (update (pend_tileset pend)
                    (fun t =>
                       let tileUserData :=
                         match ts_tileUserData t with
                         | Some l => l
                         | None => []
                         end in
                       set_tileset_userData (ts_userData t)
                         (Some (array_set tileUserData (pend_tileIndex pend) ud)) t)
                    (heap_tilesets heap)))
          end
      | None =>
          match lastAttachTarget ctx with
          | Some (TargetLayer l) =>
              (ctx, with_layers heap
                      (update l (set_layer_userData ud) (heap_layers heap)))
          | Some (TargetCel c) =>
              (ctx, with_cels heap
                      (update c (set_cel_userData ud) (heap_cels heap)))
          | Some (TargetSlice s) =>
              (ctx, with_slices heap
                      (update s (set_slice_userData ud) (heap_slices heap)))
          | Some (TargetTileset t) =>
              (ctx, with_tilesets heap
                      (update t (fun x => set_tileset_userData (Some ud)
                                            (ts_tileUserData x) x)
                              (heap_tilesets heap)))
          | Some TargetSprite =>
              (* Will be handled at file level *)
              (ctx, heap)
          | None => (ctx, heap)
          end
      end
  end.

Section Parse.
Context {rt : JsRuntime}.

(** [parseHeader] *)
Definition parseHeader (strict : bool) : Parser AseHeader :=
  fileSize <- u32 ;;
  magic <- u16 ;;
  if strict && negb (magic =? ASE_FILE_MAGIC)
  then throw (AseFormatError BAD_MAGIC)
  else
    frameCount <- u16 ;;
    width <- u16 ;;
    height <- u16 ;;
    colorDepth <- u16 ;;
    if strict && negb (existsb (Z.eqb colorDepth) [8; 16; 32])
    then throw (AseFormatError UNSUPPORTED_COLOR_DEPTH)
    else
      flags <- u32 ;;
      speed <- u16 ;;
      skip 4 ;;
      skip 4 ;;
      transparentIndex <- u8 ;;
      skip 3 ;;
      colorCount <- u16 ;;
      pixelWidth <- u8 ;;
      pixelHeight <- u8 ;;
      gridX <- i16 ;;
      gridY <- i16 ;;
      gridWidth <- u16 ;;
      gridHeight <- u16 ;;
      skip 84 ;;
      ret {| hdr_fileSize := fileSize; hdr_magic := magic;
             hdr_frameCount := frameCount; hdr_width := width;
             hdr_height := height; hdr_colorDepth := colorDepth;
             hdr_flags := flags; hdr_speed := speed;
             hdr_transparentIndex := transparentIndex;
             hdr_colorCount := colorCount; hdr_pixelWidth := pixelWidth;
             hdr_pixelHeight := pixelHeight; hdr_gridX := gridX;
             hdr_gridY := gridY; hdr_gridWidth := gridWidth;
             hdr_gridHeight := gridHeight |}.

(** [parseChunk]: the parsed chunk, and the context and the heap as the
    call leaves them. *)
Definition parseChunk (chunkType chunkEndOffset : Z)
    (ctx : ParseContext) (heap : Heap)
    : Parser (ChunkRef * ParseContext * Heap) :=
  if chunkType =? ChunkType.Layer then
    layer <- parseLayerChunk ;;
    let ref := length (heap_layers heap) in
    ret (RefLayer ref,
         retarget ctx (Some (TargetLayer ref)) None None (lastCel ctx),
         with_layers heap (heap_layers heap ++ [layer]))
  else if chunkType =? ChunkType.Cel then
    cel <- parseCelChunk chunkEndOffset ;;
    let ref := length (heap_cels heap) in
    ret (RefCel ref,
         retarget ctx (Some (TargetCel ref)) None None (Some ref),
         with_cels heap (heap_cels heap ++ [cel]))
  else if chunkType =? ChunkType.CelExtra then
    extra <- parseCelExtraChunk ;;
    ret (RefCelExtra extra, ctx,
         match lastCel ctx with
         | Some c => with_cels heap (update c (set_cel_extra extra) (heap_cels heap))
         | None => heap
         end)
  else if chunkType =? ChunkType.Palette then
    palette <- parsePaletteChunk ;;
    ret (RefPalette palette, retarget ctx None None None (lastCel ctx), heap)
  else if (chunkType =? ChunkType.OldPalette1)
          || (chunkType =? ChunkType.OldPalette2) then
    packets <- parseOldPaletteChunk ;;
    ret (RefOldPalette chunkType packets,
         retarget ctx None None None (lastCel ctx), heap)
  else if chunkType =? ChunkType.Tags then
    tags <- parseTagsChunk ;;
    let refs := seq (length (heap_tags heap)) (length tags) in
    ret (RefTags refs,
         retarget ctx None (Some refs) None (lastCel ctx),
         with_tags heap (heap_tags heap ++ tags))
  else if chunkType =? ChunkType.UserData then
    userData <- parseUserDataChunk ;;
    let '(ctx', heap') := attachUserData ctx heap userData in
    ret (RefUserData userData, ctx', heap')
  else if chunkType =? ChunkType.Slice then
    slice <- parseSliceChunk ;;
    let ref := length (heap_slices heap) in
    ret (RefSlice ref,
         retarget ctx (Some (TargetSlice ref)) None None (lastCel ctx),
         with_slices heap (heap_slices heap ++ [slice]))
  else if chunkType =? ChunkType.Tileset then
    tileset <- parseTilesetChunk ;;
    let ref := length (heap_tilesets heap) in
    ret (RefTileset ref,
         retarget ctx (Some (TargetTileset ref)) None
           (Some {| pend_tileset := ref; pend_phase := PhaseTileset;
                    pend_tileIndex := 0 |})
           (lastCel ctx),
         with_tilesets heap (heap_tilesets heap ++ [tileset]))
  else if chunkType =? ChunkType.ColorProfile then
    profile <- parseColorProfileChunk ;;
    ret (RefColorProfile profile, retarget ctx None None None (lastCel ctx), heap)
  else if chunkType =? ChunkType.ExternalFiles then
    files <- parseExternalFilesChunk ;;
    ret (RefExternalFiles files, retarget ctx None None None (lastCel ctx), heap)
  else
    (* Unknown chunk - preserve raw data *)
    offset <- get_offset ;;
    let dataLength := chunkEndOffset - offset in
    rawData <- bytes dataLength ;;
    ret (RefUnknown {| unk_type := chunkType; unk_rawData := rawData |},
         ctx, heap).

(** [convertOldPalette] *)
Definition convertOldPalette_colors (colors : list RGB)
    (st : list (option PaletteEntry) * Z) : list (option PaletteEntry) * Z :=
  fold_left
    (fun st color =>
       (array_set (fst st) (snd st)
          {| pe_r := rgb_r color; pe_g := rgb_g color; pe_b := rgb_b color;
             pe_a := 255; pe_name := None |},
        snd st + 1))
    colors st.

Definition convertOldPalette_packets (packets : list OldPalettePacket)
    (st : list (option PaletteEntry) * Z) : list (option PaletteEntry) * Z :=
  fold_left
    (fun st packet =>
       convertOldPalette_colors (pkt_colors packet)
         (fst st, snd st + pkt_skipCount packet))
    packets st.

Definition convertOldPalette (oldChunks : list (Z * list OldPalettePacket))
    : option Palette :=
  if Z.of_nat (length oldChunks) =? 0 then None
  else
    let '(entries, _) :=
      fold_left (fun st chunk => convertOldPalette_packets (snd chunk) st)
                oldChunks ([], 0) in
    Some {| pal_size := Z.of_nat (length entries);
            pal_firstIndex := 0;
            pal_lastIndex := Z.of_nat (length entries) - 1;
            pal_entries := entries |}.

(** The local variables of [parseAseprite] that collect parsed data. *)
Record FrameAcc := {
  fa_durationMs : Z;
  fa_cels : list nat;
  fa_chunks : option (list ChunkRef)
}.

Record Accum := {
  acc_frames : list FrameAcc;
  acc_layers : list nat;
  acc_tags : list nat;
  acc_slices : list nat;
  acc_tilesets : list nat;
  acc_unknownChunks : list UnknownChunk;
  acc_oldPaletteChunks : list (Z * list OldPalettePacket);
  acc_palette : option Palette;
  acc_colorProfile : option ColorProfile;
  acc_externalFiles : option (list ExternalFile);
  acc_spriteUserData : option UserData
}.

Definition emptyAccum : Accum :=
  {| acc_frames := []; acc_layers := []; acc_tags := []; acc_slices := [];
     acc_tilesets := []; acc_unknownChunks := []; acc_oldPaletteChunks := [];
     acc_palette := None; acc_colorProfile := None;
     acc_externalFiles := None; acc_spriteUserData := None |}.

(** "Collect parsed data": the chain of tests on [chunk.type] that follows
    the call of [parseChunk].  [cels] is the frame's cel array. *)
Definition collect (frameIdx : Z) (ctx : ParseContext) (chunk : ChunkRef)
    (acc : Accum) (cels : list nat) : Accum * list nat :=
  let acc_with layers tags slices tilesets unknownChunks oldPaletteChunks
               palette colorProfile externalFiles spriteUserData :=
    {| acc_frames := acc_frames acc; acc_layers := layers; acc_tags := tags;
       acc_slices := slices; acc_tilesets := tilesets;
       acc_unknownChunks := unknownChunks;
       acc_oldPaletteChunks := oldPaletteChunks;
       acc_palette := palette; acc_colorProfile := colorProfile;
       acc_externalFiles := externalFiles;
       acc_spriteUserData := spriteUserData |} in
  let same f :=
    f (acc_layers acc) (acc_tags acc) (acc_slices acc) (acc_tilesets acc)
      (acc_unknownChunks acc) (acc_oldPaletteChunks acc) (acc_palette acc)
      (acc_colorProfile acc) (acc_externalFiles acc) (acc_spriteUserData acc) in
  match chunk with
  | RefLayer layer =>
      (same (fun l t s ts u o p c e sp => acc_with (l ++ [layer]) t s ts u o p c e sp),
       cels)
  | RefCel cel => (acc, cels ++ [cel])
  | RefPalette palette =>
      (same (fun l t s ts u o p c e sp => acc_with l t s ts u o (Some palette) c e sp),
       cels)
  | RefOldPalette type packets =>
      (same (fun l t s ts u o p c e sp =>
               acc_with l t s ts u (o ++ [(type, packets)]) p c e sp),
       cels)
  | RefTags tags =>
      (same (fun l t s ts u o p c e sp => acc_with l (t ++ tags) s ts u o p c e sp),
       cels)
  | RefSlice slice =>
      (same (fun l t s ts u o p c e sp => acc_with l t (s ++ [slice]) ts u o p c e sp),
       cels)
  | RefTileset tileset =>
      (same (fun l t s ts u o p c e sp => acc_with l t s (ts ++ [tileset]) u o p c e sp),
       cels)
  | RefColorProfile profile =>
      (same (fun l t s ts u o p c e sp => acc_with l t s ts u o p (Some profile) e sp),
       cels)
  | RefExternalFiles files =>
      (same (fun l t s ts u o p c e sp => acc_with l t s ts u o p c (Some files) sp),
       cels)
  | RefUserData userData =>
      (* Check if this is sprite-level user data (first frame, before any
         other attachable object) *)
      if (frameIdx =? 0)
         && match lastAttachTarget ctx with
            | Some TargetSprite => true
            | _ => false
            end
      then (same (fun l t s ts u o p c e sp =>
                    acc_with l t s ts u o p c e (Some userData)),
            cels)
      else (acc, cels)
  | RefCelExtra _ =>
      (* no test matches; CelExtra is one of [Object.values(ChunkType)] *)
      (acc, cels)
  | RefUnknown unknown =>
      if negb (existsb (Z.eqb (unk_type unknown)) ChunkType.values)
      then (same (fun l t s ts u o p c e sp =>
                    acc_with l t s ts (u ++ [unknown]) o p c e sp),
            cels)
      else (acc, cels)
  end.

(** "Determine actual chunk count" *)
Definition chunkCountOf (oldChunkCount newChunkCount : Z) : Z :=
  if newChunkCount =? 0 then oldChunkCount
  else if oldChunkCount =? 0xffff then newChunkCount
  else oldChunkCount.

(** The state of the chunk loop of one frame. *)
Record LoopState := {
  ls_ctx : ParseContext;
  ls_heap : Heap;
  ls_acc : Accum;
  ls_cels : list nat;
  ls_chunks : list ChunkRef
}.

(** One turn of the chunk loop. *)
Definition parseOneChunk (options : ParseOptions) (frameIdx : Z)
    (st : LoopState) : Parser LoopState :=
  chunkStartOffset <- get_offset ;;
  chunkSize <- u32 ;;
  chunkType <- u16 ;;
  let chunkEndOffset := chunkStartOffset + chunkSize in
  fun r =>
    if strict options && (chunkEndOffset >? rd_length r)
    then Throw (AseFormatError BAD_CHUNK_SIZE)
    else
      (parsed <- parseChunk chunkType chunkEndOffset (ls_ctx st) (ls_heap st) ;;
       let '(chunk, ctx, heap) := parsed in
       let '(acc, cels) := collect frameIdx ctx chunk (ls_acc st) (ls_cels st) in
       let chunks := if preserveChunks options
                     then ls_chunks st ++ [chunk] else ls_chunks st in
       seek chunkEndOffset ;;
       ret {| ls_ctx := ctx; ls_heap := heap; ls_acc := acc;
              ls_cels := cels; ls_chunks := chunks |}) r.

(** [for (let chunkIdx = 0; chunkIdx < chunkCount; chunkIdx++)] *)
Fixpoint chunkLoop (options : ParseOptions) (frameIdx : Z) (chunkCount : nat)
    (st : LoopState) : Parser LoopState :=
  match chunkCount with
  | O => ret st
  | S n =>
      st' <- parseOneChunk options frameIdx st ;;
      chunkLoop options frameIdx n st'
  end.

(** The frame header as [parseAseprite] reads it: the frame size, the
    duration and the chunk count it settles on. *)
Definition parseFrameHeader (options : ParseOptions)
    : Parser (Z * Z * Z) :=
  frameSize <- u32 ;;
  frameMagic <- u16 ;;
  if strict options && negb (frameMagic =? ASE_FRAME_MAGIC)
  then throw (AseFormatError BAD_MAGIC)
  else
    oldChunkCount <- u16 ;;
    durationMs <- u16 ;;
    skip 2 ;;
    newChunkCount <- u32 ;;
    ret (frameSize, durationMs, chunkCountOf oldChunkCount newChunkCount).

(** One turn of the frame loop. *)
Definition parseFrame (options : ParseOptions) (header : AseHeader)
    (frameIdx : Z) (ctx : ParseContext) (heap : Heap) (acc : Accum)
    : Parser (ParseContext * Heap * Accum) :=
  let ctx := {| lastAttachTarget := lastAttachTarget ctx;
                pendingTagUserData := pendingTagUserData ctx;
                pendingTagUserDataIndex := pendingTagUserDataIndex ctx;
                pendingTilesetUserData := pendingTilesetUserData ctx;
                frameIndex := frameIdx;
                lastCel := None |} in
  frameStartOffset <- get_offset ;;
  fh <- parseFrameHeader options ;;
  let '(frameSize, durationMs, chunkCount) := fh in
  let durationMs := if durationMs =? 0 then hdr_speed header else durationMs in
  st <- chunkLoop options frameIdx (Z.to_nat chunkCount)
          {| ls_ctx := ctx; ls_heap := heap; ls_acc := acc;
             ls_cels := []; ls_chunks := [] |} ;;
  let frame := {| fa_durationMs := durationMs;
                  fa_cels := ls_cels st;
                  fa_chunks := if preserveChunks options
                               then Some (ls_chunks st) else None |} in
  let acc := ls_acc st in
  let acc := {| acc_frames := acc_frames acc ++ [frame];
                acc_layers := acc_layers acc; acc_tags := acc_tags acc;
                acc_slices := acc_slices acc; acc_tilesets := acc_tilesets acc;
                acc_unknownChunks := acc_unknownChunks acc;
                acc_oldPaletteChunks := acc_oldPaletteChunks acc;
                acc_palette := acc_palette acc;
                acc_colorProfile := acc_colorProfile acc;
                acc_externalFiles := acc_externalFiles acc;
                acc_spriteUserData := acc_spriteUserData acc |} in
  seek (frameStartOffset + frameSize) ;;
  ret (ls_ctx st, ls_heap st, acc).

(** [for (let frameIdx = 0; frameIdx < header.frameCount; frameIdx++)] *)
Fixpoint frameLoop (options : ParseOptions) (header : AseHeader)
    (count : nat) (frameIdx : Z) (ctx : ParseContext) (heap : Heap)
    (acc : Accum) : Parser (ParseContext * Heap * Accum) :=
  match count with
  | O => ret (ctx, heap, acc)
  | S n =>
      st <- parseFrame options header frameIdx ctx heap acc ;;
      let '(ctx', heap', acc') := st in
      frameLoop options header n (frameIdx + 1) ctx' heap' acc'
  end.

(** Reading the objects behind references off the heap. *)
Definition deref {A} (table : list A) (refs : list nat) : list A :=
  flat_map (fun r => match nth_error table r with
                     | Some x => [x]
                     | None => []
                     end) refs.

Definition known (body : ChunkBody) : Chunk :=
  {| chunk_rawData := None; chunk_body := body |}.

Definition deref_chunk (heap : Heap) (c : ChunkRef) : list Chunk :=
  match c with
  | RefLayer l => map (fun x => known (LayerChunk x)) (deref (heap_layers heap) [l])
  | RefCel c => map (fun x => known (CelChunk x)) (deref (heap_cels heap) [c])
  | RefCelExtra extra => [known (CelExtraChunk extra)]
  | RefPalette palette => [known (PaletteChunk palette)]
  | RefOldPalette type packets => [known (OldPaletteChunk type packets)]
  | RefTags tags => [known (TagsChunk (deref (heap_tags heap) tags))]
  | RefUserData userData => [known (UserDataChunk userData)]
  | RefSlice s => map (fun x => known (SliceChunk x)) (deref (heap_slices heap) [s])
  | RefTileset t =>
      map (fun x => known (TilesetChunk x)) (deref (heap_tilesets heap) [t])
  | RefColorProfile profile => [known (ColorProfileChunk profile)]
  | RefExternalFiles files => [known (ExternalFilesChunk files)]
  | RefUnknown u =>
      [{| chunk_rawData := Some (unk_rawData u);
          chunk_body := OtherChunk (unk_type u) |}]
  end.

Definition deref_frame (heap : Heap) (f : FrameAcc) : Frame :=
  {| frame_durationMs := fa_durationMs f;
     frame_cels := deref (heap_cels heap) (fa_cels f);
     frame_chunks :=
       match fa_chunks f with
       | Some chunks => Some (flat_map (deref_chunk heap) chunks)
       | None => None
       end |}.

(** [if (xs.length > 0) result.xs = xs] *)
Definition nonempty {A} (l : list A) : option (list A) :=
  if Z.of_nat (length l) >? 0 then Some l else None.

(** [parseAseprite]; [options] is the record after the defaults have been
    merged in. *)
Definition parseAseprite (data : Bytes) (options : ParseOptions)
    : Result AsepriteFile :=
  let reader := {| rd_data := data; rd_offset := 0 |} in
  match
    (header <- parseHeader (strict options) ;;
     let ctx := {| lastAttachTarget := None;
                   pendingTagUserData := None;
                   pendingTagUserDataIndex := 0;
                   pendingTilesetUserData := None;
                   frameIndex := 0;
                   lastCel := None |} in
     st <- frameLoop options header (Z.to_nat (hdr_frameCount header)) 0
             ctx emptyHeap emptyAccum ;;
     ret (header, st)) reader
  with
  | Throw e => Throw e
  | Ok ((header, (_, heap, acc)), _) =>
      let palette :=
        match acc_palette acc with
        | Some p => Some p
        | None =>
            if Z.of_nat (length (acc_oldPaletteChunks acc)) >? 0
            then convertOldPalette (acc_oldPaletteChunks acc)
            else None
        end in
      Ok {| file_header := header;
            file_frames := map (deref_frame heap) (acc_frames acc);
            file_layers := deref (heap_layers heap) (acc_layers acc);
            file_tags := nonempty (deref (heap_tags heap) (acc_tags acc));
            file_slices := nonempty (deref (heap_slices heap) (acc_slices acc));
            file_palette := palette;
            file_tilesets :=
              nonempty (deref (heap_tilesets heap) (acc_tilesets acc));
            file_colorProfile := acc_colorProfile acc;
            file_externalFiles := acc_externalFiles acc;
            file_userData := acc_spriteUserData acc;
            file_unknownChunks := nonempty (acc_unknownChunks acc) |}
  end.
End Parse.

(* ================================================================== *)
(** * BinaryWriter ([src/binary/writer.ts])

    The encoders only append, so a writer is the bytes written so far.
    [DataView] setters store their argument modulo the width of the
    field. *)

(** The [size] little-endian bytes of [z mod 2^(8*size)]. *)
Fixpoint le_bytes (size : nat) (z : Z) : Bytes :=
  match size with
  | O => []
  | S size' => byte_of_Z z :: le_bytes size' (z / 256)
  end.

Definition w_u8 (w : Bytes) (value : Z) : Bytes := w ++ le_bytes 1 value.
Definition w_u16 (w : Bytes) (value : Z) : Bytes := w ++ le_bytes 2 value.
Definition w_i16 (w : Bytes) (value : Z) : Bytes := w ++ le_bytes 2 value.
Definition w_u32 (w : Bytes) (value : Z) : Bytes := w ++ le_bytes 4 value.
Definition w_i32 (w : Bytes) (value : Z) : Bytes := w ++ le_bytes 4 value.
Definition w_u64 (w : Bytes) (value : Z) : Bytes := w ++ le_bytes 8 value.
Definition w_i64 (w : Bytes) (value : Z) : Bytes := w ++ le_bytes 8 value.

(** [fixed16_16(value)] for a value carried by its numerator:
    [Math.round(raw / 65536 * 65536)] is [raw]. *)
Definition w_fixed16_16 (w : Bytes) (raw : Z) : Bytes := w ++ le_bytes 4 raw.

Definition w_bytes (w : Bytes) (data : Bytes) : Bytes := w ++ data.

Definition w_zeros (w : Bytes) (count : nat) : Bytes := w ++ repeat x00 count.

Section Writer.
Context {rt : JsRuntime}.

(** [string(value)] *)
Definition w_string (w : Bytes) (value : JsString) : Result Bytes :=
  let encoded := utf8_encode value in
  if Z.of_nat (length encoded) >? 0xFFFF
  then Throw (Error WriterStringTooLong)
  else Ok (w_bytes (w_u16 w (Z.of_nat (length encoded))) encoded).

(** A [Uint8Array] element assigned the result of [parseInt]: [NaN]
    becomes 0. *)
Definition uint8_of_parsed (v : option Z) : byte :=
  match v with
  | Some z => byte_of_Z z
  | None => x00
  end.

(** [uuid(value)] *)
Definition w_uuid (w : Bytes) (value : JsString) : Result Bytes :=
  let hex := filter (fun c => negb (c =? 45)) value in
  if negb (Z.of_nat (length hex) =? 32)
  then Throw (Error WriterInvalidUuid)
  else
    Ok (w_bytes w
          (map (fun i => uint8_of_parsed
                           (js_parseInt (str_slice hex (i * 2) (i * 2 + 2)) 16))
               (seq 0 16))).
End Writer.

(* ================================================================== *)
(** * Chunk encoders ([src/chunks/encode.ts]) *)

(** The injected compression capability; a rejected promise is a
    [Throw]. *)
Record CompressionProvider := {
  inflateZlib : Bytes -> Result Bytes;
  deflateZlib : Bytes -> Result Bytes
}.

Open Scope result_scope.

Section ChunkEncoders.
Context {rt : JsRuntime}.

(** [encodeLayerChunk] *)
Definition encodeLayerChunk (layer : Layer) : Result Bytes :=
  let w := [] in
  let w := w_u16 w (layer_flags layer) in
  let w := w_u16 w (layer_type layer) in
  let w := w_u16 w (layer_childLevel layer) in
  let w := w_u16 w (layer_defaultWidth layer) in
  let w := w_u16 w (layer_defaultHeight layer) in
  let w := w_u16 w (layer_blendMode layer) in
  let w := w_u8 w (layer_opacity layer) in
  let w := w_zeros w 3 in
  w <-- w_string w (layer_name layer) ;;;
  Ok (match layer_tilesetIndex layer with
      | Some tilesetIndex =>
          if layer_type layer =? LayerType.Tilemap
          then w_u32 w tilesetIndex else w
      | None => w
      end).

(** The tile array of a tilemap cel, serialised as [encodeCelChunk] does
    before deflating it. *)
Definition serializeTiles (bitsPerTile : Z) (decodedTiles : list Z) : Bytes :=
  if bitsPerTile =? 8 then flat_map (le_bytes 1) decodedTiles
  else if bitsPerTile =? 16 then flat_map (le_bytes 2) decodedTiles
  else if bitsPerTile =? 32 then flat_map (le_bytes 4) decodedTiles
  else repeat x00 (Z.to_nat (Z.of_nat (length decodedTiles) * bitsPerTile / 8)).

(** [encodeCelChunk] *)
Definition encodeCelChunk (cel : Cel) (compression : CompressionProvider)
    : Result Bytes :=
  let w := [] in
  let w := w_u16 w (cel_layerIndex cel) in
  let w := w_i16 w (cel_x cel) in
  let w := w_i16 w (cel_y cel) in
  let w := w_u8 w (cel_opacity cel) in
  let w := w_u16 w (cel_type cel) in
  let w := w_i16 w (cel_zIndex cel) in
  let w := w_zeros w 5 in
  match cel_variant cel with
  | RawImageCel width height data =>
      let w := w_u16 w width in
      let w := w_u16 w height in
      Ok (w_bytes w (cid_bytes data))
  | LinkedCel linkedFrameIndex =>
      Ok (w_u16 w linkedFrameIndex)
  | CompressedImageCel width height data =>
      let w := w_u16 w width in
      let w := w_u16 w height in
      match cid_kind data, cid_decoded data with
      | KindZlib, _ => Ok (w_bytes w (cid_bytes data))
      | KindRaw, Some decoded =>
          compressed <-- deflateZlib compression decoded ;;;
          Ok (w_bytes w compressed)
      | KindRaw, None =>
          compressed <-- deflateZlib compression (cid_bytes data) ;;;
          Ok (w_bytes w compressed)
      end
  | CompressedTilemapCel width height bitsPerTile masks data decodedTiles =>
      let w := w_u16 w width in
      let w := w_u16 w height in
      let w := w_u16 w bitsPerTile in
      let w := w_u32 w (tileIdMask masks) in
      let w := w_u32 w (xFlipMask masks) in
      let w := w_u32 w (yFlipMask masks) in
      let w := w_u32 w (rotationMask masks) in
      let w := w_zeros w 10 in
      match cid_kind data, decodedTiles with
      | KindZlib, _ => Ok (w_bytes w (cid_bytes data))
      | KindRaw, Some tiles =>
          if bitsPerTile <? 0 then Throw RuntimeError
          else
            compressed <-- deflateZlib compression
                             (serializeTiles bitsPerTile tiles) ;;;
            Ok (w_bytes w compressed)
      | KindRaw, None => Ok w
      end
  end.

(** [encodeCelExtraChunk] *)
Definition encodeCelExtraChunk (extra : CelExtra) : Bytes :=
  let w := [] in
  let w := w_u32 w (extra_flags extra) in
  let w := w_fixed16_16 w (extra_preciseX extra) in
  let w := w_fixed16_16 w (extra_preciseY extra) in
  let w := w_fixed16_16 w (extra_celWidth extra) in
  let w := w_fixed16_16 w (extra_celHeight extra) in
  w.

(** [encodePaletteChunk]; iterating over a hole of a sparse array yields
    [undefined], whose [name] cannot be read. *)
Fixpoint encodePaletteEntries (w : Bytes) (entries : list (option PaletteEntry))
    : Result Bytes :=
  match entries with
  | [] => Ok w
  | None :: _ => Throw RuntimeError
  | Some entry :: rest =>
      let hasName :=
        match pe_name entry with
        | Some name => Z.of_nat (length name) >? 0
        | None => false
        end in
      let w := w_u16 w (if hasName then 1 else 0) in
      let w := w_u8 w (pe_r entry) in
      let w := w_u8 w (pe_g entry) in
      let w := w_u8 w (pe_b entry) in
      let w := w_u8 w (pe_a entry) in
      w <-- (match pe_name entry with
             | Some name => if hasName then w_string w name else Ok w
             | None => Ok w
             end) ;;;
      encodePaletteEntries w rest
  end.

Definition encodePaletteChunk (palette : Palette) : Result Bytes :=
  let w := [] in
  let w := w_u32 w (pal_size palette) in
  let w := w_u32 w (pal_firstIndex palette) in
  let w := w_u32 w (pal_lastIndex palette) in
  let w := w_zeros w 8 in
  encodePaletteEntries w (pal_entries palette).

(** [encodeTagsChunk] *)
Fixpoint encodeTags (w : Bytes) (tags : list Tag) : Result Bytes :=
  match tags with
  | [] => Ok w
  | tag :: rest =>
      let w := w_u16 w (tag_fromFrame tag) in
      let w := w_u16 w (tag_toFrame tag) in
      let w := w_u8 w (tag_direction tag) in
      let w := w_u16 w (tag_repeat tag) in
      let w := w_zeros w 6 in
      let w := w_u8 w (rgb_r (tag_color tag)) in
      let w := w_u8 w (rgb_g (tag_color tag)) in
      let w := w_u8 w (rgb_b (tag_color tag)) in
      let w := w_u8 w 0 in
      w <-- w_string w (tag_name tag) ;;;
      encodeTags w rest
  end.

Definition encodeTagsChunk (tags : list Tag) : Result Bytes :=
  let w := [] in
  let w := w_u16 w (Z.of_nat (length tags)) in
  let w := w_zeros w 8 in
  encodeTags w tags.
End ChunkEncoders.

(** [for (const x of xs) body(writer, x)], where [body] may throw. *)
Section ForOf.
Context {A : Type}.
Variable body : Bytes -> A -> Result Bytes.

Fixpoint for_of (xs : list A) (w : Bytes) : Result Bytes :=
  match xs with
  | [] => Ok w
  | x :: rest => w <-- body w x ;;; for_of rest w
  end.
End ForOf.

Section UserDataEncoder.
Context {rt : JsRuntime}.

(** [String.prototype.includes("-")] *)
Definition includes_dash (s : JsString) : bool := existsb (Z.eqb 45) s.

(** [getPropertyType] *)
Definition getPropertyType (value : PropertyValue) : Z :=
  match value with
  | PNull => PropertyType.Null
  | PBool _ => PropertyType.Bool
  | PBigInt z =>
      if z >=? 0 then PropertyType.Uint64 else PropertyType.Int64
  | PNumber (NInt z) =>
      if z >=? 0 then
        if z <=? 255 then PropertyType.Uint8
        else if z <=? 65535 then PropertyType.Uint16
        else PropertyType.Uint32
      else
        if z >=? -128 then PropertyType.Int8
        else if z >=? -32768 then PropertyType.Int16
        else PropertyType.Int32
  | PNumber (NDouble _) => PropertyType.Double
  | PString s =>
      if (Z.of_nat (length s) =? 36) && includes_dash s
      then PropertyType.UUID
      else PropertyType.String
  | PVector _ => PropertyType.Vector
  | PMap _ => PropertyType.PropertiesMap
  | PRect _ _ _ _ => PropertyType.Rect
  | PSize _ _ => PropertyType.Size
  | PPoint _ _ => PropertyType.Point
  | PUnknown _ => PropertyType.Null
  end.

(** A binary64 pattern is a NaN. *)
Definition is_nan_bits (bits : Z) : bool :=
  ((bits / 2 ^ 52) mod 2 ^ 11 =? 2047) && negb (bits mod 2 ^ 52 =? 0).

(** [value ? 1 : 0] *)
Definition truthy (value : PropertyValue) : bool :=
  match value with
  | PNull => false
  | PBool b => b
  | PNumber (NInt z) => negb (z =? 0)
  | PNumber (NDouble bits) => negb (is_nan_bits bits)
  | PBigInt z => negb (z =? 0)
  | PString s => negb (Z.of_nat (length s) =? 0)
  | _ => true
  end.

(** [p.x], [p.y], [p.width], [p.height] of a value cast to a point, a
    size or a rectangle: a missing property is [undefined], which a
    [DataView] setter stores as 0; reading a property of [null] throws. *)
Definition prop_x (value : PropertyValue) : Z :=
  match value with PPoint x _ | PRect x _ _ _ => x | _ => 0 end.
Definition prop_y (value : PropertyValue) : Z :=
  match value with PPoint _ y | PRect _ y _ _ => y | _ => 0 end.
Definition prop_width (value : PropertyValue) : Z :=
  match value with PSize w _ | PRect _ _ w _ => w | _ => 0 end.
Definition prop_height (value : PropertyValue) : Z :=
  match value with PSize _ h | PRect _ _ _ h => h | _ => 0 end.
Definition is_null (value : PropertyValue) : bool :=
  match value with PNull => true | _ => false end.

(** [encodePropertyValue].  The function casts [value] to the type that
    [propType] names without checking it; where the value is of another
    kind the result is what the runtime's implicit conversions make of it
    ([encode_mistyped]). *)
Fixpoint encodePropertyValue (w : Bytes) (value : PropertyValue) (propType : Z)
    {struct value} : Result Bytes :=
  let mistyped :=
    match encode_mistyped w value propType with
    | Some w' => Ok w'
    | None => Throw RuntimeError
    end in
  if propType =? PropertyType.Null then Ok w
  else if propType =? PropertyType.Bool then
    Ok (w_u8 w (if truthy value then 1 else 0))
  else if propType =? PropertyType.Int8 then
    match value with
    | PNumber (NInt z) => Ok (w_u8 w (z + 128))
    | _ => mistyped
    end
  else if propType =? PropertyType.Uint8 then
    match value with PNumber (NInt z) => Ok (w_u8 w z) | _ => mistyped end
  else if propType =? PropertyType.Int16 then
    match value with PNumber (NInt z) => Ok (w_i16 w z) | _ => mistyped end
  else if propType =? PropertyType.Uint16 then
    match value with PNumber (NInt z) => Ok (w_u16 w z) | _ => mistyped end
  else if propType =? PropertyType.Int32 then
    match value with PNumber (NInt z) => Ok (w_i32 w z) | _ => mistyped end
  else if propType =? PropertyType.Uint32 then
    match value with PNumber (NInt z) => Ok (w_u32 w z) | _ => mistyped end
  else if propType =? PropertyType.Int64 then
    match value with PBigInt z => Ok (w_i64 w z) | _ => mistyped end
  else if propType =? PropertyType.Uint64 then
    match value with PBigInt z => Ok (w_u64 w z) | _ => mistyped end
  else if propType =? PropertyType.Fixed then
    match value with
    | PNumber n => Ok (w_i32 w (fixed_raw_of_number n))
    | _ => mistyped
    end
  else if propType =? PropertyType.Float then
    match value with
    | PNumber n => Ok (w_u32 w (f32_bits_of_number n))
    | _ => mistyped
    end
  else if propType =? PropertyType.Double then
    match value with
    | PNumber (NInt z) => Ok (w_u64 w (f64_bits_of_int z))
    | PNumber (NDouble bits) => Ok (w_u64 w bits)
    | _ => mistyped
    end
  else if propType =? PropertyType.String then
    match value with PString s => w_string w s | _ => mistyped end
  else if propType =? PropertyType.Point then
    if is_null value then Throw RuntimeError
    else Ok (w_i32 (w_i32 w (prop_x value)) (prop_y value))
  else if propType =? PropertyType.Size then
    if is_null value then Throw RuntimeError
    else Ok (w_i32 (w_i32 w (prop_width value)) (prop_height value))
  else if propType =? PropertyType.Rect then
    if is_null value then Throw RuntimeError
    else Ok (w_i32 (w_i32 (w_i32 (w_i32 w (prop_x value)) (prop_y value))
                          (prop_width value)) (prop_height value))
  else if propType =? PropertyType.Vector then
    match value with
    | PVector arr =>
        let w := w_u32 w (Z.of_nat (length arr)) in
        match arr with
        | first :: _ =>
            let elementType := getPropertyType first in
            let w := w_u16 w elementType in
            for_of (fun w elem => encodePropertyValue w elem elementType) arr w
        | [] => Ok (w_u16 w PropertyType.Null)
        end
    | _ => mistyped
    end
  else if propType =? PropertyType.PropertiesMap then
    match value with
    | PMap map =>
        let w := w_u32 w (Z.of_nat (length map)) in
        for_of (fun w entry =>
                  let '(key, val) := entry in
                  w <-- w_string w key ;;;
                  let valType := getPropertyType val in
                  let w := w_u16 w valType in
                  encodePropertyValue w val valType)
               map w
    | _ => mistyped
    end
  else if propType =? PropertyType.UUID then
    match value with PString s => w_uuid w s | _ => mistyped end
  else Ok w.

(** The loop over the properties of one extension in
    [encodePropertiesMap]. *)
Fixpoint encodeProperties (w : Bytes) (props : JsMap PropertyValue)
    : Result Bytes :=
  match props with
  | [] => Ok w
  | (propName, propValue) :: rest =>
      w <-- w_string w propName ;;;
      let propType := getPropertyType propValue in
      let w := w_u16 w propType in
      w <-- encodePropertyValue w propValue propType ;;;
      encodeProperties w rest
  end.

(** [String.prototype.replace("ext_", "")]: the first occurrence goes. *)
Fixpoint starts_with (p s : JsString) : bool :=
  match p, s with
  | [], _ => true
  | _ :: _, [] => false
  | a :: p', b :: s' => (a =? b) && starts_with p' s'
  end.

Fixpoint remove_first (p s : JsString) : JsString :=
  if starts_with p s then skipn (length p) s
  else match s with
       | [] => []
       | c :: s' => c :: remove_first p s'
       end.

(** [parseInt(extKey.replace("ext_", ""), 10) || 0] *)
Definition extIdOf (extKey : JsString) : Z :=
  match js_parseInt (remove_first (str "ext_") extKey) 10 with
  | Some z => z
  | None => 0
  end.

(** [encodePropertiesMap] *)
Fixpoint encodeExtensions (w : Bytes) (properties : PropertiesMap)
    : Result Bytes :=
  match properties with
  | [] => Ok w
  | (extKey, props) :: rest =>
      let extId := extIdOf extKey in
      let w := w_u32 w extId in
      let w := w_u32 w (Z.of_nat (length props)) in
      w <-- encodeProperties w props ;;;
      encodeExtensions w rest
  end.

Definition encodePropertiesMap (w : Bytes) (properties : PropertiesMap)
    : Result Bytes :=
  let w := w_u32 w (Z.of_nat (length properties)) in
  encodeExtensions w properties.

(** [if (userData.text)]: an empty string does not count. *)
Definition has_text (userData : UserData) : bool :=
  match ud_text userData with
  | Some text => negb (Z.of_nat (length text) =? 0)
  | None => false
  end.

(** [encodeUserDataChunk] *)
Definition encodeUserDataChunk (userData : UserData) : Result Bytes :=
  let w := [] in
  let flags := 0 in
  let flags := if has_text userData
               then js_or flags UserDataFlags.HasText else flags in
  let flags := match ud_color userData with
               | Some _ => js_or flags UserDataFlags.HasColor
               | None => flags
               end in
  let flags := match ud_properties userData with
               | Some _ => js_or flags UserDataFlags.HasProperties
               | None => flags
               end in
  let w := w_u32 w flags in
  w <-- (match ud_text userData with
         | Some text => if has_text userData then w_string w text else Ok w
         | None => Ok w
         end) ;;;
  let w := match ud_color userData with
           | Some color =>
               w_u8 (w_u8 (w_u8 (w_u8 w (rgba_r color)) (rgba_g color))
                          (rgba_b color)) (rgba_a color)
           | None => w
           end in
  match ud_properties userData with
  | Some properties => encodePropertiesMap w properties
  | None => Ok w
  end.

(** [encodeSliceChunk] *)
Fixpoint encodeSliceKeys (w : Bytes) (flags : Z) (keys : list SliceKey) : Bytes :=
  match keys with
  | [] => w
  | key :: rest =>
      let w := w_u32 w (key_frameIndex key) in
      let w := w_i32 w (key_x key) in
      let w := w_i32 w (key_y key) in
      let w := w_u32 w (key_width key) in
      let w := w_u32 w (key_height key) in
      let w := match key_center key with
               | Some center =>
                   if has_flag flags SliceFlags.Has9Patch then
                     w_u32 (w_u32 (w_i32 (w_i32 w (rect_x center))
                                         (rect_y center))
                                  (rect_width center)) (rect_height center)
                   else w
               | None => w
               end in
      let w := match key_pivot key with
               | Some pivot =>
                   if has_flag flags SliceFlags.HasPivot
                   then w_i32 (w_i32 w (pt_x pivot)) (pt_y pivot)
                   else w
               | None => w
               end in
      encodeSliceKeys w flags rest
  end.

Definition encodeSliceChunk (slice : Slice) : Result Bytes :=
  let w := [] in
  let w := w_u32 w (Z.of_nat (length (slice_keys slice))) in
  let w := w_u32 w (slice_flags slice) in
  let w := w_zeros w 4 in
  w <-- w_string w (slice_name slice) ;;;
  Ok (encodeSliceKeys w (slice_flags slice) (slice_keys slice)).

(** [x ?? 0] *)
Definition or_zero (x : option Z) : Z :=
  match x with Some v => v | None => 0 end.

(** [encodeTilesetChunk] *)
Definition encodeTilesetChunk (tileset : Tileset) : Result Bytes :=
  let w := [] in
  let w := w_u32 w (ts_id tileset) in
  let w := w_u32 w (ts_flags tileset) in
  let w := w_u32 w (ts_tileCount tileset) in
  let w := w_u16 w (ts_tileWidth tileset) in
  let w := w_u16 w (ts_tileHeight tileset) in
  let w := w_i16 w (ts_baseIndex tileset) in
  let w := w_zeros w 14 in
  w <-- w_string w (ts_name tileset) ;;;
  let w := if has_flag (ts_flags tileset) TilesetFlags.IncludeLinkToExternal
           then w_u32 (w_u32 w (or_zero (ts_externalFileId tileset)))
                      (or_zero (ts_externalTilesetId tileset))
           else w in
  Ok (match ts_compressedData tileset with
      | Some compressedData =>
          if has_flag (ts_flags tileset) TilesetFlags.IncludeTilesInFile
          then w_bytes (w_u32 w (Z.of_nat (length compressedData))) compressedData
          else w
      | None => w
      end).

(** [encodeColorProfileChunk] *)
Definition encodeColorProfileChunk (profile : ColorProfile) : Bytes :=
  let w := [] in
  let w := w_u16 w (cp_type profile) in
  let w := w_u16 w (cp_flags profile) in
  let w := w_fixed16_16 w (or_zero (cp_gamma profile)) in
  let w := w_zeros w 8 in
  match cp_iccData profile with
  | Some iccData =>
      if cp_type profile =? ColorProfileType.EmbeddedICC
      then w_bytes (w_u32 w (Z.of_nat (length iccData))) iccData
      else w
  | None => w
  end.

(** [encodeExternalFilesChunk] *)
Fixpoint encodeExternalFiles (w : Bytes) (files : list ExternalFile)
    : Result Bytes :=
  match files with
  | [] => Ok w
  | file :: rest =>
      let w := w_u32 w (ef_id file) in
      let w := w_u8 w (ef_type file) in
      let w := w_zeros w 7 in
      w <-- w_string w (ef_fileName file) ;;;
      encodeExternalFiles w rest
  end.

Definition encodeExternalFilesChunk (files : list ExternalFile) : Result Bytes :=
  let w := [] in
  let w := w_u32 w (Z.of_nat (length files)) in
  let w := w_zeros w 8 in
  encodeExternalFiles w files.

(** [wrapChunk] *)
Definition wrapChunk (chunkType : Z) (data : Bytes) : Bytes :=
  let w := [] in
  let w := w_u32 w (Z.of_nat (length data) + 6) in
  let w := w_u16 w chunkType in
  w_bytes w data.
End UserDataEncoder.

(* ================================================================== *)
(** * Encoder ([src/encode.ts]) *)

(** [new Uint8Array(size)] *)
Definition new_Uint8Array (size : Z) : Bytes := repeat x00 (Z.to_nat size).

(** [target.set(source, offset)]: a [RangeError] when the source does not
    fit. *)
Definition typed_array_set (target source : Bytes) (offset : Z) : Result Bytes :=
  if (offset <? 0)
     || (offset + Z.of_nat (length source) >? Z.of_nat (length target))
  then Throw RuntimeError
  else Ok (firstn (Z.to_nat offset) target ++ source
           ++ skipn (Z.to_nat offset + length source) target).

Inductive EncodeMode := ModeChunks | ModeCanonical | ModeChunksIfPresent.

Record EncodeOptions := {
  mode : EncodeMode;
  writeLegacyPaletteChunks : bool;
  compression : CompressionProvider
}.

Section Encode.
Context {rt : JsRuntime}.

(** [x || d] on numbers *)
Definition or_default (x d : Z) : Z := if x =? 0 then d else x.

(** [encodeHeader] *)
Definition encodeHeader (file : AsepriteFile) (fileSize : Z) : Bytes :=
  let w := [] in
  let header := file_header file in
  let w := w_u32 w fileSize in
  let w := w_u16 w ASE_FILE_MAGIC in
  let w := w_u16 w (hdr_frameCount header) in
  let w := w_u16 w (hdr_width header) in
  let w := w_u16 w (hdr_height header) in
  let w := w_u16 w (hdr_colorDepth header) in
  let w := w_u32 w (hdr_flags header) in
  let w := w_u16 w (hdr_speed header) in
  let w := w_zeros w 4 in
  let w := w_u8 w (hdr_transparentIndex header) in
  let w := w_zeros w 3 in
  let w := w_u16 w (hdr_colorCount header) in
  let w := w_u8 w (or_default (hdr_pixelWidth header) 1) in
  let w := w_u8 w (or_default (hdr_pixelHeight header) 1) in
  let w := w_i16 w (hdr_gridX header) in
  let w := w_i16 w (hdr_gridY header) in
  let w := w_u16 w (or_default (hdr_gridWidth header) 16) in
  let w := w_u16 w (or_default (hdr_gridHeight header) 16) in
  let w := w_zeros w 84 in
  w.

(** [encodeFrameHeader] *)
Definition encodeFrameHeader (frameSize chunkCount durationMs : Z) : Bytes :=
  let w := [] in
  let w := w_u32 w frameSize in
  let w := w_u16 w ASE_FRAME_MAGIC in
  (* Old chunk count (use 0xFFFF if > 0xFFFF) *)
  let w := w_u16 w (if chunkCount >? 0xfffe then 0xffff else chunkCount) in
  let w := w_u16 w durationMs in
  let w := w_zeros w 2 in
  (* New chunk count *)
  let w := w_u32 w chunkCount in
  w.

(** [encodeChunkFromPreserved] *)
Definition encodeChunkFromPreserved (chunk : Chunk)
    (compression : CompressionProvider) : Result Bytes :=
  match chunk_rawData chunk with
  | Some rawData => Ok (wrapChunk (chunk_type chunk) rawData)
  | None =>
      match chunk_body chunk with
      | LayerChunk layer =>
          data <-- encodeLayerChunk layer ;;; Ok (wrapChunk ChunkType.Layer data)
      | CelChunk cel =>
          data <-- encodeCelChunk cel compression ;;;
          Ok (wrapChunk ChunkType.Cel data)
      | CelExtraChunk extra =>
          Ok (wrapChunk ChunkType.CelExtra (encodeCelExtraChunk extra))
      | PaletteChunk palette =>
          data <-- encodePaletteChunk palette ;;;
          Ok (wrapChunk ChunkType.Palette data)
      | TagsChunk tags =>
          data <-- encodeTagsChunk tags ;;; Ok (wrapChunk ChunkType.Tags data)
      | UserDataChunk userData =>
          data <-- encodeUserDataChunk userData ;;;
          Ok (wrapChunk ChunkType.UserData data)
      | SliceChunk slice =>
          data <-- encodeSliceChunk slice ;;; Ok (wrapChunk ChunkType.Slice data)
      | TilesetChunk tileset =>
          data <-- encodeTilesetChunk tileset ;;;
          Ok (wrapChunk ChunkType.Tileset data)
      | ColorProfileChunk profile =>
          Ok (wrapChunk ChunkType.ColorProfile (encodeColorProfileChunk profile))
      | ExternalFilesChunk files =>
          data <-- encodeExternalFilesChunk files ;;;
          Ok (wrapChunk ChunkType.ExternalFiles data)
      | OldPaletteChunk _ _ =>
          (* no case of the switch; the chunk has no rawData *)
          Throw (AseFormatError BAD_CHUNK_SIZE)
      | OtherChunk type =>
          if existsb (Z.eqb type)
               [ChunkType.Layer; ChunkType.Cel; ChunkType.CelExtra;
                ChunkType.Palette; ChunkType.Tags; ChunkType.UserData;
                ChunkType.Slice; ChunkType.Tileset; ChunkType.ColorProfile;
                ChunkType.ExternalFiles]
          then Throw RuntimeError
          else Throw (AseFormatError BAD_CHUNK_SIZE)
      end
  end.

(** [for (const x of xs) chunkBuffers.push(encode(x))] *)
Fixpoint encodeAll {A} (encode : A -> Result (list Bytes)) (xs : list A)
    (chunkBuffers : list Bytes) : Result (list Bytes) :=
  match xs with
  | [] => Ok chunkBuffers
  | x :: rest =>
      bufs <-- encode x ;;;
      encodeAll encode rest (chunkBuffers ++ bufs)
  end.

(** "Calculate frame size" *)
Definition total_length (bufs : list Bytes) : Z :=
  fold_left (fun size buf => size + Z.of_nat (length buf)) bufs 0.

(** [for (const buf of bufs) { target.set(buf, offset); offset += buf.length }] *)
Fixpoint set_all (target : Bytes) (bufs : list Bytes) (offset : Z) : Result Bytes :=
  match bufs with
  | [] => Ok target
  | buf :: rest =>
      target <-- typed_array_set target buf offset ;;;
      set_all target rest (offset + Z.of_nat (length buf))
  end.

(** "Build frame": the part both modes share. *)
Definition buildFrame (chunkBuffers : list Bytes) (chunkCount durationMs : Z)
    : Result Bytes :=
  let chunksSize := total_length chunkBuffers in
  let frameSize := 16 + chunksSize in
  let frameHeader := encodeFrameHeader frameSize chunkCount durationMs in
  let frameBuffer := new_Uint8Array frameSize in
  frameBuffer <-- typed_array_set frameBuffer frameHeader 0 ;;;
  set_all frameBuffer chunkBuffers 16.

(** "Build final file" *)
Definition buildFile (file : AsepriteFile) (frameBuffers : list Bytes)
    : Result Bytes :=
  let framesSize := total_length frameBuffers in
  let fileSize := 128 + framesSize in
  let header := encodeHeader file fileSize in
  let result := new_Uint8Array fileSize in
  result <-- typed_array_set result header 0 ;;;
  set_all result frameBuffers 128.

(** The frame buffers of [encodeChunksMode]. *)
Definition chunksModeFrame (compression : CompressionProvider) (frame : Frame)
    : Result Bytes :=
  match frame_chunks frame with
  | None => Throw (AseFormatError BAD_CHUNK_SIZE)
  | Some chunks =>
      chunkBuffers <-- encodeAll
                         (fun chunk =>
                            encoded <-- encodeChunkFromPreserved chunk compression ;;;
                            Ok [encoded])
                         chunks [] ;;;
      buildFrame chunkBuffers (Z.of_nat (length chunks)) (frame_durationMs frame)
  end.

Fixpoint chunksModeFrames (compression : CompressionProvider)
    (frames : list Frame) (frameBuffers : list Bytes) : Result (list Bytes) :=
  match frames with
  | [] => Ok frameBuffers
  | frame :: rest =>
      frameBuffer <-- chunksModeFrame compression frame ;;;
      chunksModeFrames compression rest (frameBuffers ++ [frameBuffer])
  end.

(** [encodeChunksMode] *)
Definition encodeChunksMode (file : AsepriteFile)
    (compression : CompressionProvider) : Result Bytes :=
  frameBuffers <-- chunksModeFrames compression (file_frames file) [] ;;;
  buildFile file frameBuffers.

(** A chunk followed by its optional user data chunk. *)
Definition with_userData (chunk : Bytes) (userData : option UserData)
    : Result (list Bytes) :=
  match userData with
  | Some ud =>
      data <-- encodeUserDataChunk ud ;;;
      Ok [chunk; wrapChunk ChunkType.UserData data]
  | None => Ok [chunk]
  end.

Definition userData_chunks (userData : option UserData) : Result (list Bytes) :=
  match userData with
  | Some ud =>
      data <-- encodeUserDataChunk ud ;;;
      Ok [wrapChunk ChunkType.UserData data]
  | None => Ok []
  end.

(** "First frame: emit global chunks" *)
Definition globalChunks (file : AsepriteFile) : Result (list Bytes) :=
  let chunkBuffers := [] in
  (* Layers *)
  chunkBuffers <-- encodeAll
                     (fun layer =>
                        data <-- encodeLayerChunk layer ;;;
                        with_userData (wrapChunk ChunkType.Layer data)
                                      (layer_userData layer))
                     (file_layers file) chunkBuffers ;;;
  (* Color profile *)
  let chunkBuffers :=
    match file_colorProfile file with
    | Some profile =>
        chunkBuffers
        ++ [wrapChunk ChunkType.ColorProfile (encodeColorProfileChunk profile)]
    | None => chunkBuffers
    end in
  (* External files *)
  chunkBuffers <--
    (match file_externalFiles file with
     | Some files =>
         if Z.of_nat (length files) >? 0 then
           data <-- encodeExternalFilesChunk files ;;;
           Ok (chunkBuffers ++ [wrapChunk ChunkType.ExternalFiles data])
         else Ok chunkBuffers
     | None => Ok chunkBuffers
     end) ;;;
  (* Palette *)
  chunkBuffers <--
    (match file_palette file with
     | Some palette =>
         data <-- encodePaletteChunk palette ;;;
         Ok (chunkBuffers ++ [wrapChunk ChunkType.Palette data])
     | None => Ok chunkBuffers
     end) ;;;
  (* Tags *)
  chunkBuffers <--
    (match file_tags file with
     | Some tags =>
         if Z.of_nat (length tags) >? 0 then
           data <-- encodeTagsChunk tags ;;;
           encodeAll (fun tag => userData_chunks (tag_userData tag)) tags
                     (chunkBuffers ++ [wrapChunk ChunkType.Tags data])
         else Ok chunkBuffers
     | None => Ok chunkBuffers
     end) ;;;
  (* Slices *)
  chunkBuffers <--
    (match file_slices file with
     | Some slices =>
         encodeAll
           (fun slice =>
              data <-- encodeSliceChunk slice ;;;
              with_userData (wrapChunk ChunkType.Slice data)
                            (slice_userData slice))
           slices chunkBuffers
     | None => Ok chunkBuffers
     end) ;;;
  (* Tilesets *)
  chunkBuffers <--
    (match file_tilesets file with
     | Some tilesets =>
         encodeAll
           (fun tileset =>
              data <-- encodeTilesetChunk tileset ;;;
              bufs <-- with_userData (wrapChunk ChunkType.Tileset data)
                                     (ts_userData tileset) ;;;
              match ts_tileUserData tileset with
              | Some tileUserData => encodeAll userData_chunks tileUserData bufs
              | None => Ok bufs
              end)
           tilesets chunkBuffers
     | None => Ok chunkBuffers
     end) ;;;
  (* Sprite-level user data *)
  sprite <-- userData_chunks (file_userData file) ;;;
  let chunkBuffers := chunkBuffers ++ sprite in
  (* Unknown chunks (preserved) *)
  Ok (match file_unknownChunks file with
      | Some unknownChunks =>
          chunkBuffers
          ++ map (fun unknown => wrapChunk (unk_type unknown) (unk_rawData unknown))
                 unknownChunks
      | None => chunkBuffers
      end).

(** "Cels for this frame" *)
Definition celChunks (compression : CompressionProvider) (cel : Cel)
    : Result (list Bytes) :=
  celData <-- encodeCelChunk cel compression ;;;
  let bufs := [wrapChunk ChunkType.Cel celData] in
  let bufs := match cel_extra cel with
              | Some extra =>
                  bufs ++ [wrapChunk ChunkType.CelExtra (encodeCelExtraChunk extra)]
              | None => bufs
              end in
  ud <-- userData_chunks (cel_userData cel) ;;;
  Ok (bufs ++ ud).

(** The chunk buffers of one frame in canonical mode. *)
Definition canonicalChunkBuffers (file : AsepriteFile)
    (compression : CompressionProvider) (frameIdx : Z) (frame : Frame)
    : Result (list Bytes) :=
  chunkBuffers <-- (if frameIdx =? 0 then globalChunks file else Ok []) ;;;
  encodeAll (celChunks compression) (frame_cels frame) chunkBuffers.

Definition canonicalModeFrame (file : AsepriteFile)
    (compression : CompressionProvider) (frameIdx : Z) (frame : Frame)
    : Result Bytes :=
  chunkBuffers <-- canonicalChunkBuffers file compression frameIdx frame ;;;
  buildFrame chunkBuffers (Z.of_nat (length chunkBuffers))
             (frame_durationMs frame).

Fixpoint canonicalModeFrames (file : AsepriteFile)
    (compression : CompressionProvider) (frames : list Frame) (frameIdx : Z)
    (frameBuffers : list Bytes) : Result (list Bytes) :=
  match frames with
  | [] => Ok frameBuffers
  | frame :: rest =>
      frameBuffer <-- canonicalModeFrame file compression frameIdx frame ;;;
      canonicalModeFrames file compression rest (frameIdx + 1)
                          (frameBuffers ++ [frameBuffer])
  end.

(** [encodeCanonicalMode] *)
Definition encodeCanonicalMode (file : AsepriteFile)
    (compression : CompressionProvider) : Result Bytes :=
  frameBuffers <-- canonicalModeFrames file compression (file_frames file) 0 [] ;;;
  buildFile file frameBuffers.

(** [encodeAseprite] *)
Definition encodeAseprite (file : AsepriteFile) (options : EncodeOptions)
    : Result Bytes :=
  let mode :=
    match mode options with
    | ModeChunksIfPresent =>
        let hasChunks :=
          match file_frames file with
          | frame :: _ =>
              match frame_chunks frame with Some _ => true | None => false end
          | [] => false
          end in
        if hasChunks then ModeChunks else ModeCanonical
    | m => m
    end in
  match mode with
  | ModeChunks => encodeChunksMode file (compression options)
  | _ => encodeCanonicalMode file (compression options)
  end.
End Encode.

(* ================================================================== *)
(** * Concrete inputs

    A runtime for the concrete examples.  It is exact on ASCII strings and
    on strings of plain digits, which is all the examples use; the float
    conversions, which no example reaches, are placeholders.  No property
    below depends on it except the examples that name it. *)

Definition digit_value (c : Z) : option Z :=
  if (48 <=? c) && (c <=? 57) then Some (c - 48)
  else if (97 <=? c) && (c <=? 102) then Some (c - 87)
  else if (65 <=? c) && (c <=? 70) then Some (c - 55)
  else None.

Fixpoint parse_digits (radix : Z) (s : JsString) (acc : option Z) : option Z :=
  match s with
  | [] => acc
  | c :: rest =>
      match digit_value c with
      | Some d =>
          if d <? radix
          then parse_digits radix rest
                 (Some (match acc with Some a => a * radix + d | None => d end))
          else acc
      | None => acc
      end
  end.

Definition exampleRuntime : JsRuntime := {|
  utf8_decode := map byte_val;
  utf8_encode := map byte_of_Z;
  js_parseInt := fun s radix => parse_digits radix s None;
  number_of_f32_bits := NDouble;
  number_of_f64_bits := NDouble;
  f64_bits_of_fixed := fun raw => raw;
  f64_bits_of_int := fun z => z;
  f32_bits_of_number := fun _ => 0;
  fixed_raw_of_number := fun _ => 0;
  maxCallDepth := 1000;
  encode_mistyped := fun _ _ _ => None
|}.

(** A 128-byte file header: 16x16 pixels, RGBA, [frameCount] frames. *)
Definition exampleHeader (frameCount : Z) : Bytes :=
  let w := [] in
  let w := w_u32 w 0 in
  let w := w_u16 w ASE_FILE_MAGIC in
  let w := w_u16 w frameCount in
  let w := w_u16 w 16 in
  let w := w_u16 w 16 in
  let w := w_u16 w 32 in
  let w := w_u32 w 1 in
  let w := w_u16 w 100 in
  w_zeros w 108.

(** A frame of 100 ms around the given chunks, with the given old and new
    chunk counts. *)
Definition exampleFrame (oldChunkCount newChunkCount : Z)
    (chunks : list Bytes) : Bytes :=
  let body := concat chunks in
  let w := [] in
  let w := w_u32 w (16 + Z.of_nat (length body)) in
  let w := w_u16 w ASE_FRAME_MAGIC in
  let w := w_u16 w oldChunkCount in
  let w := w_u16 w 100 in
  let w := w_zeros w 2 in
  let w := w_u32 w newChunkCount in
  w_bytes w body.

(** A chunk: size, type, payload. *)
Definition exampleChunk (chunkType : Z) (payload : Bytes) : Bytes :=
  w_bytes (w_u16 (w_u32 [] (Z.of_nat (length payload) + 6)) chunkType) payload.

(** A UserData chunk with the text "hi". *)
Definition userDataHi : Bytes :=
  exampleChunk ChunkType.UserData
    (w_bytes (w_u16 (w_u32 [] UserDataFlags.HasText) 2) [x68; x69]).

(** One frame whose only chunk is that UserData chunk: it precedes every
    layer, cel, slice, tileset and tag. *)
Definition spriteUserDataFile : Bytes :=
  exampleHeader 1 ++ exampleFrame 1 0 [userDataHi].

(** A cel chunk on layer 0 with variant tag [celType] and payload
    [tail]. *)
Definition exampleCelChunk (celType : Z) (tail : Bytes) : Bytes :=
  let w := [] in
  let w := w_u16 w 0 in
  let w := w_i16 w 0 in
  let w := w_i16 w 0 in
  let w := w_u8 w 255 in
  let w := w_u16 w celType in
  let w := w_i16 w 0 in
  let w := w_zeros w 5 in
  exampleChunk ChunkType.Cel (w_bytes w tail).

(** One frame with one cel whose variant tag is 4. *)
Definition unknownCelTypeFile : Bytes :=
  exampleHeader 1 ++ exampleFrame 1 0 [exampleCelChunk 4 []].

(** One frame with one Linked cel that links to frame 0. *)
Definition selfLinkedBytes : Bytes :=
  exampleHeader 1 ++ exampleFrame 1 0 [exampleCelChunk 1 (w_u16 [] 0)].

Definition noChunks : ParseOptions :=
  {| preserveChunks := false; preserveCompressed := true;
     decodeImages := false; strict := true |}.

(** The value of the [size]-byte little-endian field that lies [at_] bytes
    after the reader's offset. *)
Definition field (size : nat) (at_ : Z) (r : BinaryReader) : Z :=
  le_value (firstn size (skipn (Z.to_nat (rd_offset r + at_)) (rd_data r))).

(** The chunk count as the specification determines it: the new count
    when it is not zero and the old count is 0xFFFF, else the old
    count. *)
Definition spec_chunkCount (oldChunkCount newChunkCount : Z) : Z :=
  if negb (newChunkCount =? 0) && (oldChunkCount =? 0xFFFF)
  then newChunkCount
  else oldChunkCount.

(** A reader at the start of a frame header with old chunk count 0xFFFF
    and new chunk count 70000. *)
Definition bigFrameReader : BinaryReader :=
  {| rd_data := exampleFrame 0xFFFF 70000 []; rd_offset := 0 |}.

(** The attachment target is not the sprite. *)
Definition not_sprite (ctx : ParseContext) : Prop :=
  lastAttachTarget ctx <> Some TargetSprite.

(** The invariant of the chunk loop: the target is not the sprite and no
    sprite-level user data has been recorded. *)
Definition loop_inv (st : LoopState) : Prop :=
  not_sprite (ls_ctx st) /\ acc_spriteUserData (ls_acc st) = None.

(** Every exception a parser raises satisfies [Q]. *)
Definition throws_only {A} (Q : JsError -> Prop) (p : Parser A) : Prop :=
  forall r e, p r = Throw e -> Q e.

(** The file [parseAseprite] returns for [spriteUserDataFile] when chunk
    lists are not preserved: the user data is nowhere in it. *)
Definition discardedFile : AsepriteFile :=
  {| file_header :=
       {| hdr_fileSize := 0; hdr_magic := ASE_FILE_MAGIC; hdr_frameCount := 1;
          hdr_width := 16; hdr_height := 16; hdr_colorDepth := 32;
          hdr_flags := 1; hdr_speed := 100; hdr_transparentIndex := 0;
          hdr_colorCount := 0; hdr_pixelWidth := 0; hdr_pixelHeight := 0;
          hdr_gridX := 0; hdr_gridY := 0; hdr_gridWidth := 0;
          hdr_gridHeight := 0 |};
     file_frames := [{| frame_durationMs := 100; frame_cels := [];
                        frame_chunks := None |}];
     file_layers := [];
     file_tags := None; file_slices := None; file_palette := None;
     file_tilesets := None; file_colorProfile := None;
     file_externalFiles := None; file_userData := None;
     file_unknownChunks := None |}.

(** The exceptions of the decoder other than [INVALID_CEL_TYPE]. *)
Definition not_invalid_cel_type (e : JsError) : Prop :=
  e <> AseFormatError INVALID_CEL_TYPE.

(** The old and the new chunk count fields of an encoded frame: bytes 6..7
    and bytes 12..15 of its header. *)
Definition frame_old_count (frameBuffer : Bytes) : Z :=
  le_value (firstn 2 (skipn 6 frameBuffer)).

Definition frame_new_count (frameBuffer : Bytes) : Z :=
  le_value (firstn 4 (skipn 12 frameBuffer)).

(** What the encoder puts in a frame header for [chunkCount] chunks. *)
Definition frame_counts_ok (frameBuffer : Bytes) (chunkCount : Z) : Prop :=
  frame_old_count frameBuffer
  = (if chunkCount <=? 0xFFFE then chunkCount else 0xFFFF)
  /\ frame_new_count frameBuffer = chunkCount mod 2 ^ 32.

(** An encoded frame: a header for as many chunks as there are chunk
    buffers, then the chunk buffers. *)
Definition encoded_frame (frameBuffer : Bytes) (durationMs : Z)
    (chunkBuffers : list Bytes) : Prop :=
  frameBuffer
  = encodeFrameHeader (16 + Z.of_nat (length (concat chunkBuffers)))
                      (Z.of_nat (length chunkBuffers)) durationMs
    ++ concat chunkBuffers
  /\ frame_counts_ok frameBuffer (Z.of_nat (length chunkBuffers)).

(** A file of one frame that holds one layer and no cel. *)
Definition oneLayerFile : AsepriteFile :=
  {| file_header := emptyHeader;
     file_frames := [mkFrame []];
     file_layers :=
       [{| layer_flags := 1; layer_type := LayerType.Normal;
           layer_childLevel := 0; layer_defaultWidth := 0;
           layer_defaultHeight := 0; layer_blendMode := 0;
           layer_opacity := 255; layer_name := str "Layer 1";
           layer_tilesetIndex := None; layer_userData := None |}];
     file_tags := None; file_slices := None; file_palette := None;
     file_tilesets := None; file_colorProfile := None;
     file_externalFiles := None; file_userData := None;
     file_unknownChunks := None |}.

Definition noCompression : CompressionProvider :=
  {| inflateZlib := fun data => Ok data; deflateZlib := fun data => Ok data |}.

(** An exception that is not an [AseFormatError]. *)
Definition plain_error (e : JsError) : Prop :=
  match e with
  | AseFormatError _ => False
  | _ => True
  end.

(** The property type tags the decoder knows. *)
Definition knownPropertyTypes : list Z :=
  [PropertyType.Null; PropertyType.Bool; PropertyType.Int8;
   PropertyType.Uint8; PropertyType.Int16; PropertyType.Uint16;
   PropertyType.Int32; PropertyType.Uint32; PropertyType.Int64;
   PropertyType.Uint64; PropertyType.Fixed; PropertyType.Float;
   PropertyType.Double; PropertyType.String; PropertyType.Point;
   PropertyType.Size; PropertyType.Rect; PropertyType.Vector;
   PropertyType.PropertiesMap; PropertyType.UUID].

(** A user data value one of whose properties is a placeholder. *)
Definition has_placeholder (userData : UserData) : Prop :=
  exists properties extKey props propName unknownType,
    ud_properties userData = Some properties
    /\ In (extKey, props) properties
    /\ In (propName, PUnknown unknownType) props.

(** User data with the single property [p], a placeholder for type tag
    0x0063, in extension 0. *)
Definition placeholderUserData : UserData :=
  {| ud_text := None; ud_color := None;
     ud_properties := Some [(str "ext_0", [(str "p", PUnknown 0x63)])] |}.

(* ================================================================== *)
(** * Further tag and slice utilities ([src/util/tags.ts]) *)

(** [getAllTagFrameRanges] *)
Definition getAllTagFrameRanges (file : AsepriteFile) : list TagFrameRange :=
  match file_tags file with
  | None => []
  | Some tags => map resolveTagFrameRange tags
  end.

(** [getTagsAtFrame] *)
Definition getTagsAtFrame (file : AsepriteFile) (frameIndex : Z) : list Tag :=
  match file_tags file with
  | None => []
  | Some tags =>
      filter (fun t => (frameIndex >=? tag_fromFrame t)
                       && (frameIndex <=? tag_toFrame t))
             tags
  end.

(** [getAllSlicesAtFrame]: every slice is looked up again by its name. *)
Definition getAllSlicesAtFrame (file : AsepriteFile) (frameIndex : Z)
    : list ResolvedSliceKey :=
  match file_slices file with
  | None => []
  | Some slices =>
      fold_left
        (fun result slice =>
           match getSliceAtFrame file (slice_name slice) frameIndex with
           | Some resolved => result ++ [resolved]
           | None => result
           end)
        slices []
  end.

(** [listSliceNames] *)
Definition listSliceNames (file : AsepriteFile) : list JsString :=
  match file_slices file with
  | None => []
  | Some slices => map slice_name slices
  end.

(** [listTagNames] *)
Definition listTagNames (file : AsepriteFile) : list JsString :=
  match file_tags file with
  | None => []
  | Some tags => map tag_name tags
  end.

(** The four directions [resolveTagFrameRange] has a case for. *)
Definition knownDirections : list Z :=
  [TagDirection.Forward; TagDirection.Reverse;
   TagDirection.PingPong; TagDirection.PingPongReverse].

(** The key that applies at a frame among one slice's own keys, resolved
    under the slice's name. *)
Definition resolveOwnKey (slice : Slice) (frameIndex : Z)
    : option ResolvedSliceKey :=
  match applicableKey_loop (slice_keys slice) frameIndex None with
  | None => None
  | Some key => Some (spec_resolved (slice_name slice) key)
  end.

(** A file that holds the given tags and slices and nothing else. *)
Definition fileOf (tags : option (list Tag)) (slices : option (list Slice))
    : AsepriteFile :=
  {| file_header := emptyHeader; file_frames := []; file_layers := [];
     file_tags := tags; file_slices := slices; file_palette := None;
     file_tilesets := None; file_colorProfile := None;
     file_externalFiles := None; file_userData := None;
     file_unknownChunks := None |}.

(* ================================================================== *)
(** * Further tile utilities ([src/util/tile.ts]) *)

(** A decoded tile that [encodeTileValue] can represent under the masks:
    its id lies within the tile id mask, and a flag that is set has a mask
    with at least one bit. *)
Definition tile_fits (tile : DecodedTile) (m : TilemapMasks) : Prop :=
  js_and (tileId tile) (tileIdMask m) = tileId tile
  /\ (xFlip tile = true -> xFlipMask m <> 0)
  /\ (yFlip tile = true -> yFlipMask m <> 0)
  /\ (rotation tile = true -> rotationMask m <> 0).

(* ================================================================== *)
(** * Readers over written bytes *)

(** A reader that has consumed [before] and has [after] ahead of it. *)
Definition reader_at (before after : Bytes) : BinaryReader :=
  {| rd_data := before ++ after; rd_offset := Z.of_nat (length before) |}.

(** The values a [bits]-bit unsigned, resp. signed, field holds. *)
Definition is_unsigned (bits : Z) (z : Z) : Prop := 0 <= z < 2 ^ bits.
Definition is_signed (bits : Z) (z : Z) : Prop :=
  - 2 ^ (bits - 1) <= z < 2 ^ (bits - 1).

(** A file that has the given header and nothing else. *)
Definition fileOfHeader (header : AseHeader) : AsepriteFile :=
  {| file_header := header; file_frames := []; file_layers := [];
     file_tags := None; file_slices := None; file_palette := None;
     file_tilesets := None; file_colorProfile := None;
     file_externalFiles := None; file_userData := None;
     file_unknownChunks := None |}.

(** The chunk types [parseChunk] has a case for. *)
Definition parsedChunkTypes : list Z :=
  [ChunkType.Layer; ChunkType.Cel; ChunkType.CelExtra; ChunkType.Palette;
   ChunkType.OldPalette1; ChunkType.OldPalette2; ChunkType.Tags;
   ChunkType.UserData; ChunkType.Slice; ChunkType.Tileset;
   ChunkType.ColorProfile; ChunkType.ExternalFiles].

(** A parser that, from a reader within its data, either consumes exactly
    [n] bytes without leaving the data or throws an exception that
    satisfies [Q]. *)
Definition consumes {A} (n : Z) (Q : JsError -> Prop) (p : Parser A) : Prop :=
  forall r,
    0 <= rd_offset r <= rd_length r ->
    match p r with
    | Ok (_, r') =>
        rd_data r' = rd_data r
        /\ rd_offset r' = rd_offset r + n
        /\ rd_offset r' <= rd_length r
    | Throw e => Q e
    end.

(** The exceptions of [parseHeader]. *)
Definition header_error (strict : bool) (e : JsError) : Prop :=
  e = Error ReaderOutOfBounds
  \/ (strict = true
      /\ (e = AseFormatError BAD_MAGIC
          \/ e = AseFormatError UNSUPPORTED_COLOR_DEPTH)).

(** The codes of the error taxonomy that the decoder uses. *)
Definition decoderCodes : list AseErrorCode :=
  [BAD_MAGIC; UNSUPPORTED_COLOR_DEPTH; BAD_CHUNK_SIZE].

(** The exceptions of [parseAseprite]: plain [Error]s (of the reader and of
    the cel parser), exceptions of the runtime itself, and, in strict mode
    only, the three codes above. *)
Definition decoder_error (strict : bool) (e : JsError) : Prop :=
  match e with
  | Error _ => True
  | RuntimeError => True
  | AseFormatError code => strict = true /\ In code decoderCodes
  | ProviderError => False
  end.

(* ================================================================== *)
(** * Fields of an encoded file *)

(** The file size and frame count fields of an encoded file (bytes 0..3
    and 6..7), and the size and duration fields of an encoded frame (bytes
    0..3 and 8..9). *)
Definition file_size_field (out : Bytes) : Z := le_value (firstn 4 out).
Definition frame_count_field (out : Bytes) : Z :=
  le_value (firstn 2 (skipn 6 out)).
Definition frame_size_field (frameBuffer : Bytes) : Z :=
  le_value (firstn 4 frameBuffer).
Definition frame_duration_field (frameBuffer : Bytes) : Z :=
  le_value (firstn 2 (skipn 8 frameBuffer)).

(** One frame whose only chunk is an old palette chunk (type 0x0004) with
    no packets. *)
Definition oldPaletteFile : Bytes :=
  exampleHeader 1
  ++ exampleFrame 1 0 [exampleChunk ChunkType.OldPalette1 (w_u16 [] 0)].

(* ================================================================== *)
(** * Values the chunk encoders can represent *)

Section Representable.
Context {rt : JsRuntime}.

(** A string that survives [BinaryWriter.string] and [BinaryReader.string]:
    its UTF-8 encoding fits a 16-bit length and the runtime's decoder
    inverts its encoder on it. *)
Definition string_round_trips (s : JsString) : Prop :=
  Z.of_nat (length (utf8_encode s)) <= 0xFFFF
  /\ utf8_decode (utf8_encode s) = s
  /\ (utf8_encode s = [] -> s = []).

Definition cel_extra_in_range (extra : CelExtra) : Prop :=
  is_unsigned 32 (extra_flags extra)
  /\ is_signed 32 (extra_preciseX extra)
  /\ is_signed 32 (extra_preciseY extra)
  /\ is_signed 32 (extra_celWidth extra)
  /\ is_signed 32 (extra_celHeight extra).

Definition tag_in_range (tag : Tag) : Prop :=
  is_unsigned 16 (tag_fromFrame tag)
  /\ is_unsigned 16 (tag_toFrame tag)
  /\ is_unsigned 8 (tag_direction tag)
  /\ is_unsigned 16 (tag_repeat tag)
  /\ is_unsigned 8 (rgb_r (tag_color tag))
  /\ is_unsigned 8 (rgb_g (tag_color tag))
  /\ is_unsigned 8 (rgb_b (tag_color tag))
  /\ string_round_trips (tag_name tag).

(** A tag as the Tags chunk holds it: without user data, which travels in
    UserData chunks of its own. *)
Definition tag_without_userData (tag : Tag) : Tag :=
  {| tag_fromFrame := tag_fromFrame tag; tag_toFrame := tag_toFrame tag;
     tag_direction := tag_direction tag; tag_repeat := tag_repeat tag;
     tag_color := tag_color tag; tag_name := tag_name tag;
     tag_userData := None |}.

Definition layer_in_range (layer : Layer) : Prop :=
  is_unsigned 16 (layer_flags layer)
  /\ is_unsigned 16 (layer_type layer)
  /\ is_unsigned 16 (layer_childLevel layer)
  /\ is_unsigned 16 (layer_defaultWidth layer)
  /\ is_unsigned 16 (layer_defaultHeight layer)
  /\ is_unsigned 16 (layer_blendMode layer)
  /\ is_unsigned 8 (layer_opacity layer)
  /\ string_round_trips (layer_name layer)
  /\ match layer_tilesetIndex layer with
     | Some tilesetIndex =>
         layer_type layer = LayerType.Tilemap /\ is_unsigned 32 tilesetIndex
     | None => layer_type layer <> LayerType.Tilemap
     end.

Definition layer_without_userData (layer : Layer) : Layer :=
  {| layer_flags := layer_flags layer; layer_type := layer_type layer;
     layer_childLevel := layer_childLevel layer;
     layer_defaultWidth := layer_defaultWidth layer;
     layer_defaultHeight := layer_defaultHeight layer;
     layer_blendMode := layer_blendMode layer;
     layer_opacity := layer_opacity layer; layer_name := layer_name layer;
     layer_tilesetIndex := layer_tilesetIndex layer;
     layer_userData := None |}.
End Representable.

(** A tag and a layer named "walk", for the examples. *)
Definition walkTag : Tag :=
  {| tag_fromFrame := 0; tag_toFrame := 3; tag_direction := TagDirection.PingPong;
     tag_repeat := 0; tag_color := {| rgb_r := 255; rgb_g := 0; rgb_b := 0 |};
     tag_name := str "walk"; tag_userData := None |}.

Definition walkLayer : Layer :=
  {| layer_flags := 1; layer_type := LayerType.Normal; layer_childLevel := 0;
     layer_defaultWidth := 0; layer_defaultHeight := 0; layer_blendMode := 0;
     layer_opacity := 255; layer_name := str "walk";
     layer_tilesetIndex := None; layer_userData := None |}.

(** The property values with a fixed-width binary form that the encoder
    writes completely: null, booleans, integers from [-2^31] up to
    [2^32 - 1], big integers of 64 bits, points, sizes and rectangles of
    32-bit coordinates. *)
Definition scalar_property (value : PropertyValue) : Prop :=
  match value with
  | PNull => True
  | PBool _ => True
  | PNumber (NInt z) => - 2 ^ 31 <= z < 2 ^ 32
  | PBigInt z => - 2 ^ 63 <= z < 2 ^ 64
  | PPoint x y => is_signed 32 x /\ is_signed 32 y
  | PSize width height => is_signed 32 width /\ is_signed 32 height
  | PRect x y width height =>
      is_signed 32 x /\ is_signed 32 y
      /\ is_signed 32 width /\ is_signed 32 height
  | _ => False
  end.

(* ================================================================== *)
(** * Validation ([src/util/validate.ts]) *)

Module ColorDepth.
Definition RGBA : Z := 32.
Definition Grayscale : Z := 16.
Definition Indexed : Z := 8.
End ColorDepth.

Module ValidationSeverity.
Inductive t := Error | Warning | Info.
End ValidationSeverity.

(** The issue codes: the string literals of the validator. *)
Inductive IssueCode :=
| INVALID_DIMENSIONS
| INVALID_COLOR_DEPTH
| NO_FRAMES
| FRAME_COUNT_MISMATCH
| ZERO_PIXEL_RATIO
| NO_LAYERS
| UNKNOWN_LAYER_TYPE
| INVALID_CHILD_LEVEL
| INVALID_OPACITY
| MISSING_TILESET_REFERENCE
| ZERO_DURATION
| INVALID_LAYER_INDEX
| INVALID_LINKED_FRAME
| FORWARD_LINKED_CEL
| INVALID_CEL_OPACITY
| MISSING_PALETTE
| EMPTY_PALETTE
| INVALID_TRANSPARENT_INDEX
| INVALID_TAG_RANGE
| EMPTY_TAG_NAME
| EMPTY_SLICE_NAME
| EMPTY_SLICE_KEYS
| INVALID_SLICE_KEY_FRAME
| INVALID_SLICE_DIMENSIONS
| DUPLICATE_TILESET_ID
| INVALID_TILE_DIMENSIONS
| EMPTY_TILESET.

Definition IssueCode_eqb (a b : IssueCode) : bool :=
  match a, b with
  | INVALID_DIMENSIONS, INVALID_DIMENSIONS
  | INVALID_COLOR_DEPTH, INVALID_COLOR_DEPTH
  | NO_FRAMES, NO_FRAMES
  | FRAME_COUNT_MISMATCH, FRAME_COUNT_MISMATCH
  | ZERO_PIXEL_RATIO, ZERO_PIXEL_RATIO
  | NO_LAYERS, NO_LAYERS
  | UNKNOWN_LAYER_TYPE, UNKNOWN_LAYER_TYPE
  | INVALID_CHILD_LEVEL, INVALID_CHILD_LEVEL
  | INVALID_OPACITY, INVALID_OPACITY
  | MISSING_TILESET_REFERENCE, MISSING_TILESET_REFERENCE
  | ZERO_DURATION, ZERO_DURATION
  | INVALID_LAYER_INDEX, INVALID_LAYER_INDEX
  | INVALID_LINKED_FRAME, INVALID_LINKED_FRAME
  | FORWARD_LINKED_CEL, FORWARD_LINKED_CEL
  | INVALID_CEL_OPACITY, INVALID_CEL_OPACITY
  | MISSING_PALETTE, MISSING_PALETTE
  | EMPTY_PALETTE, EMPTY_PALETTE
  | INVALID_TRANSPARENT_INDEX, INVALID_TRANSPARENT_INDEX
  | INVALID_TAG_RANGE, INVALID_TAG_RANGE
  | EMPTY_TAG_NAME, EMPTY_TAG_NAME
  | EMPTY_SLICE_NAME, EMPTY_SLICE_NAME
  | EMPTY_SLICE_KEYS, EMPTY_SLICE_KEYS
  | INVALID_SLICE_KEY_FRAME, INVALID_SLICE_KEY_FRAME
  | INVALID_SLICE_DIMENSIONS, INVALID_SLICE_DIMENSIONS
  | DUPLICATE_TILESET_ID, DUPLICATE_TILESET_ID
  | INVALID_TILE_DIMENSIONS, INVALID_TILE_DIMENSIONS
  | EMPTY_TILESET, EMPTY_TILESET => true
  | _, _ => false
  end.

(** The messages: each template of the validator with the values it
    interpolates. *)
Inductive IssueMessage :=
| InvalidSpriteDimensions (width height : Z)
| InvalidColorDepth (colorDepth : Z)
| FileHasNoFrames
| HeaderFrameCountMismatch (frameCount actual : Z)
| PixelRatioZero
| FileHasNoLayers
| LayerUnknownType (i : Z) (name : JsString) (type : Z)
| LayerChildLevelJump (i : Z) (name : JsString) (childLevel : Z)
| LayerInvalidOpacity (i : Z) (name : JsString) (opacity : Z)
| TilemapLayerNoTileset (i : Z) (name : JsString)
| FrameZeroDuration (frameIdx durationMs : Z)
| CelInvalidLayerIndex (frameIdx layerIndex : Z)
| LinkedCelInvalidFrame (frameIdx linkedFrameIndex : Z)
| LinkedCelForwardFrame (frameIdx linkedFrameIndex : Z)
| CelInvalidOpacity (frameIdx opacity : Z)
| IndexedNeedsPalette
| PaletteNoEntries
| TransparentIndexExceeds (transparentIndex size : Z)
| TagInvalidStart (name : JsString) (fromFrame : Z)
| TagInvalidEnd (name : JsString) (toFrame : Z)
| TagInvertedRange (name : JsString) (fromFrame toFrame : Z)
| TagEmptyName (i : Z)
| SliceEmptyName
| SliceNoKeys (name : JsString)
| SliceKeyInvalidFrame (name : JsString) (frameIndex : Z)
| SliceKeyInvalidDimensions (name : JsString) (width height : Z)
| DuplicateTilesetId (id : Z)
| TilesetInvalidDimensions (name : JsString) (tileWidth tileHeight : Z)
| TilesetNoTiles (name : JsString).

Record IssueLocation := {
  loc_offset : option Z;
  loc_frameIndex : option Z;
  loc_layerIndex : option Z;
  loc_chunkType : option Z
}.

Record ValidationIssue := {
  issue_severity : ValidationSeverity.t;
  issue_code : IssueCode;
  issue_message : IssueMessage;
  issue_location : option IssueLocation
}.

Definition issue (severity : ValidationSeverity.t) (code : IssueCode)
    (message : IssueMessage) : ValidationIssue :=
  {| issue_severity := severity; issue_code := code;
     issue_message := message; issue_location := None |}.

Definition issueAtFrame (severity : ValidationSeverity.t) (code : IssueCode)
    (message : IssueMessage) (frameIdx : Z) : ValidationIssue :=
  {| issue_severity := severity; issue_code := code;
     issue_message := message;
     issue_location := Some {| loc_offset := None;
                               loc_frameIndex := Some frameIdx;
                               loc_layerIndex := None;
                               loc_chunkType := None |} |}.

Definition issueAtLayer (severity : ValidationSeverity.t) (code : IssueCode)
    (message : IssueMessage) (i : Z) : ValidationIssue :=
  {| issue_severity := severity; issue_code := code;
     issue_message := message;
     issue_location := Some {| loc_offset := None;
                               loc_frameIndex := None;
                               loc_layerIndex := Some i;
                               loc_chunkType := None |} |}.

(** [if (cond) issues.push(x)] *)
Definition push_if (cond : bool) (x : ValidationIssue)
    (issues : list ValidationIssue) : list ValidationIssue :=
  if cond then issues ++ [x] else issues.

Definition is_none {A} (o : option A) : bool :=
  match o with None => true | Some _ => false end.

(** [validateHeader] *)
Definition validateHeader (file : AsepriteFile) (issues : list ValidationIssue)
    : list ValidationIssue :=
  let header := file_header file in
  let issues :=
    push_if ((hdr_width header <=? 0) || (hdr_height header <=? 0))
      (issue ValidationSeverity.Error INVALID_DIMENSIONS
         (InvalidSpriteDimensions (hdr_width header) (hdr_height header)))
      issues in
  let issues :=
    push_if (negb (existsb (Z.eqb (hdr_colorDepth header)) [8; 16; 32]))
      (issue ValidationSeverity.Error INVALID_COLOR_DEPTH
         (InvalidColorDepth (hdr_colorDepth header)))
      issues in
  let issues :=
    push_if (hdr_frameCount header <=? 0)
      (issue ValidationSeverity.Error NO_FRAMES FileHasNoFrames)
      issues in
  let issues :=
    push_if (negb (hdr_frameCount header
                   =? Z.of_nat (length (file_frames file))))
      (issue ValidationSeverity.Warning FRAME_COUNT_MISMATCH
         (HeaderFrameCountMismatch (hdr_frameCount header)
            (Z.of_nat (length (file_frames file)))))
      issues in
  push_if ((hdr_pixelWidth header =? 0) || (hdr_pixelHeight header =? 0))
    (issue ValidationSeverity.Info ZERO_PIXEL_RATIO PixelRatioZero)
    issues.

(** The loop of [validateLayers]; [i] is the index of the first layer of
    [layers]. *)
Fixpoint validateLayers_loop (layers : list Layer) (i maxChildLevel : Z)
    (issues : list ValidationIssue) : list ValidationIssue :=
  match layers with
  | [] => issues
  | layer :: rest =>
      let issues :=
        push_if (negb (existsb (Z.eqb (layer_type layer))
                         [LayerType.Normal; LayerType.Group; LayerType.Tilemap]))
          (issueAtLayer ValidationSeverity.Warning UNKNOWN_LAYER_TYPE
             (LayerUnknownType i (layer_name layer) (layer_type layer)) i)
          issues in
      let issues :=
        push_if (layer_childLevel layer >? maxChildLevel + 1)
          (issueAtLayer ValidationSeverity.Warning INVALID_CHILD_LEVEL
             (LayerChildLevelJump i (layer_name layer) (layer_childLevel layer))
             i)
          issues in
      let maxChildLevel :=
        if layer_type layer =? LayerType.Group
        then layer_childLevel layer + 1
        else layer_childLevel layer in
      let issues :=
        push_if (layer_opacity layer >? 255)
          (issueAtLayer ValidationSeverity.Warning INVALID_OPACITY
             (LayerInvalidOpacity i (layer_name layer) (layer_opacity layer)) i)
          issues in
      let issues :=
        push_if ((layer_type layer =? LayerType.Tilemap)
                 && is_none (layer_tilesetIndex layer))
          (issueAtLayer ValidationSeverity.Error MISSING_TILESET_REFERENCE
             (TilemapLayerNoTileset i (layer_name layer)) i)
          issues in
      validateLayers_loop rest (i + 1) maxChildLevel issues
  end.

(** [validateLayers] *)
Definition validateLayers (file : AsepriteFile) (issues : list ValidationIssue)
    : list ValidationIssue :=
  if Z.of_nat (length (file_layers file)) =? 0 then
    issues ++ [issue ValidationSeverity.Warning NO_LAYERS FileHasNoLayers]
  else validateLayers_loop (file_layers file) 0 0 issues.

(** The body of the loop over a frame's cels in [validateFrames]. *)
Definition validateCel (file : AsepriteFile) (frameIdx : Z)
    (issues : list ValidationIssue) (cel : Cel) : list ValidationIssue :=
  let issues :=
    push_if ((cel_layerIndex cel <? 0)
             || (cel_layerIndex cel >=? Z.of_nat (length (file_layers file))))
      (issueAtFrame ValidationSeverity.Error INVALID_LAYER_INDEX
         (CelInvalidLayerIndex frameIdx (cel_layerIndex cel)) frameIdx)
      issues in
  let issues :=
    match cel_variant cel with
    | LinkedCel linkedFrameIndex =>
        if (linkedFrameIndex <? 0)
           || (linkedFrameIndex >=? Z.of_nat (length (file_frames file)))
        then
          issues ++ [issueAtFrame ValidationSeverity.Error INVALID_LINKED_FRAME
                       (LinkedCelInvalidFrame frameIdx linkedFrameIndex)
                       frameIdx]
        else if linkedFrameIndex >=? frameIdx then
          issues ++ [issueAtFrame ValidationSeverity.Warning FORWARD_LINKED_CEL
                       (LinkedCelForwardFrame frameIdx linkedFrameIndex)
                       frameIdx]
        else issues
    | _ => issues
    end in
  push_if (cel_opacity cel >? 255)
    (issueAtFrame ValidationSeverity.Warning INVALID_CEL_OPACITY
       (CelInvalidOpacity frameIdx (cel_opacity cel)) frameIdx)
    issues.

(** The loop of [validateFrames]; [frameIdx] is the index of the first
    frame of [frames]. *)
Fixpoint validateFrames_loop (file : AsepriteFile) (frames : list Frame)
    (frameIdx : Z) (issues : list ValidationIssue) : list ValidationIssue :=
  match frames with
  | [] => issues
  | frame :: rest =>
      let issues :=
        push_if (frame_durationMs frame <=? 0)
          (issueAtFrame ValidationSeverity.Warning ZERO_DURATION
             (FrameZeroDuration frameIdx (frame_durationMs frame)) frameIdx)
          issues in
      let issues :=
        fold_left (validateCel file frameIdx) (frame_cels frame) issues in
      validateFrames_loop file rest (frameIdx + 1) issues
  end.

(** [validateFrames] *)
Definition validateFrames (file : AsepriteFile) (issues : list ValidationIssue)
    : list ValidationIssue :=
  validateFrames_loop file (file_frames file) 0 issues.

(** [validatePalette] *)
Definition validatePalette (file : AsepriteFile) (issues : list ValidationIssue)
    : list ValidationIssue :=
  let issues :=
    push_if ((hdr_colorDepth (file_header file) =? ColorDepth.Indexed)
             && is_none (file_palette file))
      (issue ValidationSeverity.Error MISSING_PALETTE IndexedNeedsPalette)
      issues in
  match file_palette file with
  | Some palette =>
      let issues :=
        push_if (Z.of_nat (length (pal_entries palette)) =? 0)
          (issue ValidationSeverity.Warning EMPTY_PALETTE PaletteNoEntries)
          issues in
      if hdr_colorDepth (file_header file) =? ColorDepth.Indexed then
        push_if (hdr_transparentIndex (file_header file) >=? pal_size palette)
          (issue ValidationSeverity.Warning INVALID_TRANSPARENT_INDEX
             (TransparentIndexExceeds (hdr_transparentIndex (file_header file))
                (pal_size palette)))
          issues
      else issues
  | None => issues
  end.

(** White space and line terminators, the code units that
    [String.prototype.trim] removes. *)
Definition is_white_space (c : Z) : bool :=
  existsb (Z.eqb c)
    [9; 10; 11; 12; 13; 32; 160; 5760; 8232; 8233; 8239; 8287; 12288; 65279]
  || ((8192 <=? c) && (c <=? 8202)).

Fixpoint trim_start (s : JsString) : JsString :=
  match s with
  | [] => []
  | c :: rest => if is_white_space c then trim_start rest else s
  end.

(** [String.prototype.trim] *)
Definition trim (s : JsString) : JsString :=
  rev (trim_start (rev (trim_start s))).

(** [!name || name.trim() === ""] *)
Definition blank_name (name : JsString) : bool :=
  (Z.of_nat (length name) =? 0) || (Z.of_nat (length (trim name)) =? 0).

(** The loop of [validateTags]; [i] is the index of the first tag of
    [tags]. *)
Fixpoint validateTags_loop (frameCount : Z) (tags : list Tag) (i : Z)
    (issues : list ValidationIssue) : list ValidationIssue :=
  match tags with
  | [] => issues
  | tag :: rest =>
      let issues :=
        push_if ((tag_fromFrame tag <? 0) || (tag_fromFrame tag >=? frameCount))
          (issue ValidationSeverity.Error INVALID_TAG_RANGE
             (TagInvalidStart (tag_name tag) (tag_fromFrame tag)))
          issues in
      let issues :=
        push_if ((tag_toFrame tag <? 0) || (tag_toFrame tag >=? frameCount))
          (issue ValidationSeverity.Error INVALID_TAG_RANGE
             (TagInvalidEnd (tag_name tag) (tag_toFrame tag)))
          issues in
      let issues :=
        push_if (tag_fromFrame tag >? tag_toFrame tag)
          (issue ValidationSeverity.Error INVALID_TAG_RANGE
             (TagInvertedRange (tag_name tag) (tag_fromFrame tag)
                (tag_toFrame tag)))
          issues in
      let issues :=
        push_if (blank_name (tag_name tag))
          (issue ValidationSeverity.Warning EMPTY_TAG_NAME (TagEmptyName i))
          issues in
      validateTags_loop frameCount rest (i + 1) issues
  end.

(** [validateTags] *)
Definition validateTags (file : AsepriteFile) (issues : list ValidationIssue)
    : list ValidationIssue :=
  match file_tags file with
  | None => issues
  | Some tags =>
      validateTags_loop (Z.of_nat (length (file_frames file))) tags 0 issues
  end.

(** The body of the loop over a slice's keys in [validateSlices]. *)
Definition validateSliceKey (frameCount : Z) (slice : Slice)
    (issues : list ValidationIssue) (key : SliceKey) : list ValidationIssue :=
  let issues :=
    push_if ((key_frameIndex key <? 0) || (key_frameIndex key >=? frameCount))
      (issue ValidationSeverity.Error INVALID_SLICE_KEY_FRAME
         (SliceKeyInvalidFrame (slice_name slice) (key_frameIndex key)))
      issues in
  push_if ((key_width key <=? 0) || (key_height key <=? 0))
    (issue ValidationSeverity.Warning INVALID_SLICE_DIMENSIONS
       (SliceKeyInvalidDimensions (slice_name slice) (key_width key)
          (key_height key)))
    issues.

Definition validateSlice (frameCount : Z) (issues : list ValidationIssue)
    (slice : Slice) : list ValidationIssue :=
  let issues :=
    push_if (blank_name (slice_name slice))
      (issue ValidationSeverity.Warning EMPTY_SLICE_NAME SliceEmptyName)
      issues in
  let issues :=
    push_if (Z.of_nat (length (slice_keys slice)) =? 0)
      (issue ValidationSeverity.Warning EMPTY_SLICE_KEYS
         (SliceNoKeys (slice_name slice)))
      issues in
  fold_left (validateSliceKey frameCount slice) (slice_keys slice) issues.

(** [validateSlices] *)
Definition validateSlices (file : AsepriteFile) (issues : list ValidationIssue)
    : list ValidationIssue :=
  match file_slices file with
  | None => issues
  | Some slices =>
      fold_left (validateSlice (Z.of_nat (length (file_frames file))))
        slices issues
  end.

(** The loop of [validateTilesets]; [tilesetIds] is the set of the ids
    seen so far. *)
Fixpoint validateTilesets_loop (tilesets : list Tileset) (tilesetIds : list Z)
    (issues : list ValidationIssue) : list ValidationIssue :=
  match tilesets with
  | [] => issues
  | tileset :: rest =>
      let issues :=
        push_if (existsb (Z.eqb (ts_id tileset)) tilesetIds)
          (issue ValidationSeverity.Error DUPLICATE_TILESET_ID
             (DuplicateTilesetId (ts_id tileset)))
          issues in
      let tilesetIds := ts_id tileset :: tilesetIds in
      let issues :=
        push_if ((ts_tileWidth tileset <=? 0) || (ts_tileHeight tileset <=? 0))
          (issue ValidationSeverity.Error INVALID_TILE_DIMENSIONS
             (TilesetInvalidDimensions (ts_name tileset) (ts_tileWidth tileset)
                (ts_tileHeight tileset)))
          issues in
      let issues :=
        push_if (ts_tileCount tileset <=? 0)
          (issue ValidationSeverity.Warning EMPTY_TILESET
             (TilesetNoTiles (ts_name tileset)))
          issues in
      validateTilesets_loop rest tilesetIds issues
  end.

(** [validateTilesets] *)
Definition validateTilesets (file : AsepriteFile) (issues : list ValidationIssue)
    : list ValidationIssue :=
  match file_tilesets file with
  | None => issues
  | Some tilesets => validateTilesets_loop tilesets [] issues
  end.

(** [validateAseprite] *)
Definition validateAseprite (file : AsepriteFile) : list ValidationIssue :=
  let issues := [] in
  let issues := validateHeader file issues in
  let issues := validateLayers file issues in
  let issues := validateFrames file issues in
  let issues := validatePalette file issues in
  let issues := validateTags file issues in
  let issues := validateSlices file issues in
  let issues := validateTilesets file issues in
  issues.

(** An issue with the given code is in the list; [validateAseprite]
    reports the code for the file. *)
Definition has_code (code : IssueCode) (issues : list ValidationIssue) : bool :=
  existsb (fun x => IssueCode_eqb (issue_code x) code) issues.

Definition reports (file : AsepriteFile) (code : IssueCode) : bool :=
  has_code code (validateAseprite file).

(** The codes of each section of the validator. *)
Definition headerCodes : list IssueCode :=
  [INVALID_DIMENSIONS; INVALID_COLOR_DEPTH; NO_FRAMES; FRAME_COUNT_MISMATCH;
   ZERO_PIXEL_RATIO].
Definition layerCodes : list IssueCode :=
  [NO_LAYERS; UNKNOWN_LAYER_TYPE; INVALID_CHILD_LEVEL; INVALID_OPACITY;
   MISSING_TILESET_REFERENCE].
Definition frameCodes : list IssueCode :=
  [ZERO_DURATION; INVALID_LAYER_INDEX; INVALID_LINKED_FRAME; FORWARD_LINKED_CEL;
   INVALID_CEL_OPACITY].
Definition paletteCodes : list IssueCode :=
  [MISSING_PALETTE; EMPTY_PALETTE; INVALID_TRANSPARENT_INDEX].
Definition tagCodes : list IssueCode := [INVALID_TAG_RANGE; EMPTY_TAG_NAME].
Definition sliceCodes : list IssueCode :=
  [EMPTY_SLICE_NAME; EMPTY_SLICE_KEYS; INVALID_SLICE_KEY_FRAME;
   INVALID_SLICE_DIMENSIONS].
Definition tilesetCodes : list IssueCode :=
  [DUPLICATE_TILESET_ID; INVALID_TILE_DIMENSIONS; EMPTY_TILESET].

(** A step of the validator that only appends issues, all with codes of
    [codes]. *)
Definition emits (codes : list IssueCode)
    (f : list ValidationIssue -> list ValidationIssue) : Prop :=
  (forall issues, f issues = issues ++ f [])
  /\ Forall (fun x => In (issue_code x) codes) (f []).

(** The validator's verdict on the link of one cel of frame [frameIdx]. *)
Definition linkIssue (file : AsepriteFile) (frameIdx : Z) (cel : Cel)
    : option IssueCode :=
  match cel_variant cel with
  | LinkedCel linkedFrameIndex =>
      if (linkedFrameIndex <? 0)
         || (linkedFrameIndex >=? Z.of_nat (length (file_frames file)))
      then Some INVALID_LINKED_FRAME
      else if linkedFrameIndex >=? frameIdx then Some FORWARD_LINKED_CEL
      else None
  | _ => None
  end.

(** Every Linked cel stored in the file points to an existing, earlier
    frame. *)
Definition linksValid (file : AsepriteFile) : Prop :=
  forall (i : nat) (frame : Frame) (c : Cel) (k : Z),
    nth_error (file_frames file) i = Some frame ->
    In c (frame_cels frame) ->
    cel_variant c = LinkedCel k ->
    0 <= k < Z.of_nat i.

(** A cel stored in some frame of the file. *)
Definition storedCel (file : AsepriteFile) (c : Cel) : Prop :=
  exists i frame,
    nth_error (file_frames file) i = Some frame /\ In c (frame_cels frame).

(** A link whose target frame exists but holds no cel on the cel's
    layer. *)
Definition danglingLink (file : AsepriteFile) (c : Cel) : Prop :=
  exists k frame,
    cel_variant c = LinkedCel k
    /\ nth_error (file_frames file) (Z.to_nat k) = Some frame
    /\ array_find (fun x => cel_layerIndex x =? cel_layerIndex c)
                  (frame_cels frame) = None.

(** Four empty frames and the tag "walk" over them. *)
Definition taggedFile : AsepriteFile :=
  {| file_header := emptyHeader;
     file_frames := [mkFrame []; mkFrame []; mkFrame []; mkFrame []];
     file_layers := []; file_tags := Some [walkTag]; file_slices := None;
     file_palette := None; file_tilesets := None; file_colorProfile := None;
     file_externalFiles := None; file_userData := None;
     file_unknownChunks := None |}.

(** A cel as the decoder stores it, with fields that fit their widths:
    the pixel data of a raw cel is of kind "raw", that of a compressed
    cel of kind "zlib", and nothing has been decoded yet. *)
Definition cel_in_range (cel : Cel) : Prop :=
  is_unsigned 16 (cel_layerIndex cel)
  /\ is_signed 16 (cel_x cel)
  /\ is_signed 16 (cel_y cel)
  /\ is_unsigned 8 (cel_opacity cel)
  /\ is_signed 16 (cel_zIndex cel)
  /\ match cel_variant cel with
     | RawImageCel width height data =>
         is_unsigned 16 width /\ is_unsigned 16 height
         /\ cid_kind data = KindRaw /\ cid_decoded data = None
     | LinkedCel linkedFrameIndex => is_unsigned 16 linkedFrameIndex
     | CompressedImageCel width height data =>
         is_unsigned 16 width /\ is_unsigned 16 height
         /\ cid_kind data = KindZlib /\ cid_decoded data = None
     | CompressedTilemapCel width height bitsPerTile masks data decodedTiles =>
         is_unsigned 16 width /\ is_unsigned 16 height
         /\ is_unsigned 16 bitsPerTile
         /\ is_unsigned 32 (tileIdMask masks)
         /\ is_unsigned 32 (xFlipMask masks)
         /\ is_unsigned 32 (yFlipMask masks)
         /\ is_unsigned 32 (rotationMask masks)
         /\ cid_kind data = KindZlib /\ cid_decoded data = None
         /\ decodedTiles = None
     end.

(** A cel as the Cel chunk holds it: without user data and extra, which
    travel in chunks of their own. *)
Definition cel_without_attachments (cel : Cel) : Cel :=
  {| cel_layerIndex := cel_layerIndex cel; cel_x := cel_x cel;
     cel_y := cel_y cel; cel_opacity := cel_opacity cel;
     cel_zIndex := cel_zIndex cel; cel_userData := None; cel_extra := None;
     cel_variant := cel_variant cel |}.

(* ================================================================== *)
(** * Cel pixel decoding ([src/util/decode.ts], [src/util/zlib.ts]) *)

Record DecodeOptions := {
  dec_compression : option CompressionProvider
}.

Record DecodedCelPixels := {
  dcp_width : Z;
  dcp_height : Z;
  dcp_colorDepth : Z;
  dcp_pixels : Bytes
}.

Record DecodedTilemap := {
  dtm_width : Z;
  dtm_height : Z;
  dtm_tiles : list Z;
  dtm_masks : TilemapMasks
}.

(** What [decodeTilemap] throws: the rejection of the provider, the
    [RangeError] of a typed array or of the [DataView], or its own plain
    [Error] for a tile width it has no case for. *)
Inductive TilemapError :=
| ProviderRejected (e : JsError)
| TilemapRangeError
| UnsupportedBitsPerTile (bitsPerTile : Z).

Inductive TilemapResult (A : Type) :=
| TilemapOk (a : A)
| TilemapThrow (e : TilemapError).
Arguments TilemapOk {A} a.
Arguments TilemapThrow {A} e.

Section Decode.
(** The provider built on the platform's compression streams
    ([defaultCompressionProvider]). *)
Variable defaultCompressionProvider : CompressionProvider.

(** [getCompressionProvider] *)
Definition getCompressionProvider (provider : option CompressionProvider)
    : CompressionProvider :=
  match provider with
  | Some p => p
  | None => defaultCompressionProvider
  end.

(** [opts?.compression] *)
Definition opts_compression (opts : option DecodeOptions)
    : option CompressionProvider :=
  match opts with
  | Some o => dec_compression o
  | None => None
  end.

(** [compressedCel.data.decoded = decoded] *)
Definition set_decoded (cel : Cel) (decoded : Bytes) : Cel :=
  match cel_variant cel with
  | CompressedImageCel width height data =>
      {| cel_layerIndex := cel_layerIndex cel; cel_x := cel_x cel;
         cel_y := cel_y cel; cel_opacity := cel_opacity cel;
         cel_zIndex := cel_zIndex cel; cel_userData := cel_userData cel;
         cel_extra := cel_extra cel;
         cel_variant :=
           CompressedImageCel width height
             {| cid_kind := cid_kind data; cid_bytes := cid_bytes data;
                cid_decoded := Some decoded |} |}
  | _ => cel
  end.

(** [decodeCelPixels].  The function calls itself on the cel a link points
    to; [fuel] bounds the depth of these calls, as for [resolveLinkedCel].
    Beside the pixels the result holds the cel that supplied them as the
    call leaves it: a compressed cel that had to be inflated has its
    [data.decoded] set. *)
Fixpoint decodeCelPixels (fuel : nat) (file : AsepriteFile) (cel : Cel)
    (opts : option DecodeOptions) : option (Result (DecodedCelPixels * Cel)) :=
  let compression := getCompressionProvider (opts_compression opts) in
  match fuel with
  | O => None
  | S fuel' =>
      match cel_variant cel with
      | RawImageCel width height data =>
          Some (Ok ({| dcp_width := width; dcp_height := height;
                       dcp_colorDepth := hdr_colorDepth (file_header file);
                       dcp_pixels := cid_bytes data |}, cel))
      | CompressedImageCel width height data =>
          match cid_decoded data with
          | Some decoded =>
              Some (Ok ({| dcp_width := width; dcp_height := height;
                           dcp_colorDepth := hdr_colorDepth (file_header file);
                           dcp_pixels := decoded |}, cel))
          | None =>
              match inflateZlib compression (cid_bytes data) with
              | Ok decoded =>
                  Some (Ok ({| dcp_width := width; dcp_height := height;
                               dcp_colorDepth :=
                                 hdr_colorDepth (file_header file);
                               dcp_pixels := decoded |},
                            set_decoded cel decoded))
              | Throw _ => Some (Throw (AseFormatError DECOMPRESSION_FAILED))
              end
          end
      | LinkedCel linkedFrameIndex =>
          if (linkedFrameIndex <? 0)
             || (linkedFrameIndex >=? Z.of_nat (length (file_frames file)))
          then Some (Throw (AseFormatError INVALID_LINKED_CEL))
          else
            match nth_error (file_frames file) (Z.to_nat linkedFrameIndex) with
            | None => Some (Throw RuntimeError)
            | Some linkedFrame =>
                match array_find
                        (fun c => cel_layerIndex c =? cel_layerIndex cel)
                        (frame_cels linkedFrame) with
                | None => Some (Throw (AseFormatError INVALID_LINKED_CEL))
                | Some linkedCel => decodeCelPixels fuel' file linkedCel opts
                end
            end
      | CompressedTilemapCel _ _ _ _ _ _ =>
          Some (Throw (AseFormatError INVALID_CEL_TYPE))
      end
  end.

(** One turn of the tile loop of [decodeTilemap]: the tile at index [i],
    read through the [DataView] over the inflated bytes. *)
Definition readTile (bitsPerTile : Z) (decompressed : Bytes) (i : Z)
    : TilemapResult Z :=
  let read (size : nat) :=
    match view_get size {| rd_data := decompressed;
                           rd_offset := i * Z.of_nat size |} with
    | Ok v => TilemapOk v
    | Throw _ => TilemapThrow TilemapRangeError
    end in
  if bitsPerTile =? 8 then read 1%nat
  else if bitsPerTile =? 16 then read 2%nat
  else if bitsPerTile =? 32 then read 4%nat
  else TilemapThrow (UnsupportedBitsPerTile bitsPerTile).

(** [for (let i = 0; i < tileCount; i++) tiles[i] = ...], from index [i]
    on. *)
Fixpoint readTiles (count : nat) (bitsPerTile : Z) (decompressed : Bytes)
    (i : Z) : TilemapResult (list Z) :=
  match count with
  | O => TilemapOk []
  | S count' =>
      match readTile bitsPerTile decompressed i with
      | TilemapThrow e => TilemapThrow e
      | TilemapOk v =>
          match readTiles count' bitsPerTile decompressed (i + 1) with
          | TilemapThrow e => TilemapThrow e
          | TilemapOk rest => TilemapOk (v :: rest)
          end
      end
  end.

(** [decodeTilemap], on the fields of a tilemap cel.  Beside the decoded
    tilemap the result holds the cel's [decodedTiles] as the call leaves
    it. *)
Definition decodeTilemap (width height bitsPerTile : Z) (masks : TilemapMasks)
    (data : CelImageData) (decodedTiles : option (list Z))
    (compression : option CompressionProvider)
    : TilemapResult (DecodedTilemap * option (list Z)) :=
  let provider := getCompressionProvider compression in
  match decodedTiles with
  | Some tiles =>
      TilemapOk ({| dtm_width := width; dtm_height := height;
                    dtm_tiles := tiles; dtm_masks := masks |}, decodedTiles)
  | None =>
      match inflateZlib provider (cid_bytes data) with
      | Throw e => TilemapThrow (ProviderRejected e)
      | Ok decompressed =>
          let tileCount := width * height in
          if tileCount <? 0 then TilemapThrow TilemapRangeError
          else
            match readTiles (Z.to_nat tileCount) bitsPerTile decompressed 0 with
            | TilemapThrow e => TilemapThrow e
            | TilemapOk tiles =>
                TilemapOk ({| dtm_width := width; dtm_height := height;
                              dtm_tiles := tiles; dtm_masks := masks |},
                           Some tiles)
            end
      end
  end.









(* ================================================================== *)
(** * Tileset utilities ([src/util/tile.ts]) *)

(** [getTilesetById] *)
Definition getTilesetById (file : AsepriteFile) (tilesetId : Z)
    : option Tileset :=
  match file_tilesets file with
  | None => None
  | Some tilesets => array_find (fun t => ts_id t =? tilesetId) tilesets
  end.

(** [getTilesetByName] *)
Definition getTilesetByName (file : AsepriteFile) (name : JsString)
    : option Tileset :=
  match file_tilesets file with
  | None => None
  | Some tilesets => array_find (fun t => jsstr_eqb (ts_name t) name) tilesets
  end.

(** [tileset.decodedPixels = decoded] *)
Definition set_decodedPixels (tileset : Tileset) (decoded : Bytes) : Tileset :=
  {| ts_id := ts_id tileset; ts_flags := ts_flags tileset;
     ts_tileCount := ts_tileCount tileset; ts_tileWidth := ts_tileWidth tileset;
     ts_tileHeight := ts_tileHeight tileset; ts_baseIndex := ts_baseIndex tileset;
     ts_name := ts_name tileset;
     ts_externalFileId := ts_externalFileId tileset;
     ts_externalTilesetId := ts_externalTilesetId tileset;
     ts_compressedData := ts_compressedData tileset;
     ts_decodedPixels := Some decoded;
     ts_userData := ts_userData tileset;
     ts_tileUserData := ts_tileUserData tileset |}.

(** [decodeTilesetPixels]: the pixels, and the tileset as the call leaves
    it. *)
Definition decodeTilesetPixels (tileset : Tileset)
    (compression : option CompressionProvider) : Result (Bytes * Tileset) :=
  match ts_decodedPixels tileset with
  | Some decodedPixels => Ok (decodedPixels, tileset)
  | None =>
      match ts_compressedData tileset with
      | None => Throw (AseFormatError MISSING_TILESET)
      | Some compressedData =>
          let provider := getCompressionProvider compression in
          match inflateZlib provider compressedData with
          | Ok decoded => Ok (decoded, set_decodedPixels tileset decoded)
          | Throw e => Throw e
          end
      end
  end.
End Decode.

(** [getTilePixels]; [colorDepth] is 8, 16 or 32, as its type says, so
    that [colorDepth / 8] is a whole number of bytes. *)
Definition getTilePixels (tileset : Tileset) (tileIndex colorDepth : Z)
    : Result Bytes :=
  match ts_decodedPixels tileset with
  | None => Throw (AseFormatError MISSING_TILESET)
  | Some decodedPixels =>
      let bytesPerPixel := colorDepth / 8 in
      let tilePixelCount := ts_tileWidth tileset * ts_tileHeight tileset in
      let tileBytesSize := tilePixelCount * bytesPerPixel in
      let adjustedIndex := tileIndex - ts_baseIndex tileset in
      if (adjustedIndex <? 0) || (adjustedIndex >=? ts_tileCount tileset)
      then Throw (AseFormatError OUT_OF_BOUNDS)
      else
        let offset := adjustedIndex * tileBytesSize in
        Ok (subarray decodedPixels offset (offset + tileBytesSize))
  end.

(** A tilemap cel of two tiles of 8 bits whose tiles are decoded and
    whose data is not compressed yet, and its data once stored. *)
Definition tilemapCel : Cel :=
  mkCel 0 (CompressedTilemapCel 2 1 8 standardMasks
             {| cid_kind := KindRaw; cid_bytes := []; cid_decoded := None |}
             (Some [1; 2])).

Definition storedTiles : CelImageData :=
  {| cid_kind := KindZlib; cid_bytes := [x01; x02]; cid_decoded := None |}.

(** The [k]-th run of [size] bytes of a pixel array. *)
Definition tileSlice (decodedPixels : Bytes) (size k : Z) : Bytes :=
  firstn (Z.to_nat size) (skipn (Z.to_nat (k * size)) decodedPixels).

(** A tileset of two tiles of 2 by 1 pixels, numbered from 1, with its
    eight bytes of RGBA pixels decoded. *)
Definition twoTiles : Tileset :=
  {| ts_id := 0; ts_flags := 2; ts_tileCount := 2; ts_tileWidth := 2;
     ts_tileHeight := 1; ts_baseIndex := 1; ts_name := str "tiles";
     ts_externalFileId := None; ts_externalTilesetId := None;
     ts_compressedData := None;
     ts_decodedPixels :=
       Some [x01; x02; x03; x04; x05; x06; x07; x08;
             x09; x0a; x0b; x0c; x0d; x0e; x0f; x10];
     ts_userData := None; ts_tileUserData := None |}.


Section RepresentableUserData.
Context {rt : JsRuntime}.

(** User data without properties whose text survives the string codec
    and whose colour components are bytes. *)
Definition userData_in_range (userData : UserData) : Prop :=
  ud_properties userData = None
  /\ match ud_text userData with
     | Some text => string_round_trips text
     | None => True
     end
  /\ match ud_color userData with
     | Some color =>
         is_unsigned 8 (rgba_r color) /\ is_unsigned 8 (rgba_g color)
         /\ is_unsigned 8 (rgba_b color) /\ is_unsigned 8 (rgba_a color)
     | None => True
     end.
End RepresentableUserData.

(** User data as the UserData chunk holds it: an empty text is not
    written. *)
Definition userData_as_stored (userData : UserData) : UserData :=
  {| ud_text := if has_text userData then ud_text userData else None;
     ud_color := ud_color userData;
     ud_properties := ud_properties userData |}.

(** The text "walk" in red, and an empty text. *)
Definition walkUserData : UserData :=
  {| ud_text := Some (str "walk");
     ud_color := Some {| rgba_r := 255; rgba_g := 0; rgba_b := 0;
                         rgba_a := 255 |};
     ud_properties := None |}.

Definition emptyTextUserData : UserData :=
  {| ud_text := Some []; ud_color := None; ud_properties := None |}.

Section RepresentableSlice.
Context {rt : JsRuntime}.

(** A slice key whose fields fit their widths and which has a 9-patch
    centre and a pivot exactly when the slice's flags say so. *)
Definition key_in_range (flags : Z) (key : SliceKey) : Prop :=
  is_unsigned 32 (key_frameIndex key)
  /\ is_signed 32 (key_x key)
  /\ is_signed 32 (key_y key)
  /\ is_unsigned 32 (key_width key)
  /\ is_unsigned 32 (key_height key)
  /\ match key_center key with
     | Some center =>
         has_flag flags SliceFlags.Has9Patch = true
         /\ is_signed 32 (rect_x center) /\ is_signed 32 (rect_y center)
         /\ is_unsigned 32 (rect_width center)
         /\ is_unsigned 32 (rect_height center)
     | None => has_flag flags SliceFlags.Has9Patch = false
     end
  /\ match key_pivot key with
     | Some pivot =>
         has_flag flags SliceFlags.HasPivot = true
         /\ is_signed 32 (pt_x pivot) /\ is_signed 32 (pt_y pivot)
     | None => has_flag flags SliceFlags.HasPivot = false
     end.

Definition slice_in_range (slice : Slice) : Prop :=
  Z.of_nat (length (slice_keys slice)) < 2 ^ 32
  /\ is_unsigned 32 (slice_flags slice)
  /\ string_round_trips (slice_name slice)
  /\ Forall (key_in_range (slice_flags slice)) (slice_keys slice).
End RepresentableSlice.

Definition slice_without_userData (slice : Slice) : Slice :=
  {| slice_name := slice_name slice; slice_flags := slice_flags slice;
     slice_keys := slice_keys slice; slice_userData := None |}.

(** The bytes of one slice key. *)
Definition sliceKeyBytes (flags : Z) (key : SliceKey) : Bytes :=
  encodeSliceKeys [] flags [key].

(** A slice named "walk" with a pivot and one key. *)
Definition pivotSlice : Slice :=
  {| slice_name := str "walk"; slice_flags := SliceFlags.HasPivot;
     slice_keys :=
       [{| key_frameIndex := 0; key_x := -4; key_y := 2; key_width := 8;
           key_height := 8; key_center := None;
           key_pivot := Some {| pt_x := 4; pt_y := -1 |} |}];
     slice_userData := None |}.

(* ================================================================== *)
(* ================================================================== *)
(** * Properties *)

(** ** Bytes and strings *)

Lemma jsstr_eqb_eq a b : jsstr_eqb a b = true <-> a = b.
Proof.
  unfold jsstr_eqb. destruct (list_eq_dec Z.eq_dec a b); split; congruence.
Qed.

Lemma byte_val_range b : 0 <= byte_val b < 256.
Proof.
  unfold byte_val. pose proof (Byte.to_N_bounded b). lia.
Qed.

Lemma byte_val_of_Z z : byte_val (byte_of_Z z) = z mod 256.
Proof.
  unfold byte_val, byte_of_Z.
  assert (H : 0 <= z mod 256 < 256) by (apply Z.mod_pos_bound; lia).
  destruct (Byte.of_N (Z.to_N (z mod 256))) as [b|] eqn:E.
  - apply Byte.to_of_N in E. rewrite E. lia.
  - apply Byte.of_N_None_iff in E. lia.
Qed.


(* ================================================================== *)
(** ** Tag playback ([resolveTagFrameRange]) *)

Section ForPush.
Variables (cond : Z -> bool) (step : Z -> Z).

(** A loop whose condition holds for exactly the first [n] values of the
    counter pushes those [n] values, whatever the number of unrollings it
    is allowed beyond [n]. *)
Lemma for_push_count :
  forall (n fuel : nat) (i : Z) (out : list Z),
    (n <= fuel)%nat ->
    (forall k, (k < n)%nat -> cond (Nat.iter k step i) = true) ->
    cond (Nat.iter n step i) = false ->
    for_push fuel cond step i out
    = out ++ map (fun k => Nat.iter k step i) (seq 0 n).
Proof.
  induction n as [|n IH]; intros fuel i out Hfuel Htrue Hfalse.
  - simpl in Hfalse. destruct fuel; simpl; rewrite ?Hfalse, app_nil_r; reflexivity.
  - destruct fuel as [|fuel]; [lia|].
    pose proof (Htrue 0%nat ltac:(lia)) as H0. simpl in H0.
    simpl for_push. rewrite H0.
    rewrite (IH fuel (step i) (out ++ [i])).
    + rewrite <- app_assoc. simpl. f_equal. f_equal.
      rewrite <- seq_shift, map_map.
      apply map_ext. intro k. rewrite Nat.iter_succ_r. reflexivity.
    + lia.
    + intros k Hk. rewrite <- Nat.iter_succ_r. apply Htrue. lia.
    + rewrite <- Nat.iter_succ_r. exact Hfalse.
Qed.
End ForPush.

Lemma iter_succ k a : Nat.iter k Z.succ a = a + Z.of_nat k.
Proof. induction k; simpl Nat.iter; lia. Qed.

Lemma iter_pred k a : Nat.iter k Z.pred a = a - Z.of_nat k.
Proof. induction k; simpl Nat.iter; lia. Qed.

Lemma for_up_le_fuel a b out fuel :
  (Z.to_nat (b - a + 1) <= fuel)%nat ->
  for_push fuel (fun i => i <=? b) Z.succ a out
  = out ++ spec_ascending a (Z.to_nat (b - a + 1)).
Proof.
  intro H. rewrite for_push_count with (n := Z.to_nat (b - a + 1)); auto.
  - unfold spec_ascending. f_equal. apply map_ext. intro. apply iter_succ.
  - intros k Hk. rewrite iter_succ. apply Z.leb_le. lia.
  - rewrite iter_succ. apply Z.leb_gt. lia.
Qed.

Lemma for_down_ge_fuel a b out fuel :
  (Z.to_nat (a - b + 1) <= fuel)%nat ->
  for_push fuel (fun i => i >=? b) Z.pred a out
  = out ++ spec_descending a (Z.to_nat (a - b + 1)).
Proof.
  intro H. rewrite for_push_count with (n := Z.to_nat (a - b + 1)); auto.
  - unfold spec_descending. f_equal. apply map_ext. intro. apply iter_pred.
  - intros k Hk. rewrite iter_pred. apply Z.geb_le. lia.
  - rewrite iter_pred. rewrite Z.geb_leb. apply Z.leb_gt. lia.
Qed.

Lemma for_down_gt_fuel a b out fuel :
  (Z.to_nat (a - b) <= fuel)%nat ->
  for_push fuel (fun i => i >? b) Z.pred a out
  = out ++ spec_descending a (Z.to_nat (a - b)).
Proof.
  intro H. rewrite for_push_count with (n := Z.to_nat (a - b)); auto.
  - unfold spec_descending. f_equal. apply map_ext. intro. apply iter_pred.
  - intros k Hk. rewrite iter_pred. rewrite Z.gtb_ltb. apply Z.ltb_lt. lia.
  - rewrite iter_pred. rewrite Z.gtb_ltb. apply Z.ltb_ge. lia.
Qed.

Lemma for_up_lt_fuel a b out fuel :
  (Z.to_nat (b - a) <= fuel)%nat ->
  for_push fuel (fun i => i <? b) Z.succ a out
  = out ++ spec_ascending a (Z.to_nat (b - a)).
Proof.
  intro H. rewrite for_push_count with (n := Z.to_nat (b - a)); auto.
  - unfold spec_ascending. f_equal. apply map_ext. intro. apply iter_succ.
  - intros k Hk. rewrite iter_succ. apply Z.ltb_lt. lia.
  - rewrite iter_succ. apply Z.ltb_ge. lia.
Qed.

Lemma spec_ascending_length a n : length (spec_ascending a n) = n.
Proof. unfold spec_ascending. rewrite length_map, length_seq. reflexivity. Qed.

Lemma spec_descending_length a n : length (spec_descending a n) = n.
Proof. unfold spec_descending. rewrite length_map, length_seq. reflexivity. Qed.

(** The code computes the playback order of the specification, for every
    direction value and every pair of bounds. *)
Lemma resolveTagFrameRange_order tag :
  tag_fromFrame tag <= tag_toFrame tag ->
  tfr_playbackOrder (resolveTagFrameRange tag)
  = spec_playbackOrder (tag_direction tag) (tag_fromFrame tag) (tag_toFrame tag).
Proof.
  intro Hle. unfold resolveTagFrameRange, spec_playbackOrder. simpl.
  set (from := tag_fromFrame tag) in *. set (to := tag_toFrame tag) in *.
  assert (E1 : Z.to_nat (to - from + 1) = S (Z.to_nat (to - from))) by lia.
  assert (E2 : Z.to_nat (to - 1 - from) = (Z.to_nat (to - from) - 1)%nat) by lia.
  assert (E3 : Z.to_nat (to - (from + 1)) = (Z.to_nat (to - from) - 1)%nat) by lia.
  destruct (tag_direction tag =? TagDirection.Forward).
  { unfold for_up_le. rewrite for_up_le_fuel by lia. rewrite E1. reflexivity. }
  destruct (tag_direction tag =? TagDirection.Reverse).
  { unfold for_down_ge. rewrite for_down_ge_fuel by lia. rewrite E1. reflexivity. }
  destruct (tag_direction tag =? TagDirection.PingPong).
  { unfold for_up_le, for_down_gt.
    rewrite for_up_le_fuel by lia. rewrite for_down_gt_fuel by lia.
    rewrite E1, E2. reflexivity. }
  destruct (tag_direction tag =? TagDirection.PingPongReverse).
  { unfold for_down_ge, for_up_lt.
    rewrite for_down_ge_fuel by lia. rewrite for_up_lt_fuel by lia.
    rewrite E1, E3. reflexivity. }
  reflexivity.
Qed.

Lemma spec_playbackOrder_length direction from to :
  from <= to ->
  In direction [TagDirection.Forward; TagDirection.Reverse;
                TagDirection.PingPong; TagDirection.PingPongReverse] ->
  Z.of_nat (length (spec_playbackOrder direction from to))
  = spec_playbackLength direction from to.
Proof.
  intros Hle Hdir. unfold spec_playbackOrder, spec_playbackLength.
  unfold TagDirection.Forward, TagDirection.Reverse, TagDirection.PingPong,
    TagDirection.PingPongReverse in *.
  repeat match goal with
         | |- context [?a =? ?b] => destruct (Z.eqb_spec a b)
         end; cbn [orb];
    rewrite ?length_app, ?spec_ascending_length, ?spec_descending_length;
    try (destruct (Z.gtb_spec to from)); try lia;
    exfalso; cbn [In] in Hdir; lia.
Qed.

(** C3.  For every tag with [fromFrame <= toFrame] and one of the four
    directions, [resolveTagFrameRange] returns the playback order of the
    specification (Forward: from..to ascending; Reverse: to..from
    descending; PingPong: from..to then to-1..from+1; PingPongReverse:
    to..from then from+1..to-1), and its length is [to-from+1] for
    Forward and Reverse, [2*(to-from)] for the ping-pong directions when
    [to > from], and [1] when [from = to]. *)
Theorem C3_resolveTagFrameRange_playbackOrder :
  forall tag : Tag,
    tag_fromFrame tag <= tag_toFrame tag ->
    In (tag_direction tag)
       [TagDirection.Forward; TagDirection.Reverse;
        TagDirection.PingPong; TagDirection.PingPongReverse] ->
    let from := tag_fromFrame tag in
    let to := tag_toFrame tag in
    let order := tfr_playbackOrder (resolveTagFrameRange tag) in
    order = spec_playbackOrder (tag_direction tag) from to
    /\ Z.of_nat (length order) = spec_playbackLength (tag_direction tag) from to
    /\ (from = to -> length order = 1%nat)
    /\ (tag_direction tag = TagDirection.Forward
        \/ tag_direction tag = TagDirection.Reverse ->
        Z.of_nat (length order) = to - from + 1)
    /\ (from < to ->
        tag_direction tag = TagDirection.PingPong
        \/ tag_direction tag = TagDirection.PingPongReverse ->
        Z.of_nat (length order) = 2 * (to - from)).
Proof.
  intros tag Hle Hdir from to order.
  assert (Hord : order = spec_playbackOrder (tag_direction tag) from to)
    by (apply resolveTagFrameRange_order; exact Hle).
  assert (Hlen : Z.of_nat (length order)
                 = spec_playbackLength (tag_direction tag) from to)
    by (rewrite Hord; apply spec_playbackOrder_length; assumption).
  repeat split; try assumption.
  - intro Heq. apply Nat2Z.inj. rewrite Hlen. unfold spec_playbackLength.
    destruct (_ || _); [lia|]. destruct (Z.gtb_spec to from); lia.
  - intros [E|E]; rewrite Hlen, E; reflexivity.
  - intros Hlt [E|E]; rewrite Hlen, E; unfold spec_playbackLength;
      cbn [TagDirection.Forward TagDirection.Reverse TagDirection.PingPong
           TagDirection.PingPongReverse Z.eqb Pos.eqb orb];
      destruct (Z.gtb_spec to from); lia.
Qed.

(** The scenario of the specification: a tag over frames 0..2. *)
Lemma C3_witness :
  tfr_playbackOrder (resolveTagFrameRange (mkTag 0 2 TagDirection.PingPong))
  = [0; 1; 2; 1]
  /\ tfr_playbackOrder (resolveTagFrameRange (mkTag 0 2 TagDirection.PingPongReverse))
     = [2; 1; 0; 1].
Proof.
  split.
  - apply (C3_resolveTagFrameRange_playbackOrder (mkTag 0 2 TagDirection.PingPong)).
    + simpl. discriminate.
    + simpl. right. right. left. reflexivity.
  - apply (C3_resolveTagFrameRange_playbackOrder (mkTag 0 2 TagDirection.PingPongReverse)).
    + simpl. discriminate.
    + simpl. right. right. right. left. reflexivity.
Defined.

(* ================================================================== *)
(** ** Slice lookup ([getSliceAtFrame]) *)

Section SliceLookup.
Variable frameIndex : Z.

Let qualifies (k : SliceKey) : Prop := key_frameIndex k <= frameIndex.

(** What the loop leaves in [applicableKey] for a sorted key list: either
    nothing qualified and the variable is untouched, or it holds a
    qualifying key that no qualifying key exceeds. *)
Lemma applicableKey_loop_greatest :
  forall keys, keys_sorted keys ->
  forall applicableKey,
    (applicableKey_loop keys frameIndex applicableKey = applicableKey
     /\ forall k, In k keys -> ~ qualifies k)
    \/ exists key,
         applicableKey_loop keys frameIndex applicableKey = Some key
         /\ In key keys /\ qualifies key
         /\ forall k, In k keys -> qualifies k ->
                      key_frameIndex k <= key_frameIndex key.
Proof.
  unfold qualifies.
  induction keys as [|key rest IH]; intros Hsorted acc.
  - left. split; [reflexivity | intros k []].
  - apply StronglySorted_inv in Hsorted. destruct Hsorted as [Hrest Hall].
    rewrite Forall_forall in Hall. simpl.
    destruct (Z.leb_spec (key_frameIndex key) frameIndex) as [Hq|Hq].
    + right. destruct (IH Hrest (Some key)) as [[E Hnone]|(k2 & E & Hin & Hq2 & Hmax)].
      * exists key. rewrite E. repeat split; auto.
        intros k [<-|Hk] Hk'; [lia | exfalso; exact (Hnone k Hk Hk')].
      * exists k2. rewrite E. repeat split; auto.
        intros k [<-|Hk] Hk'; [apply Hall; exact Hin | auto].
    + left. split; [reflexivity|].
      intros k [<-|Hk]; [lia | specialize (Hall k Hk); lia].
Qed.

Lemma spec_qualifying_none keys :
  (forall k, In k keys -> frameIndex < key_frameIndex k) ->
  spec_qualifying keys frameIndex = [].
Proof.
  induction keys as [|k r IH]; intro H; [reflexivity|]. simpl.
  destruct (Z.leb_spec (key_frameIndex k) frameIndex) as [Hk|Hk].
  - specialize (H k (or_introl eq_refl)). lia.
  - apply IH. intros x Hx. apply H. right. exact Hx.
Qed.

(** The same loop, by position: the key it leaves is the last of the
    qualifying ones. *)
Lemma applicableKey_loop_index :
  forall keys, keys_sorted keys ->
  forall applicableKey,
    applicableKey_loop keys frameIndex applicableKey
    = match length (spec_qualifying keys frameIndex) with
      | O => applicableKey
      | S i => nth_error keys i
      end.
Proof.
  induction keys as [|key rest IH]; intros Hsorted acc; [reflexivity|].
  apply StronglySorted_inv in Hsorted. destruct Hsorted as [Hrest Hall].
  simpl. destruct (Z.leb_spec (key_frameIndex key) frameIndex) as [Hq|Hq].
  - simpl. rewrite (IH Hrest). destruct (length _); reflexivity.
  - rewrite spec_qualifying_none; [reflexivity|].
    intros k Hk. rewrite Forall_forall in Hall. specialize (Hall k Hk). lia.
Qed.
End SliceLookup.

Lemma spec_qualifying_mono keys f1 f2 :
  f1 <= f2 ->
  (length (spec_qualifying keys f1) <= length (spec_qualifying keys f2))%nat.
Proof.
  intro Hle. induction keys as [|k r IH]; [apply Nat.le_refl|]. simpl.
  destruct (Z.leb_spec (key_frameIndex k) f1);
    destruct (Z.leb_spec (key_frameIndex k) f2); simpl; lia.
Qed.

Lemma spec_keyIndex_mono keys f1 f2 i1 :
  f1 <= f2 ->
  spec_keyIndex keys f1 = Some i1 ->
  exists i2, spec_keyIndex keys f2 = Some i2 /\ (i1 <= i2)%nat.
Proof.
  intros Hle. unfold spec_keyIndex.
  pose proof (spec_qualifying_mono keys Hle) as Hmono.
  destruct (length (spec_qualifying keys f1)) as [|n1]; [discriminate|].
  intros [= <-].
  destruct (length (spec_qualifying keys f2)) as [|n2]; [lia|].
  exists n2. split; [reflexivity | lia].
Qed.

(** C6.  For a slice whose keys are sorted by frame index, the lookup
    answers with the key of greatest frame index not above the query frame,
    and with nothing when no key qualifies; the position of the answering
    key never decreases when the query frame grows. *)
Theorem C6_getSliceAtFrame_greatest_key :
  forall (file : AsepriteFile) (slices : list Slice)
         (sliceName : JsString) (slice : Slice),
    file_slices file = Some slices ->
    array_find (fun s => jsstr_eqb (slice_name s) sliceName) slices = Some slice ->
    keys_sorted (slice_keys slice) ->
    let keys := slice_keys slice in
    (forall f,
        (forall k, In k keys -> f < key_frameIndex k) ->
        getSliceAtFrame file sliceName f = None)
    /\ (forall f,
           (exists k, In k keys /\ key_frameIndex k <= f) ->
           exists i key,
             spec_keyIndex keys f = Some i
             /\ nth_error keys i = Some key
             /\ getSliceAtFrame file sliceName f
                = Some (spec_resolved sliceName key)
             /\ key_frameIndex key <= f
             /\ forall k, In k keys -> key_frameIndex k <= f ->
                          key_frameIndex k <= key_frameIndex key)
    /\ (forall f1 f2 i1,
           f1 <= f2 ->
           spec_keyIndex keys f1 = Some i1 ->
           exists i2, spec_keyIndex keys f2 = Some i2 /\ (i1 <= i2)%nat).
Proof.
  intros file slices sliceName slice Hslices Hfind Hsorted keys.
  split; [|split].
  - intros f Hnone. unfold getSliceAtFrame. rewrite Hslices, Hfind.
    fold keys. destruct (_ =? 0); [reflexivity|].
    rewrite (applicableKey_loop_index f Hsorted).
    fold keys. rewrite spec_qualifying_none by exact Hnone. reflexivity.
  - intros f (k0 & Hin0 & Hq0).
    destruct (applicableKey_loop_greatest f Hsorted None)
      as [[_ Hnone]|(key & Eloop & Hin & Hq & Hmax)].
    { exfalso. exact (Hnone k0 Hin0 Hq0). }
    pose proof (applicableKey_loop_index f Hsorted None) as Eidx.
    rewrite Eloop in Eidx. fold keys in Eidx.
    unfold spec_keyIndex.
    destruct (length (spec_qualifying keys f)) as [|i]; [discriminate|].
    exists i, key. repeat split; auto.
    unfold getSliceAtFrame. rewrite Hslices, Hfind. fold keys.
    destruct (Z.eqb_spec (Z.of_nat (length keys)) 0) as [E|_].
    { destruct keys; [destruct Hin0 | discriminate]. }
    unfold keys. rewrite Eloop. reflexivity.
  - intros f1 f2 i1. apply spec_keyIndex_mono.
Qed.

(** The lookup scenario of the specification: keys at frames 0 and 2,
    queried at frame 1. *)
Lemma C6_witness :
  getSliceAtFrame (fileWith [] (Some [hitbox])) (str "hitbox") 1
  = Some (spec_resolved (str "hitbox") (mkKey 0 10 20)).
Proof.
  assert (Hsorted : keys_sorted (slice_keys hitbox)).
  { unfold keys_sorted, hitbox. simpl.
    repeat constructor; simpl; discriminate. }
  destruct (C6_getSliceAtFrame_greatest_key
              (fileWith [] (Some [hitbox])) (str "hitbox")
              eq_refl eq_refl Hsorted) as (_ & Hsome & _).
  destruct (Hsome 1) as (i & key & Hidx & Hnth & Hget & _).
  - exists (mkKey 0 10 20). split; [left; reflexivity | simpl; discriminate].
  - rewrite Hget. f_equal. f_equal.
    injection Hidx as <-. injection Hnth as <-. reflexivity.
Defined.

(* ================================================================== *)
(** ** Tile values ([decodeTileValue], [encodeTileValue]) *)

Lemma toInt32_range z : - 2 ^ 31 <= toInt32 z < 2 ^ 31.
Proof.
  unfold toInt32. pose proof (Z.mod_pos_bound z (2 ^ 32) ltac:(lia)).
  destruct (Z.geb_spec (z mod 2 ^ 32) (2 ^ 31)); lia.
Qed.

Lemma toInt32_small z : - 2 ^ 31 <= z < 2 ^ 31 -> toInt32 z = z.
Proof.
  intro H. unfold toInt32.
  destruct (Z_lt_le_dec z 0).
  - replace (z mod 2 ^ 32) with (z + 2 ^ 32).
    + destruct (Z.geb_spec (z + 2 ^ 32) (2 ^ 31)); lia.
    + apply Z.mod_unique with (q := -1); lia.
  - rewrite Z.mod_small by lia.
    destruct (Z.geb_spec z (2 ^ 31)); lia.
Qed.

Lemma toUint32_toInt32 z : toUint32 (toInt32 z) = toUint32 z.
Proof.
  unfold toUint32, toInt32.
  destruct (Z.geb_spec (z mod 2 ^ 32) (2 ^ 31)).
  - replace (z mod 2 ^ 32 - 2 ^ 32) with (z mod 2 ^ 32 + (-1) * 2 ^ 32) by lia.
    rewrite Z.mod_add by lia. apply Z.mod_mod. lia.
  - apply Z.mod_mod. lia.
Qed.

(** ToInt32 keeps the low 31 bits and extends bit 31 upwards. *)
Lemma toInt32_testbit z n :
  0 <= n -> Z.testbit (toInt32 z) n = Z.testbit z (Z.min n 31).
Proof.
  intro Hn. unfold toInt32.
  pose proof (Z.mod_pos_bound z (2 ^ 32) ltac:(lia)) as Hm.
  assert (Hlow : forall k, 0 <= k < 32 ->
                   Z.testbit (z mod 2 ^ 32) k = Z.testbit z k)
    by (intros k Hk; apply Z.mod_pow2_bits_low; lia).
  destruct (Z.geb_spec (z mod 2 ^ 32) (2 ^ 31)) as [Hge|Hlt].
  - (* negative result *)
    assert (H31 : Z.testbit z 31 = true).
    { rewrite <- Hlow by lia. apply Z.testbit_true; [lia|].
      replace (z mod 2 ^ 32 / 2 ^ 31) with 1; [reflexivity|].
      apply Z.div_unique with (r := z mod 2 ^ 32 - 2 ^ 31); lia. }
    destruct (Z_lt_le_dec n 32) as [Hn32|Hn32].
    + rewrite <- (Z.mod_pow2_bits_low (z mod 2 ^ 32 - 2 ^ 32) 32 n) by lia.
      replace (z mod 2 ^ 32 - 2 ^ 32) with (z mod 2 ^ 32 + (-1) * 2 ^ 32) by lia.
      rewrite Z.mod_add by lia. rewrite Z.mod_mod by lia.
      rewrite Hlow by lia.
      destruct (Z.eq_dec n 31) as [->|]; [reflexivity|].
      rewrite Z.min_l by lia. reflexivity.
    + rewrite Z.min_r by lia. rewrite H31.
      set (y := 2 ^ 32 - z mod 2 ^ 32 - 1).
      replace (z mod 2 ^ 32 - 2 ^ 32) with (- (y + 1)) by (unfold y; lia).
      rewrite Z.bits_opp by lia. replace (Z.pred (y + 1)) with y by lia.
      apply negb_true_iff.
      destruct (Z.eq_dec y 0) as [->|Hy]; [apply Z.bits_0|].
      apply Z.bits_above_log2; [unfold y; lia|].
      apply Z.log2_lt_pow2; [unfold y in *; lia|].
      apply Z.lt_le_trans with (2 ^ 31); [unfold y; lia|].
      apply Z.pow_le_mono_r; lia.
  - (* non-negative result *)
    assert (H31 : Z.testbit z 31 = false).
    { rewrite <- Hlow by lia. apply Z.testbit_false; [lia|].
      rewrite Z.div_small by lia. reflexivity. }
    destruct (Z_lt_le_dec n 32) as [Hn32|Hn32].
    + rewrite Hlow by lia.
      destruct (Z.eq_dec n 31) as [->|]; [reflexivity|].
      rewrite Z.min_l by lia. reflexivity.
    + rewrite Z.min_r by lia. rewrite H31.
      apply Z.mod_pow2_bits_high. lia.
Qed.

Lemma js_and_testbit a b n :
  0 <= n ->
  Z.testbit (js_and a b) n
  = Z.testbit a (Z.min n 31) && Z.testbit b (Z.min n 31).
Proof.
  intro Hn. unfold js_and.
  rewrite toInt32_testbit by lia. rewrite Z.land_spec.
  rewrite !toInt32_testbit by lia.
  rewrite <- Z.min_assoc, Z.min_id. reflexivity.
Qed.

Lemma js_or_testbit a b n :
  0 <= n ->
  Z.testbit (js_or a b) n
  = Z.testbit a (Z.min n 31) || Z.testbit b (Z.min n 31).
Proof.
  intro Hn. unfold js_or.
  rewrite toInt32_testbit by lia. rewrite Z.lor_spec.
  rewrite !toInt32_testbit by lia.
  rewrite <- Z.min_assoc, Z.min_id. reflexivity.
Qed.

Lemma bits_of_js_and a b :
  bits_of (js_and a b) (fun k => Z.testbit a k && Z.testbit b k).
Proof. intros n Hn. apply js_and_testbit. exact Hn. Qed.

Lemma bits_of_flag v mask w f :
  bits_of w f ->
  flag_whole v mask ->
  bits_of (if negb (js_and v mask =? 0) then js_or w mask else w)
          (fun k => f k || (Z.testbit v k && Z.testbit mask k)).
Proof.
  intros Hw Hwhole n Hn.
  assert (Hk : 0 <= Z.min n 31) by lia.
  assert (Hkk : Z.min (Z.min n 31) 31 = Z.min n 31) by lia.
  pose proof (js_and_testbit v mask Hk) as Hand. rewrite Hkk in Hand.
  destruct (Z.eqb_spec (js_and v mask) 0) as [E0|Hne]; simpl.
  - rewrite E0, Z.bits_0 in Hand. rewrite <- Hand, orb_false_r.
    apply Hw. exact Hn.
  - destruct Hwhole as [E0|Ew]; [contradiction|].
    rewrite Ew, toInt32_testbit, Hkk in Hand by lia.
    rewrite <- Hand. rewrite js_or_testbit by lia.
    rewrite (Hw (Z.min n 31) Hk), Hkk. reflexivity.
Qed.

(** Decoding then encoding gives back the 32-bit pattern of the value. *)
Lemma encode_decode_toInt32 v m :
  within_union v m ->
  flag_whole v (xFlipMask m) ->
  flag_whole v (yFlipMask m) ->
  flag_whole v (rotationMask m) ->
  encodeTileValue (decodeTileValue v m) m = toInt32 v.
Proof.
  intros Hunion Hx Hy Hr.
  apply Z.bits_inj'. intros n Hn.
  unfold encodeTileValue, decodeTileValue. simpl.
  pose proof (bits_of_js_and (js_and v (tileIdMask m)) (tileIdMask m)) as H0.
  pose proof (bits_of_flag H0 Hx) as H1.
  pose proof (bits_of_flag H1 Hy) as H2.
  pose proof (bits_of_flag H2 Hr) as H3.
  rewrite (H3 n Hn). rewrite toInt32_testbit by lia.
  assert (Hk : 0 <= Z.min n 31) by lia.
  assert (Hkk : Z.min (Z.min n 31) 31 = Z.min n 31) by lia.
  rewrite js_and_testbit, Hkk by lia.
  unfold within_union in Hunion.
  apply (f_equal (fun z => Z.testbit z (Z.min n 31))) in Hunion.
  rewrite js_and_testbit, !js_or_testbit, toInt32_testbit, !Hkk in Hunion by lia.
  destruct (Z.testbit v (Z.min n 31)); simpl in *; [|reflexivity].
  destruct (Z.testbit (tileIdMask m) (Z.min n 31)); simpl in *; [reflexivity|].
  exact Hunion.
Qed.

(** C4 (amended).  For every tile value [v] and mask record [m] such that
    [v]'s set bits lie within the union of the four masks and each of the
    three flag masks is whole in [v] (all or none of its bits set in [v],
    as always for one-bit masks), encoding the decoded tile gives back
    [v]'s 32-bit pattern as the bitwise operators return it, a signed
    32-bit integer: it is [v] modulo [2^32], and [v] itself when
    [0 <= v < 2^31]. *)
Theorem C4_encode_decode_tile_value :
  forall (v : Z) (m : TilemapMasks),
    within_union v m ->
    flag_whole v (xFlipMask m) ->
    flag_whole v (yFlipMask m) ->
    flag_whole v (rotationMask m) ->
    encodeTileValue (decodeTileValue v m) m = toInt32 v
    /\ toUint32 (encodeTileValue (decodeTileValue v m) m) = toUint32 v
    /\ (0 <= v < 2 ^ 31 -> encodeTileValue (decodeTileValue v m) m = v).
Proof.
  intros v m Hunion Hx Hy Hr.
  pose proof (encode_decode_toInt32 Hunion Hx Hy Hr) as E.
  split; [exact E|]. split.
  - rewrite E. apply toUint32_toInt32.
  - intro Hv. rewrite E. apply toInt32_small. lia.
Qed.

(** The tile of the specification's scenario, [100 | 0x20000000], under
    the standard masks. *)
Lemma C4_witness :
  encodeTileValue (decodeTileValue 0x20000064 standardMasks) standardMasks
  = 0x20000064.
Proof.
  refine (proj2 (proj2 (C4_encode_decode_tile_value
                          (v := 0x20000064) (m := standardMasks) _ _ _ _)) _).
  - reflexivity.
  - right. reflexivity.
  - left. reflexivity.
  - left. reflexivity.
  - split; [discriminate | reflexivity].
Defined.

(** C4, as the claim states it, fails: with pairwise disjoint masks whose
    x-flip mask has two bits, the value 2 lies within the union of the
    masks, yet decoding and re-encoding turns it into 6. *)
Lemma C4_counterexample :
  ~ (forall (v : Z) (m : TilemapMasks),
        is_u32 v ->
        masks_partition m ->
        Z.land v (Z.lor (Z.lor (Z.lor (tileIdMask m) (xFlipMask m))
                               (yFlipMask m)) (rotationMask m)) = v ->
        encodeTileValue (decodeTileValue v m) m = v).
Proof.
  intro H. specialize (H 2 wideFlipMasks).
  assert (E : encodeTileValue (decodeTileValue 2 wideFlipMasks) wideFlipMasks = 6)
    by reflexivity.
  rewrite E in H.
  assert (Hfalse : 6 = 2); [|discriminate Hfalse].
  apply H.
  - split; [discriminate | reflexivity].
  - unfold masks_partition, is_u32, wideFlipMasks. simpl.
    repeat split; try discriminate; reflexivity.
  - reflexivity.
Qed.

(** With the standard masks, a value with the rotation bit comes back as
    a negative number: [0x80000001] becomes [-2147483647]. *)
Example encode_decode_rotated_tile :
  encodeTileValue (decodeTileValue 0x80000001 standardMasks) standardMasks
  = -2147483647.
Proof. reflexivity. Qed.

(* ================================================================== *)
(** ** Linked cel resolution ([resolveLinkedCel]) *)

Lemma is_linked_variant c :
  is_linked c = true <-> exists k, cel_variant c = LinkedCel k.
Proof.
  unfold is_linked, cel_type.
  destruct (cel_variant c); simpl; split;
    first [ discriminate
          | intros [? ?]; discriminate
          | eauto ].
Qed.

(** One call of [resolveLinkedCel], by cases on the cel. *)
Lemma resolveLinkedCel_not_linked fuel file cel :
  is_linked cel = false ->
  resolveLinkedCel (S fuel) file cel = Some (Ok cel).
Proof.
  unfold is_linked, cel_type. simpl.
  destruct (cel_variant cel); simpl; intro H; try reflexivity; discriminate.
Qed.

Lemma resolveLinkedCel_broken fuel file cel :
  brokenLink file cel ->
  resolveLinkedCel (S fuel) file cel
  = Some (Throw (AseFormatError INVALID_LINKED_CEL)).
Proof.
  intros (k & Hv & Hk). simpl. rewrite Hv.
  destruct (Z.ltb_spec k 0) as [|Hk0]; [reflexivity|].
  destruct (Z.geb_spec k (Z.of_nat (length (file_frames file)))) as [|Hlen];
    [reflexivity|]. simpl.
  destruct Hk as [Hk|[Hk|(frame & Hnth & Hfind)]]; try lia.
  rewrite Hnth, Hfind. reflexivity.
Qed.

Lemma resolveLinkedCel_hop fuel file cel cel' :
  linksTo file cel cel' ->
  resolveLinkedCel (S fuel) file cel = resolveLinkedCel fuel file cel'.
Proof.
  intros (k & frame & Hv & Hk & Hnth & Hfind). simpl. rewrite Hv.
  destruct (Z.ltb_spec k 0) as [|_]; [lia|].
  destruct (Z.geb_spec k (Z.of_nat (length (file_frames file)))) as [|_];
    [lia|]. simpl.
  rewrite Hnth, Hfind. reflexivity.
Qed.

(** Every cel is not Linked, has a broken link, or links to a cel. *)
Lemma cel_cases file cel :
  is_linked cel = false \/ brokenLink file cel \/ exists cel', linksTo file cel cel'.
Proof.
  destruct (is_linked cel) eqn:E; [|left; reflexivity]. right.
  apply is_linked_variant in E. destruct E as [k Hv].
  destruct (Z_lt_le_dec k 0) as [Hk0|Hk0].
  { left. exists k. auto. }
  destruct (Z_lt_le_dec k (Z.of_nat (length (file_frames file)))) as [Hlen|Hlen].
  2:{ left. exists k. auto. }
  destruct (nth_error (file_frames file) (Z.to_nat k)) as [frame|] eqn:Hnth.
  2:{ apply nth_error_None in Hnth. lia. }
  destruct (array_find (fun x => cel_layerIndex x =? cel_layerIndex cel)
                       (frame_cels frame)) as [cel'|] eqn:Hfind.
  - right. exists cel', k, frame. auto.
  - left. exists k. split; [exact Hv|]. right. right. exists frame. auto.
Qed.

(** What a resolution that returns has done. *)
Lemma resolveLinkedCel_sound file :
  forall fuel cel r,
    resolveLinkedCel fuel file cel = Some r ->
    match r with
    | Ok c => is_linked c = false /\ reaches file cel c
    | Throw e =>
        e = AseFormatError INVALID_LINKED_CEL
        /\ exists c', reaches file cel c' /\ brokenLink file c'
    end.
Proof.
  induction fuel as [|fuel IH]; intros cel r H; [discriminate|].
  destruct (cel_cases file cel) as [Hn|[Hb|[cel' Hl]]].
  - rewrite resolveLinkedCel_not_linked in H by exact Hn.
    injection H as <-. split; [exact Hn | constructor].
  - rewrite resolveLinkedCel_broken in H by exact Hb.
    injection H as <-. split; [reflexivity|].
    exists cel. split; [constructor | exact Hb].
  - rewrite (resolveLinkedCel_hop fuel Hl) in H.
    specialize (IH cel' r H). destruct r as [c|e].
    + destruct IH as [Hc Hr]. split; [exact Hc|].
      eapply reaches_hop; eassumption.
    + destruct IH as [He (c' & Hr & Hb)]. split; [exact He|].
      exists c'. split; [eapply reaches_hop; eassumption | exact Hb].
Qed.

(** Conversely, a chain of links that ends is followed to its end. *)
Lemma resolveLinkedCel_complete file cel c :
  reaches file cel c ->
  (is_linked c = false ->
   exists fuel, resolveLinkedCel fuel file cel = Some (Ok c))
  /\ (brokenLink file c ->
      exists fuel, resolveLinkedCel fuel file cel
                   = Some (Throw (AseFormatError INVALID_LINKED_CEL))).
Proof.
  induction 1 as [c|c c1 c2 Hl Hr [IHok IHerr]].
  - split; intro H; exists 1%nat.
    + apply resolveLinkedCel_not_linked. exact H.
    + apply resolveLinkedCel_broken. exact H.
  - split; intro H.
    + destruct (IHok H) as [fuel E]. exists (S fuel).
      rewrite (resolveLinkedCel_hop fuel Hl). exact E.
    + destruct (IHerr H) as [fuel E]. exists (S fuel).
      rewrite (resolveLinkedCel_hop fuel Hl). exact E.
Qed.

Lemma array_find_In {A} (p : A -> bool) l x :
  array_find p l = Some x -> In x l.
Proof. intro H. apply find_some in H. tauto. Qed.

(** When links point backwards, a cel whose link (if any) goes below frame
    [n] is resolved within depth [n + 1]. *)
Lemma resolveLinkedCel_terminates_below file :
  linksBackward file ->
  forall (n : nat) (cel : Cel),
    (forall k, cel_variant cel = LinkedCel k -> k < Z.of_nat n) ->
    exists r, resolveLinkedCel (S n) file cel = Some r.
Proof.
  intros Hback. induction n as [|n IH]; intros cel Hk.
  - destruct (cel_cases file cel) as [Hn|[Hb|[cel' Hl]]].
    + eexists. apply resolveLinkedCel_not_linked. exact Hn.
    + eexists. apply resolveLinkedCel_broken. exact Hb.
    + destruct Hl as (k & frame & Hv & Hrange & _).
      specialize (Hk k Hv). lia.
  - destruct (cel_cases file cel) as [Hn|[Hb|[cel' Hl]]].
    + eexists. apply resolveLinkedCel_not_linked. exact Hn.
    + eexists. apply resolveLinkedCel_broken. exact Hb.
    + rewrite (resolveLinkedCel_hop (S n) Hl).
      apply IH. intros k' Hv'.
      destruct Hl as (k & frame & Hv & Hrange & Hnth & Hfind).
      apply array_find_In in Hfind.
      pose proof (Hback (Z.to_nat k) frame cel' k' Hnth Hfind Hv') as Hlt.
      specialize (Hk k Hv). lia.
Qed.

Lemma resolveLinkedCel_terminates file cel :
  linksBackward file ->
  exists r, resolveLinkedCel (S (length (file_frames file))) file cel = Some r.
Proof.
  intro Hback.
  destruct (cel_cases file cel) as [Hn|[Hb|[cel' Hl]]].
  - eexists. apply resolveLinkedCel_not_linked. exact Hn.
  - eexists. apply resolveLinkedCel_broken. exact Hb.
  - apply resolveLinkedCel_terminates_below; [exact Hback|].
    intros k Hv. destruct Hl as (k0 & frame & Hv0 & Hrange & _).
    rewrite Hv in Hv0. injection Hv0 as <-. lia.
Qed.

(** C5 (amended).  For every file and cel: a resolution that returns
    yields a cel that is not Linked, reached by following the links, or
    fails with InvalidLinkedCel at a cel of that chain whose frame index is
    out of range or whose target frame has no cel on the same layer; a cel
    that is not Linked is returned unchanged; a chain that ends is followed
    to its end, so the error is raised exactly when the chain meets such a
    broken link; and when every Linked cel of the file points to an earlier
    frame, the resolution returns within depth [frames.length + 1].
    Nothing is promised for a chain of links that runs in a circle. *)
Theorem C5_resolveLinkedCel :
  forall (file : AsepriteFile) (cel : Cel),
    (forall fuel r,
        resolveLinkedCel fuel file cel = Some r ->
        match r with
        | Ok c => is_linked c = false /\ reaches file cel c
        | Throw e =>
            e = AseFormatError INVALID_LINKED_CEL
            /\ exists c', reaches file cel c' /\ brokenLink file c'
        end)
    /\ (is_linked cel = false ->
        forall fuel, resolveLinkedCel (S fuel) file cel = Some (Ok cel))
    /\ (forall c, reaches file cel c -> is_linked c = false ->
          exists fuel, resolveLinkedCel fuel file cel = Some (Ok c))
    /\ (forall c, reaches file cel c -> brokenLink file c ->
          exists fuel, resolveLinkedCel fuel file cel
                       = Some (Throw (AseFormatError INVALID_LINKED_CEL)))
    /\ (linksBackward file ->
        exists r,
          resolveLinkedCel (S (length (file_frames file))) file cel = Some r).
Proof.
  intros file cel. repeat split.
  - intros fuel r H. apply (resolveLinkedCel_sound _ _ _ H).
  - intros Hn fuel. apply resolveLinkedCel_not_linked. exact Hn.
  - intros c Hr Hn. apply (proj1 (resolveLinkedCel_complete Hr) Hn).
  - intros c Hr Hb. apply (proj2 (resolveLinkedCel_complete Hr) Hb).
  - apply resolveLinkedCel_terminates.
Qed.

(** The linked-cel scenario of the specification: the cel of frame 1
    resolves to the cel of frame 0. *)
Lemma C5_witness :
  linksBackward linkedFile
  /\ exists r, resolveLinkedCel 3 linkedFile (mkCel 0 (LinkedCel 0)) = Some r.
Proof.
  assert (Hback : linksBackward linkedFile).
  { intros i frame c k Hnth Hin Hv.
    destruct i as [|[|i]]; simpl in Hnth.
    - injection Hnth as <-. destruct Hin as [<-|[]]. discriminate Hv.
    - injection Hnth as <-. destruct Hin as [<-|[]].
      injection Hv as <-. reflexivity.
    - destruct i; discriminate Hnth. }
  split; [exact Hback|].
  exact (proj2 (proj2 (proj2 (proj2
           (C5_resolveLinkedCel linkedFile (mkCel 0 (LinkedCel 0)))))) Hback).
Defined.

Example resolveLinkedCel_scenario :
  resolveLinkedCel 3 linkedFile (mkCel 0 (LinkedCel 0)) = Some (Ok rawCel).
Proof. reflexivity. Qed.

Lemma resolveLinkedCel_self_link :
  forall fuel, resolveLinkedCel fuel selfLinkedFile selfLinkedCel = None.
Proof. induction fuel as [|fuel IH]; [reflexivity | exact IH]. Qed.

(** C5, as the claim states it, fails: the resolution of a cel of frame 0
    that links to frame 0 finds the cel itself and calls itself on it
    again, at every depth; it neither returns a cel nor fails with
    InvalidLinkedCel. *)
Lemma C5_counterexample :
  ~ (forall (file : AsepriteFile) (cel : Cel),
        exists fuel r,
          resolveLinkedCel fuel file cel = Some r
          /\ match r with
             | Ok c => is_linked c = false
             | Throw e => e = AseFormatError INVALID_LINKED_CEL
             end).
Proof.
  intro H. destruct (H selfLinkedFile selfLinkedCel) as (fuel & r & E & _).
  rewrite resolveLinkedCel_self_link in E. discriminate E.
Qed.

(** The decoder produces such files: [selfLinkedBytes] is decoded to a
    file whose only cel links to its own frame, and the resolution of that
    cel returns at no depth. *)
Example resolveLinkedCel_decoded_self_link :
  exists file,
    parseAseprite (rt := exampleRuntime) selfLinkedBytes noChunks = Ok file
    /\ file_frames file = [mkFrame [selfLinkedCel]]
    /\ forall fuel, resolveLinkedCel fuel file selfLinkedCel = None.
Proof.
  eexists. split; [vm_compute; reflexivity|]. split; [reflexivity|].
  induction fuel as [|fuel IH]; [reflexivity | exact IH].
Qed.


(* ================================================================== *)
(** ** The reader *)

Lemma bind_Ok {A B} (p : Parser A) (k : A -> Parser B) r b r'' :
  bind p k r = Ok (b, r'') ->
  exists a r', p r = Ok (a, r') /\ k a r' = Ok (b, r'').
Proof.
  unfold bind. destruct (p r) as [[a r']|e]; [|discriminate].
  intro H. exists a, r'. split; [reflexivity | exact H].
Qed.

Lemma bind_Throw {A B} (p : Parser A) (k : A -> Parser B) r e :
  bind p k r = Throw e ->
  p r = Throw e \/ exists a r', p r = Ok (a, r') /\ k a r' = Throw e.
Proof.
  unfold bind. destruct (p r) as [[a r']|e']; intro H.
  - right. exists a, r'. split; [reflexivity | exact H].
  - left. injection H as ->. reflexivity.
Qed.

(** The bytes of a field: [size] bytes at [at_] bytes from the reader's
    offset. *)
Lemma read_unsigned_Ok size r v r' :
  read_unsigned size r = Ok (v, r') ->
  v = field size 0 r
  /\ r' = {| rd_data := rd_data r; rd_offset := rd_offset r + Z.of_nat size |}
  /\ 0 <= rd_offset r
  /\ rd_offset r + Z.of_nat size <= rd_length r.
Proof.
  unfold read_unsigned, bind, ensureBytes, view_get, advance, ret, field.
  destruct (Z.gtb_spec (rd_offset r + Z.of_nat size) (rd_length r)); [discriminate|].
  destruct (Z.ltb_spec (rd_offset r) 0); [discriminate|]. simpl.
  destruct (Z.gtb_spec (rd_offset r + Z.of_nat size) (rd_length r)); [lia|].
  intros [= <- <-]. rewrite Z.add_0_r. repeat split; lia.
Qed.

Lemma skip_Ok count r u r' :
  skip count r = Ok (u, r') ->
  r' = {| rd_data := rd_data r; rd_offset := rd_offset r + count |}.
Proof.
  unfold skip, bind, ensureBytes, advance.
  destruct (_ >? _); [discriminate|]. intro H. inversion H. reflexivity.
Qed.

Ltac inv_bind H :=
  let a := fresh "a" in
  let r := fresh "r" in
  let H1 := fresh "Hstep" in
  apply bind_Ok in H; destruct H as (a & r & H1 & H).

Lemma field_shift size at_ r r' k :
  rd_data r' = rd_data r ->
  rd_offset r' = rd_offset r + k ->
  field size at_ r' = field size (k + at_) r.
Proof.
  intros Hd Ho. unfold field. rewrite Hd, Ho. do 3 f_equal. lia.
Qed.

Lemma field_eq size a b (data : Bytes) :
  a = b ->
  le_value (firstn size (skipn (Z.to_nat a) data))
  = le_value (firstn size (skipn (Z.to_nat b) data)).
Proof. intros ->. reflexivity. Qed.

Section FrameHeader.
Context {rt : JsRuntime}.

(** What [parseFrameHeader] has read when it returns. *)
Lemma parseFrameHeader_Ok options r frameSize durationMs chunkCount r' :
  parseFrameHeader options r = Ok ((frameSize, durationMs, chunkCount), r') ->
  frameSize = field 4 0 r
  /\ durationMs = field 2 8 r
  /\ chunkCount = chunkCountOf (field 2 6 r) (field 4 12 r)
  /\ r' = {| rd_data := rd_data r; rd_offset := rd_offset r + 16 |}.
Proof.
  unfold parseFrameHeader, u32, u16. intro H.
  inv_bind H. apply read_unsigned_Ok in Hstep. destruct Hstep as (-> & -> & _).
  inv_bind H. apply read_unsigned_Ok in Hstep. destruct Hstep as (-> & -> & _).
  destruct (strict options && _); [discriminate|].
  inv_bind H. apply read_unsigned_Ok in Hstep. destruct Hstep as (-> & -> & _).
  inv_bind H. apply read_unsigned_Ok in Hstep. destruct Hstep as (-> & -> & _).
  inv_bind H. apply skip_Ok in Hstep. subst.
  inv_bind H. apply read_unsigned_Ok in Hstep. destruct Hstep as (-> & -> & _).
  unfold ret in H. injection H as <- <- <- <-.
  unfold field. cbn [rd_offset rd_data].
  repeat split;
    first [ apply field_eq; lia
          | f_equal; apply field_eq; lia
          | f_equal; lia ].
Qed.

Lemma chunkCountOf_spec old new : chunkCountOf old new = spec_chunkCount old new.
Proof.
  unfold chunkCountOf, spec_chunkCount.
  destruct (new =? 0); simpl; [reflexivity|].
  destruct (old =? 65535); reflexivity.
Qed.

(** C7.  For every frame header that the decoder reads, the chunk count it
    settles on is the new chunk count (bytes 12..15 of the header) when
    that is not zero and the old chunk count (bytes 6..7) is 0xFFFF, and
    the old chunk count in every other case; and that count is the number
    of turns of the frame's chunk loop. *)
Theorem C7_chunk_count :
  forall (options : ParseOptions) (r : BinaryReader),
    let oldChunkCount := field 2 6 r in
    let newChunkCount := field 4 12 r in
    (forall frameSize durationMs chunkCount r',
        parseFrameHeader options r
        = Ok ((frameSize, durationMs, chunkCount), r') ->
        chunkCount = spec_chunkCount oldChunkCount newChunkCount
        /\ (newChunkCount <> 0 /\ oldChunkCount = 0xFFFF ->
            chunkCount = newChunkCount)
        /\ (~ (newChunkCount <> 0 /\ oldChunkCount = 0xFFFF) ->
            chunkCount = oldChunkCount))
    /\ (forall header frameIdx ctx heap acc result r',
           parseFrame options header frameIdx ctx heap acc r = Ok (result, r') ->
           exists st0 st r1,
             chunkLoop options frameIdx
               (Z.to_nat (spec_chunkCount oldChunkCount newChunkCount))
               st0
               {| rd_data := rd_data r; rd_offset := rd_offset r + 16 |}
             = Ok (st, r1)).
Proof.
  intros options r old new. split.
  - intros frameSize durationMs chunkCount r' H.
    apply parseFrameHeader_Ok in H. destruct H as (_ & _ & -> & _).
    rewrite chunkCountOf_spec. fold old new.
    split; [reflexivity|]. unfold spec_chunkCount. split.
    + intros [Hn Ho].
      destruct (Z.eqb_spec new 0); [contradiction|].
      destruct (Z.eqb_spec old 65535); [reflexivity | contradiction].
    + intro Hnot.
      destruct (Z.eqb_spec new 0); [reflexivity|].
      destruct (Z.eqb_spec old 65535); [|reflexivity].
      exfalso. apply Hnot. split; assumption.
  - intros header frameIdx ctx heap acc result r' H.
    unfold parseFrame in H.
    inv_bind H. unfold get_offset in Hstep. injection Hstep as <- <-.
    inv_bind H. destruct a as [[frameSize durationMs] chunkCount].
    apply parseFrameHeader_Ok in Hstep. destruct Hstep as (_ & _ & -> & ->).
    inv_bind H. rewrite chunkCountOf_spec in Hstep.
    eexists _, _, _. exact Hstep.
Qed.

End FrameHeader.

(** A frame header with old count 0xFFFF and new count 70000: the loop
    runs 70000 times. *)
Lemma C7_witness :
  parseFrameHeader DEFAULT_OPTIONS bigFrameReader
  = Ok ((16, 100, 70000),
        {| rd_data := rd_data bigFrameReader; rd_offset := 16 |})
  /\ 70000 = spec_chunkCount (field 2 6 bigFrameReader) (field 4 12 bigFrameReader).
Proof.
  assert (H : parseFrameHeader DEFAULT_OPTIONS bigFrameReader
              = Ok ((16, 100, 70000),
                    {| rd_data := rd_data bigFrameReader; rd_offset := 16 |}))
    by reflexivity.
  split; [exact H|].
  exact (proj1 (proj1 (@C7_chunk_count exampleRuntime DEFAULT_OPTIONS
                         bigFrameReader) _ _ _ _ H)).
Defined.

(* ================================================================== *)
(** ** The attachment target is never the sprite *)

Section SpriteUserData.
Context {rt : JsRuntime}.

Lemma attachUserData_target ctx heap ud :
  lastAttachTarget (fst (attachUserData ctx heap ud)) = lastAttachTarget ctx.
Proof.
  unfold attachUserData.
  destruct (pendingTagUserData ctx) as [tags|].
  - destruct (_ <? _); [reflexivity|].
    destruct (pendingTilesetUserData ctx) as [pend|].
    + destruct (pend_phase pend); reflexivity.
    + destruct (lastAttachTarget ctx) as [[]|] eqn:E; simpl; congruence.
  - destruct (pendingTilesetUserData ctx) as [pend|].
    + destruct (pend_phase pend); reflexivity.
    + destruct (lastAttachTarget ctx) as [[]|] eqn:E; simpl; congruence.
Qed.

(** No case of [parseChunk] sets the target to the sprite. *)
Lemma parseChunk_not_sprite chunkType chunkEndOffset ctx heap r chunk ctx' heap' r' :
  parseChunk chunkType chunkEndOffset ctx heap r = Ok ((chunk, ctx', heap'), r') ->
  not_sprite ctx -> not_sprite ctx'.
Proof.
  unfold parseChunk, not_sprite. intros H Hctx.
  repeat match type of H with
         | (if ?c then _ else _) _ = _ => destruct c
         end;
    inv_bind H;
    try (inv_bind H);
    try (unfold ret in H; injection H as <- <- <- <-; simpl;
         solve [discriminate | exact Hctx]).
  pose proof (attachUserData_target ctx heap a) as Ht.
  destruct (attachUserData ctx heap a) as [c h].
  unfold ret in H. injection H as <- <- <- <-. simpl in Ht. rewrite Ht. exact Hctx.
Qed.

(** With a target that is not the sprite, "collect parsed data" leaves
    [spriteUserData] unset. *)
Lemma collect_spriteUserData frameIdx ctx chunk acc cels :
  not_sprite ctx ->
  acc_spriteUserData acc = None ->
  acc_spriteUserData (fst (collect frameIdx ctx chunk acc cels)) = None.
Proof.
  unfold not_sprite. intros Hctx Hacc.
  destruct chunk; simpl; try assumption.
  - destruct (frameIdx =? 0); simpl; [|assumption].
    destruct (lastAttachTarget ctx) as [[]|]; simpl; try assumption.
    contradiction Hctx. reflexivity.
  - destruct (negb _); simpl; assumption.
Qed.

Lemma parseOneChunk_inv options frameIdx st r st' r' :
  parseOneChunk options frameIdx st r = Ok (st', r') ->
  loop_inv st -> loop_inv st'.
Proof.
  unfold parseOneChunk, loop_inv. intros H [Hctx Hacc].
  inv_bind H. inv_bind H. inv_bind H.
  destruct (strict options && _); [discriminate|].
  inv_bind H. destruct a2 as [[chunk ctx'] heap'].
  pose proof (@parseChunk_not_sprite _ _ _ _ _ _ _ _ _ Hstep2 Hctx) as Hctx'.
  pose proof (@collect_spriteUserData frameIdx ctx' chunk (ls_acc st) (ls_cels st)
                Hctx' Hacc) as Hacc'.
  destruct (collect frameIdx ctx' chunk (ls_acc st) (ls_cels st)) as [acc cels].
  inv_bind H. unfold ret in H. injection H as <- <-. simpl.
  split; assumption.
Qed.

Lemma chunkLoop_inv options frameIdx chunkCount :
  forall st r st' r',
    chunkLoop options frameIdx chunkCount st r = Ok (st', r') ->
    loop_inv st -> loop_inv st'.
Proof.
  induction chunkCount as [|n IH]; intros st r st' r' H Hinv; simpl in H.
  - unfold ret in H. injection H as <- <-. exact Hinv.
  - inv_bind H. eapply IH; [exact H|].
    eapply parseOneChunk_inv; eassumption.
Qed.

Lemma parseFrame_inv options header frameIdx ctx heap acc r ctx' heap' acc' r' :
  parseFrame options header frameIdx ctx heap acc r = Ok ((ctx', heap', acc'), r') ->
  not_sprite ctx -> acc_spriteUserData acc = None ->
  not_sprite ctx' /\ acc_spriteUserData acc' = None.
Proof.
  unfold parseFrame. intros H Hctx Hacc.
  inv_bind H. inv_bind H. destruct a0 as [[frameSize durationMs] chunkCount].
  inv_bind H.
  apply chunkLoop_inv in Hstep1; [|split; assumption].
  destruct Hstep1 as [Hctx' Hacc'].
  inv_bind H. unfold ret in H. injection H as <- <- <- <-. simpl.
  split; assumption.
Qed.

Lemma frameLoop_inv options header count :
  forall frameIdx ctx heap acc r ctx' heap' acc' r',
    frameLoop options header count frameIdx ctx heap acc r
    = Ok ((ctx', heap', acc'), r') ->
    not_sprite ctx -> acc_spriteUserData acc = None ->
    not_sprite ctx' /\ acc_spriteUserData acc' = None.
Proof.
  induction count as [|n IH]; intros frameIdx ctx heap acc r ctx' heap' acc' r'
                                     H Hctx Hacc; simpl in H.
  - unfold ret in H. injection H as <- <- <- <-. split; assumption.
  - inv_bind H. destruct a as [[ctx1 heap1] acc1].
    destruct (@parseFrame_inv options header frameIdx ctx heap acc r ctx1 heap1
                acc1 r0 Hstep Hctx Hacc) as [Hctx1 Hacc1].
    eapply IH; eassumption.
Qed.

Lemma parseAseprite_no_userData data options file :
  parseAseprite data options = Ok file -> file_userData file = None.
Proof.
  unfold parseAseprite. intro H.
  match type of H with
  | match ?p with _ => _ end = _ => destruct p as [[[header [[ctx heap] acc]] r']|e] eqn:E
  end; [|discriminate].
  injection H as <-. simpl.
  inv_bind E. inv_bind E. destruct a0 as [[ctx1 heap1] acc1].
  unfold ret in E. injection E as <- <- <- <- <-.
  apply frameLoop_inv in Hstep0; [tauto | unfold not_sprite; simpl; discriminate
                                 | reflexivity].
Qed.
End SpriteUserData.

(** C10.  Whatever the input bytes and the options, the file that
    [parseAseprite] returns has no sprite-level user data, because no case
    of [parseChunk] sets the attachment target to the sprite; so a
    UserData chunk that precedes every attachable object of frame 0 is
    dropped from the model without an error. *)
Theorem C10_no_sprite_userData :
  (forall (rt : JsRuntime) (data : Bytes) (options : ParseOptions)
          (file : AsepriteFile),
      parseAseprite data options = Ok file -> file_userData file = None)
  /\ (forall (rt : JsRuntime) chunkType chunkEndOffset ctx heap r
             chunk ctx' heap' r',
         parseChunk chunkType chunkEndOffset ctx heap r
         = Ok ((chunk, ctx', heap'), r') ->
         lastAttachTarget ctx <> Some TargetSprite ->
         lastAttachTarget ctx' <> Some TargetSprite)
  /\ (forall rt : JsRuntime,
         parseAseprite spriteUserDataFile noChunks = Ok discardedFile).
Proof.
  split; [|split].
  - intros rt data options file. apply parseAseprite_no_userData.
  - intros rt chunkType chunkEndOffset ctx heap r chunk ctx' heap' r'.
    apply parseChunk_not_sprite.
  - intro rt. vm_compute. reflexivity.
Qed.

Lemma C10_witness :
  file_userData discardedFile = None.
Proof.
  exact (proj1 C10_no_sprite_userData exampleRuntime spriteUserDataFile
           noChunks discardedFile
           (proj2 (proj2 C10_no_sprite_userData) exampleRuntime)).
Defined.

(** C1 (the code departs from the claim).  The UserData chunk of
    [spriteUserDataFile] arrives in frame 0 with no pending tag cursor, no
    pending tileset cursor and no attachment target; the file is decoded,
    the chunk is kept in the frame's chunk list, and the file's
    sprite-level [userData] is absent. *)
Theorem C1_sprite_userData_not_attached :
  forall rt : JsRuntime,
  exists file,
    parseAseprite spriteUserDataFile DEFAULT_OPTIONS = Ok file
    /\ file_userData file = None
    /\ file_layers file = []
    /\ file_frames file
       = [{| frame_durationMs := 100;
             frame_cels := [];
             frame_chunks :=
               Some [known (UserDataChunk
                              {| ud_text := Some (utf8_decode [x68; x69]);
                                 ud_color := None;
                                 ud_properties := None |})] |}].
Proof.
  intro rt. eexists. split; [vm_compute; reflexivity|].
  repeat split.
Qed.

(* ================================================================== *)
(** ** The exceptions of the decoder *)

Section ThrowsOnly.
Context {rt : JsRuntime}.

Local Abbreviation safe := (throws_only not_invalid_cel_type).

Lemma safe_bind {A B} (p : Parser A) (k : A -> Parser B) :
  safe p -> (forall a, safe (k a)) -> safe (bind p k).
Proof.
  intros Hp Hk r e H. apply bind_Throw in H.
  destruct H as [H|(a & r' & _ & H)]; [exact (Hp _ _ H) | exact (Hk _ _ _ H)].
Qed.

Lemma safe_ret {A} (a : A) : safe (ret a).
Proof. intros r e H. discriminate H. Qed.

Lemma safe_throw {A} e0 : not_invalid_cel_type e0 -> safe (@throw A e0).
Proof. intros H0 r e [= <-]. exact H0. Qed.

Lemma safe_get_offset : safe get_offset.
Proof. intros r e H. discriminate H. Qed.

Lemma safe_ensureBytes count : safe (ensureBytes count).
Proof.
  intros r e. unfold ensureBytes. destruct (_ >? _); [|discriminate].
  intros [= <-]. discriminate.
Qed.

Lemma safe_advance count : safe (advance count).
Proof. intros r e H. discriminate H. Qed.

Lemma safe_read_unsigned size : safe (read_unsigned size).
Proof.
  unfold read_unsigned. apply safe_bind; [apply safe_ensureBytes|].
  intros _ r e. unfold view_get. destruct (_ || _).
  - intros [= <-]. discriminate.
  - apply safe_bind; [apply safe_advance | intro; apply safe_ret].
Qed.

Lemma safe_read_signed size : safe (read_signed size).
Proof.
  unfold read_signed. apply safe_bind; [apply safe_read_unsigned|].
  intro. apply safe_ret.
Qed.

Lemma safe_skip count : safe (skip count).
Proof.
  unfold skip. apply safe_bind; [apply safe_ensureBytes|].
  intro. apply safe_advance.
Qed.

Lemma safe_bytes count : safe (bytes count).
Proof.
  unfold bytes. apply safe_bind; [apply safe_ensureBytes|].
  intros _ r e. apply safe_bind; [apply safe_advance | intro; apply safe_ret].
Qed.

Lemma safe_seek offset : safe (seek offset).
Proof.
  intros r e. unfold seek. destruct (_ || _); [|discriminate].
  intros [= <-]. discriminate.
Qed.

Lemma safe_repeat_push {A} (body : Parser A) :
  safe body -> forall count out, safe (repeat_push count body out).
Proof.
  intros Hb. induction count as [|n IH]; intro out; simpl.
  - apply safe_ret.
  - apply safe_bind; [exact Hb | intro; apply IH].
Qed.

Lemma safe_repeat_set {V} (body : Parser (JsString * V)) :
  safe body -> forall count map, safe (repeat_set count body map).
Proof.
  intros Hb. induction count as [|n IH]; intro map; simpl.
  - apply safe_ret.
  - apply safe_bind; [exact Hb | intro; apply IH].
Qed.

(** One step of the routine argument: split a bind, close a primitive, or
    take a branch. *)
Ltac safe_step :=
  first
    [ apply safe_ret
    | apply safe_get_offset
    | apply safe_read_unsigned
    | apply safe_read_signed
    | apply safe_skip
    | apply safe_bytes
    | apply safe_seek
    | apply safe_throw; discriminate
    | apply safe_bind; [|intro]
    | match goal with
      | |- throws_only _ (if ?c then _ else _) => destruct c
      | |- throws_only _ (match ?x with _ => _ end) => destruct x
      end ].

Ltac safe_all := repeat safe_step.

Lemma safe_string : safe string_.
Proof. unfold string_, u16. safe_all. Qed.

Lemma safe_uuid : safe uuid.
Proof. unfold uuid. safe_all. Qed.

Lemma safe_parsePropertyValue depth :
  forall propType, safe (parsePropertyValue depth propType).
Proof.
  induction depth as [|depth IH]; intro propType; simpl.
  - apply safe_throw. discriminate.
  - unfold u8, u16, i16, u32, i32, u64, i64, fixed16_16, f32, f64,
      u32, u64.
    repeat first
      [ apply safe_string
      | apply safe_uuid
      | apply safe_repeat_push; apply IH
      | apply safe_repeat_set
      | apply IH
      | safe_step ].
Qed.

Lemma safe_parseUserDataChunk : safe parseUserDataChunk.
Proof.
  unfold parseUserDataChunk, parsePropertiesMap, u8, u32, u16.
  repeat first
    [ apply safe_string
    | apply safe_repeat_set
    | apply safe_parsePropertyValue
    | safe_step ].
Qed.

Lemma safe_parseCelChunk chunkEndOffset : safe (parseCelChunk chunkEndOffset).
Proof.
  unfold parseCelChunk, u8, u16, i16, u32. safe_all.
Qed.

Lemma safe_parseChunk chunkType chunkEndOffset ctx heap :
  safe (parseChunk chunkType chunkEndOffset ctx heap).
Proof.
  unfold parseChunk.
  repeat match goal with
         | |- throws_only _ (if ?c then _ else _) => destruct c
         end;
    (apply safe_bind; [|intro]).
  all: try apply safe_parseCelChunk.
  all: try apply safe_parseUserDataChunk.
  all: try (destruct (attachUserData ctx heap a)).
  all: unfold parseLayerChunk, parseCelExtraChunk, parsePaletteChunk,
         parsePaletteEntry, parseOldPaletteChunk, parseOldPalettePacket,
         parseOldPaletteColor, parseTagsChunk, parseTag, parseSliceChunk,
         parseSliceKey, parseTilesetChunk, parseColorProfileChunk,
         parseExternalFilesChunk, parseExternalFile,
         u8, u16, i16, u32, i32, fixed16_16.
  all: repeat first
         [ apply safe_string
         | apply safe_repeat_push
         | safe_step ].
Qed.

Lemma safe_chunkLoop options frameIdx chunkCount :
  forall st, safe (chunkLoop options frameIdx chunkCount st).
Proof.
  induction chunkCount as [|n IH]; intro st; simpl; [apply safe_ret|].
  apply safe_bind; [|intro; apply IH].
  unfold parseOneChunk, u32, u16.
  apply safe_bind; [apply safe_get_offset | intro].
  apply safe_bind; [apply safe_read_unsigned | intro].
  apply safe_bind; [apply safe_read_unsigned | intro].
  intros r e. destruct (strict options && _).
  - intros [= <-]. discriminate.
  - apply safe_bind; [apply safe_parseChunk|].
    intros [[chunk ctx] heap].
    destruct (collect frameIdx ctx chunk (ls_acc st) (ls_cels st)).
    safe_all.
Qed.

Lemma safe_frameLoop options header count :
  forall frameIdx ctx heap acc,
    safe (frameLoop options header count frameIdx ctx heap acc).
Proof.
  induction count as [|n IH]; intros frameIdx ctx heap acc; simpl;
    [apply safe_ret|].
  apply safe_bind; [|intros [[c h] a]; apply IH].
  unfold parseFrame, parseFrameHeader, u32, u16.
  apply safe_bind; [apply safe_get_offset | intro].
  apply safe_bind; [safe_all | intros [[frameSize durationMs] chunkCount]].
  apply safe_bind; [apply safe_chunkLoop | intro].
  safe_all.
Qed.

Lemma parseAseprite_never_invalid_cel_type data options e :
  parseAseprite data options = Throw e ->
  e <> AseFormatError INVALID_CEL_TYPE.
Proof.
  unfold parseAseprite.
  match goal with
  | |- match ?p with _ => _ end = _ -> _ => destruct p as [[[h [[c hp] a]] r]|e0] eqn:E
  end; [discriminate|].
  intros [= <-]. revert E.
  apply safe_bind.
  - unfold parseHeader, u8, u16, i16, u32. safe_all.
  - intro header. apply safe_bind; [apply safe_frameLoop | intro; apply safe_ret].
Qed.
End ThrowsOnly.

Lemma read_unsigned_in_bounds size r :
  0 <= rd_offset r ->
  rd_offset r + Z.of_nat size <= rd_length r ->
  read_unsigned size r
  = Ok (field size 0 r,
        {| rd_data := rd_data r; rd_offset := rd_offset r + Z.of_nat size |}).
Proof.
  intros Hlo Hhi.
  unfold read_unsigned, bind, ensureBytes, view_get, advance, ret, field.
  destruct (Z.gtb_spec (rd_offset r + Z.of_nat size) (rd_length r)); [lia|].
  destruct (Z.ltb_spec (rd_offset r) 0); [lia|]. simpl.
  destruct (Z.gtb_spec (rd_offset r + Z.of_nat size) (rd_length r)); [lia|].
  rewrite Z.add_0_r. reflexivity.
Qed.

Lemma skip_in_bounds count r :
  rd_offset r + count <= rd_length r ->
  skip count r
  = Ok (tt, {| rd_data := rd_data r; rd_offset := rd_offset r + count |}).
Proof.
  intro Hhi. unfold skip, bind, ensureBytes, advance.
  destruct (Z.gtb_spec (rd_offset r + count) (rd_length r)); [lia|].
  reflexivity.
Qed.

(** A cel chunk whose sixteen-byte prefix is there and whose variant tag
    is none of the four known ones makes [parseCelChunk] throw the plain
    [Error] "Unknown cel type". *)
Lemma parseCelChunk_unknown_type chunkEndOffset r :
  0 <= rd_offset r ->
  rd_offset r + 16 <= rd_length r ->
  ~ In (field 2 7 r) [CelType.RawImage; CelType.Linked;
                      CelType.CompressedImage; CelType.CompressedTilemap] ->
  parseCelChunk chunkEndOffset r = Throw (Error (UnknownCelType (field 2 7 r))).
Proof.
  intros Hlo Hhi Hty.
  unfold parseCelChunk, u16, i16, u8, read_signed.
  repeat (unfold bind at 1;
          first [ rewrite read_unsigned_in_bounds
                    by (unfold rd_length in *; cbn [rd_data rd_offset Z.of_nat
                          Pos.of_succ_nat Pos.succ]; lia)
                | rewrite skip_in_bounds
                    by (unfold rd_length in *; cbn [rd_data rd_offset]; lia) ];
          try (unfold bind at 1; unfold ret at 1)).
  assert (E : forall k, k = 7 ->
                field 2 0 {| rd_data := rd_data r; rd_offset := rd_offset r + k |}
                = field 2 7 r).
  { intros k ->. unfold field. cbn [rd_data rd_offset]. apply field_eq. lia. }
  cbn [rd_data rd_offset Z.of_nat Pos.of_succ_nat Pos.succ].
  replace (rd_offset r + 2 + 2 + 2 + 1) with (rd_offset r + 7) by lia.
  rewrite !E by reflexivity.
  repeat match goal with
         | |- context [field 2 7 r =? ?c] =>
             destruct (Z.eqb_spec (field 2 7 r) c) as [e|_];
             [exfalso; apply Hty; rewrite e; simpl; tauto|]
         end.
  reflexivity.
Qed.

(** C8 (the code departs from the claim).  Decoding
    [unknownCelTypeFile], whose only cel has variant tag 4, fails with the
    plain [Error] "Unknown cel type: 4", not with an [AseFormatError] of
    code [INVALID_CEL_TYPE]; and no input at all makes [parseAseprite] fail
    with that code. *)
Theorem C8_unknown_cel_type_plain_error :
  (forall rt : JsRuntime,
      parseAseprite unknownCelTypeFile DEFAULT_OPTIONS
      = Throw (Error (UnknownCelType 4)))
  /\ (forall (rt : JsRuntime) (data : Bytes) (options : ParseOptions),
         parseAseprite data options <> Throw (AseFormatError INVALID_CEL_TYPE))
  /\ (forall (chunkEndOffset : Z) (r : BinaryReader),
         0 <= rd_offset r ->
         rd_offset r + 16 <= rd_length r ->
         ~ In (field 2 7 r) [CelType.RawImage; CelType.Linked;
                             CelType.CompressedImage; CelType.CompressedTilemap] ->
         parseCelChunk chunkEndOffset r
         = Throw (Error (UnknownCelType (field 2 7 r)))).
Proof.
  split; [|split].
  - intro rt. vm_compute. reflexivity.
  - intros rt data options H.
    exact (parseAseprite_never_invalid_cel_type _ _ H eq_refl).
  - apply parseCelChunk_unknown_type.
Qed.

(** The common prefix of a cel chunk with variant tag 4 (layer 0, position
    (0, 0), opacity 255, z-index 0, five reserved bytes). *)
Lemma C8_witness :
  parseCelChunk 16
    {| rd_data := [x00; x00;  x00; x00;  x00; x00;  xff;  x04; x00;
                   x00; x00;  x00; x00; x00; x00; x00];
       rd_offset := 0 |}
  = Throw (Error (UnknownCelType 4)).
Proof.
  apply (proj2 (proj2 C8_unknown_cel_type_plain_error) 16
           {| rd_data := [x00; x00;  x00; x00;  x00; x00;  xff;  x04; x00;
                          x00; x00;  x00; x00; x00; x00; x00];
              rd_offset := 0 |}).
  - simpl. lia.
  - unfold rd_length. simpl. lia.
  - vm_compute. intuition discriminate.
Defined.

(* ================================================================== *)
(** ** Frame headers written by the encoder *)

Lemma le_bytes_length size z : length (le_bytes size z) = size.
Proof.
  revert z. induction size as [|n IH]; intro z; simpl; [reflexivity|].
  rewrite IH. reflexivity.
Qed.

Lemma le_value_le_bytes size z :
  le_value (le_bytes size z) = z mod 2 ^ (8 * Z.of_nat size).
Proof.
  revert z. induction size as [|n IH]; intro z.
  - simpl. rewrite Z.mod_1_r. reflexivity.
  - cbn [le_bytes le_value]. rewrite IH, byte_val_of_Z.
    replace (8 * Z.of_nat (S n)) with (8 + 8 * Z.of_nat n) by lia.
    rewrite Z.pow_add_r by lia. change (2 ^ 8) with 256.
    rewrite Z.rem_mul_r by lia. reflexivity.
Qed.

Lemma encodeFrameHeader_length frameSize chunkCount durationMs :
  length (encodeFrameHeader frameSize chunkCount durationMs) = 16%nat.
Proof. reflexivity. Qed.

(** The two count fields of a frame header. *)
Lemma encodeFrameHeader_counts frameSize chunkCount durationMs rest :
  0 <= chunkCount ->
  frame_counts_ok (encodeFrameHeader frameSize chunkCount durationMs ++ rest)
                  chunkCount.
Proof.
  intro Hc. unfold frame_counts_ok, frame_old_count, frame_new_count. split.
  - change (firstn 2 (skipn 6 (encodeFrameHeader frameSize chunkCount durationMs
                               ++ rest)))
      with (le_bytes 2 (if chunkCount >? 65534 then 65535 else chunkCount)).
    rewrite le_value_le_bytes. change (2 ^ (8 * Z.of_nat 2)) with 65536.
    destruct (Z.gtb_spec chunkCount 65534); destruct (Z.leb_spec chunkCount 65534);
      try lia.
    + reflexivity.
    + apply Z.mod_small. lia.
  - change (firstn 4 (skipn 12 (encodeFrameHeader frameSize chunkCount durationMs
                                ++ rest)))
      with (le_bytes 4 chunkCount).
    rewrite le_value_le_bytes. reflexivity.
Qed.

Lemma total_length_concat bufs :
  total_length bufs = Z.of_nat (length (concat bufs)).
Proof.
  unfold total_length.
  assert (H : forall acc,
             fold_left (fun size buf => size + Z.of_nat (length buf)) bufs acc
             = acc + Z.of_nat (length (concat bufs))).
  { induction bufs as [|b rest IH]; intro acc; simpl; [lia|].
    rewrite IH, length_app. lia. }
  rewrite H. lia.
Qed.

Lemma typed_array_set_at (target source tail filler : Bytes) :
  length filler = length source ->
  typed_array_set (target ++ filler ++ tail) source (Z.of_nat (length target))
  = Ok (target ++ source ++ tail).
Proof.
  intros Hlen. unfold typed_array_set.
  destruct (Z.ltb_spec (Z.of_nat (length target)) 0); [lia|].
  rewrite !length_app.
  destruct (Z.gtb_spec (Z.of_nat (length target) + Z.of_nat (length source))
                       (Z.of_nat (length target + (length filler + length tail))));
    [lia|]. simpl.
  rewrite Nat2Z.id. rewrite firstn_app, Nat.sub_diag, firstn_all. simpl.
  rewrite app_nil_r. do 2 f_equal.
  rewrite skipn_app, skipn_all2 by lia. simpl.
  replace (length target + length source - length target)%nat
    with (length filler) by lia.
  rewrite skipn_app, skipn_all, Nat.sub_diag. reflexivity.
Qed.

(** Placing the buffers one after the other over a zeroed area is
    concatenation. *)
Lemma set_all_concat bufs :
  forall target,
    set_all (target ++ repeat x00 (length (concat bufs))) bufs
            (Z.of_nat (length target))
    = Ok (target ++ concat bufs).
Proof.
  induction bufs as [|buf rest IH]; intro target; simpl.
  - rewrite app_nil_r. reflexivity.
  - rewrite length_app, repeat_app.
    rewrite (@typed_array_set_at target buf
               (repeat x00 (length (concat rest)))
               (repeat x00 (length buf)))
      by apply repeat_length.
    simpl. rewrite app_assoc.
    replace (Z.of_nat (length target) + Z.of_nat (length buf))
      with (Z.of_nat (length (target ++ buf))) by (rewrite length_app; lia).
    rewrite IH. rewrite <- app_assoc. reflexivity.
Qed.

(** "Build frame" yields the header followed by the chunks. *)
Lemma buildFrame_eq chunkBuffers chunkCount durationMs :
  buildFrame chunkBuffers chunkCount durationMs
  = Ok (encodeFrameHeader (16 + Z.of_nat (length (concat chunkBuffers)))
                          chunkCount durationMs
        ++ concat chunkBuffers).
Proof.
  unfold buildFrame. rewrite total_length_concat.
  set (header := encodeFrameHeader _ chunkCount durationMs).
  unfold new_Uint8Array.
  replace (Z.to_nat (16 + Z.of_nat (length (concat chunkBuffers))))
    with (16 + length (concat chunkBuffers))%nat by lia.
  rewrite repeat_app.
  pose proof (@typed_array_set_at [] header
                (repeat x00 (length (concat chunkBuffers)))
                (repeat x00 16) eq_refl) as Hs.
  cbn [app length Z.of_nat] in Hs. rewrite Hs.
  cbn [bindR app]. change 16 with (Z.of_nat (length header)).
  apply (set_all_concat chunkBuffers header).
Qed.

Section EncodedFrames.
Context {rt : JsRuntime}.

Lemma encodeHeader_length file fileSize :
  length (encodeHeader file fileSize) = 124%nat.
Proof. reflexivity. Qed.

(** "Build final file": the 124 bytes that [encodeHeader] writes, the four
    bytes of the 128-byte area they leave untouched, then the frames. *)
Lemma buildFile_eq file frameBuffers :
  buildFile file frameBuffers
  = Ok (encodeHeader file (128 + Z.of_nat (length (concat frameBuffers)))
        ++ repeat x00 4 ++ concat frameBuffers).
Proof.
  unfold buildFile. rewrite total_length_concat.
  set (header := encodeHeader file _).
  unfold new_Uint8Array.
  replace (Z.to_nat (128 + Z.of_nat (length (concat frameBuffers))))
    with (124 + (4 + length (concat frameBuffers)))%nat by lia.
  rewrite !repeat_app.
  pose proof (@typed_array_set_at [] header
                (repeat x00 4 ++ repeat x00 (length (concat frameBuffers)))
                (repeat x00 124) eq_refl) as Hs.
  cbn [app length Z.of_nat] in Hs. rewrite Hs.
  cbn [bindR]. rewrite app_assoc.
  change 128 with (Z.of_nat (length (header ++ repeat x00 4))).
  rewrite (set_all_concat frameBuffers (header ++ repeat x00 4)).
  rewrite <- app_assoc. reflexivity.
Qed.

Lemma encoded_frame_intro chunkBuffers durationMs :
  encoded_frame
    (encodeFrameHeader (16 + Z.of_nat (length (concat chunkBuffers)))
                       (Z.of_nat (length chunkBuffers)) durationMs
     ++ concat chunkBuffers)
    durationMs chunkBuffers.
Proof.
  split; [reflexivity|]. apply encodeFrameHeader_counts. lia.
Qed.

Lemma encodeAll_singletons {A} (f : A -> Result Bytes) xs :
  forall acc bufs,
    encodeAll (fun x => encoded <-- f x ;;; Ok [encoded]) xs acc = Ok bufs ->
    length bufs = (length acc + length xs)%nat.
Proof.
  induction xs as [|x rest IH]; intros acc bufs H; simpl in H.
  - injection H as <-. simpl. lia.
  - destruct (f x) as [b|e]; simpl in H; [|discriminate].
    apply IH in H. rewrite H, length_app. simpl. lia.
Qed.

Lemma chunksModeFrame_Ok compression frame frameBuffer :
  chunksModeFrame compression frame = Ok frameBuffer ->
  exists chunks chunkBuffers,
    frame_chunks frame = Some chunks
    /\ length chunkBuffers = length chunks
    /\ encoded_frame frameBuffer (frame_durationMs frame) chunkBuffers.
Proof.
  unfold chunksModeFrame. destruct (frame_chunks frame) as [chunks|]; [|discriminate].
  destruct (encodeAll _ chunks []) as [bufs|e] eqn:E; simpl; [|discriminate].
  apply encodeAll_singletons in E. simpl in E.
  rewrite buildFrame_eq. intros [= <-].
  exists chunks, bufs. split; [reflexivity|]. split; [exact E|].
  rewrite <- E. apply encoded_frame_intro.
Qed.

Lemma canonicalModeFrame_Ok file compression frameIdx frame frameBuffer :
  canonicalModeFrame file compression frameIdx frame = Ok frameBuffer ->
  exists chunkBuffers,
    canonicalChunkBuffers file compression frameIdx frame = Ok chunkBuffers
    /\ encoded_frame frameBuffer (frame_durationMs frame) chunkBuffers.
Proof.
  unfold canonicalModeFrame.
  destruct (canonicalChunkBuffers file compression frameIdx frame) as [bufs|e];
    simpl; [|discriminate].
  rewrite buildFrame_eq. intros [= <-].
  exists bufs. split; [reflexivity | apply encoded_frame_intro].
Qed.

Lemma chunksModeFrames_Ok compression frames :
  forall acc frameBuffers,
    chunksModeFrames compression frames acc = Ok frameBuffers ->
    exists new,
      frameBuffers = acc ++ new
      /\ Forall2 (fun frame fb => chunksModeFrame compression frame = Ok fb)
                 frames new.
Proof.
  induction frames as [|frame rest IH]; intros acc fbs H; simpl in H.
  - injection H as <-. exists []. rewrite app_nil_r. split; constructor.
  - destruct (chunksModeFrame compression frame) as [fb|e] eqn:E; simpl in H;
      [|discriminate].
    apply IH in H. destruct H as (new & -> & Hall).
    exists (fb :: new). rewrite <- app_assoc. split; [reflexivity|].
    constructor; assumption.
Qed.

Lemma canonicalModeFrames_Ok file compression frames :
  forall frameIdx acc frameBuffers,
    canonicalModeFrames file compression frames frameIdx acc = Ok frameBuffers ->
    exists new,
      frameBuffers = acc ++ new
      /\ Forall2 (fun frame fb =>
                    exists i, canonicalModeFrame file compression i frame = Ok fb)
                 frames new.
Proof.
  induction frames as [|frame rest IH]; intros frameIdx acc fbs H; simpl in H.
  - injection H as <-. exists []. rewrite app_nil_r. split; constructor.
  - destruct (canonicalModeFrame file compression frameIdx frame) as [fb|e] eqn:E;
      simpl in H; [|discriminate].
    apply IH in H. destruct H as (new & -> & Hall).
    exists (fb :: new). rewrite <- app_assoc. split; [reflexivity|].
    constructor; [exists frameIdx; exact E | assumption].
Qed.
End EncodedFrames.

(** C2 (amended).  When the encoder writes a frame header, the old chunk
    count field receives the chunk count if that is at most 0xFFFE and
    0xFFFF otherwise, and the new chunk count field always receives the
    real count.  This holds for every frame of a file encoded in
    preserved-chunks mode and in canonical mode: the encoded file is the
    header area followed by the frames, and each frame is such a header,
    written for the number of its chunk buffers, followed by them. *)
Theorem C2_frame_header_chunk_counts :
  (forall frameSize chunkCount durationMs,
      0 <= chunkCount ->
      frame_old_count (encodeFrameHeader frameSize chunkCount durationMs)
      = (if chunkCount <=? 0xFFFE then chunkCount else 0xFFFF)
      /\ frame_new_count (encodeFrameHeader frameSize chunkCount durationMs)
         = chunkCount mod 2 ^ 32)
  /\ (forall (rt : JsRuntime) file compression out,
         encodeChunksMode file compression = Ok out ->
         exists frameBuffers,
           out = encodeHeader file (128 + Z.of_nat (length (concat frameBuffers)))
                 ++ repeat x00 4 ++ concat frameBuffers
           /\ Forall2
                (fun frame frameBuffer =>
                   exists chunks chunkBuffers,
                     frame_chunks frame = Some chunks
                     /\ length chunkBuffers = length chunks
                     /\ encoded_frame frameBuffer (frame_durationMs frame)
                                      chunkBuffers)
                (file_frames file) frameBuffers)
  /\ (forall (rt : JsRuntime) file compression out,
         encodeCanonicalMode file compression = Ok out ->
         exists frameBuffers,
           out = encodeHeader file (128 + Z.of_nat (length (concat frameBuffers)))
                 ++ repeat x00 4 ++ concat frameBuffers
           /\ Forall2
                (fun frame frameBuffer =>
                   exists frameIdx chunkBuffers,
                     canonicalChunkBuffers file compression frameIdx frame
                     = Ok chunkBuffers
                     /\ encoded_frame frameBuffer (frame_durationMs frame)
                                      chunkBuffers)
                (file_frames file) frameBuffers).
Proof.
  split; [|split].
  - intros frameSize chunkCount durationMs Hc.
    pose proof (@encodeFrameHeader_counts frameSize chunkCount durationMs [] Hc) as H.
    rewrite app_nil_r in H. exact H.
  - intros rt file compression out H. unfold encodeChunksMode in H.
    destruct (chunksModeFrames compression (file_frames file) []) as [fbs|e] eqn:E;
      simpl in H; [|discriminate].
    rewrite buildFile_eq in H. injection H as <-.
    apply chunksModeFrames_Ok in E. destruct E as (new & -> & Hall).
    exists new. split; [reflexivity|].
    eapply Forall2_impl; [|exact Hall].
    intros frame fb. apply chunksModeFrame_Ok.
  - intros rt file compression out H. unfold encodeCanonicalMode in H.
    destruct (canonicalModeFrames file compression (file_frames file) 0 [])
      as [fbs|e] eqn:E; simpl in H; [|discriminate].
    rewrite buildFile_eq in H. injection H as <-.
    apply canonicalModeFrames_Ok in E. destruct E as (new & -> & Hall).
    exists new. split; [reflexivity|].
    eapply Forall2_impl; [|exact Hall].
    intros frame fb [i Hi]. apply canonicalModeFrame_Ok in Hi.
    destruct Hi as (bufs & Hb & He). exists i, bufs. split; assumption.
Qed.

(** A frame of three chunks: old count 3, new count 3. *)
Lemma C2_witness :
  frame_old_count (encodeFrameHeader 16 3 100) = 3
  /\ frame_new_count (encodeFrameHeader 16 3 100) = 3.
Proof.
  apply (proj1 C2_frame_header_chunk_counts 16 3 100). discriminate.
Defined.

(** C2, as the claim states it, fails: for a frame of one chunk the new
    chunk count field is 1, not 0. *)
Lemma C2_counterexample :
  ~ (forall frameSize chunkCount durationMs,
        0 <= chunkCount <= 0xFFFE ->
        frame_old_count (encodeFrameHeader frameSize chunkCount durationMs)
        = chunkCount
        /\ frame_new_count (encodeFrameHeader frameSize chunkCount durationMs)
           = 0).
Proof.
  intro H. destruct (H 22 1 100) as [_ Hnew].
  - split; discriminate.
  - discriminate Hnew.
Qed.

(** The same in a whole file: canonical encoding of a file of one frame
    and one layer writes both counts as 1 (the frame starts at byte 128 of
    the output). *)
Example canonical_one_layer_counts :
  exists out,
    encodeCanonicalMode (rt := exampleRuntime) oneLayerFile noCompression = Ok out
    /\ frame_old_count (skipn 128 out) = 1
    /\ frame_new_count (skipn 128 out) = 1.
Proof. eexists. split; [vm_compute; reflexivity|]. split; reflexivity. Qed.

(* ================================================================== *)
(** ** Placeholders of unknown property types *)

(** Induction on property values, through vectors and maps. *)
Lemma PropertyValue_nested_ind (P : PropertyValue -> Prop) :
  P PNull ->
  (forall b, P (PBool b)) ->
  (forall n, P (PNumber n)) ->
  (forall z, P (PBigInt z)) ->
  (forall s, P (PString s)) ->
  (forall x y, P (PPoint x y)) ->
  (forall w h, P (PSize w h)) ->
  (forall x y w h, P (PRect x y w h)) ->
  (forall l, Forall P l -> P (PVector l)) ->
  (forall m, Forall (fun kv => P (snd kv)) m -> P (PMap m)) ->
  (forall t, P (PUnknown t)) ->
  forall v, P v.
Proof.
  intros H1 H2 H3 H4 H5 H6 H7 H8 HV HM HU.
  fix IH 1. intros [ |b|n|z|s|x y|w h|x y w h|l|m|t].
  - exact H1.
  - apply H2.
  - apply H3.
  - apply H4.
  - apply H5.
  - apply H6.
  - apply H7.
  - apply H8.
  - apply HV. induction l as [|v l IHl]; constructor; [apply IH | exact IHl].
  - apply HM. induction m as [|[k v] m IHm]; constructor; [apply IH | exact IHm].
  - apply HU.
Qed.

Section Placeholder.
Context {rt : JsRuntime}.

Lemma w_string_plain w s e : w_string w s = Throw e -> plain_error e.
Proof.
  unfold w_string. destruct (_ >? _); [|discriminate].
  intros [= <-]. exact I.
Qed.

Lemma w_uuid_plain w s e : w_uuid w s = Throw e -> plain_error e.
Proof.
  unfold w_uuid. destruct (negb _); [|discriminate].
  intros [= <-]. exact I.
Qed.

Lemma for_of_plain {A} (body : Bytes -> A -> Result Bytes) xs :
  Forall (fun x => forall w e, body w x = Throw e -> plain_error e) xs ->
  forall w e, for_of body xs w = Throw e -> plain_error e.
Proof.
  induction 1 as [|x rest Hx _ IH]; intros w e H; simpl in H; [discriminate|].
  destruct (body w x) as [w'|e'] eqn:E; simpl in H.
  - exact (IH _ _ H).
  - injection H as <-. exact (Hx _ _ E).
Qed.

(** [encodePropertyValue] raises no [AseFormatError]. *)
Lemma encodePropertyValue_plain value :
  forall w propType e,
    encodePropertyValue w value propType = Throw e -> plain_error e.
Proof.
  induction value using PropertyValue_nested_ind; intros w0 propType e;
    cbn [encodePropertyValue];
    repeat match goal with
           | |- (if ?c then _ else _) = _ -> _ => destruct c
           | |- match encode_mistyped ?a ?b ?c with _ => _ end = _ -> _ =>
               destruct (encode_mistyped a b c)
           | |- match ?n with NInt _ => _ | NDouble _ => _ end = _ -> _ =>
               destruct n
           end;
    try discriminate;
    try (intros [= <-]; exact I);
    try apply w_string_plain;
    try apply w_uuid_plain.
  - (* vector *)
    destruct l as [|first rest]; [discriminate|].
    apply for_of_plain.
    eapply Forall_impl; [|exact H]. intros v Hv w e'. apply Hv.
  - (* map *)
    apply for_of_plain.
    eapply Forall_impl; [|exact H]. intros [k v] Hv w e'. simpl in Hv.
    destruct (w_string w k) as [w'|e''] eqn:E; simpl.
    + apply Hv.
    + intros [= <-]. exact (w_string_plain _ _ E).
Qed.

Lemma encodeProperties_plain props :
  forall w e, encodeProperties w props = Throw e -> plain_error e.
Proof.
  induction props as [|[name value] rest IH]; intros w e H; simpl in H;
    [discriminate|].
  destruct (w_string w name) as [w1|e1] eqn:E1; simpl in H.
  2:{ injection H as <-. exact (w_string_plain _ _ E1). }
  destruct (encodePropertyValue _ value _) as [w2|e2] eqn:E2; simpl in H.
  - exact (IH _ _ H).
  - injection H as <-. exact (encodePropertyValue_plain _ _ _ E2).
Qed.

Lemma encodeExtensions_plain properties :
  forall w e, encodeExtensions w properties = Throw e -> plain_error e.
Proof.
  induction properties as [|[extKey props] rest IH]; intros w e H; simpl in H;
    [discriminate|].
  destruct (encodeProperties _ props) as [w1|e1] eqn:E1; simpl in H.
  - exact (IH _ _ H).
  - injection H as <-. exact (encodeProperties_plain _ _ E1).
Qed.

Lemma encodeUserDataChunk_plain userData e :
  encodeUserDataChunk userData = Throw e -> plain_error e.
Proof.
  unfold encodeUserDataChunk.
  match goal with
  | |- bindR ?x _ = _ -> _ => destruct x as [w1|e1] eqn:E1
  end; simpl.
  - destruct (ud_properties userData) as [properties|]; [|discriminate].
    unfold encodePropertiesMap. apply encodeExtensions_plain.
  - intros [= <-].
    destruct (ud_text userData) as [text|]; [|discriminate].
    destruct (has_text userData); [|discriminate].
    exact (w_string_plain _ _ E1).
Qed.

(** A placeholder among the properties of an extension contributes its
    name, the tag of Null and nothing else. *)
Lemma encodeProperties_placeholder before propName unknownType after :
  forall w,
    encodeProperties w (before ++ (propName, PUnknown unknownType) :: after)
    = (w1 <-- encodeProperties w before ;;;
       w2 <-- w_string w1 propName ;;;
       encodeProperties (w_u16 w2 PropertyType.Null) after).
Proof.
  induction before as [|[n v] rest IH]; intro w; simpl.
  - reflexivity.
  - destruct (w_string w n) as [w1|e1]; simpl; [|reflexivity].
    destruct (encodePropertyValue _ v _) as [w2|e2]; simpl; [|reflexivity].
    apply IH.
Qed.

(** Decoding a type tag that is not one of the known ones yields the
    placeholder and consumes nothing. *)
Lemma parsePropertyValue_unknown depth propType r :
  ~ In propType knownPropertyTypes ->
  parsePropertyValue (S depth) propType r = Ok (PUnknown propType, r).
Proof.
  intro Hnot. cbn [parsePropertyValue].
  repeat match goal with
         | |- context [propType =? ?c] =>
             destruct (Z.eqb_spec propType c) as [e|_];
             [exfalso; apply Hnot; rewrite e; simpl; tauto|]
         end.
  reflexivity.
Qed.
End Placeholder.

(** C9 (amended).  Encoding a UserData value whose properties contain a
    placeholder for an unknown property type does not fail with
    BadChunkSize, nor with any error of the codec's taxonomy:
    [getPropertyType] classifies the placeholder as Null, and the encoder
    emits the property's name followed by the type tag 0x0000 and no value
    bytes.  (The decoder makes the placeholder from the type tag alone; it
    keeps no raw bytes.) *)
Theorem C9_placeholder_encoded_as_null :
  (forall (rt : JsRuntime) unknownType,
      getPropertyType (PUnknown unknownType) = PropertyType.Null)
  /\ (forall (rt : JsRuntime) w before propName unknownType after,
         encodeProperties w (before ++ (propName, PUnknown unknownType) :: after)
         = (w1 <-- encodeProperties w before ;;;
            w2 <-- w_string w1 propName ;;;
            encodeProperties (w_u16 w2 PropertyType.Null) after))
  /\ (forall (rt : JsRuntime) userData code,
         encodeUserDataChunk userData <> Throw (AseFormatError code))
  /\ (forall (rt : JsRuntime) depth propType r,
         ~ In propType knownPropertyTypes ->
         parsePropertyValue (S depth) propType r = Ok (PUnknown propType, r)).
Proof.
  split; [|split; [|split]].
  - reflexivity.
  - intros rt w before propName unknownType after.
    apply encodeProperties_placeholder.
  - intros rt userData code H. exact (encodeUserDataChunk_plain _ H).
  - intros rt depth propType r. apply parsePropertyValue_unknown.
Qed.

(** Type tag 0x0063 is decoded to a placeholder. *)
Lemma C9_witness :
  parsePropertyValue (rt := exampleRuntime) 1 0x63
    {| rd_data := []; rd_offset := 0 |}
  = Ok (PUnknown 0x63, {| rd_data := []; rd_offset := 0 |}).
Proof.
  apply (proj2 (proj2 (proj2 C9_placeholder_encoded_as_null))).
  unfold knownPropertyTypes. simpl. intuition discriminate.
Defined.

(** C9, as the claim states it, fails: user data whose only property is a
    placeholder is encoded, as flags 4, one extension with id 0, one
    property named "p" with type tag 0 and no value. *)
Lemma C9_counterexample :
  ~ (forall (rt : JsRuntime) (userData : UserData),
        has_placeholder userData ->
        encodeUserDataChunk userData = Throw (AseFormatError BAD_CHUNK_SIZE)).
Proof.
  intro H. specialize (H exampleRuntime placeholderUserData).
  assert (E : encodeUserDataChunk (rt := exampleRuntime) placeholderUserData
              = Ok [x04; x00; x00; x00;  x01; x00; x00; x00;
                    x00; x00; x00; x00;  x01; x00; x00; x00;
                    x01; x00; x70;  x00; x00]) by reflexivity.
  rewrite E in H.
  assert (Hf : Ok [x04; x00; x00; x00;  x01; x00; x00; x00;
                   x00; x00; x00; x00;  x01; x00; x00; x00;
                   x01; x00; x70;  x00; x00]
              = @Throw Bytes (AseFormatError BAD_CHUNK_SIZE));
    [|discriminate Hf].
  apply H. unfold has_placeholder, placeholderUserData.
  exists [(str "ext_0", [(str "p", PUnknown 0x63)])], (str "ext_0"),
         [(str "p", PUnknown 0x63)], (str "p"), 0x63.
  split; [reflexivity|]. split; left; reflexivity.
Qed.

(* ================================================================== *)
(* ================================================================== *)
(** * Further properties *)

(** ** Tag lookup and playback ([src/util/tags.ts]) *)

Lemma spec_ascending_In a n i :
  In i (spec_ascending a n) <-> a <= i < a + Z.of_nat n.
Proof.
  unfold spec_ascending. rewrite in_map_iff. split.
  - intros (k & <- & Hk). apply in_seq in Hk. lia.
  - intro H. exists (Z.to_nat (i - a)). split; [lia|]. apply in_seq. lia.
Qed.

Lemma spec_descending_In a n i :
  In i (spec_descending a n) <-> a - Z.of_nat n < i <= a.
Proof.
  unfold spec_descending. rewrite in_map_iff. split.
  - intros (k & <- & Hk). apply in_seq in Hk. lia.
  - intro H. exists (Z.to_nat (a - i)). split; [lia|]. apply in_seq. lia.
Qed.

(** The playback order as sequences, for every pair of bounds. *)
Lemma resolveTagFrameRange_sequences tag :
  let from := tag_fromFrame tag in
  let to := tag_toFrame tag in
  tfr_playbackOrder (resolveTagFrameRange tag)
  = if tag_direction tag =? TagDirection.Forward
    then spec_ascending from (Z.to_nat (to - from + 1))
    else if tag_direction tag =? TagDirection.Reverse
    then spec_descending to (Z.to_nat (to - from + 1))
    else if tag_direction tag =? TagDirection.PingPong
    then spec_ascending from (Z.to_nat (to - from + 1))
         ++ spec_descending (to - 1) (Z.to_nat (to - 1 - from))
    else if tag_direction tag =? TagDirection.PingPongReverse
    then spec_descending to (Z.to_nat (to - from + 1))
         ++ spec_ascending (from + 1) (Z.to_nat (to - (from + 1)))
    else [].
Proof.
  intros from to. unfold resolveTagFrameRange. simpl. fold from to.
  unfold for_up_le, for_down_ge, for_down_gt, for_up_lt.
  rewrite !for_up_le_fuel, !for_down_ge_fuel by lia.
  rewrite for_down_gt_fuel, for_up_lt_fuel by lia.
  reflexivity.
Qed.

Lemma playbackOrder_In tag i :
  In i (tfr_playbackOrder (resolveTagFrameRange tag)) ->
  tag_fromFrame tag <= i <= tag_toFrame tag.
Proof.
  rewrite resolveTagFrameRange_sequences.
  repeat match goal with
         | |- context [if ?c then _ else _] => destruct c
         end;
    rewrite ?in_app_iff, ?spec_ascending_In, ?spec_descending_In;
    simpl; lia.
Qed.

Lemma playbackOrder_covers tag i :
  In (tag_direction tag) knownDirections ->
  tag_fromFrame tag <= i <= tag_toFrame tag ->
  In i (tfr_playbackOrder (resolveTagFrameRange tag)).
Proof.
  intros Hdir Hi. rewrite resolveTagFrameRange_sequences.
  unfold knownDirections in Hdir. cbn [In] in Hdir.
  destruct (Z.eqb_spec (tag_direction tag) TagDirection.Forward);
    [apply spec_ascending_In; lia|].
  destruct (Z.eqb_spec (tag_direction tag) TagDirection.Reverse);
    [apply spec_descending_In; lia|].
  destruct (Z.eqb_spec (tag_direction tag) TagDirection.PingPong);
    [apply in_app_iff; left; apply spec_ascending_In; lia|].
  destruct (Z.eqb_spec (tag_direction tag) TagDirection.PingPongReverse);
    [apply in_app_iff; left; apply spec_descending_In; lia|].
  exfalso. intuition congruence.
Qed.

(** X1.  Whatever the tag, every frame index that [resolveTagFrameRange]
    puts in the playback order lies between [fromFrame] and [toFrame]; the
    order is empty when [toFrame < fromFrame] and when the direction is
    none of the four known ones, while [frameCount] is [to - from + 1] in
    every case (so it is zero or negative for an inverted range). *)
Theorem X1_playbackOrder_within_range :
  forall tag : Tag,
    let r := resolveTagFrameRange tag in
    (forall i, In i (tfr_playbackOrder r) ->
               tag_fromFrame tag <= i <= tag_toFrame tag)
    /\ (tag_toFrame tag < tag_fromFrame tag -> tfr_playbackOrder r = [])
    /\ (~ In (tag_direction tag) knownDirections -> tfr_playbackOrder r = [])
    /\ tfr_frameCount r = tag_toFrame tag - tag_fromFrame tag + 1.
Proof.
  intros tag r. split; [|split; [|split]].
  - intros i. apply playbackOrder_In.
  - intro Hlt.
    destruct (tfr_playbackOrder r) as [|i rest] eqn:E; [reflexivity|].
    assert (Hin : In i (tfr_playbackOrder r)) by (rewrite E; left; reflexivity).
    apply playbackOrder_In in Hin. lia.
  - intro Hdir. unfold r. rewrite resolveTagFrameRange_sequences.
    unfold knownDirections in Hdir. cbn [In] in Hdir.
    repeat match goal with
           | |- context [?a =? ?b] =>
               destruct (Z.eqb_spec a b); [exfalso; intuition congruence|]
           end.
    reflexivity.
  - reflexivity.
Qed.

(** An inverted ping-pong tag over frames 5..2, and a tag of direction 7. *)
Lemma X1_witness :
  tfr_playbackOrder (resolveTagFrameRange (mkTag 5 2 TagDirection.PingPong)) = []
  /\ tfr_playbackOrder (resolveTagFrameRange (mkTag 0 2 7)) = [].
Proof.
  split.
  - apply (proj1 (proj2 (X1_playbackOrder_within_range
                           (mkTag 5 2 TagDirection.PingPong)))).
    simpl. lia.
  - apply (proj1 (proj2 (proj2 (X1_playbackOrder_within_range (mkTag 0 2 7))))).
    unfold knownDirections. simpl. intuition discriminate.
Defined.

Lemma find_some_split {A} (p : A -> bool) l x :
  find p l = Some x ->
  exists before after,
    l = before ++ x :: after /\ p x = true
    /\ forallb (fun y => negb (p y)) before = true.
Proof.
  induction l as [|y l IH]; simpl; [discriminate|].
  destruct (p y) eqn:E.
  - intros [= ->]. exists [], l. repeat split. exact E.
  - intro H. destruct (IH H) as (before & after & -> & Hx & Hb).
    exists (y :: before), after. simpl. rewrite E. repeat split; assumption.
Qed.

Lemma find_none_iff {A} (p : A -> bool) l :
  find p l = None <-> forall y, In y l -> p y = false.
Proof.
  split.
  - intros H y Hy. exact (find_none p l H y Hy).
  - intro H. induction l as [|y l IH]; [reflexivity|]. simpl.
    rewrite (H y (or_introl eq_refl)). apply IH.
    intros z Hz. apply H. right. exact Hz.
Qed.

(** X2.  [getTagFrameRange] finds a tag exactly when its name is one of
    [listTagNames]; what it returns is the resolution of the first tag of
    that name, carries the name asked for, and is one of
    [getAllTagFrameRanges]. *)
Theorem X2_getTagFrameRange_lookup :
  forall (file : AsepriteFile) (tagName : JsString),
    (getTagFrameRange file tagName <> None <-> In tagName (listTagNames file))
    /\ (forall r,
           getTagFrameRange file tagName = Some r ->
           tfr_name r = tagName
           /\ In r (getAllTagFrameRanges file)
           /\ exists tags before tag after,
                file_tags file = Some tags
                /\ tags = before ++ tag :: after
                /\ r = resolveTagFrameRange tag
                /\ tag_name tag = tagName
                /\ ~ In tagName (map tag_name before)).
Proof.
  intros file tagName.
  unfold getTagFrameRange, listTagNames, getAllTagFrameRanges, array_find.
  destruct (file_tags file) as [tags|]; [|split; [split; [congruence|contradiction]
                                                 |discriminate]].
  destruct (find (fun t => jsstr_eqb (tag_name t) tagName) tags) as [tag|] eqn:E.
  - apply find_some_split in E. destruct E as (before & after & -> & Hn & Hb).
    apply jsstr_eqb_eq in Hn. split.
    + split; [|discriminate]. intros _. rewrite map_app, in_app_iff.
      right. left. exact Hn.
    + intros r [= <-]. split; [exact Hn|]. split.
      * apply in_map. apply in_app_iff. right. left. reflexivity.
      * exists (before ++ tag :: after), before, tag, after.
        repeat split; try assumption.
        intro Hin. apply in_map_iff in Hin. destruct Hin as (t & Ht & Hin).
        rewrite forallb_forall in Hb. specialize (Hb t Hin).
        apply negb_true_iff in Hb.
        apply jsstr_eqb_eq in Ht. congruence.
  - split; [|discriminate]. split; [congruence|].
    intros Hin _. apply in_map_iff in Hin. destruct Hin as (t & Ht & Hin).
    rewrite find_none_iff in E. specialize (E t Hin).
    apply jsstr_eqb_eq in Ht. congruence.
Qed.

(** Two tags of one name: the first one answers. *)
Lemma X2_witness :
  exists r,
    getTagFrameRange
      (fileOf (Some [mkTag 0 2 TagDirection.Forward;
                     mkTag 5 7 TagDirection.Reverse]) None)
      (str "test") = Some r
    /\ tfr_name r = str "test"
    /\ tfr_playbackOrder r = [0; 1; 2].
Proof.
  eexists. split; [reflexivity|]. split; [|reflexivity].
  apply (proj2 (X2_getTagFrameRange_lookup
                  (fileOf (Some [mkTag 0 2 TagDirection.Forward;
                                 mkTag 5 7 TagDirection.Reverse]) None)
                  (str "test")) _ eq_refl).
Defined.

(** X3.  [getTagsAtFrame] and [resolveTagFrameRange] agree: a tag with one
    of the four known directions is among the tags at a frame exactly when
    it is a tag of the file and the frame occurs in its playback order.
    [getTagsAtFrame] returns the file's tags in their order, and nothing
    when the file has no tags. *)
Theorem X3_getTagsAtFrame_playbackOrder :
  forall (file : AsepriteFile) (frameIndex : Z),
    (forall tag,
        In (tag_direction tag) knownDirections ->
        (In tag (getTagsAtFrame file frameIndex)
         <-> (exists tags, file_tags file = Some tags /\ In tag tags)
             /\ In frameIndex (tfr_playbackOrder (resolveTagFrameRange tag))))
    /\ (forall tag,
           In tag (getTagsAtFrame file frameIndex) ->
           tag_fromFrame tag <= frameIndex <= tag_toFrame tag)
    /\ (file_tags file = None -> getTagsAtFrame file frameIndex = []).
Proof.
  intros file frameIndex. unfold getTagsAtFrame.
  assert (Hf : forall tag tags,
             In tag (filter (fun t => (frameIndex >=? tag_fromFrame t)
                                      && (frameIndex <=? tag_toFrame t)) tags)
             <-> In tag tags
                 /\ tag_fromFrame tag <= frameIndex <= tag_toFrame tag).
  { intros tag tags. rewrite filter_In, andb_true_iff, Z.geb_le, Z.leb_le.
    tauto. }
  split; [|split].
  - intros tag Hdir. destruct (file_tags file) as [tags|].
    + rewrite Hf. split.
      * intros [Hin Hr]. split; [exists tags; auto|].
        apply playbackOrder_covers; assumption.
      * intros [(tags' & [= <-] & Hin) Ho]. split; [exact Hin|].
        apply playbackOrder_In. exact Ho.
    + split; [contradiction|]. intros [(tags' & E & _) _]. discriminate.
  - intros tag. destruct (file_tags file) as [tags|]; [|contradiction].
    rewrite Hf. tauto.
  - intros ->. reflexivity.
Qed.

(** Frame 1 is in the ping-pong tag over frames 0..2. *)
Lemma X3_witness :
  In (mkTag 0 2 TagDirection.PingPong)
     (getTagsAtFrame (fileOf (Some [mkTag 0 2 TagDirection.PingPong]) None) 1).
Proof.
  apply (proj1 (X3_getTagsAtFrame_playbackOrder
                  (fileOf (Some [mkTag 0 2 TagDirection.PingPong]) None) 1)
               (mkTag 0 2 TagDirection.PingPong)).
  - unfold knownDirections. simpl. tauto.
  - split.
    + eexists. split; [reflexivity|]. left. reflexivity.
    + simpl. tauto.
Defined.

(** ** Slices at a frame ([getAllSlicesAtFrame]) *)

Lemma fold_left_push {A B} (f : A -> option B) l acc :
  fold_left (fun result x => match f x with
                             | Some y => result ++ [y]
                             | None => result
                             end) l acc
  = acc ++ flat_map (fun x => match f x with Some y => [y] | None => [] end) l.
Proof.
  revert acc. induction l as [|x l IH]; intro acc; simpl.
  - rewrite app_nil_r. reflexivity.
  - rewrite IH. destruct (f x); [rewrite <- app_assoc|]; reflexivity.
Qed.

Lemma find_by_name_NoDup slices s :
  NoDup (map slice_name slices) ->
  In s slices ->
  find (fun x => jsstr_eqb (slice_name x) (slice_name s)) slices = Some s.
Proof.
  induction slices as [|x l IH]; intros Hnd Hin; [contradiction|].
  simpl in Hnd. inversion Hnd as [|? ? Hx Hl]; subst. simpl.
  destruct Hin as [->|Hin].
  - replace (jsstr_eqb (slice_name s) (slice_name s)) with true; [reflexivity|].
    symmetry. apply jsstr_eqb_eq. reflexivity.
  - destruct (jsstr_eqb (slice_name x) (slice_name s)) eqn:E.
    + apply jsstr_eqb_eq in E. exfalso. apply Hx. rewrite E.
      apply in_map. exact Hin.
    + apply IH; assumption.
Qed.

Lemma getSliceAtFrame_name file sliceName frameIndex r :
  getSliceAtFrame file sliceName frameIndex = Some r ->
  rsk_name r = sliceName /\ In sliceName (listSliceNames file).
Proof.
  unfold getSliceAtFrame, listSliceNames, array_find.
  destruct (file_slices file) as [slices|]; [|discriminate].
  destruct (find _ slices) as [slice|] eqn:E; [|discriminate].
  destruct (_ =? 0); [discriminate|].
  destruct (applicableKey_loop _ _ _); [|discriminate].
  intros [= <-]. split; [reflexivity|].
  apply find_some in E. destruct E as [Hin Hn]. apply jsstr_eqb_eq in Hn.
  rewrite <- Hn. apply in_map. exact Hin.
Qed.

Lemma getSliceAtFrame_own file slices s frameIndex :
  file_slices file = Some slices ->
  NoDup (map slice_name slices) ->
  In s slices ->
  getSliceAtFrame file (slice_name s) frameIndex = resolveOwnKey s frameIndex.
Proof.
  intros Hs Hnd Hin. unfold getSliceAtFrame, resolveOwnKey, array_find.
  rewrite Hs, (@find_by_name_NoDup slices s Hnd Hin).
  destruct (slice_keys s) as [|k keys]; reflexivity.
Qed.

(** X4.  [getAllSlicesAtFrame] looks every slice up again by its name.
    When the slice names are pairwise different the result is, slice by
    slice and in the file's order, the key that applies among the slice's
    own keys; in every case each returned key carries the name of a slice
    of the file, there are at most as many as slices, and a file without
    slices gives none. *)
Theorem X4_getAllSlicesAtFrame :
  forall (file : AsepriteFile) (frameIndex : Z),
    (forall slices,
        file_slices file = Some slices ->
        NoDup (map slice_name slices) ->
        getAllSlicesAtFrame file frameIndex
        = flat_map (fun s => match resolveOwnKey s frameIndex with
                             | Some r => [r]
                             | None => []
                             end) slices)
    /\ (forall r, In r (getAllSlicesAtFrame file frameIndex) ->
                  In (rsk_name r) (listSliceNames file))
    /\ (length (getAllSlicesAtFrame file frameIndex)
        <= length (listSliceNames file))%nat
    /\ (file_slices file = None -> getAllSlicesAtFrame file frameIndex = []).
Proof.
  intros file frameIndex. unfold getAllSlicesAtFrame.
  split; [|split; [|split]].
  - intros slices Hs Hnd. rewrite Hs, fold_left_push. simpl.
    assert (H : forall l, incl l slices ->
                  flat_map (fun x => match getSliceAtFrame file (slice_name x)
                                                           frameIndex with
                                     | Some y => [y]
                                     | None => []
                                     end) l
                  = flat_map (fun s => match resolveOwnKey s frameIndex with
                                       | Some r => [r]
                                       | None => []
                                       end) l).
    { induction l as [|x l IH]; intro Hl; [reflexivity|]. simpl.
      rewrite (@getSliceAtFrame_own file slices x frameIndex Hs Hnd
                 (Hl x (or_introl eq_refl))).
      rewrite IH; [reflexivity|].
      intros y Hy. apply Hl. right. exact Hy. }
    apply H. apply incl_refl.
  - intro r. destruct (file_slices file) as [slices|] eqn:Hs; [|contradiction].
    rewrite fold_left_push. simpl. rewrite in_flat_map.
    intros (s & _ & Hr).
    destruct (getSliceAtFrame file (slice_name s) frameIndex) as [y|] eqn:E;
      [|contradiction].
    destruct Hr as [<-|[]].
    apply getSliceAtFrame_name in E. destruct E as [-> Hin]. exact Hin.
  - unfold listSliceNames.
    destruct (file_slices file) as [slices|]; [|simpl; lia].
    rewrite fold_left_push, length_map. simpl.
    induction slices as [|s l IH]; simpl; [lia|].
    rewrite length_app.
    destruct (getSliceAtFrame file (slice_name s) frameIndex); simpl; lia.
  - intros ->. reflexivity.
Qed.

(** Two slices of different names at frame 1: the first has a key at frame
    0, the second only one at frame 2. *)
Lemma X4_witness :
  getAllSlicesAtFrame
    (fileOf None
       (Some [hitbox;
              {| slice_name := str "late"; slice_flags := 0;
                 slice_keys := [mkKey 2 0 1]; slice_userData := None |}]))
    1
  = [spec_resolved (str "hitbox") (mkKey 0 10 20)].
Proof.
  apply (proj1 (X4_getAllSlicesAtFrame
                  (fileOf None
                     (Some [hitbox;
                            {| slice_name := str "late"; slice_flags := 0;
                               slice_keys := [mkKey 2 0 1];
                               slice_userData := None |}]))
                  1) _ eq_refl).
  simpl. repeat constructor; simpl; intuition discriminate.
Defined.

(** ** Tiles: decoding an encoded tile ([src/util/tile.ts]) *)

Lemma bits_of_or_if w f (b : bool) mask :
  bits_of w f ->
  bits_of (if b then js_or w mask else w)
          (fun k => f k || (b && Z.testbit mask k)).
Proof.
  intros Hw n Hn. destruct b; simpl.
  - rewrite js_or_testbit by lia.
    rewrite (Hw (Z.min n 31)) by lia.
    replace (Z.min (Z.min n 31) 31) with (Z.min n 31) by lia. reflexivity.
  - rewrite orb_false_r. apply Hw. exact Hn.
Qed.

Lemma land_0_testbit a b k :
  Z.land a b = 0 -> Z.testbit a k && Z.testbit b k = false.
Proof.
  intro H. rewrite <- Z.land_spec, H. apply Z.bits_0.
Qed.

Lemma u32_nonzero_bit z :
  is_u32 z -> z <> 0 -> exists j, 0 <= j < 32 /\ Z.testbit z j = true.
Proof.
  intros [Hlo Hhi] Hnz. exists (Z.log2 z). split.
  - split; [apply Z.log2_nonneg|]. apply Z.log2_lt_pow2; lia.
  - apply Z.bit_log2. lia.
Qed.

(** The bits of an encoded tile. *)
Lemma encodeTileValue_bits tile m :
  bits_of (encodeTileValue tile m)
    (fun k => Z.testbit (tileId tile) k && Z.testbit (tileIdMask m) k
              || (xFlip tile && Z.testbit (xFlipMask m) k)
              || (yFlip tile && Z.testbit (yFlipMask m) k)
              || (rotation tile && Z.testbit (rotationMask m) k)).
Proof.
  unfold encodeTileValue.
  pose proof (bits_of_js_and (tileId tile) (tileIdMask m)) as H0.
  pose proof (bits_of_or_if (xFlip tile) (xFlipMask m) H0) as H1.
  pose proof (bits_of_or_if (yFlip tile) (yFlipMask m) H1) as H2.
  exact (bits_of_or_if (rotation tile) (rotationMask m) H2).
Qed.

(** A flag read back from an encoded value. *)
Lemma flag_read_back (e mask : Z) (f : Z -> bool) (b : bool) :
  bits_of e f ->
  is_u32 mask ->
  (b = true -> mask <> 0) ->
  (forall k, 0 <= k <= 31 -> f k && Z.testbit mask k = b && Z.testbit mask k) ->
  negb (js_and e mask =? 0) = b.
Proof.
  intros He Hu Hnz Hf.
  assert (Hbits : forall n, 0 <= n ->
            Z.testbit (js_and e mask) n = b && Z.testbit mask (Z.min n 31)).
  { intros n Hn. rewrite js_and_testbit by lia.
    rewrite (He (Z.min n 31)) by lia.
    replace (Z.min (Z.min n 31) 31) with (Z.min n 31) by lia.
    apply Hf. lia. }
  destruct b.
  - destruct (u32_nonzero_bit Hu (Hnz eq_refl)) as (j & Hj & Hbit).
    destruct (Z.eqb_spec (js_and e mask) 0) as [E|]; [|reflexivity].
    specialize (Hbits j ltac:(lia)).
    rewrite E, Z.bits_0, Z.min_l, Hbit in Hbits by lia. discriminate.
  - replace (js_and e mask) with 0; [reflexivity|].
    symmetry. apply Z.bits_inj'. intros n Hn.
    rewrite Hbits by lia. rewrite Z.bits_0. reflexivity.
Qed.

(** X5.  Under pairwise disjoint 32-bit masks, decoding the value that
    [encodeTileValue] makes of a tile gives the tile back, provided the
    tile id lies within the tile id mask and no flag is set whose mask is
    zero. *)
Theorem X5_decode_encode_tile :
  forall (tile : DecodedTile) (m : TilemapMasks),
    masks_partition m ->
    tile_fits tile m ->
    decodeTileValue (encodeTileValue tile m) m = tile.
Proof.
  intros tile m (U0 & Ux & Uy & Ur & D0x & D0y & D0r & Dxy & Dxr & Dyr)
         (Hid & Hx & Hy & Hr).
  pose proof (encodeTileValue_bits tile m) as He.
  unfold decodeTileValue.
  rewrite (flag_read_back He Ux Hx).
  2:{ intros k Hk.
      pose proof (@land_0_testbit _ _ k D0x). pose proof (@land_0_testbit _ _ k Dxy).
      pose proof (@land_0_testbit _ _ k Dxr).
      destruct (Z.testbit (tileId tile) k), (Z.testbit (tileIdMask m) k),
        (Z.testbit (xFlipMask m) k), (Z.testbit (yFlipMask m) k),
        (Z.testbit (rotationMask m) k), (xFlip tile), (yFlip tile),
        (rotation tile); simpl in *; congruence. }
  rewrite (flag_read_back He Uy Hy).
  2:{ intros k Hk.
      pose proof (@land_0_testbit _ _ k D0y). pose proof (@land_0_testbit _ _ k Dxy).
      pose proof (@land_0_testbit _ _ k Dyr).
      destruct (Z.testbit (tileId tile) k), (Z.testbit (tileIdMask m) k),
        (Z.testbit (xFlipMask m) k), (Z.testbit (yFlipMask m) k),
        (Z.testbit (rotationMask m) k), (xFlip tile), (yFlip tile),
        (rotation tile); simpl in *; congruence. }
  rewrite (flag_read_back He Ur Hr).
  2:{ intros k Hk.
      pose proof (@land_0_testbit _ _ k D0r). pose proof (@land_0_testbit _ _ k Dxr).
      pose proof (@land_0_testbit _ _ k Dyr).
      destruct (Z.testbit (tileId tile) k), (Z.testbit (tileIdMask m) k),
        (Z.testbit (xFlipMask m) k), (Z.testbit (yFlipMask m) k),
        (Z.testbit (rotationMask m) k), (xFlip tile), (yFlip tile),
        (rotation tile); simpl in *; congruence. }
  replace (js_and (encodeTileValue tile m) (tileIdMask m)) with (tileId tile);
    [destruct tile; reflexivity|].
  rewrite <- Hid at 1. apply Z.bits_inj'. intros n Hn.
  rewrite !js_and_testbit by lia.
  rewrite (He (Z.min n 31)) by lia.
  replace (Z.min (Z.min n 31) 31) with (Z.min n 31) by lia.
  set (k := Z.min n 31).
  pose proof (@land_0_testbit _ _ k D0x). pose proof (@land_0_testbit _ _ k D0y).
  pose proof (@land_0_testbit _ _ k D0r).
  destruct (Z.testbit (tileId tile) k), (Z.testbit (tileIdMask m) k),
    (Z.testbit (xFlipMask m) k), (Z.testbit (yFlipMask m) k),
    (Z.testbit (rotationMask m) k), (xFlip tile), (yFlip tile),
    (rotation tile); simpl in *; congruence.
Qed.

(** Tile 100, flipped horizontally and rotated, under the masks Aseprite
    writes. *)
Lemma X5_witness :
  decodeTileValue
    (encodeTileValue {| tileId := 100; xFlip := true; yFlip := false;
                        rotation := true |} standardMasks)
    standardMasks
  = {| tileId := 100; xFlip := true; yFlip := false; rotation := true |}.
Proof.
  apply X5_decode_encode_tile.
  - unfold masks_partition, is_u32, standardMasks. simpl.
    repeat split; try reflexivity; try lia.
  - unfold tile_fits, standardMasks. simpl.
    repeat split; try reflexivity; intros _; discriminate.
Defined.

(* ================================================================== *)
(** ** Reading what the writer wrote ([src/binary/reader.ts],
       [src/binary/writer.ts]) *)

Lemma skipn_length_app {A} (a b : list A) : skipn (length a) (a ++ b) = b.
Proof. induction a as [|x a IH]; [reflexivity | exact IH]. Qed.

Lemma firstn_length_app {A} (a b : list A) : firstn (length a) (a ++ b) = a.
Proof. induction a as [|x a IH]; [reflexivity | simpl; rewrite IH; reflexivity]. Qed.

Lemma bind_eq {A B} (p : Parser A) (k : A -> Parser B) r a r' :
  p r = Ok (a, r') -> bind p k r = k a r'.
Proof. intro H. unfold bind. rewrite H. reflexivity. Qed.

Lemma reader_at_step before x after :
  {| rd_data := before ++ x ++ after;
     rd_offset := Z.of_nat (length before) + Z.of_nat (length x) |}
  = reader_at (before ++ x) after.
Proof.
  unfold reader_at. rewrite length_app, <- app_assoc. f_equal. lia.
Qed.

Lemma reader_at_eq before before' after :
  before = before' -> reader_at before after = reader_at before' after.
Proof. intros ->. reflexivity. Qed.

Lemma read_unsigned_at size v before after :
  read_unsigned size (reader_at before (le_bytes size v ++ after))
  = Ok (v mod 2 ^ (8 * Z.of_nat size),
        reader_at (before ++ le_bytes size v) after).
Proof.
  rewrite read_unsigned_in_bounds.
  - rewrite <- reader_at_step, le_bytes_length. f_equal. f_equal.
    unfold field, reader_at. cbn [rd_data rd_offset].
    rewrite Z.add_0_r, Nat2Z.id, skipn_length_app.
    rewrite <- (le_bytes_length size v) at 1.
    rewrite firstn_length_app, le_value_le_bytes. reflexivity.
  - simpl. lia.
  - unfold rd_length. simpl. rewrite !length_app, le_bytes_length. lia.
Qed.

Lemma to_signed_mod bits v :
  0 < bits -> is_signed bits v -> to_signed bits (v mod 2 ^ bits) = v.
Proof.
  intros Hb [Hlo Hhi]. unfold to_signed.
  assert (Hp : 2 ^ bits = 2 * 2 ^ (bits - 1)).
  { replace bits with (1 + (bits - 1)) at 1 by lia.
    rewrite Z.pow_add_r by lia. reflexivity. }
  assert (Hpos : 0 < 2 ^ (bits - 1)) by (apply Z.pow_pos_nonneg; lia).
  destruct (Z_lt_le_dec v 0).
  - replace (v mod 2 ^ bits) with (v + 2 ^ bits)
      by (apply Z.mod_unique with (q := -1); lia).
    destruct (Z.geb_spec (v + 2 ^ bits) (2 ^ (bits - 1))); lia.
  - rewrite Z.mod_small by lia.
    destruct (Z.geb_spec v (2 ^ (bits - 1))); lia.
Qed.

Lemma read_signed_at size v before after :
  read_signed size (reader_at before (le_bytes size v ++ after))
  = Ok (to_signed (8 * Z.of_nat size) (v mod 2 ^ (8 * Z.of_nat size)),
        reader_at (before ++ le_bytes size v) after).
Proof.
  unfold read_signed. erewrite bind_eq by apply read_unsigned_at.
  reflexivity.
Qed.

Lemma skip_at n before zs after :
  n = Z.of_nat (length zs) ->
  skip n (reader_at before (zs ++ after))
  = Ok (tt, reader_at (before ++ zs) after).
Proof.
  intros ->. rewrite skip_in_bounds.
  - rewrite <- reader_at_step. reflexivity.
  - unfold rd_length. simpl. rewrite !length_app. lia.
Qed.

Lemma bytes_at n before bs after :
  n = Z.of_nat (length bs) ->
  bytes n (reader_at before (bs ++ after))
  = Ok (bs, reader_at (before ++ bs) after).
Proof.
  intros ->. rewrite <- reader_at_step.
  unfold bytes, bind, ensureBytes, advance, ret, rd_length, reader_at.
  cbn [rd_data rd_offset].
  destruct (Z.gtb_spec (Z.of_nat (length before) + Z.of_nat (length bs))
                       (Z.of_nat (length (before ++ bs ++ after)))) as [H|_].
  { rewrite !length_app in H. lia. }
  do 2 f_equal.
  unfold subarray, relative_index. cbn [rd_data rd_offset].
  destruct (Z.ltb_spec (Z.of_nat (length before)) 0); [lia|].
  destruct (Z.ltb_spec (Z.of_nat (length before) + Z.of_nat (length bs)) 0);
    [lia|].
  rewrite !Z.min_l by (rewrite !length_app; lia).
  replace (Z.to_nat (Z.of_nat (length before) + Z.of_nat (length bs)
                     - Z.of_nat (length before))) with (length bs) by lia.
  rewrite Nat2Z.id, skipn_length_app, firstn_length_app. reflexivity.
Qed.

(** X6.  Reading an integer at the place where the writer has written it
    gives the value back modulo the width of the field, that is, the value
    itself when it fits: for [u8], [u16], [u32] and [u64] a value in
    [0, 2^bits), for [i16], [i32] and [i64] a value in
    [-2^(bits-1), 2^(bits-1)); and the reader stops right behind the
    field. *)
Theorem X6_write_read_integers :
  forall (w after : Bytes) (v : Z),
    let from (data : Bytes) :=
      {| rd_data := data ++ after; rd_offset := Z.of_nat (length w) |} in
    let behind (data : Bytes) :=
      {| rd_data := data ++ after; rd_offset := Z.of_nat (length data) |} in
    u8 (from (w_u8 w v)) = Ok (v mod 2 ^ 8, behind (w_u8 w v))
    /\ u16 (from (w_u16 w v)) = Ok (v mod 2 ^ 16, behind (w_u16 w v))
    /\ u32 (from (w_u32 w v)) = Ok (v mod 2 ^ 32, behind (w_u32 w v))
    /\ u64 (from (w_u64 w v)) = Ok (v mod 2 ^ 64, behind (w_u64 w v))
    /\ (is_signed 16 v -> i16 (from (w_i16 w v)) = Ok (v, behind (w_i16 w v)))
    /\ (is_signed 32 v -> i32 (from (w_i32 w v)) = Ok (v, behind (w_i32 w v)))
    /\ (is_signed 64 v -> i64 (from (w_i64 w v)) = Ok (v, behind (w_i64 w v))).
Proof.
  intros w after v from behind.
  assert (Hfrom : forall x, from (w ++ x) = reader_at w (x ++ after))
    by (intro x; unfold from, reader_at; rewrite <- app_assoc; reflexivity).
  unfold u8, u16, u32, u64, i16, i32, i64,
    w_u8, w_u16, w_u32, w_u64, w_i16, w_i32, w_i64.
  rewrite !Hfrom.
  repeat split; try apply read_unsigned_at.
  - intro Hv. rewrite read_signed_at.
    rewrite (@to_signed_mod (8 * Z.of_nat 2) v); [reflexivity | lia | exact Hv].
  - intro Hv. rewrite read_signed_at.
    rewrite (@to_signed_mod (8 * Z.of_nat 4) v); [reflexivity | lia | exact Hv].
  - intro Hv. rewrite read_signed_at.
    rewrite (@to_signed_mod (8 * Z.of_nat 8) v); [reflexivity | lia | exact Hv].
Qed.

(** -2 written as a 16-bit field after one byte and read back. *)
Lemma X6_witness :
  i16 {| rd_data := w_i16 [x07] (-2) ++ []; rd_offset := 1 |}
  = Ok (-2, {| rd_data := w_i16 [x07] (-2) ++ []; rd_offset := 3 |}).
Proof.
  apply (proj1 (proj2 (proj2 (proj2 (proj2
           (X6_write_read_integers [x07] [] (-2))))))).
  unfold is_signed. simpl. lia.
Defined.

(** One read of the parser in hand, at a reader over written bytes. *)
Ltac read_step :=
  first
    [ erewrite bind_eq by apply read_unsigned_at
    | erewrite bind_eq by apply read_signed_at
    | erewrite bind_eq by (apply skip_at; reflexivity)
    | erewrite bind_eq by (apply bytes_at; reflexivity) ].

Ltac same_reader :=
  apply reader_at_eq; rewrite <- ?app_assoc; reflexivity.

Section StringRoundTrip.
Context {rt : JsRuntime}.

Lemma string_at before encoded after :
  Z.of_nat (length encoded) <= 0xFFFF ->
  string_ (reader_at before
             (le_bytes 2 (Z.of_nat (length encoded)) ++ encoded ++ after))
  = Ok (if Z.of_nat (length encoded) =? 0 then [] else utf8_decode encoded,
        reader_at ((before ++ le_bytes 2 (Z.of_nat (length encoded))) ++ encoded)
                  after).
Proof.
  intro Hlen. unfold string_, u16. read_step.
  change (2 ^ (8 * Z.of_nat 2)) with 65536.
  rewrite Z.mod_small by lia.
  destruct (Z.eqb_spec (Z.of_nat (length encoded)) 0) as [E|_].
  - destruct encoded; [|simpl in E; lia]. unfold ret.
    rewrite app_nil_r. reflexivity.
  - read_step. reflexivity.
Qed.

(** X7.  [string] of the writer throws a plain [Error] when the UTF-8
    encoding of the string is longer than 65535 bytes and otherwise writes
    the length and the bytes; [string] of the reader, at that place, reads
    the same bytes, decodes them (the empty string without calling the
    decoder) and stops right behind them.  So where the runtime's UTF-8
    decoder inverts its encoder on the string, the string is read back. *)
Theorem X7_write_read_string :
  forall (w after : Bytes) (s : JsString),
    let encoded := utf8_encode s in
    (Z.of_nat (length encoded) > 0xFFFF ->
     w_string w s = Throw (Error WriterStringTooLong))
    /\ (Z.of_nat (length encoded) <= 0xFFFF ->
        exists w',
          w_string w s = Ok w'
          /\ w' = w ++ le_bytes 2 (Z.of_nat (length encoded)) ++ encoded
          /\ string_ {| rd_data := w' ++ after;
                        rd_offset := Z.of_nat (length w) |}
             = Ok (if Z.of_nat (length encoded) =? 0 then []
                   else utf8_decode encoded,
                   {| rd_data := w' ++ after;
                      rd_offset := Z.of_nat (length w') |})
          /\ (utf8_decode encoded = s -> (encoded = [] -> s = []) ->
              string_ {| rd_data := w' ++ after;
                         rd_offset := Z.of_nat (length w) |}
              = Ok (s, {| rd_data := w' ++ after;
                          rd_offset := Z.of_nat (length w') |}))).
Proof.
  intros w after s encoded. unfold w_string. fold encoded. split.
  - intro Hlong. destruct (Z.gtb_spec (Z.of_nat (length encoded)) 65535);
      [reflexivity | lia].
  - intro Hlen. destruct (Z.gtb_spec (Z.of_nat (length encoded)) 65535); [lia|].
    eexists. split; [reflexivity|].
    unfold w_bytes, w_u16.
    assert (Hread :
      string_ {| rd_data := ((w ++ le_bytes 2 (Z.of_nat (length encoded)))
                             ++ encoded) ++ after;
                 rd_offset := Z.of_nat (length w) |}
      = Ok (if Z.of_nat (length encoded) =? 0 then [] else utf8_decode encoded,
            {| rd_data := ((w ++ le_bytes 2 (Z.of_nat (length encoded)))
                           ++ encoded) ++ after;
               rd_offset := Z.of_nat (length ((w ++ le_bytes 2
                                                 (Z.of_nat (length encoded)))
                                              ++ encoded)) |})).
    { pose proof (@string_at w encoded after Hlen) as Hat.
      unfold reader_at in Hat. rewrite <- !app_assoc in *. exact Hat. }
    split; [rewrite <- app_assoc; reflexivity|]. split; [exact Hread|].
    intros Hinv Hempty. rewrite Hread. do 2 f_equal.
    destruct (Z.eqb_spec (Z.of_nat (length encoded)) 0) as [E|_];
      [|exact Hinv].
    symmetry. apply Hempty. destruct encoded; [reflexivity | simpl in E; lia].
Qed.
End StringRoundTrip.

(** The string "hi" written after one byte and read back. *)
Lemma X7_witness :
  exists w',
    w_string (rt := exampleRuntime) [x07] (str "hi") = Ok w'
    /\ string_ (rt := exampleRuntime)
         {| rd_data := w' ++ [x09]; rd_offset := 1 |}
       = Ok (str "hi", {| rd_data := w' ++ [x09]; rd_offset := 5 |}).
Proof.
  destruct (proj2 (@X7_write_read_string exampleRuntime [x07] [x09] (str "hi")))
    as (w' & Hw & Heq & _ & Hs).
  - simpl. lia.
  - exists w'. split; [exact Hw|].
    specialize (Hs eq_refl ltac:(discriminate)).
    rewrite Heq in *. exact Hs.
Defined.

(** ** Frame headers: decoding what the encoder wrote *)

(** X8.  [parseAseprite]'s reading of a frame header inverts
    [encodeFrameHeader]: for a frame size and a chunk count below 2^32 and
    a duration below 2^16 it returns that frame size, that duration and
    that chunk count (the encoder's two count fields always select the
    real count), in strict mode too, and stops behind the 16 bytes. *)
Theorem X8_frame_header_round_trip :
  forall (options : ParseOptions) (before after : Bytes)
         (frameSize chunkCount durationMs : Z),
    is_unsigned 32 frameSize ->
    is_unsigned 32 chunkCount ->
    is_unsigned 16 durationMs ->
    parseFrameHeader options
      (reader_at before
         (encodeFrameHeader frameSize chunkCount durationMs ++ after))
    = Ok ((frameSize, durationMs, chunkCount),
          reader_at (before ++ encodeFrameHeader frameSize chunkCount durationMs)
                    after).
Proof.
  intros options before after frameSize chunkCount durationMs Hs Hc Hd.
  unfold is_unsigned in *.
  unfold parseFrameHeader, encodeFrameHeader, u32, u16,
    w_u32, w_u16, w_zeros.
  cbn [app]. rewrite <- !app_assoc.
  do 2 read_step.
  change (ASE_FRAME_MAGIC mod 2 ^ (8 * Z.of_nat 2) =? ASE_FRAME_MAGIC) with true.
  rewrite andb_false_r.
  do 4 read_step. unfold ret.
  change (2 ^ (8 * Z.of_nat 4)) with (2 ^ 32).
  change (2 ^ (8 * Z.of_nat 2)) with (2 ^ 16).
  rewrite (Z.mod_small frameSize), (Z.mod_small chunkCount),
    (Z.mod_small durationMs) by lia.
  f_equal. f_equal; [|same_reader]. f_equal.
  unfold chunkCountOf.
  destruct (Z.gtb_spec chunkCount 65534).
  - destruct (Z.eqb_spec chunkCount 0); [lia|]. reflexivity.
  - rewrite Z.mod_small by lia.
    destruct (Z.eqb_spec chunkCount 0); [congruence|].
    destruct (Z.eqb_spec chunkCount 65535); [lia | reflexivity].
Qed.

(** A frame of 70000 chunks: old count 0xFFFF, new count 70000. *)
Lemma X8_witness :
  parseFrameHeader DEFAULT_OPTIONS
    (reader_at [] (encodeFrameHeader 16 70000 100 ++ []))
  = Ok ((16, 100, 70000), reader_at ([] ++ encodeFrameHeader 16 70000 100) []).
Proof.
  apply X8_frame_header_round_trip; unfold is_unsigned; lia.
Defined.

(** ** The file header: decoding what the encoder wrote *)

Lemma le_bytes_2_split z :
  le_bytes 2 z = le_bytes 1 z ++ le_bytes 1 (z / 256).
Proof. reflexivity. Qed.

Lemma zeros_84_split :
  repeat x00 84 = le_bytes 2 0 ++ le_bytes 2 0 ++ repeat x00 80.
Proof. reflexivity. Qed.

(** X9.  [parseHeader] does not invert [encodeHeader].  The encoder
    writes four reserved bytes after [speed] where the decoder skips
    eight, so everything up to [speed] is read back (modulo the field
    widths) and every later field is read four bytes too far:
    [transparentIndex] comes back as the low byte of [colorCount],
    [colorCount] as [gridX], the pixel ratio as the two bytes of [gridY],
    [gridX] and [gridY] as the grid size the encoder wrote, and the grid
    size as 0. *)
Theorem X9_header_round_trip :
  forall (strict : bool) (file : AsepriteFile) (fileSize : Z)
         (before after : Bytes),
    let h := file_header file in
    (strict = true -> In (hdr_colorDepth h mod 2 ^ 16) [8; 16; 32]) ->
    parseHeader strict
      (reader_at before (encodeHeader file fileSize ++ repeat x00 4 ++ after))
    = Ok ({| hdr_fileSize := fileSize mod 2 ^ 32;
             hdr_magic := ASE_FILE_MAGIC;
             hdr_frameCount := hdr_frameCount h mod 2 ^ 16;
             hdr_width := hdr_width h mod 2 ^ 16;
             hdr_height := hdr_height h mod 2 ^ 16;
             hdr_colorDepth := hdr_colorDepth h mod 2 ^ 16;
             hdr_flags := hdr_flags h mod 2 ^ 32;
             hdr_speed := hdr_speed h mod 2 ^ 16;
             hdr_transparentIndex := hdr_colorCount h mod 2 ^ 8;
             hdr_colorCount := hdr_gridX h mod 2 ^ 16;
             hdr_pixelWidth := hdr_gridY h mod 2 ^ 8;
             hdr_pixelHeight := (hdr_gridY h / 256) mod 2 ^ 8;
             hdr_gridX :=
               to_signed 16 (or_default (hdr_gridWidth h) 16 mod 2 ^ 16);
             hdr_gridY :=
               to_signed 16 (or_default (hdr_gridHeight h) 16 mod 2 ^ 16);
             hdr_gridWidth := 0;
             hdr_gridHeight := 0 |},
          reader_at (before ++ encodeHeader file fileSize ++ repeat x00 4)
                    after).
Proof.
  intros strict file fileSize before after h Hdepth.
  unfold parseHeader, encodeHeader, u32, u16, u8, i16,
    w_u32, w_u16, w_u8, w_i16, w_zeros.
  fold h. cbn [app]. rewrite <- !app_assoc.
  do 2 read_step.
  change (ASE_FILE_MAGIC mod 2 ^ (8 * Z.of_nat 2) =? ASE_FILE_MAGIC) with true.
  rewrite andb_false_r.
  do 4 read_step.
  replace (strict && negb (existsb (Z.eqb (hdr_colorDepth h mod 2 ^ (8 * Z.of_nat 2)))
                                   [8; 16; 32]))
    with false.
  2:{ destruct strict; [|reflexivity]. symmetry. apply andb_false_iff. right.
      apply negb_false_iff. apply existsb_exists.
      exists (hdr_colorDepth h mod 2 ^ 16). split; [exact (Hdepth eq_refl)|].
      apply Z.eqb_refl. }
  do 3 read_step.
  rewrite (app_assoc (le_bytes 1 (hdr_transparentIndex h)) (repeat x00 3)).
  read_step.
  rewrite (le_bytes_2_split (hdr_colorCount h)). rewrite <- !app_assoc.
  read_step.
  rewrite (app_assoc (le_bytes 1 (hdr_colorCount h / 256))).
  rewrite (app_assoc (le_bytes 1 (hdr_colorCount h / 256) ++ _)).
  read_step.
  read_step.
  rewrite (le_bytes_2_split (hdr_gridY h)). rewrite <- !app_assoc.
  do 4 read_step.
  rewrite zeros_84_split. rewrite <- !app_assoc.
  do 2 read_step.
  rewrite (app_assoc (repeat x00 80) (repeat x00 4)).
  read_step.
  unfold ret. rewrite <- !app_assoc.
  change (8 * Z.of_nat 4) with 32. change (8 * Z.of_nat 2) with 16.
  change (8 * Z.of_nat 1) with 8. change (0 mod 2 ^ 16) with 0.
  reflexivity.
Qed.

(** A header with transparent index 7, 256 colours, pixel ratio 1:1 and a
    16x16 grid at (3, 5): after encoding and decoding, the transparent
    index is 0, the colour count 3, the pixel ratio 5:0, the grid origin
    (16, 16) and the grid size 0x0. *)
Lemma X9_witness :
  exists r,
    parseHeader true
      (reader_at []
         (encodeHeader
            (fileOfHeader
               {| hdr_fileSize := 0; hdr_magic := ASE_FILE_MAGIC;
                  hdr_frameCount := 1; hdr_width := 32; hdr_height := 32;
                  hdr_colorDepth := 8; hdr_flags := 1; hdr_speed := 100;
                  hdr_transparentIndex := 7; hdr_colorCount := 256;
                  hdr_pixelWidth := 1; hdr_pixelHeight := 1;
                  hdr_gridX := 3; hdr_gridY := 5;
                  hdr_gridWidth := 16; hdr_gridHeight := 16 |})
            128
          ++ repeat x00 4 ++ []))
    = Ok ({| hdr_fileSize := 128; hdr_magic := ASE_FILE_MAGIC;
             hdr_frameCount := 1; hdr_width := 32; hdr_height := 32;
             hdr_colorDepth := 8; hdr_flags := 1; hdr_speed := 100;
             hdr_transparentIndex := 0; hdr_colorCount := 3;
             hdr_pixelWidth := 5; hdr_pixelHeight := 0;
             hdr_gridX := 16; hdr_gridY := 16;
             hdr_gridWidth := 0; hdr_gridHeight := 0 |}, r).
Proof.
  eexists.
  apply (@X9_header_round_trip true
           (fileOfHeader
              {| hdr_fileSize := 0; hdr_magic := ASE_FILE_MAGIC;
                 hdr_frameCount := 1; hdr_width := 32; hdr_height := 32;
                 hdr_colorDepth := 8; hdr_flags := 1; hdr_speed := 100;
                 hdr_transparentIndex := 7; hdr_colorCount := 256;
                 hdr_pixelWidth := 1; hdr_pixelHeight := 1;
                 hdr_gridX := 3; hdr_gridY := 5;
                 hdr_gridWidth := 16; hdr_gridHeight := 16 |})
           128 [] []).
  intros _. simpl. tauto.
Defined.

(** ** Chunks the parser has no case for *)

Lemma get_offset_at before after :
  get_offset (reader_at before after)
  = Ok (Z.of_nat (length before), reader_at before after).
Proof. reflexivity. Qed.

Lemma seek_at n before after :
  n = Z.of_nat (length before) ->
  seek n (reader_at before after) = Ok (tt, reader_at before after).
Proof.
  intros ->. unfold seek, rd_length, reader_at. cbn [rd_data rd_offset].
  rewrite length_app.
  destruct (Z.ltb_spec (Z.of_nat (length before)) 0); [lia|].
  destruct (Z.gtb_spec (Z.of_nat (length before))
                       (Z.of_nat (length before + length after))); [lia|].
  reflexivity.
Qed.

Lemma wrapChunk_eq chunkType data :
  wrapChunk chunkType data
  = le_bytes 4 (Z.of_nat (length data) + 6) ++ le_bytes 2 chunkType ++ data.
Proof.
  unfold wrapChunk, w_bytes, w_u16, w_u32. cbn [app].
  rewrite <- app_assoc. reflexivity.
Qed.

Lemma wrapChunk_length chunkType data :
  length (wrapChunk chunkType data) = (6 + length data)%nat.
Proof. rewrite wrapChunk_eq, !length_app, !le_bytes_length. lia. Qed.

Section UnknownChunks.
Context {rt : JsRuntime}.

(** The default case of [parseChunk]. *)
Lemma parseChunk_unknown chunkType chunkEndOffset ctx heap r :
  ~ In chunkType parsedChunkTypes ->
  parseChunk chunkType chunkEndOffset ctx heap r
  = (offset <- get_offset ;;
     rawData <- bytes (chunkEndOffset - offset) ;;
     ret (RefUnknown {| unk_type := chunkType; unk_rawData := rawData |},
          ctx, heap)) r.
Proof.
  intro Hty. unfold parseChunk, parsedChunkTypes in *. cbn [In] in Hty.
  repeat match goal with
         | |- context [chunkType =? ?c] =>
             destruct (Z.eqb_spec chunkType c) as [e|_];
             [exfalso; apply Hty; rewrite e; tauto|]
         end.
  reflexivity.
Qed.

(** X10.  A chunk of a type [parseChunk] has no case for passes through
    unchanged: one turn of the chunk loop over the bytes [wrapChunk] makes
    of a type and a payload keeps the payload as the chunk's raw data,
    leaves the context, the objects and the frame's cels alone and stops
    behind the chunk; the chunk joins the frame's chunk list when chunks
    are preserved, and the file's unknown chunks unless its type is Mask or
    Path; and [encodeChunkFromPreserved] turns it back into the same
    bytes. *)
Theorem X10_unknown_chunk_preserved :
  forall (options : ParseOptions) (frameIdx : Z) (st : LoopState)
         (before after : Bytes) (chunkType : Z) (data : Bytes)
         (compression : CompressionProvider),
    is_unsigned 16 chunkType ->
    ~ In chunkType parsedChunkTypes ->
    Z.of_nat (length data) + 6 < 2 ^ 32 ->
    let unknown := {| unk_type := chunkType; unk_rawData := data |} in
    exists st',
      parseOneChunk options frameIdx st
        (reader_at before (wrapChunk chunkType data ++ after))
      = Ok (st', reader_at (before ++ wrapChunk chunkType data) after)
      /\ ls_ctx st' = ls_ctx st
      /\ ls_heap st' = ls_heap st
      /\ ls_cels st' = ls_cels st
      /\ ls_chunks st'
         = (if preserveChunks options
            then ls_chunks st ++ [RefUnknown unknown] else ls_chunks st)
      /\ acc_unknownChunks (ls_acc st')
         = (if existsb (Z.eqb chunkType) [ChunkType.Mask; ChunkType.Path]
            then acc_unknownChunks (ls_acc st)
            else acc_unknownChunks (ls_acc st) ++ [unknown])
      /\ (forall heap,
             exists chunk,
               deref_chunk heap (RefUnknown unknown) = [chunk]
               /\ encodeChunkFromPreserved chunk compression
                  = Ok (wrapChunk chunkType data)).
Proof.
  intros options frameIdx st before after chunkType data compression
         Hty Hnot Hlen unknown.
  unfold is_unsigned in Hty.
  unfold parseOneChunk. rewrite wrapChunk_eq, <- !app_assoc.
  erewrite bind_eq by apply get_offset_at.
  unfold u32, u16. do 2 read_step.
  change (2 ^ (8 * Z.of_nat 4)) with (2 ^ 32).
  change (2 ^ (8 * Z.of_nat 2)) with (2 ^ 16).
  rewrite (Z.mod_small chunkType), (Z.mod_small (Z.of_nat (length data) + 6))
    by lia.
  replace (strict options && _) with false.
  2:{ symmetry. apply andb_false_iff. right. rewrite Z.gtb_ltb.
      apply Z.ltb_ge. unfold rd_length, reader_at. cbn [rd_data].
      rewrite !length_app, !le_bytes_length. lia. }
  unfold bind at 1. rewrite parseChunk_unknown by exact Hnot.
  erewrite bind_eq by apply get_offset_at.
  erewrite bind_eq.
  2:{ apply bytes_at. rewrite !length_app, !le_bytes_length. lia. }
  unfold ret at 1.
  destruct (collect frameIdx (ls_ctx st) (RefUnknown _) (ls_acc st) (ls_cels st))
    as [acc cels] eqn:Ec.
  erewrite bind_eq.
  2:{ apply seek_at. rewrite !length_app, !le_bytes_length. lia. }
  unfold ret. eexists. split.
  { f_equal. f_equal. same_reader. }
  cbn [ls_ctx ls_heap ls_cels ls_chunks ls_acc].
  fold unknown in Ec. unfold collect in Ec. cbn [unk_type unknown] in Ec.
  assert (Hvals : existsb (Z.eqb chunkType) ChunkType.values
                  = existsb (Z.eqb chunkType) [ChunkType.Mask; ChunkType.Path]).
  { unfold ChunkType.values, parsedChunkTypes in *. cbn [In] in Hnot.
    cbn [existsb].
    repeat match goal with
           | |- context [chunkType =? ?c] =>
               destruct (Z.eqb_spec chunkType c) as [e|_];
               [try (exfalso; apply Hnot; rewrite e; tauto)|]
           end; reflexivity. }
  rewrite Hvals in Ec.
  repeat split.
  - destruct (existsb _ [ChunkType.Mask; ChunkType.Path]); simpl in Ec;
      injection Ec as <- <-; reflexivity.
  - destruct (existsb _ [ChunkType.Mask; ChunkType.Path]); simpl in Ec;
      injection Ec as <- <-; reflexivity.
  - intro heap. eexists. split; [reflexivity|]. reflexivity.
Qed.
End UnknownChunks.

(** A chunk of type 0x2099 with a three-byte payload. *)
Lemma X10_witness :
  exists st',
    parseOneChunk (rt := exampleRuntime) DEFAULT_OPTIONS 0
      {| ls_ctx := {| lastAttachTarget := None; pendingTagUserData := None;
                      pendingTagUserDataIndex := 0;
                      pendingTilesetUserData := None;
                      frameIndex := 0; lastCel := None |};
         ls_heap := emptyHeap; ls_acc := emptyAccum;
         ls_cels := []; ls_chunks := [] |}
      (reader_at [] (wrapChunk 0x2099 [x01; x02; x03] ++ []))
    = Ok (st', reader_at ([] ++ wrapChunk 0x2099 [x01; x02; x03]) [])
    /\ ls_chunks st'
       = [RefUnknown {| unk_type := 0x2099; unk_rawData := [x01; x02; x03] |}].
Proof.
  destruct (@X10_unknown_chunk_preserved exampleRuntime DEFAULT_OPTIONS 0
              {| ls_ctx := {| lastAttachTarget := None;
                              pendingTagUserData := None;
                              pendingTagUserDataIndex := 0;
                              pendingTilesetUserData := None;
                              frameIndex := 0; lastCel := None |};
                 ls_heap := emptyHeap; ls_acc := emptyAccum;
                 ls_cels := []; ls_chunks := [] |}
              [] [] 0x2099 [x01; x02; x03] noCompression)
    as (st' & Hp & _ & _ & _ & Hc & _).
  - unfold is_unsigned. lia.
  - unfold parsedChunkTypes. simpl. intuition discriminate.
  - simpl. lia.
  - exists st'. split; [exact Hp | exact Hc].
Defined.

(* ================================================================== *)
(** ** The frames of a decoded file ([src/parse.ts]) *)

Lemma le_value_bound bs : 0 <= le_value bs < 2 ^ (8 * Z.of_nat (length bs)).
Proof.
  induction bs as [|b bs IH].
  - simpl. lia.
  - cbn [le_value length]. pose proof (byte_val_range b).
    replace (8 * Z.of_nat (S (length bs))) with (8 + 8 * Z.of_nat (length bs))
      by lia.
    rewrite Z.pow_add_r by lia. change (2 ^ 8) with 256. lia.
Qed.

Lemma field_bound size at_ r : 0 <= field size at_ r < 2 ^ (8 * Z.of_nat size).
Proof.
  unfold field.
  pose proof (le_value_bound
                (firstn size (skipn (Z.to_nat (rd_offset r + at_)) (rd_data r))))
    as H.
  pose proof (firstn_le_length size
                (skipn (Z.to_nat (rd_offset r + at_)) (rd_data r))) as Hl.
  assert (2 ^ (8 * Z.of_nat (length (firstn size
             (skipn (Z.to_nat (rd_offset r + at_)) (rd_data r)))))
          <= 2 ^ (8 * Z.of_nat size))
    by (apply Z.pow_le_mono_r; lia).
  lia.
Qed.

Section DecodedFrames.
Context {rt : JsRuntime}.

Lemma parseHeader_frameCount strict r header r' :
  parseHeader strict r = Ok (header, r') ->
  0 <= hdr_frameCount header < 2 ^ 16.
Proof.
  unfold parseHeader, u16. intro H.
  inv_bind H. inv_bind H.
  destruct (strict && _); [discriminate|].
  inv_bind H. apply read_unsigned_Ok in Hstep1. destruct Hstep1 as (-> & _).
  do 3 inv_bind H.
  destruct (strict && _); [discriminate|].
  do 14 inv_bind H.
  unfold ret in H. injection H as <- <-. simpl.
  apply (field_bound 2 0).
Qed.

Lemma collect_frames frameIdx ctx chunk acc cels :
  acc_frames (fst (collect frameIdx ctx chunk acc cels)) = acc_frames acc.
Proof.
  destruct chunk; simpl; try reflexivity.
  - destruct (_ && _); reflexivity.
  - destruct (negb _); reflexivity.
Qed.

Lemma parseOneChunk_frames options frameIdx st r st' r' :
  parseOneChunk options frameIdx st r = Ok (st', r') ->
  acc_frames (ls_acc st') = acc_frames (ls_acc st).
Proof.
  unfold parseOneChunk. intro H.
  inv_bind H. inv_bind H. inv_bind H.
  destruct (strict options && _); [discriminate|].
  inv_bind H. destruct a2 as [[chunk ctx'] heap'].
  pose proof (collect_frames frameIdx ctx' chunk (ls_acc st) (ls_cels st)) as Hc.
  destruct (collect frameIdx ctx' chunk (ls_acc st) (ls_cels st)) as [acc cels].
  inv_bind H. unfold ret in H. injection H as <- <-. exact Hc.
Qed.

Lemma chunkLoop_frames options frameIdx chunkCount :
  forall st r st' r',
    chunkLoop options frameIdx chunkCount st r = Ok (st', r') ->
    acc_frames (ls_acc st') = acc_frames (ls_acc st).
Proof.
  induction chunkCount as [|n IH]; intros st r st' r' H; simpl in H.
  - unfold ret in H. injection H as <- <-. reflexivity.
  - inv_bind H. rewrite (IH _ _ _ _ H).
    eapply parseOneChunk_frames. exact Hstep.
Qed.

(** What a decoded frame looks like, given the options and the header. *)
Let frame_ok (options : ParseOptions) (header : AseHeader) (f : FrameAcc)
    : Prop :=
  (fa_chunks f <> None <-> preserveChunks options = true)
  /\ (fa_durationMs f = 0 -> hdr_speed header = 0).

Lemma parseFrame_frames options header frameIdx ctx heap acc r ctx' heap' acc' r' :
  parseFrame options header frameIdx ctx heap acc r
  = Ok ((ctx', heap', acc'), r') ->
  exists frame,
    acc_frames acc' = acc_frames acc ++ [frame] /\ frame_ok options header frame.
Proof.
  unfold parseFrame. intro H.
  inv_bind H. inv_bind H. destruct a0 as [[frameSize durationMs] chunkCount].
  inv_bind H. apply chunkLoop_frames in Hstep1. simpl in Hstep1.
  inv_bind H. unfold ret in H. injection H as <- <- <- <-.
  eexists. split; [simpl; rewrite Hstep1; reflexivity|].
  split; simpl.
  - destruct (preserveChunks options); split; congruence.
  - destruct (Z.eqb_spec durationMs 0); [intros ->; reflexivity | contradiction].
Qed.

Lemma frameLoop_frames options header count :
  forall frameIdx ctx heap acc r ctx' heap' acc' r',
    frameLoop options header count frameIdx ctx heap acc r
    = Ok ((ctx', heap', acc'), r') ->
    exists new,
      acc_frames acc' = acc_frames acc ++ new
      /\ length new = count
      /\ Forall (frame_ok options header) new.
Proof.
  induction count as [|n IH];
    intros frameIdx ctx heap acc r ctx' heap' acc' r' H; simpl in H.
  - unfold ret in H. injection H as <- <- <- <-.
    exists []. rewrite app_nil_r. repeat split. constructor.
  - inv_bind H. destruct a as [[ctx1 heap1] acc1].
    apply parseFrame_frames in Hstep. destruct Hstep as (frame & E1 & Hf).
    apply IH in H. destruct H as (new & E2 & Hlen & Hall).
    exists (frame :: new). rewrite E2, E1, <- app_assoc. simpl.
    repeat split; [congruence|]. constructor; assumption.
Qed.

Lemma parseAseprite_frames data options file :
  parseAseprite data options = Ok file ->
  Z.of_nat (length (file_frames file)) = hdr_frameCount (file_header file)
  /\ Forall (fun frame =>
               (frame_chunks frame <> None <-> preserveChunks options = true)
               /\ (frame_durationMs frame = 0 ->
                   hdr_speed (file_header file) = 0))
            (file_frames file).
Proof.
  unfold parseAseprite. intro H.
  match type of H with
  | match ?p with _ => _ end = _ =>
      destruct p as [[[header [[ctx heap] acc]] r']|e] eqn:E
  end; [|discriminate].
  injection H as <-. simpl.
  inv_bind E. inv_bind E. destruct a0 as [[ctx1 heap1] acc1].
  unfold ret in E. injection E as <- <- <- <- <-.
  apply parseHeader_frameCount in Hstep.
  apply frameLoop_frames in Hstep0. destruct Hstep0 as (new & E & Hlen & Hall).
  simpl in E. subst new. split.
  - rewrite length_map, Hlen. lia.
  - apply Forall_map. eapply Forall_impl; [|exact Hall].
    intros f [Hc Hd]. split; [|exact Hd].
    unfold deref_frame. simpl. destruct (fa_chunks f); split; intro Hx;
      try congruence; try (apply Hc; congruence);
      try (apply Hc in Hx; congruence).
Qed.
End DecodedFrames.

(** X11.  Whatever the input and the options, a file that [parseAseprite]
    returns has exactly as many frames as its header's frame count says;
    each frame carries a chunk list exactly when [preserveChunks] is set;
    and a frame's duration is 0 only if the header's [speed] is 0 too (a
    stored duration of 0 is replaced by [speed]). *)
Theorem X11_decoded_frames :
  forall (rt : JsRuntime) (data : Bytes) (options : ParseOptions)
         (file : AsepriteFile),
    parseAseprite data options = Ok file ->
    Z.of_nat (length (file_frames file)) = hdr_frameCount (file_header file)
    /\ Forall (fun frame =>
                 (frame_chunks frame <> None <-> preserveChunks options = true)
                 /\ (frame_durationMs frame = 0 ->
                     hdr_speed (file_header file) = 0))
              (file_frames file).
Proof. intros rt data options file. apply parseAseprite_frames. Qed.

(** The one-frame file of the sprite-level user data example. *)
Lemma X11_witness :
  Z.of_nat (length (file_frames discardedFile)) = 1.
Proof.
  assert (H : parseAseprite (rt := exampleRuntime) spriteUserDataFile noChunks
              = Ok discardedFile) by (vm_compute; reflexivity).
  exact (proj1 (X11_decoded_frames exampleRuntime spriteUserDataFile noChunks H)).
Defined.

(* ================================================================== *)
(** ** The exceptions of [parseAseprite] *)

Section DecoderErrors.
Context {rt : JsRuntime}.
Variable strict0 : bool.

Local Abbreviation dec := (throws_only (decoder_error strict0)).

Lemma dec_bind {A B} (p : Parser A) (k : A -> Parser B) :
  dec p -> (forall a, dec (k a)) -> dec (bind p k).
Proof.
  intros Hp Hk r e H. apply bind_Throw in H.
  destruct H as [H|(a & r' & _ & H)]; [exact (Hp _ _ H) | exact (Hk _ _ _ H)].
Qed.

Lemma dec_ret {A} (a : A) : dec (ret a).
Proof. intros r e H. discriminate H. Qed.

Lemma dec_throw {A} e0 : decoder_error strict0 e0 -> dec (@throw A e0).
Proof. intros H0 r e [= <-]. exact H0. Qed.

Lemma dec_get_offset : dec get_offset.
Proof. intros r e H. discriminate H. Qed.

Lemma dec_ensureBytes count : dec (ensureBytes count).
Proof.
  intros r e. unfold ensureBytes. destruct (_ >? _); [|discriminate].
  intros [= <-]. exact I.
Qed.

Lemma dec_advance count : dec (advance count).
Proof. intros r e H. discriminate H. Qed.

Lemma dec_read_unsigned size : dec (read_unsigned size).
Proof.
  unfold read_unsigned. apply dec_bind; [apply dec_ensureBytes|].
  intros _ r e. unfold view_get. destruct (_ || _).
  - intros [= <-]. exact I.
  - apply dec_bind; [apply dec_advance | intro; apply dec_ret].
Qed.

Lemma dec_read_signed size : dec (read_signed size).
Proof.
  unfold read_signed. apply dec_bind; [apply dec_read_unsigned|].
  intro. apply dec_ret.
Qed.

Lemma dec_skip count : dec (skip count).
Proof.
  unfold skip. apply dec_bind; [apply dec_ensureBytes|].
  intro. apply dec_advance.
Qed.

Lemma dec_bytes count : dec (bytes count).
Proof.
  unfold bytes. apply dec_bind; [apply dec_ensureBytes|].
  intros _ r e. apply dec_bind; [apply dec_advance | intro; apply dec_ret].
Qed.

Lemma dec_seek offset : dec (seek offset).
Proof.
  intros r e. unfold seek. destruct (_ || _); [|discriminate].
  intros [= <-]. exact I.
Qed.

Lemma dec_repeat_push {A} (body : Parser A) :
  dec body -> forall count out, dec (repeat_push count body out).
Proof.
  intros Hb. induction count as [|n IH]; intro out; simpl.
  - apply dec_ret.
  - apply dec_bind; [exact Hb | intro; apply IH].
Qed.

Lemma dec_repeat_set {V} (body : Parser (JsString * V)) :
  dec body -> forall count map, dec (repeat_set count body map).
Proof.
  intros Hb. induction count as [|n IH]; intro map; simpl.
  - apply dec_ret.
  - apply dec_bind; [exact Hb | intro; apply IH].
Qed.

Ltac dec_step :=
  first
    [ apply dec_ret
    | apply dec_get_offset
    | apply dec_read_unsigned
    | apply dec_read_signed
    | apply dec_skip
    | apply dec_bytes
    | apply dec_seek
    | apply dec_throw; exact I
    | apply dec_bind; [|intro]
    | match goal with
      | |- throws_only _ (if ?c then _ else _) => destruct c
      | |- throws_only _ (match ?x with _ => _ end) => destruct x
      end ].

Ltac dec_all := repeat dec_step.

Lemma dec_string : dec string_.
Proof. unfold string_, u16. dec_all. Qed.

Lemma dec_uuid : dec uuid.
Proof. unfold uuid. dec_all. Qed.

Lemma dec_parsePropertyValue depth :
  forall propType, dec (parsePropertyValue depth propType).
Proof.
  induction depth as [|depth IH]; intro propType; simpl.
  - apply dec_throw. exact I.
  - unfold u8, u16, i16, u32, i32, u64, i64, fixed16_16, f32, f64,
      u32, u64.
    repeat first
      [ apply dec_string
      | apply dec_uuid
      | apply dec_repeat_push; apply IH
      | apply dec_repeat_set
      | apply IH
      | dec_step ].
Qed.

Lemma dec_parseUserDataChunk : dec parseUserDataChunk.
Proof.
  unfold parseUserDataChunk, parsePropertiesMap, u8, u32, u16.
  repeat first
    [ apply dec_string
    | apply dec_repeat_set
    | apply dec_parsePropertyValue
    | dec_step ].
Qed.

Lemma dec_parseCelChunk chunkEndOffset : dec (parseCelChunk chunkEndOffset).
Proof.
  unfold parseCelChunk, u8, u16, i16, u32. dec_all.
Qed.

Lemma dec_parseChunk chunkType chunkEndOffset ctx heap :
  dec (parseChunk chunkType chunkEndOffset ctx heap).
Proof.
  unfold parseChunk.
  repeat match goal with
         | |- throws_only _ (if ?c then _ else _) => destruct c
         end;
    (apply dec_bind; [|intro]).
  all: try apply dec_parseCelChunk.
  all: try apply dec_parseUserDataChunk.
  all: try (destruct (attachUserData ctx heap a)).
  all: unfold parseLayerChunk, parseCelExtraChunk, parsePaletteChunk,
         parsePaletteEntry, parseOldPaletteChunk, parseOldPalettePacket,
         parseOldPaletteColor, parseTagsChunk, parseTag, parseSliceChunk,
         parseSliceKey, parseTilesetChunk, parseColorProfileChunk,
         parseExternalFilesChunk, parseExternalFile,
         u8, u16, i16, u32, i32, fixed16_16.
  all: repeat first
         [ apply dec_string
         | apply dec_repeat_push
         | dec_step ].
Qed.

Lemma dec_chunkLoop options frameIdx chunkCount :
  strict options = strict0 ->
  forall st, dec (chunkLoop options frameIdx chunkCount st).
Proof.
  intro Hs.
  induction chunkCount as [|n IH]; intro st; simpl; [apply dec_ret|].
  apply dec_bind; [|intro; apply IH].
  unfold parseOneChunk, u32, u16.
  apply dec_bind; [apply dec_get_offset | intro].
  apply dec_bind; [apply dec_read_unsigned | intro].
  apply dec_bind; [apply dec_read_unsigned | intro].
  intros r e. rewrite Hs. destruct (strict0 && _) eqn:Ec.
  - intros [= <-]. apply andb_true_iff in Ec. split; [tauto|].
    right. right. left. reflexivity.
  - apply dec_bind; [apply dec_parseChunk|].
    intros [[chunk ctx] heap].
    destruct (collect frameIdx ctx chunk (ls_acc st) (ls_cels st)).
    dec_all.
Qed.

Lemma dec_parseFrameHeader options :
  strict options = strict0 -> dec (parseFrameHeader options).
Proof.
  intro Hs. unfold parseFrameHeader, u32, u16. rewrite Hs.
  apply dec_bind; [apply dec_read_unsigned | intro].
  apply dec_bind; [apply dec_read_unsigned | intro].
  destruct (strict0 && _) eqn:Ec.
  - apply dec_throw. apply andb_true_iff in Ec. split; [tauto|].
    left. reflexivity.
  - dec_all.
Qed.

Lemma dec_frameLoop options header count :
  strict options = strict0 ->
  forall frameIdx ctx heap acc,
    dec (frameLoop options header count frameIdx ctx heap acc).
Proof.
  intro Hs.
  induction count as [|n IH]; intros frameIdx ctx heap acc; simpl;
    [apply dec_ret|].
  apply dec_bind; [|intros [[c h] a]; apply IH].
  unfold parseFrame.
  apply dec_bind; [apply dec_get_offset | intro].
  apply dec_bind; [apply dec_parseFrameHeader; exact Hs
                  | intros [[frameSize durationMs] chunkCount]].
  apply dec_bind; [apply dec_chunkLoop; exact Hs | intro].
  dec_all.
Qed.

Lemma dec_parseHeader : dec (parseHeader strict0).
Proof.
  unfold parseHeader, u8, u16, i16, u32.
  apply dec_bind; [apply dec_read_unsigned | intro].
  apply dec_bind; [apply dec_read_unsigned | intro].
  destruct (strict0 && _) eqn:Ec.
  - apply dec_throw. apply andb_true_iff in Ec. split; [tauto|].
    left. reflexivity.
  - do 4 (apply dec_bind; [apply dec_read_unsigned | intro]).
    destruct (strict0 && negb (existsb _ _)) eqn:Ed.
    + apply dec_throw. apply andb_true_iff in Ed. split; [tauto|].
      right. left. reflexivity.
    + dec_all.
Qed.

Lemma parseAseprite_errors data options e :
  strict options = strict0 ->
  parseAseprite data options = Throw e ->
  decoder_error strict0 e.
Proof.
  intro Hs. unfold parseAseprite.
  match goal with
  | |- match ?p with _ => _ end = _ -> _ =>
      destruct p as [[[h [[c hp] a]] r]|e0] eqn:E
  end; [discriminate|].
  intros [= <-]. revert E. rewrite Hs.
  apply dec_bind.
  - apply dec_parseHeader.
  - intro header. apply dec_bind; [apply dec_frameLoop; exact Hs
                                  | intro; apply dec_ret].
Qed.
End DecoderErrors.

(** X12.  [parseAseprite] fails only in these ways: with a plain [Error]
    (the reader's "out of bounds" and "invalid seek", the cel parser's
    "unknown cel type"), with an exception of the runtime itself, or, in
    strict mode only, with an [AseFormatError] whose code is [BAD_MAGIC],
    [UNSUPPORTED_COLOR_DEPTH] or [BAD_CHUNK_SIZE].  No other code of the
    taxonomy is raised, [OUT_OF_BOUNDS] included; without strict mode no
    [AseFormatError] is raised at all. *)
Theorem X12_decoder_errors :
  forall (rt : JsRuntime) (data : Bytes) (options : ParseOptions) (e : JsError),
    parseAseprite data options = Throw e ->
    decoder_error (strict options) e
    /\ (forall code,
           e = AseFormatError code ->
           strict options = true
           /\ (code = BAD_MAGIC \/ code = UNSUPPORTED_COLOR_DEPTH
               \/ code = BAD_CHUNK_SIZE))
    /\ (strict options = false -> plain_error e).
Proof.
  intros rt data options e H.
  pose proof (@parseAseprite_errors rt (strict options) data options e
                eq_refl H) as He.
  split; [exact He|]. split.
  - intros code ->. simpl in He. destruct He as [Hs Hin]. split; [exact Hs|].
    unfold decoderCodes in Hin. simpl in Hin.
    destruct Hin as [<-|[<-|[<-|[]]]]; auto.
  - intro Hs. destruct e; simpl in *; try exact I.
    destruct He as [He _]. congruence.
Qed.

(** Six zero bytes: the magic number is wrong. *)
Lemma X12_witness :
  decoder_error true (AseFormatError BAD_MAGIC).
Proof.
  assert (H : parseAseprite (rt := exampleRuntime) (repeat x00 6) DEFAULT_OPTIONS
              = Throw (AseFormatError BAD_MAGIC)) by reflexivity.
  exact (proj1 (X12_decoder_errors exampleRuntime (repeat x00 6)
                  DEFAULT_OPTIONS H)).
Defined.

(* ================================================================== *)
(** ** Input shorter than the header *)

Section Truncated.
Context {rt : JsRuntime}.
Variable Q : JsError -> Prop.
Hypothesis Q_bounds : Q (Error ReaderOutOfBounds).

Lemma consumes_ret {A} (a : A) n : n = 0 -> consumes n Q (ret a).
Proof.
  intros -> r Hr. unfold ret. repeat split; lia.
Qed.

Lemma consumes_throw {A} n e : Q e -> consumes n Q (@throw A e).
Proof. intros He r Hr. exact He. Qed.

Lemma consumes_read_unsigned size :
  consumes (Z.of_nat size) Q (read_unsigned size).
Proof.
  intros r Hr.
  destruct (Z_le_gt_dec (rd_offset r + Z.of_nat size) (rd_length r)) as [Hfit|Hno].
  - rewrite read_unsigned_in_bounds by lia. simpl. repeat split; lia.
  - unfold read_unsigned, bind, ensureBytes.
    destruct (Z.gtb_spec (rd_offset r + Z.of_nat size) (rd_length r)); [|lia].
    exact Q_bounds.
Qed.

Lemma consumes_read_signed size :
  consumes (Z.of_nat size) Q (read_signed size).
Proof.
  intros r Hr. unfold read_signed, bind.
  pose proof (consumes_read_unsigned size r Hr) as H.
  destruct (read_unsigned size r) as [[v r']|e]; [|exact H].
  exact H.
Qed.

Lemma consumes_skip n : 0 <= n -> consumes n Q (skip n).
Proof.
  intros Hn r Hr.
  destruct (Z_le_gt_dec (rd_offset r + n) (rd_length r)) as [Hfit|Hno].
  - rewrite skip_in_bounds by lia. simpl. repeat split; lia.
  - unfold skip, bind, ensureBytes.
    destruct (Z.gtb_spec (rd_offset r + n) (rd_length r)); [|lia].
    exact Q_bounds.
Qed.

Lemma consumes_bind {A B} n total (p : Parser A) (k : A -> Parser B) :
  consumes n Q p ->
  0 <= n ->
  (forall a, consumes (total - n) Q (k a)) ->
  consumes total Q (bind p k).
Proof.
  intros Hp Hn Hk r Hr. unfold bind.
  specialize (Hp r Hr). destruct (p r) as [[a r']|e]; [|exact Hp].
  destruct Hp as (Hd & Ho & Hl).
  assert (Hr' : 0 <= rd_offset r' <= rd_length r')
    by (unfold rd_length in *; rewrite Hd; lia).
  specialize (Hk a r' Hr'). destruct (k a r') as [[b r'']|e]; [|exact Hk].
  destruct Hk as (Hd' & Ho' & Hl').
  unfold rd_length in *. rewrite Hd in *. repeat split; [congruence|lia|lia].
Qed.
End Truncated.

Section TruncatedHeader.
Context {rt : JsRuntime}.

Ltac consumes_step :=
  first
    [ eapply consumes_bind;
      [ first [ apply consumes_read_unsigned; left; reflexivity
              | apply consumes_read_signed; left; reflexivity
              | apply consumes_skip; [left; reflexivity | lia] ]
      | lia
      | intro ]
    | apply consumes_ret; reflexivity ].

Lemma parseHeader_consumes strict :
  consumes 128 (header_error strict) (parseHeader strict).
Proof.
  unfold parseHeader, u32, u16, u8, i16.
  do 2 consumes_step.
  destruct (strict && _) eqn:Ec.
  { apply consumes_throw. right. apply andb_true_iff in Ec. tauto. }
  do 4 consumes_step.
  destruct (strict && negb (existsb _ _)) eqn:Ed.
  { apply consumes_throw. right. apply andb_true_iff in Ed. tauto. }
  repeat consumes_step.
Qed.

Lemma parseAseprite_truncated data options :
  Z.of_nat (length data) < 128 ->
  exists e,
    parseAseprite data options = Throw e /\ header_error (strict options) e.
Proof.
  intro Hlen. unfold parseAseprite, bind.
  pose proof (@parseHeader_consumes (strict options)
                {| rd_data := data; rd_offset := 0 |}) as H.
  unfold rd_length in H. cbn [rd_data rd_offset] in H.
  specialize (H ltac:(lia)).
  destruct (parseHeader (strict options) {| rd_data := data; rd_offset := 0 |})
    as [[header r']|e].
  - lia.
  - exists e. split; [reflexivity | exact H].
Qed.
End TruncatedHeader.

(** X13.  An input shorter than the 128 bytes of the header is never
    decoded: [parseAseprite] fails on it, with the reader's plain "out of
    bounds" [Error] or, in strict mode and when the bytes it could read
    say so, with [BAD_MAGIC] or [UNSUPPORTED_COLOR_DEPTH]. *)
Theorem X13_truncated_header :
  forall (rt : JsRuntime) (data : Bytes) (options : ParseOptions),
    Z.of_nat (length data) < 128 ->
    exists e,
      parseAseprite data options = Throw e
      /\ (e = Error ReaderOutOfBounds
          \/ (strict options = true
              /\ (e = AseFormatError BAD_MAGIC
                  \/ e = AseFormatError UNSUPPORTED_COLOR_DEPTH))).
Proof. intros rt data options. apply parseAseprite_truncated. Qed.

(** The empty input. *)
Lemma X13_witness :
  exists e,
    parseAseprite (rt := exampleRuntime) [] DEFAULT_OPTIONS = Throw e
    /\ (e = Error ReaderOutOfBounds
        \/ (strict DEFAULT_OPTIONS = true
            /\ (e = AseFormatError BAD_MAGIC
                \/ e = AseFormatError UNSUPPORTED_COLOR_DEPTH))).
Proof.
  apply (X13_truncated_header exampleRuntime [] DEFAULT_OPTIONS). simpl. lia.
Defined.

(* ================================================================== *)
(** ** The layout of an encoded file ([src/encode.ts]) *)

Section EncodedLayout.
Context {rt : JsRuntime}.

Lemma encodeAseprite_layout file options out :
  encodeAseprite file options = Ok out ->
  exists frameBuffers,
    out = encodeHeader file (128 + Z.of_nat (length (concat frameBuffers)))
          ++ repeat x00 4 ++ concat frameBuffers
    /\ Forall2 (fun frame frameBuffer =>
                  exists chunkBuffers,
                    encoded_frame frameBuffer (frame_durationMs frame)
                                  chunkBuffers)
               (file_frames file) frameBuffers.
Proof.
  unfold encodeAseprite. intro H.
  assert (Hmode :
    encodeChunksMode file (compression options) = Ok out
    \/ encodeCanonicalMode file (compression options) = Ok out).
  { destruct (mode options); auto.
    destruct (file_frames file) as [|frame rest]; auto.
    destruct (frame_chunks frame); auto. }
  clear H. destruct Hmode as [H|H].
  - unfold encodeChunksMode in H.
    destruct (chunksModeFrames (compression options) (file_frames file) [])
      as [fbs|e] eqn:E; simpl in H; [|discriminate].
    rewrite buildFile_eq in H. injection H as <-.
    apply chunksModeFrames_Ok in E. destruct E as (new & -> & Hall).
    exists new. split; [reflexivity|].
    eapply Forall2_impl; [|exact Hall].
    intros frame fb Hfb. apply chunksModeFrame_Ok in Hfb.
    destruct Hfb as (chunks & bufs & _ & _ & He). exists bufs. exact He.
  - unfold encodeCanonicalMode in H.
    destruct (canonicalModeFrames file (compression options) (file_frames file)
                                  0 []) as [fbs|e] eqn:E;
      simpl in H; [|discriminate].
    rewrite buildFile_eq in H. injection H as <-.
    apply canonicalModeFrames_Ok in E. destruct E as (new & -> & Hall).
    exists new. split; [reflexivity|].
    eapply Forall2_impl; [|exact Hall].
    intros frame fb [i Hi]. apply canonicalModeFrame_Ok in Hi.
    destruct Hi as (bufs & _ & He). exists bufs. exact He.
Qed.

Lemma encoded_frame_fields frameBuffer durationMs chunkBuffers :
  encoded_frame frameBuffer durationMs chunkBuffers ->
  (16 <= length frameBuffer)%nat
  /\ frame_size_field frameBuffer = Z.of_nat (length frameBuffer) mod 2 ^ 32
  /\ frame_duration_field frameBuffer = durationMs mod 2 ^ 16.
Proof.
  intros [-> _]. rewrite length_app, encodeFrameHeader_length.
  split; [lia|]. split.
  - unfold frame_size_field.
    change (firstn 4 (encodeFrameHeader
                        (16 + Z.of_nat (length (concat chunkBuffers)))
                        (Z.of_nat (length chunkBuffers)) durationMs
                      ++ concat chunkBuffers))
      with (le_bytes 4 (16 + Z.of_nat (length (concat chunkBuffers)))).
    rewrite le_value_le_bytes. f_equal. lia.
  - unfold frame_duration_field.
    change (firstn 2 (skipn 8 (encodeFrameHeader
                                 (16 + Z.of_nat (length (concat chunkBuffers)))
                                 (Z.of_nat (length chunkBuffers)) durationMs
                               ++ concat chunkBuffers)))
      with (le_bytes 2 durationMs).
    rewrite le_value_le_bytes. reflexivity.
Qed.

(** X14.  Whatever the mode, a file that [encodeAseprite] returns is a
    128-byte header area followed by one frame buffer per frame of the
    model, in order.  Its file size field holds its length; each frame's
    size field holds that frame's length, so the frames can be walked from
    byte 128 to the end by their size fields; each frame's duration field
    holds the frame's duration; and the header's frame count field holds
    [header.frameCount], not the number of frames written.  (All fields
    modulo their width.) *)
Theorem X14_encoded_file_layout :
  forall (file : AsepriteFile) (options : EncodeOptions) (out : Bytes),
    encodeAseprite file options = Ok out ->
    exists frameBuffers,
      out = firstn 128 out ++ concat frameBuffers
      /\ length (firstn 128 out) = 128%nat
      /\ file_size_field out = Z.of_nat (length out) mod 2 ^ 32
      /\ frame_count_field out = hdr_frameCount (file_header file) mod 2 ^ 16
      /\ Forall2 (fun frame frameBuffer =>
                    (16 <= length frameBuffer)%nat
                    /\ frame_size_field frameBuffer
                       = Z.of_nat (length frameBuffer) mod 2 ^ 32
                    /\ frame_duration_field frameBuffer
                       = frame_durationMs frame mod 2 ^ 16)
                 (file_frames file) frameBuffers.
Proof.
  intros file options out H.
  apply encodeAseprite_layout in H. destruct H as (fbs & -> & Hall).
  exists fbs.
  set (size := 128 + Z.of_nat (length (concat fbs))).
  assert (Hfirst : firstn 128 (encodeHeader file size ++ repeat x00 4
                               ++ concat fbs)
                   = encodeHeader file size ++ repeat x00 4).
  { rewrite app_assoc.
    change 128%nat with (length (encodeHeader file size ++ repeat x00 4)).
    apply firstn_length_app. }
  rewrite Hfirst. split; [rewrite <- app_assoc; reflexivity|].
  split; [reflexivity|]. split; [|split].
  - unfold file_size_field.
    change (firstn 4 (encodeHeader file size ++ repeat x00 4 ++ concat fbs))
      with (le_bytes 4 size).
    rewrite le_value_le_bytes. f_equal.
    rewrite !length_app, encodeHeader_length, repeat_length. unfold size. lia.
  - unfold frame_count_field.
    change (firstn 2 (skipn 6 (encodeHeader file size ++ repeat x00 4
                               ++ concat fbs)))
      with (le_bytes 2 (hdr_frameCount (file_header file))).
    rewrite le_value_le_bytes. reflexivity.
  - eapply Forall2_impl; [|exact Hall].
    intros frame fb [bufs He]. eapply encoded_frame_fields. exact He.
Qed.
End EncodedLayout.

(** The canonical encoding of a file of one frame and one layer. *)
Lemma X14_witness :
  exists out frameBuffers,
    encodeAseprite (rt := exampleRuntime) oneLayerFile
      {| mode := ModeCanonical; writeLegacyPaletteChunks := false;
         compression := noCompression |} = Ok out
    /\ out = firstn 128 out ++ concat frameBuffers
    /\ file_size_field out = Z.of_nat (length out) mod 2 ^ 32.
Proof.
  assert (H : exists out,
             encodeAseprite (rt := exampleRuntime) oneLayerFile
               {| mode := ModeCanonical; writeLegacyPaletteChunks := false;
                  compression := noCompression |} = Ok out)
    by (eexists; vm_compute; reflexivity).
  destruct H as [out H].
  destruct (@X14_encoded_file_layout exampleRuntime _ _ _ H)
    as (fbs & E & _ & Hs & _).
  exists out, fbs. repeat split; assumption.
Defined.

(* ================================================================== *)
(** ** What chunks mode can encode *)

Section ChunksMode.
Context {rt : JsRuntime}.

Lemma encodeAll_each {A} (f : A -> Result Bytes) xs :
  forall acc bufs,
    encodeAll (fun x => encoded <-- f x ;;; Ok [encoded]) xs acc = Ok bufs ->
    forall x, In x xs -> exists b, f x = Ok b.
Proof.
  induction xs as [|y xs IH]; intros acc bufs H x Hin; [contradiction|].
  simpl in H. destruct (f y) as [b|e] eqn:E; simpl in H; [|discriminate].
  destruct Hin as [<-|Hin]; [exists b; exact E|].
  eapply IH; eassumption.
Qed.

Lemma chunksModeFrames_each compression frames :
  forall acc frameBuffers,
    chunksModeFrames compression frames acc = Ok frameBuffers ->
    forall frame, In frame frames ->
                  exists fb, chunksModeFrame compression frame = Ok fb.
Proof.
  induction frames as [|f frames IH]; intros acc fbs H frame Hin;
    [contradiction|].
  simpl in H. destruct (chunksModeFrame compression f) as [fb|e] eqn:E;
    simpl in H; [|discriminate].
  destruct Hin as [<-|Hin]; [exists fb; exact E|].
  eapply IH; eassumption.
Qed.

(** Chunks mode encodes every chunk of every frame. *)
Lemma encodeChunksMode_each file compression out :
  encodeChunksMode file compression = Ok out ->
  forall frame, In frame (file_frames file) ->
    exists chunks,
      frame_chunks frame = Some chunks
      /\ forall chunk, In chunk chunks ->
           exists b, encodeChunkFromPreserved chunk compression = Ok b.
Proof.
  unfold encodeChunksMode. intros H frame Hin.
  destruct (chunksModeFrames compression (file_frames file) []) as [fbs|e] eqn:E;
    simpl in H; [|discriminate].
  destruct (chunksModeFrames_each _ _ _ E frame Hin) as [fb Hfb].
  unfold chunksModeFrame in Hfb.
  destruct (frame_chunks frame) as [chunks|]; [|discriminate].
  exists chunks. split; [reflexivity|].
  destruct (encodeAll _ chunks []) as [bufs|e] eqn:Ea; simpl in Hfb;
    [|discriminate].
  intros chunk Hc. exact (encodeAll_each _ _ _ Ea chunk Hc).
Qed.

(** The chunk objects the decoder makes carry raw data only when they are
    of a type it has no case for. *)
Lemma deref_chunk_rawData heap c chunk :
  In chunk (deref_chunk heap c) ->
  chunk_rawData chunk = None \/ exists t, chunk_body chunk = OtherChunk t.
Proof.
  destruct c; simpl;
    try (intros [<-|[]]; simpl; eauto; fail);
    try (rewrite in_map_iff; intros (x & <- & _); left; reflexivity).
Qed.

Lemma parseAseprite_chunk_rawData data options file frame chunks chunk :
  parseAseprite data options = Ok file ->
  In frame (file_frames file) ->
  frame_chunks frame = Some chunks ->
  In chunk chunks ->
  chunk_rawData chunk = None \/ exists t, chunk_body chunk = OtherChunk t.
Proof.
  unfold parseAseprite. intro H.
  match type of H with
  | match ?p with _ => _ end = _ =>
      destruct p as [[[header [[ctx heap] acc]] r']|e]
  end; [|discriminate].
  injection H as <-. simpl. rewrite in_map_iff.
  intros (f & <- & _). unfold deref_frame. simpl.
  destruct (fa_chunks f) as [refs|]; [|discriminate].
  intros [= <-]. rewrite in_flat_map. intros (c & _ & Hc).
  eapply deref_chunk_rawData. exact Hc.
Qed.

(** X15.  A decoded file that holds an old palette chunk (type 0x0004 or
    0x0011) in a frame's chunk list cannot be encoded in chunks mode: the
    decoder keeps no raw data for the chunk, [encodeChunkFromPreserved]
    has no case for it and fails with [BAD_CHUNK_SIZE], and
    [encodeChunksMode] returns no bytes. *)
Theorem X15_old_palette_not_reencoded :
  forall (data : Bytes) (options : ParseOptions) (file : AsepriteFile)
         (frame : Frame) (chunks : list Chunk) (chunk : Chunk)
         (type : Z) (packets : list OldPalettePacket)
         (compression : CompressionProvider),
    parseAseprite data options = Ok file ->
    In frame (file_frames file) ->
    frame_chunks frame = Some chunks ->
    In chunk chunks ->
    chunk_body chunk = OldPaletteChunk type packets ->
    chunk_rawData chunk = None
    /\ encodeChunkFromPreserved chunk compression
       = Throw (AseFormatError BAD_CHUNK_SIZE)
    /\ forall out, encodeChunksMode file compression <> Ok out.
Proof.
  intros data options file frame chunks chunk type packets compression
         Hp Hf Hc Hin Hb.
  assert (Hraw : chunk_rawData chunk = None).
  { destruct (parseAseprite_chunk_rawData _ _ _ _ Hp Hf Hc Hin) as [H|[t H]];
      [exact H | congruence]. }
  assert (Henc : encodeChunkFromPreserved chunk compression
                 = Throw (AseFormatError BAD_CHUNK_SIZE)).
  { unfold encodeChunkFromPreserved. rewrite Hraw, Hb. reflexivity. }
  split; [exact Hraw|]. split; [exact Henc|].
  intros out Ho.
  destruct (encodeChunksMode_each _ _ Ho frame Hf) as (chunks' & Hc' & Hall).
  rewrite Hc in Hc'. injection Hc' as <-.
  destruct (Hall chunk Hin) as [b Hb']. congruence.
Qed.

(** X16.  Chunks mode needs the chunk list of every frame: if a frame of
    the model has none, [encodeAseprite] returns no bytes in mode
    "chunks", and neither in mode "chunks-if-present" when the first frame
    has one (only the first frame is looked at); with no chunk list on the
    first frame the failure is [BAD_CHUNK_SIZE] in mode "chunks", and
    "chunks-if-present" encodes canonically, as it does for every file
    decoded without [preserveChunks]. *)
Theorem X16_chunks_mode_needs_chunks :
  forall (file : AsepriteFile) (options : EncodeOptions),
    (forall frame,
        In frame (file_frames file) ->
        frame_chunks frame = None ->
        mode options = ModeChunks
        \/ (mode options = ModeChunksIfPresent
            /\ exists first rest chunks,
                 file_frames file = first :: rest
                 /\ frame_chunks first = Some chunks) ->
        forall out, encodeAseprite file options <> Ok out)
    /\ (forall first rest,
           file_frames file = first :: rest ->
           frame_chunks first = None ->
           (mode options = ModeChunks ->
            encodeAseprite file options = Throw (AseFormatError BAD_CHUNK_SIZE))
           /\ (mode options = ModeChunksIfPresent ->
               encodeAseprite file options
               = encodeCanonicalMode file (compression options)))
    /\ (forall data parseOptions,
           parseAseprite data parseOptions = Ok file ->
           preserveChunks parseOptions = false ->
           mode options = ModeChunksIfPresent ->
           encodeAseprite file options
           = encodeCanonicalMode file (compression options)).
Proof.
  intros file options. split; [|split].
  - intros frame Hin Hnone Hmode out Ho.
    assert (Hc : encodeChunksMode file (compression options) = Ok out).
    { unfold encodeAseprite in Ho.
      destruct Hmode as [Hm|[Hm (first & rest & chunks & Ef & Ec)]];
        rewrite Hm in Ho; [exact Ho|].
      rewrite Ef, Ec in Ho. exact Ho. }
    destruct (encodeChunksMode_each _ _ Hc frame Hin) as (chunks & E & _).
    congruence.
  - intros first rest Ef Hnone. unfold encodeAseprite. rewrite Ef, Hnone.
    split; intro Hm; rewrite Hm; [|reflexivity].
    unfold encodeChunksMode. rewrite Ef. simpl.
    unfold chunksModeFrame. rewrite Hnone. reflexivity.
  - intros data parseOptions Hp Hpre Hm. unfold encodeAseprite. rewrite Hm.
    destruct (file_frames file) as [|first rest] eqn:Ef; [reflexivity|].
    apply parseAseprite_frames in Hp. destruct Hp as [_ Hall].
    rewrite Ef in Hall. inversion Hall as [|? ? [Hc _] _]; subst.
    destruct (frame_chunks first) as [chunks|]; [|reflexivity].
    assert (preserveChunks parseOptions = true) by (apply Hc; discriminate).
    congruence.
Qed.
End ChunksMode.

(** A file whose only chunk is an old palette chunk is decoded and then
    refused by chunks mode. *)
Lemma X15_witness :
  exists file,
    parseAseprite (rt := exampleRuntime) oldPaletteFile DEFAULT_OPTIONS = Ok file
    /\ forall out,
         encodeChunksMode (rt := exampleRuntime) file noCompression <> Ok out.
Proof.
  pose (chunk := known (OldPaletteChunk ChunkType.OldPalette1 [])).
  pose (frame := {| frame_durationMs := 100; frame_cels := [];
                    frame_chunks := Some [chunk] |}).
  eexists. split; [vm_compute; reflexivity|].
  refine (proj2 (proj2 (@X15_old_palette_not_reencoded exampleRuntime
                          oldPaletteFile DEFAULT_OPTIONS _ frame [chunk] chunk
                          ChunkType.OldPalette1 [] noCompression _ _ _ _ _))).
  - vm_compute. reflexivity.
  - left. reflexivity.
  - reflexivity.
  - left. reflexivity.
  - reflexivity.
Defined.

(** A file decoded without its chunk lists, encoded in mode "chunks". *)
Lemma X16_witness :
  encodeAseprite (rt := exampleRuntime) discardedFile
    {| mode := ModeChunks; writeLegacyPaletteChunks := false;
       compression := noCompression |}
  = Throw (AseFormatError BAD_CHUNK_SIZE).
Proof.
  apply (proj1 (proj1 (proj2 (@X16_chunks_mode_needs_chunks exampleRuntime
                                discardedFile
                                {| mode := ModeChunks;
                                   writeLegacyPaletteChunks := false;
                                   compression := noCompression |}))
                      _ _ eq_refl eq_refl)).
  reflexivity.
Defined.

(* ================================================================== *)
(** ** Chunk payloads: decoding what the encoder wrote
       ([src/chunks/*.ts], [src/chunks/encode.ts]) *)

Lemma mod_small_unsigned bits z k :
  is_unsigned bits z -> k = bits -> z mod 2 ^ k = z.
Proof. intros [Hlo Hhi] ->. apply Z.mod_small. lia. Qed.

(** X17.  [parseCelExtraChunk] inverts [encodeCelExtraChunk]: for flags
    below 2^32 and 16.16 fixed-point values within 32 bits, decoding the
    20 bytes the encoder writes gives the same record, and the reader
    stops behind them. *)
Theorem X17_cel_extra_round_trip :
  forall (extra : CelExtra) (before after : Bytes),
    cel_extra_in_range extra ->
    parseCelExtraChunk
      (reader_at before (encodeCelExtraChunk extra ++ after))
    = Ok (extra, reader_at (before ++ encodeCelExtraChunk extra) after).
Proof.
  intros [flags px py cw ch] before after (Hf & Hx & Hy & Hw & Hh).
  cbn [extra_flags extra_preciseX extra_preciseY extra_celWidth extra_celHeight]
    in *.
  unfold parseCelExtraChunk, encodeCelExtraChunk, u32, fixed16_16,
    w_u32, w_fixed16_16. cbn [app]. rewrite <- !app_assoc.
  cbn [extra_flags extra_preciseX extra_preciseY extra_celWidth extra_celHeight].
  do 5 read_step. unfold ret.
  rewrite (@mod_small_unsigned 32 flags) by (assumption || reflexivity).
  rewrite !to_signed_mod by (assumption || lia).
  f_equal. f_equal. same_reader.
Qed.

(** A cel moved by a quarter pixel and scaled to 1.5 by 2 pixels. *)
Lemma X17_witness :
  parseCelExtraChunk
    (reader_at []
       (encodeCelExtraChunk
          {| extra_flags := 1; extra_preciseX := 16384; extra_preciseY := -16384;
             extra_celWidth := 98304; extra_celHeight := 131072 |} ++ []))
  = Ok ({| extra_flags := 1; extra_preciseX := 16384; extra_preciseY := -16384;
           extra_celWidth := 98304; extra_celHeight := 131072 |},
        reader_at
          ([] ++ encodeCelExtraChunk
                   {| extra_flags := 1; extra_preciseX := 16384;
                      extra_preciseY := -16384; extra_celWidth := 98304;
                      extra_celHeight := 131072 |}) []).
Proof.
  apply X17_cel_extra_round_trip.
  unfold cel_extra_in_range, is_unsigned, is_signed. simpl. lia.
Defined.

Section ChunkRoundTrips.
Context {rt : JsRuntime}.

(** Reading back a string that round-trips. *)
Lemma string_back before s after :
  string_round_trips s ->
  string_ (reader_at before
             (le_bytes 2 (Z.of_nat (length (utf8_encode s)))
              ++ utf8_encode s ++ after))
  = Ok (s, reader_at ((before ++ le_bytes 2 (Z.of_nat (length (utf8_encode s))))
                      ++ utf8_encode s) after).
Proof.
  intros (Hlen & Hinv & Hempty). rewrite string_at by exact Hlen.
  do 2 f_equal.
  destruct (Z.eqb_spec (Z.of_nat (length (utf8_encode s))) 0) as [E|_];
    [|exact Hinv].
  symmetry. apply Hempty. destruct (utf8_encode s); [reflexivity|simpl in E; lia].
Qed.

Lemma w_string_Ok w s :
  string_round_trips s ->
  w_string w s
  = Ok (w ++ le_bytes 2 (Z.of_nat (length (utf8_encode s))) ++ utf8_encode s).
Proof.
  intros (Hlen & _). unfold w_string, w_bytes, w_u16.
  destruct (Z.gtb_spec (Z.of_nat (length (utf8_encode s))) 65535); [lia|].
  rewrite <- app_assoc. reflexivity.
Qed.

Ltac read_string :=
  erewrite bind_eq by (apply string_back; assumption).

(** The bytes of one tag, and their decoding. *)
Lemma parseTag_encoded tag before after :
  tag_in_range tag ->
  exists encoded,
    (forall w rest, encodeTags w (tag :: rest) = encodeTags (w ++ encoded) rest)
    /\ parseTag (reader_at before (encoded ++ after))
       = Ok (tag_without_userData tag, reader_at (before ++ encoded) after).
Proof.
  intros (Hf & Ht & Hd & Hr & Hcr & Hcg & Hcb & Hn).
  eexists. split.
  - intros w rest. cbn [encodeTags].
    unfold w_u16, w_u8, w_zeros. rewrite w_string_Ok by exact Hn.
    cbn [bindR]. f_equal. rewrite <- !app_assoc. reflexivity.
  - unfold parseTag, u16, u8. cbn [app]. rewrite <- !app_assoc.
    do 8 read_step.
    change (le_bytes 1 0) with (repeat x00 1). read_step.
    read_string. unfold ret, tag_without_userData.
    rewrite (@mod_small_unsigned 16 (tag_fromFrame tag)),
      (@mod_small_unsigned 16 (tag_toFrame tag)),
      (@mod_small_unsigned 8 (tag_direction tag)),
      (@mod_small_unsigned 16 (tag_repeat tag)),
      (@mod_small_unsigned 8 (rgb_r (tag_color tag))),
      (@mod_small_unsigned 8 (rgb_g (tag_color tag))),
      (@mod_small_unsigned 8 (rgb_b (tag_color tag)))
      by (assumption || reflexivity).
    destruct (tag_color tag). f_equal. f_equal. same_reader.
Qed.

Lemma parseTags_encoded tags :
  Forall tag_in_range tags ->
  exists encoded,
    (forall w, encodeTags w tags = Ok (w ++ encoded))
    /\ forall before after acc,
         repeat_push (length tags) parseTag acc
                     (reader_at before (encoded ++ after))
         = Ok (acc ++ map tag_without_userData tags,
               reader_at (before ++ encoded) after).
Proof.
  induction 1 as [|tag tags Htag _ IH].
  - exists []. split.
    + intro w. rewrite app_nil_r. reflexivity.
    + intros before after acc. simpl. unfold ret.
      rewrite !app_nil_r. reflexivity.
  - destruct IH as (rest & Henc & Hdec).
    destruct (parseTag_encoded [] [] Htag) as (one & Hone & _).
    exists (one ++ rest). split.
    + intro w. rewrite Hone, Henc, <- app_assoc. reflexivity.
    + intros before after acc. cbn [length repeat_push].
      destruct (parseTag_encoded before (rest ++ after) Htag)
        as (one' & Hone' & Hp).
      assert (one' = one).
      { pose proof (Hone [] []) as H1. pose proof (Hone' [] []) as H2.
        cbn [encodeTags app] in H1, H2. rewrite H1 in H2.
        injection H2 as H2. symmetry. exact H2. }
      subst one'. rewrite <- app_assoc.
      erewrite bind_eq by exact Hp.
      rewrite Hdec. cbn [map]. rewrite <- !app_assoc. reflexivity.
Qed.

(** X18.  [parseTagsChunk] inverts [encodeTagsChunk]: for fewer than 65536
    tags whose fields fit their widths and whose names survive the string
    codec, the encoder succeeds and decoding its bytes gives the tags back
    in order, without their user data (which the Tags chunk does not
    hold), the reader stopping behind the bytes. *)
Theorem X18_tags_round_trip :
  forall (tags : list Tag) (before after : Bytes),
    Z.of_nat (length tags) < 2 ^ 16 ->
    Forall tag_in_range tags ->
    exists encoded,
      encodeTagsChunk tags = Ok encoded
      /\ parseTagsChunk (reader_at before (encoded ++ after))
         = Ok (map tag_without_userData tags,
               reader_at (before ++ encoded) after).
Proof.
  intros tags before after Hlen Hall.
  destruct (parseTags_encoded Hall) as (enc & Henc & Hdec).
  unfold encodeTagsChunk. rewrite Henc. eexists. split; [reflexivity|].
  unfold parseTagsChunk, u16, w_u16, w_zeros. cbn [app].
  rewrite <- !app_assoc. do 2 read_step.
  change (2 ^ (8 * Z.of_nat 2)) with (2 ^ 16).
  rewrite Z.mod_small by lia. rewrite Nat2Z.id, Hdec.
  cbn [app]. f_equal. f_equal. same_reader.
Qed.

(** X19.  [parseLayerChunk] inverts [encodeLayerChunk] on layers whose
    fields fit their widths, whose name survives the string codec and
    which have a tileset index exactly when they are tilemap layers: the
    layer comes back without its user data (which travels in a UserData
    chunk of its own).  *)
Theorem X19_layer_round_trip :
  forall (layer : Layer) (before after : Bytes),
    layer_in_range layer ->
    exists encoded,
      encodeLayerChunk layer = Ok encoded
      /\ parseLayerChunk (reader_at before (encoded ++ after))
         = Ok (layer_without_userData layer,
               reader_at (before ++ encoded) after).
Proof.
  intros layer before after
         (Hf & Ht & Hc & Hw & Hh & Hb & Ho & Hn & Hts).
  unfold encodeLayerChunk, w_u16, w_u8, w_zeros.
  rewrite w_string_Ok by exact Hn. cbn [bindR]. eexists. split; [reflexivity|].
  unfold parseLayerChunk, u16, u8, u32, layer_without_userData.
  destruct (layer_tilesetIndex layer) as [tilesetIndex|] eqn:Ets.
  - destruct Hts as [Etype Hidx].
    assert (Eb : (layer_type layer =? LayerType.Tilemap) = true)
      by (apply Z.eqb_eq; exact Etype).
    rewrite Eb. unfold w_u32. cbn [app]. rewrite <- !app_assoc.
    do 8 read_step. read_string.
    rewrite (@mod_small_unsigned 16 (layer_type layer))
      by (assumption || reflexivity).
    rewrite Eb.
    erewrite bind_eq.
    2:{ erewrite bind_eq by apply read_unsigned_at. reflexivity. }
    unfold ret.
    rewrite (@mod_small_unsigned 16 (layer_flags layer)),
      (@mod_small_unsigned 16 (layer_childLevel layer)),
      (@mod_small_unsigned 16 (layer_defaultWidth layer)),
      (@mod_small_unsigned 16 (layer_defaultHeight layer)),
      (@mod_small_unsigned 16 (layer_blendMode layer)),
      (@mod_small_unsigned 8 (layer_opacity layer)),
      (@mod_small_unsigned 32 tilesetIndex)
      by (assumption || reflexivity).
    f_equal. f_equal. same_reader.
  - assert (Eb : (layer_type layer =? LayerType.Tilemap) = false)
      by (apply Z.eqb_neq; exact Hts).
    cbn [app]. rewrite <- !app_assoc.
    do 8 read_step. read_string.
    rewrite (@mod_small_unsigned 16 (layer_type layer))
      by (assumption || reflexivity).
    rewrite Eb.
    erewrite bind_eq by reflexivity.
    unfold ret.
    rewrite (@mod_small_unsigned 16 (layer_flags layer)),
      (@mod_small_unsigned 16 (layer_childLevel layer)),
      (@mod_small_unsigned 16 (layer_defaultWidth layer)),
      (@mod_small_unsigned 16 (layer_defaultHeight layer)),
      (@mod_small_unsigned 16 (layer_blendMode layer)),
      (@mod_small_unsigned 8 (layer_opacity layer))
      by (assumption || reflexivity).
    f_equal. f_equal. same_reader.
Qed.
End ChunkRoundTrips.

Lemma walk_round_trips : string_round_trips (rt := exampleRuntime) (str "walk").
Proof.
  split; [simpl; lia|]. split; [reflexivity|]. discriminate.
Qed.

(** A Tags chunk with the one tag "walk" over frames 0..3. *)
Lemma X18_witness :
  exists encoded,
    encodeTagsChunk (rt := exampleRuntime) [walkTag] = Ok encoded
    /\ parseTagsChunk (rt := exampleRuntime) (reader_at [] (encoded ++ []))
       = Ok ([walkTag], reader_at ([] ++ encoded) []).
Proof.
  apply (@X18_tags_round_trip exampleRuntime [walkTag] [] []).
  - simpl. lia.
  - constructor; [|constructor].
    unfold tag_in_range. simpl.
    repeat (split; [vm_compute; split; [discriminate | reflexivity]|]).
    apply walk_round_trips.
Defined.

(** A normal layer named "walk". *)
Lemma X19_witness :
  exists encoded,
    encodeLayerChunk (rt := exampleRuntime) walkLayer = Ok encoded
    /\ parseLayerChunk (rt := exampleRuntime) (reader_at [] (encoded ++ []))
       = Ok (walkLayer, reader_at ([] ++ encoded) []).
Proof.
  apply (@X19_layer_round_trip exampleRuntime walkLayer [] []).
  unfold layer_in_range. simpl.
  repeat (split; [vm_compute; split; [discriminate | reflexivity]|]).
  split; [apply walk_round_trips | discriminate].
Defined.

(* ================================================================== *)
(** ** Property values: decoding what the encoder wrote *)

Section PropertyRoundTrip.
Context {rt : JsRuntime}.

Ltac encoded_as bytes :=
  exists bytes; split; [reflexivity|].

(** X20.  A scalar property value, encoded under the type tag that
    [getPropertyType] picks for it, is decoded to the same value by
    [parsePropertyValue] under that tag, the reader stopping behind its
    bytes.  The tag is the narrowest that fits the value, not the tag the
    value was first decoded from; negative integers down to -128 are
    written, and read, with an offset of 128. *)
Theorem X20_scalar_property_round_trip :
  forall (value : PropertyValue) (depth : nat) (w after : Bytes),
    scalar_property value ->
    let propType := getPropertyType value in
    exists encoded,
      encodePropertyValue w value propType = Ok (w ++ encoded)
      /\ parsePropertyValue (S depth) propType (reader_at w (encoded ++ after))
         = Ok (value, reader_at (w ++ encoded) after).
Proof.
  intros value depth w after Hv propType. subst propType.
  destruct value as [|b|[z|bits]|z|s|x y|wd ht|x y wd ht|els|entries|ty];
    cbn [scalar_property] in Hv; try contradiction.
  - (* null *)
    exists []. rewrite !app_nil_r. split; [reflexivity|].
    change (parsePropertyValue (S depth) (getPropertyType PNull))
      with (@ret PropertyValue PNull).
    reflexivity.
  - (* boolean *)
    encoded_as (le_bytes 1 (if b then 1 else 0)).
    change (parsePropertyValue (S depth) (getPropertyType (PBool b)))
      with (v <- u8 ;; ret (PBool (negb (v =? 0)))).
    unfold u8. read_step. unfold ret. destruct b; reflexivity.
  - (* integers *)
    unfold getPropertyType.
    destruct (Z.geb_spec z 0) as [Hpos|Hneg].
    + destruct (Z.leb_spec z 255) as [H8|H8].
      * encoded_as (le_bytes 1 z).
        change (parsePropertyValue (S depth) PropertyType.Uint8)
          with (v <- u8 ;; ret (PNumber (NInt v))).
        unfold u8. read_step. unfold ret.
        rewrite Z.mod_small by (simpl; lia). reflexivity.
      * destruct (Z.leb_spec z 65535) as [H16|H16].
        -- encoded_as (le_bytes 2 z).
           change (parsePropertyValue (S depth) PropertyType.Uint16)
             with (v <- u16 ;; ret (PNumber (NInt v))).
           unfold u16. read_step. unfold ret.
           rewrite Z.mod_small by (simpl; lia). reflexivity.
        -- encoded_as (le_bytes 4 z).
           change (parsePropertyValue (S depth) PropertyType.Uint32)
             with (v <- u32 ;; ret (PNumber (NInt v))).
           unfold u32. read_step. unfold ret.
           rewrite Z.mod_small by (simpl; lia). reflexivity.
    + destruct (Z.geb_spec z (-128)) as [H8|H8].
      * encoded_as (le_bytes 1 (z + 128)).
        change (parsePropertyValue (S depth) PropertyType.Int8)
          with (v <- u8 ;; ret (PNumber (NInt (v - 128)))).
        unfold u8. read_step. unfold ret.
        rewrite Z.mod_small by (simpl; lia).
        replace (z + 128 - 128) with z by lia. reflexivity.
      * destruct (Z.geb_spec z (-32768)) as [H16|H16].
        -- encoded_as (le_bytes 2 z).
           change (parsePropertyValue (S depth) PropertyType.Int16)
             with (v <- i16 ;; ret (PNumber (NInt v))).
           unfold i16. read_step. unfold ret.
           rewrite to_signed_mod by (unfold is_signed; simpl; lia).
           reflexivity.
        -- encoded_as (le_bytes 4 z).
           change (parsePropertyValue (S depth) PropertyType.Int32)
             with (v <- i32 ;; ret (PNumber (NInt v))).
           unfold i32. read_step. unfold ret.
           rewrite to_signed_mod by (unfold is_signed; simpl; lia).
           reflexivity.
  - (* big integers *)
    unfold getPropertyType.
    destruct (Z.geb_spec z 0) as [Hpos|Hneg].
    + encoded_as (le_bytes 8 z).
      change (parsePropertyValue (S depth) PropertyType.Uint64)
        with (v <- u64 ;; ret (PBigInt v)).
      unfold u64. read_step. unfold ret.
      rewrite Z.mod_small by (simpl; lia). reflexivity.
    + encoded_as (le_bytes 8 z).
      change (parsePropertyValue (S depth) PropertyType.Int64)
        with (v <- i64 ;; ret (PBigInt v)).
      unfold i64. read_step. unfold ret.
      rewrite to_signed_mod by (unfold is_signed; simpl; lia).
      reflexivity.
  - (* point *)
    destruct Hv as [Hx Hy].
    exists (le_bytes 4 x ++ le_bytes 4 y). split.
    { transitivity (@Ok Bytes (w_i32 (w_i32 w x) y)); [reflexivity|].
      unfold w_i32. rewrite <- !app_assoc. reflexivity. }
    change (parsePropertyValue (S depth) (getPropertyType (PPoint x y)))
      with (a <- i32 ;; b <- i32 ;; ret (PPoint a b)).
    unfold i32. rewrite <- !app_assoc. do 2 read_step. unfold ret.
    rewrite !to_signed_mod by (assumption || lia).
    f_equal. f_equal. same_reader.
  - (* size *)
    destruct Hv as [Hw Hh].
    exists (le_bytes 4 wd ++ le_bytes 4 ht). split.
    { transitivity (@Ok Bytes (w_i32 (w_i32 w wd) ht)); [reflexivity|].
      unfold w_i32. rewrite <- !app_assoc. reflexivity. }
    change (parsePropertyValue (S depth) (getPropertyType (PSize wd ht)))
      with (a <- i32 ;; b <- i32 ;; ret (PSize a b)).
    unfold i32. rewrite <- !app_assoc. do 2 read_step. unfold ret.
    rewrite !to_signed_mod by (assumption || lia).
    f_equal. f_equal. same_reader.
  - (* rectangle *)
    destruct Hv as (Hx & Hy & Hw & Hh).
    exists (le_bytes 4 x ++ le_bytes 4 y ++ le_bytes 4 wd ++ le_bytes 4 ht).
    split.
    { transitivity (@Ok Bytes (w_i32 (w_i32 (w_i32 (w_i32 w x) y) wd) ht));
        [reflexivity|].
      unfold w_i32. rewrite <- !app_assoc. reflexivity. }
    change (parsePropertyValue (S depth) (getPropertyType (PRect x y wd ht)))
      with (a <- i32 ;; b <- i32 ;; c <- i32 ;; d <- i32 ;;
            ret (PRect a b c d)).
    unfold i32. rewrite <- !app_assoc. do 4 read_step. unfold ret.
    rewrite !to_signed_mod by (assumption || lia).
    f_equal. f_equal. same_reader.
Qed.
End PropertyRoundTrip.

(** The integer -100 is written as the byte 28 under the tag Int8 and read
    back as -100. *)
Lemma X20_witness :
  exists encoded,
    encodePropertyValue (rt := exampleRuntime) [] (PNumber (NInt (-100)))
      PropertyType.Int8 = Ok ([] ++ encoded)
    /\ parsePropertyValue (rt := exampleRuntime) 1 PropertyType.Int8
         (reader_at [] (encoded ++ []))
       = Ok (PNumber (NInt (-100)), reader_at ([] ++ encoded) []).
Proof.
  apply (@X20_scalar_property_round_trip exampleRuntime
           (PNumber (NInt (-100))) 0 [] []).
  simpl. lia.
Defined.

(* ================================================================== *)
(** ** The validator and the functions it guards
       ([src/util/validate.ts]) *)

Lemma IssueCode_eqb_eq a b : IssueCode_eqb a b = true <-> a = b.
Proof.
  split.
  - destruct a, b; simpl; intro H; first [reflexivity | discriminate H].
  - intros ->. destruct b; reflexivity.
Qed.

Lemma has_code_In code issues :
  has_code code issues = true
  <-> exists x, In x issues /\ issue_code x = code.
Proof.
  unfold has_code. rewrite existsb_exists.
  split; intros (x & Hin & H); exists x; (split; [exact Hin|]);
    apply IssueCode_eqb_eq; exact H.
Qed.

Lemma has_code_app code a b :
  has_code code (a ++ b) = has_code code a || has_code code b.
Proof. apply existsb_app. Qed.

Lemma has_code_outside codes code issues :
  Forall (fun x => In (issue_code x) codes) issues ->
  ~ In code codes ->
  has_code code issues = false.
Proof.
  intros Hall Hn. destruct (has_code code issues) eqn:E; [|reflexivity].
  apply has_code_In in E. destruct E as (x & Hin & <-).
  rewrite Forall_forall in Hall. elim Hn. apply Hall. exact Hin.
Qed.

(** *** Every validator only appends *)

Lemma emits_id codes : emits codes (fun issues => issues).
Proof. split; [intro; rewrite app_nil_r; reflexivity | constructor]. Qed.

Lemma emits_comp codes f g :
  emits codes f -> emits codes g -> emits codes (fun issues => g (f issues)).
Proof.
  intros [Hf Hfc] [Hg Hgc]. split.
  - intro issues.
    rewrite (Hg (f issues)), (Hg (f [])), (Hf issues), app_assoc. reflexivity.
  - rewrite Hg. apply Forall_app. split; assumption.
Qed.

Lemma emits_push codes x :
  In (issue_code x) codes -> emits codes (fun issues => issues ++ [x]).
Proof.
  intro H. split; [reflexivity|]. simpl. constructor; [exact H | constructor].
Qed.

Lemma emits_push_if codes c x :
  In (issue_code x) codes -> emits codes (push_if c x).
Proof.
  intro H. unfold push_if. destruct c; [apply emits_push; exact H|].
  apply emits_id.
Qed.

Lemma emits_fold codes {A} (f : list ValidationIssue -> A -> list ValidationIssue)
    (l : list A) :
  (forall y, emits codes (fun issues => f issues y)) ->
  emits codes (fun issues => fold_left f l issues).
Proof.
  intro Hf. induction l as [|a l IH]; simpl; [apply emits_id|].
  apply (@emits_comp codes (fun issues => f issues a)
           (fun issues => fold_left f l issues)); [apply Hf | exact IH].
Qed.

Ltac code_in := simpl; auto 10.

Ltac emits_step :=
  lazymatch goal with
  | |- emits _ (fun issues => issues) => apply emits_id
  | |- emits _ (push_if _ _) => apply emits_push_if; code_in
  | |- emits ?codes (fun issues => push_if ?c ?x (@?rest issues)) =>
      apply (@emits_comp codes rest (push_if c x));
        [| apply emits_push_if; code_in]
  | |- emits ?codes (fun issues => (@?rest issues) ++ [?x]) =>
      apply (@emits_comp codes rest (fun issues => issues ++ [x]));
        [| apply emits_push; code_in]
  | |- emits ?codes (fun issues => fold_left ?f ?l (@?rest issues)) =>
      apply (@emits_comp codes rest (fun issues => fold_left f l issues));
        [| apply emits_fold; intro]
  | |- emits _ (fun issues => if ?c then _ else _) => destruct c
  | |- emits _ (fun issues => match ?o with _ => _ end) => destruct o
  end.

Lemma validateHeader_emits file : emits headerCodes (validateHeader file).
Proof. unfold validateHeader. cbv zeta. repeat emits_step. Qed.

Lemma validateLayers_loop_emits layers :
  forall i maxChildLevel,
    emits layerCodes
      (fun issues => validateLayers_loop layers i maxChildLevel issues).
Proof.
  induction layers as [|layer rest IH]; intros i maxChildLevel;
    cbn [validateLayers_loop]; [apply emits_id|].
  cbv zeta.
  lazymatch goal with
  | |- emits ?codes (fun issues => validateLayers_loop ?l ?a ?b (@?r issues)) =>
      apply (@emits_comp codes r
               (fun issues => validateLayers_loop l a b issues));
        [| apply IH]
  end.
  repeat emits_step.
Qed.

Lemma validateLayers_emits file : emits layerCodes (validateLayers file).
Proof.
  unfold validateLayers. destruct (_ =? 0).
  - apply emits_push. code_in.
  - apply validateLayers_loop_emits.
Qed.

Lemma validateCel_emits file frameIdx cel :
  emits frameCodes (fun issues => validateCel file frameIdx issues cel).
Proof. unfold validateCel. cbv zeta. repeat emits_step. Qed.

Lemma validateFrames_loop_emits file frames :
  forall frameIdx,
    emits frameCodes
      (fun issues => validateFrames_loop file frames frameIdx issues).
Proof.
  induction frames as [|frame rest IH]; intro frameIdx;
    cbn [validateFrames_loop]; [apply emits_id|].
  cbv zeta.
  lazymatch goal with
  | |- emits ?codes (fun issues => validateFrames_loop ?f ?l ?a (@?r issues)) =>
      apply (@emits_comp codes r
               (fun issues => validateFrames_loop f l a issues));
        [| apply IH]
  end.
  emits_step; [repeat emits_step | apply validateCel_emits].
Qed.

Lemma validateFrames_emits file : emits frameCodes (validateFrames file).
Proof. apply validateFrames_loop_emits. Qed.

Lemma validatePalette_emits file : emits paletteCodes (validatePalette file).
Proof. unfold validatePalette. cbv zeta. repeat emits_step. Qed.

Lemma validateTags_loop_emits frameCount tags :
  forall i,
    emits tagCodes (fun issues => validateTags_loop frameCount tags i issues).
Proof.
  induction tags as [|tag rest IH]; intro i;
    cbn [validateTags_loop]; [apply emits_id|].
  cbv zeta.
  lazymatch goal with
  | |- emits ?codes (fun issues => validateTags_loop ?f ?l ?a (@?r issues)) =>
      apply (@emits_comp codes r
               (fun issues => validateTags_loop f l a issues));
        [| apply IH]
  end.
  repeat emits_step.
Qed.

Lemma validateTags_emits file : emits tagCodes (validateTags file).
Proof.
  unfold validateTags. destruct (file_tags file);
    [apply validateTags_loop_emits | apply emits_id].
Qed.

Lemma validateSliceKey_emits frameCount slice key :
  emits sliceCodes (fun issues => validateSliceKey frameCount slice issues key).
Proof. unfold validateSliceKey. cbv zeta. repeat emits_step. Qed.

Lemma validateSlice_emits frameCount slice :
  emits sliceCodes (fun issues => validateSlice frameCount issues slice).
Proof.
  unfold validateSlice. cbv zeta.
  emits_step; [repeat emits_step | apply validateSliceKey_emits].
Qed.

Lemma validateSlices_emits file : emits sliceCodes (validateSlices file).
Proof.
  unfold validateSlices. destruct (file_slices file); [|apply emits_id].
  apply emits_fold. intro. apply validateSlice_emits.
Qed.

Lemma validateTilesets_loop_emits tilesets :
  forall tilesetIds,
    emits tilesetCodes
      (fun issues => validateTilesets_loop tilesets tilesetIds issues).
Proof.
  induction tilesets as [|tileset rest IH]; intro tilesetIds;
    cbn [validateTilesets_loop]; [apply emits_id|].
  cbv zeta.
  lazymatch goal with
  | |- emits ?codes (fun issues => validateTilesets_loop ?l ?a (@?r issues)) =>
      apply (@emits_comp codes r
               (fun issues => validateTilesets_loop l a issues));
        [| apply IH]
  end.
  repeat emits_step.
Qed.

Lemma validateTilesets_emits file : emits tilesetCodes (validateTilesets file).
Proof.
  unfold validateTilesets. destruct (file_tilesets file);
    [apply validateTilesets_loop_emits | apply emits_id].
Qed.

(** The issue list is made of the seven sections, in the order of the
    calls. *)
Lemma validateAseprite_sections file :
  validateAseprite file
  = validateHeader file [] ++ validateLayers file []
    ++ validateFrames file [] ++ validatePalette file []
    ++ validateTags file [] ++ validateSlices file []
    ++ validateTilesets file [].
Proof.
  unfold validateAseprite. cbv zeta.
  rewrite (proj1 (validateTilesets_emits file) (validateSlices file _)).
  rewrite (proj1 (validateSlices_emits file) (validateTags file _)).
  rewrite (proj1 (validateTags_emits file) (validatePalette file _)).
  rewrite (proj1 (validatePalette_emits file) (validateFrames file _)).
  rewrite (proj1 (validateFrames_emits file) (validateLayers file _)).
  rewrite (proj1 (validateLayers_emits file) (validateHeader file _)).
  rewrite <- !app_assoc. reflexivity.
Qed.

Lemma reports_sections file code :
  reports file code
  = has_code code (validateHeader file [])
    || has_code code (validateLayers file [])
    || has_code code (validateFrames file [])
    || has_code code (validatePalette file [])
    || has_code code (validateTags file [])
    || has_code code (validateSlices file [])
    || has_code code (validateTilesets file []).
Proof.
  unfold reports. rewrite validateAseprite_sections, !has_code_app.
  rewrite !orb_assoc. reflexivity.
Qed.

Ltac not_of_section := simpl; intuition discriminate.

(** Reduce [reports file code] to the one section that has the code. *)
Ltac one_section file :=
  rewrite (reports_sections file);
  rewrite ?(@has_code_outside headerCodes _ _ (proj2 (validateHeader_emits file)))
    by not_of_section;
  rewrite ?(@has_code_outside layerCodes _ _ (proj2 (validateLayers_emits file)))
    by not_of_section;
  rewrite ?(@has_code_outside frameCodes _ _ (proj2 (validateFrames_emits file)))
    by not_of_section;
  rewrite ?(@has_code_outside paletteCodes _ _ (proj2 (validatePalette_emits file)))
    by not_of_section;
  rewrite ?(@has_code_outside tagCodes _ _ (proj2 (validateTags_emits file)))
    by not_of_section;
  rewrite ?(@has_code_outside sliceCodes _ _ (proj2 (validateSlices_emits file)))
    by not_of_section;
  rewrite ?(@has_code_outside tilesetCodes _ _ (proj2 (validateTilesets_emits file)))
    by not_of_section;
  rewrite ?orb_false_r; cbn [orb].

(** *** Links *)

Lemma validateCel_link file frameIdx cel code :
  code = INVALID_LINKED_FRAME \/ code = FORWARD_LINKED_CEL ->
  has_code code (validateCel file frameIdx [] cel)
  = match linkIssue file frameIdx cel with
    | Some c => IssueCode_eqb c code
    | None => false
    end.
Proof.
  intro Hcode. unfold validateCel, linkIssue, push_if.
  destruct (_ || _), (cel_opacity cel >? 255), (cel_variant cel);
    try (destruct (_ || _)); try (destruct (_ >=? frameIdx));
    destruct Hcode as [-> | ->]; reflexivity.
Qed.

Lemma fold_validateCel file frameIdx code cels :
  has_code code (fold_left (validateCel file frameIdx) cels [])
  = existsb (fun cel => has_code code (validateCel file frameIdx [] cel)) cels.
Proof.
  induction cels as [|cel rest IH]; [reflexivity|].
  cbn [fold_left existsb].
  rewrite (proj1 (@emits_fold frameCodes Cel (validateCel file frameIdx) rest
                    (validateCel_emits file frameIdx))
             (validateCel file frameIdx [] cel)).
  rewrite has_code_app, IH. reflexivity.
Qed.

Lemma validateFrames_loop_link file code :
  code = INVALID_LINKED_FRAME \/ code = FORWARD_LINKED_CEL ->
  forall frames frameIdx,
    has_code code (validateFrames_loop file frames frameIdx []) = true
    <-> exists j frame cel,
          nth_error frames j = Some frame
          /\ In cel (frame_cels frame)
          /\ linkIssue file (frameIdx + Z.of_nat j) cel = Some code.
Proof.
  intro Hcode. induction frames as [|frame rest IH]; intro frameIdx.
  - simpl. split; [discriminate|]. intros ([|j] & frame & cel & H & _);
      discriminate.
  - cbn [validateFrames_loop]. cbv zeta.
    rewrite (proj1 (validateFrames_loop_emits file rest (frameIdx + 1))).
    rewrite (proj1 (@emits_fold frameCodes Cel (validateCel file frameIdx)
                      (frame_cels frame) (validateCel_emits file frameIdx))).
    rewrite !has_code_app, fold_validateCel.
    assert (Hd : has_code code
                   (push_if (frame_durationMs frame <=? 0)
                      (issueAtFrame ValidationSeverity.Warning ZERO_DURATION
                         (FrameZeroDuration frameIdx (frame_durationMs frame))
                         frameIdx) []) = false).
    { unfold push_if. destruct (_ <=? 0); destruct Hcode as [-> | ->];
        reflexivity. }
    rewrite Hd. cbn [orb]. rewrite orb_true_iff, existsb_exists, IH.
    split.
    + intros [(cel & Hin & H) | (j & frame' & cel & Hnth & Hin & H)].
      * rewrite validateCel_link in H by exact Hcode.
        exists 0%nat, frame, cel. split; [reflexivity|]. split; [exact Hin|].
        rewrite Z.add_0_r.
        destruct (linkIssue file frameIdx cel) as [c|]; [|discriminate].
        apply IssueCode_eqb_eq in H. congruence.
      * exists (S j), frame', cel. split; [exact Hnth|]. split; [exact Hin|].
        rewrite <- H. f_equal. lia.
    + intros ([|j] & frame' & cel & Hnth & Hin & H).
      * left. injection Hnth as <-. exists cel. split; [exact Hin|].
        rewrite validateCel_link by exact Hcode.
        rewrite Z.add_0_r in H. rewrite H. apply IssueCode_eqb_eq. reflexivity.
      * right. exists j, frame', cel. split; [exact Hnth|].
        split; [exact Hin|]. rewrite <- H. f_equal. lia.
Qed.

Lemma reports_link file code :
  code = INVALID_LINKED_FRAME \/ code = FORWARD_LINKED_CEL ->
  reports file code = true
  <-> exists j frame cel,
        nth_error (file_frames file) j = Some frame
        /\ In cel (frame_cels frame)
        /\ linkIssue file (Z.of_nat j) cel = Some code.
Proof.
  intro Hcode.
  assert (E : reports file code = has_code code (validateFrames file []))
    by (destruct Hcode as [-> | ->]; one_section file; reflexivity).
  rewrite E. unfold validateFrames.
  rewrite (validateFrames_loop_link file Hcode). reflexivity.
Qed.

Lemma linkIssue_codes file frameIdx cel code :
  linkIssue file frameIdx cel = Some code ->
  code = INVALID_LINKED_FRAME \/ code = FORWARD_LINKED_CEL.
Proof.
  unfold linkIssue. destruct (cel_variant cel); try discriminate.
  destruct (_ || _); [intros [= <-]; auto|].
  destruct (_ >=? _); [intros [= <-]; auto | discriminate].
Qed.

Lemma reports_linksValid file :
  reports file INVALID_LINKED_FRAME = false
  /\ reports file FORWARD_LINKED_CEL = false
  <-> linksValid file.
Proof.
  split.
  - intros [H1 H2] i frame c k Hnth Hin Hv.
    destruct (linkIssue file (Z.of_nat i) c) as [code|] eqn:E.
    + exfalso. pose proof (linkIssue_codes _ _ _ E) as Hcode.
      assert (Hr : reports file code = true).
      { apply (reports_link file Hcode). exists i, frame, c. auto. }
      destruct Hcode as [-> | ->]; congruence.
    + unfold linkIssue in E. rewrite Hv in E.
      destruct (Z.ltb_spec k 0); [discriminate|].
      destruct (Z.geb_spec k (Z.of_nat (length (file_frames file))));
        [discriminate|].
      cbn [orb] in E.
      destruct (Z.geb_spec k (Z.of_nat i)); [discriminate|]. lia.
  - intro Hvalid.
    assert (Hnone : forall code,
               code = INVALID_LINKED_FRAME \/ code = FORWARD_LINKED_CEL ->
               reports file code = false).
    { intros code Hcode. destruct (reports file code) eqn:E; [|reflexivity].
      apply (reports_link file Hcode) in E.
      destruct E as (j & frame & cel & Hnth & Hin & H).
      unfold linkIssue in H.
      destruct (cel_variant cel) as [| k | |] eqn:Hv; try discriminate.
      pose proof (Hvalid j frame cel k Hnth Hin Hv) as Hk.
      assert (Hj : (j < length (file_frames file))%nat)
        by (apply nth_error_Some; congruence).
      destruct (Z.ltb_spec k 0); [lia|].
      destruct (Z.geb_spec k (Z.of_nat (length (file_frames file)))); [lia|].
      cbn [orb] in H.
      destruct (Z.geb_spec k (Z.of_nat j)); [lia | discriminate]. }
    split; apply Hnone; auto.
Qed.

Lemma reaches_stored file c c' :
  reaches file c c' -> storedCel file c -> storedCel file c'.
Proof.
  induction 1 as [c|c c1 c2 Hl Hr IH]; intro Hs; [exact Hs|].
  apply IH. destruct Hl as (k & frame & _ & _ & Hnth & Hfind).
  exists (Z.to_nat k), frame. split; [exact Hnth|].
  eapply array_find_In. exact Hfind.
Qed.

(** X21.  The validator and [resolveLinkedCel]: [validateAseprite] reports
    neither [INVALID_LINKED_FRAME] nor [FORWARD_LINKED_CEL] exactly when
    every Linked cel stored in the file points to an existing, earlier
    frame; and for such a file the resolution of a cel stored in frame [i]
    returns within depth [i + 1], with a cel that is not Linked or with
    [INVALID_LINKED_CEL], and then only because a frame on the way holds
    no cel on the layer, which the validator does not check. *)
Theorem X21_validated_links_resolve :
  forall file : AsepriteFile,
    (reports file INVALID_LINKED_FRAME = false
     /\ reports file FORWARD_LINKED_CEL = false
     <-> linksValid file)
    /\ (linksValid file ->
        forall (i : nat) (frame : Frame) (cel : Cel),
          nth_error (file_frames file) i = Some frame ->
          In cel (frame_cels frame) ->
          exists r,
            resolveLinkedCel (S i) file cel = Some r
            /\ match r with
               | Ok c => is_linked c = false /\ reaches file cel c
               | Throw e =>
                   e = AseFormatError INVALID_LINKED_CEL
                   /\ exists c', reaches file cel c' /\ danglingLink file c'
               end).
Proof.
  intro file. split; [apply reports_linksValid|].
  intros Hvalid i frame cel Hnth Hin.
  assert (Hback : linksBackward file).
  { intros j f c k Hj Hc Hv. pose proof (Hvalid j f c k Hj Hc Hv). lia. }
  destruct (@resolveLinkedCel_terminates_below file Hback i cel) as [r Hr].
  { intros k Hv. pose proof (Hvalid i frame cel k Hnth Hin Hv). lia. }
  exists r. split; [exact Hr|].
  pose proof (resolveLinkedCel_sound _ _ _ Hr) as Hs.
  destruct r as [c|e]; [exact Hs|].
  destruct Hs as [He (c' & Hreach & Hbroken)]. split; [exact He|].
  exists c'. split; [exact Hreach|].
  assert (Hstored : storedCel file c').
  { apply (reaches_stored Hreach). exists i, frame. auto. }
  destruct Hstored as (j & f & Hj & Hc).
  destruct Hbroken as (k & Hv & Hcase).
  pose proof (Hvalid j f c' k Hj Hc Hv) as Hk.
  assert (Hlen : (j < length (file_frames file))%nat)
    by (apply nth_error_Some; congruence).
  destruct Hcase as [Hneg | [Hbig | (f' & Hf' & Hnone)]]; [lia | lia |].
  exists k, f'. auto.
Qed.

(** The linked-cel scenario: frame 1 links to frame 0, the validator is
    silent about links, and the cel of frame 1 resolves within depth 2. *)
Lemma X21_witness :
  linksValid linkedFile
  /\ exists r, resolveLinkedCel 2 linkedFile (mkCel 0 (LinkedCel 0)) = Some r.
Proof.
  assert (Hvalid : linksValid linkedFile).
  { apply (proj1 (proj1 (X21_validated_links_resolve linkedFile))).
    split; reflexivity. }
  split; [exact Hvalid|].
  destruct (proj2 (X21_validated_links_resolve linkedFile) Hvalid 1%nat
              (mkFrame [mkCel 0 (LinkedCel 0)]) (mkCel 0 (LinkedCel 0))
              eq_refl (or_introl eq_refl)) as (r & Hr & _).
  exists r. exact Hr.
Defined.

(** *** Tags *)

Lemma validateTags_loop_range frameCount tags :
  forall i,
    has_code INVALID_TAG_RANGE (validateTags_loop frameCount tags i []) = false
    <-> Forall (fun tag =>
                  0 <= tag_fromFrame tag <= tag_toFrame tag
                  /\ tag_toFrame tag < frameCount)
               tags.
Proof.
  induction tags as [|tag rest IH]; intro i.
  - simpl. split; [constructor | reflexivity].
  - cbn [validateTags_loop]. cbv zeta.
    rewrite (proj1 (validateTags_loop_emits frameCount rest (i + 1))).
    rewrite has_code_app, orb_false_iff, IH. unfold push_if.
    destruct (Z.ltb_spec (tag_fromFrame tag) 0),
             (Z.geb_spec (tag_fromFrame tag) frameCount),
             (Z.ltb_spec (tag_toFrame tag) 0),
             (Z.geb_spec (tag_toFrame tag) frameCount),
             (Z.gtb_spec (tag_fromFrame tag) (tag_toFrame tag)),
             (blank_name (tag_name tag));
      cbn; (split;
            [ intros [Hh Hr]; first [discriminate Hh | constructor; [lia | exact Hr]]
            | intro Hall; inversion Hall; subst; split;
              [first [reflexivity | lia] | assumption] ]).
Qed.

Lemma reports_tag_range file tags :
  file_tags file = Some tags ->
  reports file INVALID_TAG_RANGE = false
  <-> Forall (fun tag =>
                0 <= tag_fromFrame tag <= tag_toFrame tag
                /\ tag_toFrame tag < Z.of_nat (length (file_frames file)))
             tags.
Proof.
  intro Ht. one_section file. unfold validateTags. rewrite Ht.
  apply validateTags_loop_range.
Qed.

(** X22.  The validator and tag playback: for a file with tags,
    [validateAseprite] reports no [INVALID_TAG_RANGE] exactly when every
    tag has [0 <= fromFrame <= toFrame < frames.length]; and then, for
    every tag of the file, [resolveTagFrameRange] gives a frame count
    between 1 and the number of frames and a playback order made of
    indices of existing frames, which is not empty when the direction is
    one of the four known ones. *)
Theorem X22_validated_tags_play :
  forall (file : AsepriteFile) (tags : list Tag),
    file_tags file = Some tags ->
    (reports file INVALID_TAG_RANGE = false
     <-> Forall (fun tag =>
                   0 <= tag_fromFrame tag <= tag_toFrame tag
                   /\ tag_toFrame tag < Z.of_nat (length (file_frames file)))
                tags)
    /\ (reports file INVALID_TAG_RANGE = false ->
        forall tag, In tag tags ->
          let r := resolveTagFrameRange tag in
          1 <= tfr_frameCount r <= Z.of_nat (length (file_frames file))
          /\ (forall i, In i (tfr_playbackOrder r) ->
                exists frame,
                  nth_error (file_frames file) (Z.to_nat i) = Some frame)
          /\ (In (tag_direction tag) knownDirections ->
              tfr_playbackOrder r <> [])).
Proof.
  intros file tags Ht. split; [apply reports_tag_range; exact Ht|].
  intros Hr tag Hin r.
  apply (reports_tag_range file Ht) in Hr. rewrite Forall_forall in Hr.
  specialize (Hr tag Hin). cbv beta in Hr.
  split; [|split].
  - change (tfr_frameCount r)
      with (tag_toFrame tag - tag_fromFrame tag + 1). lia.
  - intros i Hi. apply playbackOrder_In in Hi.
    destruct (nth_error (file_frames file) (Z.to_nat i)) as [frame|] eqn:E;
      [exists frame; reflexivity|].
    apply nth_error_None in E. lia.
  - intros Hdir Hempty.
    assert (Hfrom : In (tag_fromFrame tag) (tfr_playbackOrder r))
      by (apply playbackOrder_covers; [exact Hdir | lia]).
    rewrite Hempty in Hfrom. contradiction.
Qed.

(** The tag "walk" over the four frames of its file. *)
Lemma X22_witness :
  tfr_playbackOrder (resolveTagFrameRange walkTag) <> [].
Proof.
  apply (proj2 (proj2 (proj2 (@X22_validated_tags_play taggedFile [walkTag]
                                eq_refl)
                         eq_refl walkTag (or_introl eq_refl)))).
  vm_compute. auto.
Defined.

(** *** Decoded files *)

Lemma validateHeader_frameCount file :
  has_code FRAME_COUNT_MISMATCH (validateHeader file [])
  = negb (hdr_frameCount (file_header file)
          =? Z.of_nat (length (file_frames file))).
Proof.
  unfold validateHeader, push_if. cbv zeta.
  repeat match goal with
         | |- context [if ?c then _ else _] => destruct c
         end; reflexivity.
Qed.

Lemma validateHeader_noFrames file :
  has_code NO_FRAMES (validateHeader file [])
  = (hdr_frameCount (file_header file) <=? 0).
Proof.
  unfold validateHeader, push_if. cbv zeta.
  repeat match goal with
         | |- context [if ?c then _ else _] => destruct c
         end; reflexivity.
Qed.

Lemma validateHeader_colorDepth file :
  has_code INVALID_COLOR_DEPTH (validateHeader file [])
  = negb (existsb (Z.eqb (hdr_colorDepth (file_header file))) [8; 16; 32]).
Proof.
  unfold validateHeader, push_if. cbv zeta.
  repeat match goal with
         | |- context [if ?c then _ else _] => destruct c
         end; reflexivity.
Qed.

Section DecodedValidation.
Context {rt : JsRuntime}.

Lemma parseHeader_colorDepth r header r' :
  parseHeader true r = Ok (header, r') ->
  existsb (Z.eqb (hdr_colorDepth header)) [8; 16; 32] = true.
Proof.
  unfold parseHeader. intro H.
  inv_bind H. inv_bind H.
  destruct (true && _); [discriminate|].
  do 4 inv_bind H.
  destruct (existsb (Z.eqb a4) [8; 16; 32]) eqn:Ec; [|discriminate].
  cbn [andb negb] in H.
  do 14 inv_bind H.
  unfold ret in H. injection H as <- <-. exact Ec.
Qed.

Lemma parseAseprite_header data options file :
  parseAseprite data options = Ok file ->
  exists r',
    parseHeader (strict options) {| rd_data := data; rd_offset := 0 |}
    = Ok (file_header file, r').
Proof.
  unfold parseAseprite. intro H.
  match type of H with
  | match ?p with _ => _ end = _ =>
      destruct p as [[[header [[ctx heap] acc]] r']|e] eqn:E
  end; [|discriminate].
  injection H as <-. simpl.
  inv_bind E. inv_bind E. destruct a0 as [[ctx1 heap1] acc1].
  unfold ret in E. injection E as <- <- <- <- <-.
  eexists. exact Hstep.
Qed.
End DecodedValidation.

(** X23.  The decoder and the validator: whatever the input and the
    options, [validateAseprite] never reports [FRAME_COUNT_MISMATCH] for a
    file that [parseAseprite] returned; it reports [NO_FRAMES] exactly
    when that file has no frames; and it reports no
    [INVALID_COLOR_DEPTH] when the file was decoded in strict mode. *)
Theorem X23_decoded_file_validation :
  forall (rt : JsRuntime) (data : Bytes) (options : ParseOptions)
         (file : AsepriteFile),
    parseAseprite data options = Ok file ->
    reports file FRAME_COUNT_MISMATCH = false
    /\ (reports file NO_FRAMES = true <-> file_frames file = [])
    /\ (strict options = true -> reports file INVALID_COLOR_DEPTH = false).
Proof.
  intros rt data options file H.
  pose proof (parseAseprite_frames _ _ H) as [Hcount _].
  split; [|split].
  - one_section file. rewrite validateHeader_frameCount, <- Hcount.
    rewrite Z.eqb_refl. reflexivity.
  - one_section file. rewrite validateHeader_noFrames, <- Hcount.
    destruct (file_frames file) as [|f fs].
    + simpl. split; reflexivity.
    + split; [|discriminate]. intro Hle. apply Z.leb_le in Hle.
      simpl length in Hle. lia.
  - intro Hs. one_section file. rewrite validateHeader_colorDepth.
    destruct (parseAseprite_header _ _ H) as [r' Hh]. rewrite Hs in Hh.
    rewrite (parseHeader_colorDepth _ Hh). reflexivity.
Qed.

(** The one-frame file of the sprite-level user data example. *)
Lemma X23_witness :
  reports discardedFile FRAME_COUNT_MISMATCH = false.
Proof.
  assert (H : parseAseprite (rt := exampleRuntime) spriteUserDataFile noChunks
              = Ok discardedFile) by (vm_compute; reflexivity).
  exact (proj1 (X23_decoded_file_validation exampleRuntime spriteUserDataFile
                  noChunks H)).
Defined.

(* ================================================================== *)
(** ** The Cel chunk: decoding what the encoder wrote
       ([src/chunks/cel.ts], [src/chunks/encode.ts]) *)

Lemma get_offset_bind {B} (k : Z -> Parser B) before after :
  bind get_offset k (reader_at before after)
  = k (Z.of_nat (length before)) (reader_at before after).
Proof. reflexivity. Qed.

(** Decide a comparison of constants in the goal. *)
Ltac decide_tag :=
  repeat match goal with
         | |- context [?a mod ?m =? ?b] =>
             let c := eval vm_compute in (a mod m =? b) in
             change (a mod m =? b) with c
         end;
  cbv iota.

Ltac remaining_bytes :=
  erewrite bind_eq
    by (apply bytes_at;
        rewrite ?length_app, ?le_bytes_length, ?repeat_length;
        cbn [length]; lia).

(** X24.  [parseCelChunk] inverts [encodeCelChunk] on the cels the decoder
    produces: for a raw, linked, compressed or tilemap cel whose fields
    fit their widths and whose pixel data is still as stored, the encoder
    succeeds without calling the compression provider, and decoding its
    bytes up to their end gives the cel back, without its user data and
    extra, the reader stopping behind the bytes. *)
Theorem X24_cel_round_trip :
  forall (cel : Cel) (compression : CompressionProvider)
         (before after : Bytes),
    cel_in_range cel ->
    exists encoded,
      encodeCelChunk cel compression = Ok encoded
      /\ parseCelChunk (Z.of_nat (length (before ++ encoded)))
           (reader_at before (encoded ++ after))
         = Ok (cel_without_attachments cel,
               reader_at (before ++ encoded) after).
Proof.
  intros [layerIndex x y opacity zIndex userData extra variant]
         compression before after (Hl & Hx & Hy & Ho & Hz & Hv).
  unfold cel_without_attachments, encodeCelChunk, cel_type.
  cbn [cel_layerIndex cel_x cel_y cel_opacity cel_zIndex cel_userData
       cel_extra cel_variant] in *.
  destruct variant as [width height data | linkedFrameIndex
                      | width height data
                      | width height bitsPerTile masks data decodedTiles].
  - destruct Hv as (Hw & Hh & Hk & Hd). destruct data as [kind bs decoded].
    cbn [cid_kind cid_bytes cid_decoded] in *. subst kind decoded.
    eexists. split; [reflexivity|].
    unfold parseCelChunk, u16, i16, u8, w_u16, w_i16, w_u8, w_zeros, w_bytes.
    cbn [app]. rewrite <- !app_assoc.
    do 7 read_step. decide_tag. do 2 read_step.
    rewrite get_offset_bind. remaining_bytes. unfold ret.
    rewrite (@mod_small_unsigned 16 layerIndex),
      (@mod_small_unsigned 8 opacity),
      (@mod_small_unsigned 16 width),
      (@mod_small_unsigned 16 height) by (assumption || reflexivity).
    rewrite !to_signed_mod by (assumption || lia).
    f_equal. f_equal. same_reader.
  - eexists. split; [reflexivity|].
    unfold parseCelChunk, u16, i16, u8, w_u16, w_i16, w_u8, w_zeros.
    cbn [app]. rewrite <- !app_assoc.
    do 7 read_step. decide_tag. read_step. unfold ret.
    rewrite (@mod_small_unsigned 16 layerIndex),
      (@mod_small_unsigned 8 opacity),
      (@mod_small_unsigned 16 linkedFrameIndex) by (assumption || reflexivity).
    rewrite !to_signed_mod by (assumption || lia).
    f_equal. f_equal. same_reader.
  - destruct Hv as (Hw & Hh & Hk & Hd). destruct data as [kind bs decoded].
    cbn [cid_kind cid_bytes cid_decoded] in *. subst kind decoded.
    eexists. split; [reflexivity|].
    unfold parseCelChunk, u16, i16, u8, w_u16, w_i16, w_u8, w_zeros, w_bytes.
    cbn [app]. rewrite <- !app_assoc.
    do 7 read_step. decide_tag. do 2 read_step.
    rewrite get_offset_bind. remaining_bytes. unfold ret.
    rewrite (@mod_small_unsigned 16 layerIndex),
      (@mod_small_unsigned 8 opacity),
      (@mod_small_unsigned 16 width),
      (@mod_small_unsigned 16 height) by (assumption || reflexivity).
    rewrite !to_signed_mod by (assumption || lia).
    f_equal. f_equal. same_reader.
  - destruct Hv as (Hw & Hh & Hb & Hm1 & Hm2 & Hm3 & Hm4 & Hk & Hd & Ht).
    destruct data as [kind bs decoded]. destruct masks as [m1 m2 m3 m4].
    cbn [cid_kind cid_bytes cid_decoded tileIdMask xFlipMask yFlipMask
         rotationMask] in *.
    subst kind decoded decodedTiles.
    eexists. split; [reflexivity|].
    unfold parseCelChunk, u16, i16, u8, u32, w_u16, w_i16, w_u8, w_u32,
      w_zeros, w_bytes.
    cbn [app]. rewrite <- !app_assoc.
    do 7 read_step. decide_tag. do 8 read_step.
    rewrite get_offset_bind. remaining_bytes. unfold ret.
    rewrite (@mod_small_unsigned 16 layerIndex),
      (@mod_small_unsigned 8 opacity),
      (@mod_small_unsigned 16 width),
      (@mod_small_unsigned 16 height),
      (@mod_small_unsigned 16 bitsPerTile),
      (@mod_small_unsigned 32 m1),
      (@mod_small_unsigned 32 m2),
      (@mod_small_unsigned 32 m3),
      (@mod_small_unsigned 32 m4) by (assumption || reflexivity).
    rewrite !to_signed_mod by (assumption || lia).
    f_equal. f_equal. same_reader.
Qed.

(** The raw cel of one pixel. *)
Lemma X24_witness :
  exists encoded,
    encodeCelChunk rawCel noCompression = Ok encoded
    /\ parseCelChunk (Z.of_nat (length ([] ++ encoded)))
         (reader_at [] (encoded ++ []))
       = Ok (rawCel, reader_at ([] ++ encoded) []).
Proof.
  apply (@X24_cel_round_trip rawCel noCompression [] []).
  unfold cel_in_range, is_unsigned, is_signed. simpl.
  repeat split; (lia || discriminate || reflexivity).
Defined.

(* ================================================================== *)
(** ** Cel pixels ([src/util/decode.ts]) *)

Section CelPixels.
Variable defaultProvider : CompressionProvider.

Lemma decodeCelPixels_resolve file opts :
  forall fuel cel,
    decodeCelPixels defaultProvider fuel file cel opts
    = match resolveLinkedCel fuel file cel with
      | None => None
      | Some (Throw e) => Some (Throw e)
      | Some (Ok c) => decodeCelPixels defaultProvider 1 file c opts
      end.
Proof.
  induction fuel as [|fuel IH]; intro cel; [reflexivity|].
  cbn [decodeCelPixels resolveLinkedCel].
  destruct (cel_variant cel) as [w h d | k | w h d | w h b m d t] eqn:Ev.
  - cbn [decodeCelPixels]. rewrite Ev. reflexivity.
  - destruct (_ || _); [reflexivity|].
    destruct (nth_error _ _) as [frame|]; [|reflexivity].
    destruct (array_find _ _) as [linkedCel|]; [|reflexivity].
    apply IH.
  - cbn [decodeCelPixels]. rewrite Ev. reflexivity.
  - cbn [decodeCelPixels]. rewrite Ev. reflexivity.
Qed.

Lemma decodeCelPixels_not_linked file opts cel r :
  is_linked cel = false ->
  decodeCelPixels defaultProvider 1 file cel opts = Some r ->
  match r with
  | Ok (d, c') =>
      dcp_colorDepth d = hdr_colorDepth (file_header file)
      /\ is_linked c' = false
      /\ forall opts' fuel,
           decodeCelPixels defaultProvider (S fuel) file c' opts'
           = Some (Ok (d, c'))
  | Throw e =>
      e = AseFormatError DECOMPRESSION_FAILED
      \/ e = AseFormatError INVALID_CEL_TYPE
  end.
Proof.
  unfold is_linked, cel_type. cbn [decodeCelPixels].
  destruct (cel_variant cel) as [w h d | k | w h d | w h b m d t] eqn:Ev;
    intro Hn; try discriminate Hn.
  - intros [= <-]. split; [reflexivity|].
    split; [unfold is_linked, cel_type; rewrite Ev; reflexivity|].
    intros opts' fuel. cbn [decodeCelPixels]. rewrite Ev. reflexivity.
  - destruct (cid_decoded d) as [decoded|] eqn:Ed.
    + intros [= <-]. split; [reflexivity|].
      split; [unfold is_linked, cel_type; rewrite Ev; reflexivity|].
      intros opts' fuel. cbn [decodeCelPixels]. rewrite Ev, Ed. reflexivity.
    + destruct (inflateZlib _ _) as [decoded|e].
      * intros [= <-]. split; [reflexivity|].
        unfold set_decoded. rewrite Ev.
        split; [reflexivity|].
        intros opts' fuel. reflexivity.
      * intros [= <-]. left. reflexivity.
  - intros [= <-]. right. reflexivity.
Qed.
End CelPixels.

(** X25.  [decodeCelPixels] follows links exactly as [resolveLinkedCel]
    does: it fails where the resolution fails, and otherwise gives the
    pixels of the resolved cel.  The pixels come with the file's colour
    depth; the cel that supplied them keeps them, so that decoding it
    again gives the same result whatever the provider; and the only
    failures are [INVALID_LINKED_CEL], [DECOMPRESSION_FAILED] (for every
    rejection of the provider) and [INVALID_CEL_TYPE] (for a tilemap
    cel). *)
Theorem X25_decodeCelPixels_follows_links :
  forall (defaultProvider : CompressionProvider) (file : AsepriteFile)
         (cel : Cel) (opts : option DecodeOptions) (fuel : nat),
    decodeCelPixels defaultProvider fuel file cel opts
    = match resolveLinkedCel fuel file cel with
      | None => None
      | Some (Throw e) => Some (Throw e)
      | Some (Ok c) => decodeCelPixels defaultProvider 1 file c opts
      end
    /\ (forall d c',
           decodeCelPixels defaultProvider fuel file cel opts
           = Some (Ok (d, c')) ->
           dcp_colorDepth d = hdr_colorDepth (file_header file)
           /\ forall opts' fuel',
                decodeCelPixels defaultProvider (S fuel') file c' opts'
                = Some (Ok (d, c')))
    /\ (forall e,
           decodeCelPixels defaultProvider fuel file cel opts
           = Some (Throw e) ->
           e = AseFormatError INVALID_LINKED_CEL
           \/ e = AseFormatError DECOMPRESSION_FAILED
           \/ e = AseFormatError INVALID_CEL_TYPE).
Proof.
  intros defaultProvider file cel opts fuel.
  pose proof (decodeCelPixels_resolve defaultProvider file opts fuel cel) as E.
  split; [exact E|].
  destruct (resolveLinkedCel fuel file cel) as [[c|e0]|] eqn:Er.
  - pose proof (resolveLinkedCel_sound _ _ _ Er) as [Hn _].
    split.
    + intros d c' H. rewrite E in H.
      pose proof (decodeCelPixels_not_linked _ _ _ _ Hn H) as (Hd & _ & Hc).
      split; assumption.
    + intros e H. rewrite E in H.
      pose proof (decodeCelPixels_not_linked _ _ _ _ Hn H) as Hc.
      simpl in Hc. tauto.
  - pose proof (resolveLinkedCel_sound _ _ _ Er) as [-> _].
    split; intros; rewrite E in *; [discriminate|].
    left. congruence.
  - split; intros; rewrite E in *; discriminate.
Qed.

(** The linked-cel scenario: decoding the cel of frame 1 gives the pixels
    of the raw cel of frame 0. *)
Lemma X25_witness :
  decodeCelPixels noCompression 2 linkedFile (mkCel 0 (LinkedCel 0)) None
  = decodeCelPixels noCompression 1 linkedFile rawCel None.
Proof.
  exact (proj1 (X25_decodeCelPixels_follows_links
                  noCompression linkedFile (mkCel 0 (LinkedCel 0)) None 2)).
Defined.

(* ================================================================== *)
(** ** Tilemaps: reading the tiles the encoder serialised
       ([src/util/decode.ts], [src/chunks/encode.ts]) *)

Lemma view_get_at size pre v post k :
  Z.of_nat (length pre) = k ->
  view_get size {| rd_data := pre ++ le_bytes size v ++ post; rd_offset := k |}
  = Ok (v mod 2 ^ (8 * Z.of_nat size)).
Proof.
  intros <-. unfold view_get, rd_length. cbn [rd_data rd_offset].
  destruct (Z.ltb_spec (Z.of_nat (length pre)) 0); [lia|].
  destruct (Z.gtb_spec (Z.of_nat (length pre) + Z.of_nat size)
              (Z.of_nat (length (pre ++ le_bytes size v ++ post)))) as [H1|_].
  { rewrite !length_app, le_bytes_length in H1. lia. }
  cbn [orb]. rewrite Nat2Z.id, skipn_length_app.
  rewrite <- (le_bytes_length size v) at 1.
  rewrite firstn_length_app, le_value_le_bytes. reflexivity.
Qed.

Lemma readTiles_serialized bits size :
  (bits = 8 /\ size = 1%nat) \/ (bits = 16 /\ size = 2%nat)
  \/ (bits = 32 /\ size = 4%nat) ->
  forall tiles pre post i,
    Z.of_nat (length pre) = i * Z.of_nat size ->
    readTiles (length tiles) bits
      (pre ++ flat_map (le_bytes size) tiles ++ post) i
    = TilemapOk (map (fun t => t mod 2 ^ bits) tiles).
Proof.
  intro Hb. induction tiles as [|t tiles IH]; intros pre post i Hpre;
    [reflexivity|].
  cbn [length readTiles flat_map map].
  assert (Hread : readTile bits
                    (pre ++ (le_bytes size t ++ flat_map (le_bytes size) tiles)
                     ++ post) i
                  = TilemapOk (t mod 2 ^ bits)).
  { rewrite <- app_assoc.
    destruct Hb as [[-> ->] | [[-> ->] | [-> ->]]];
      unfold readTile; cbn [Z.eqb Pos.eqb];
      rewrite view_get_at by exact Hpre; reflexivity. }
  rewrite Hread.
  replace (pre ++ (le_bytes size t ++ flat_map (le_bytes size) tiles) ++ post)
    with ((pre ++ le_bytes size t) ++ flat_map (le_bytes size) tiles ++ post)
    by (rewrite <- !app_assoc; reflexivity).
  rewrite IH; [reflexivity|].
  rewrite length_app, le_bytes_length. lia.
Qed.

Lemma serializeTiles_supported bits size tiles :
  (bits = 8 /\ size = 1%nat) \/ (bits = 16 /\ size = 2%nat)
  \/ (bits = 32 /\ size = 4%nat) ->
  serializeTiles bits tiles = flat_map (le_bytes size) tiles.
Proof. intros [[-> ->] | [[-> ->] | [-> ->]]]; reflexivity. Qed.

(** X26.  The tiles of a tilemap cel survive the encoder and
    [decodeTilemap].  For 8, 16 or 32 bits per tile, [encodeCelChunk]
    writes a 48-byte head and then what the provider makes of the
    serialised tiles; when the provider of [decodeTilemap] inflates those
    bytes to what was deflated, a cel of [width * height] tiles is decoded
    to the same tiles, each modulo [2^bitsPerTile], and the cel keeps
    them.  For any other number of bits per tile and at least one tile,
    [decodeTilemap] throws its "unsupported" error whatever the bytes. *)
Theorem X26_tilemap_round_trip :
  forall (defaultProvider encoder : CompressionProvider)
         (compression : option CompressionProvider)
         (cel : Cel) (width height bitsPerTile : Z) (masks : TilemapMasks)
         (data stored : CelImageData) (tiles : list Z) (compressed : Bytes),
    let provider := getCompressionProvider defaultProvider compression in
    cel_variant cel
    = CompressedTilemapCel width height bitsPerTile masks data (Some tiles) ->
    cid_kind data = KindRaw ->
    width * height = Z.of_nat (length tiles) ->
    cid_bytes stored = compressed ->
    (In bitsPerTile [8; 16; 32] ->
     deflateZlib encoder (serializeTiles bitsPerTile tiles) = Ok compressed ->
     inflateZlib provider compressed = Ok (serializeTiles bitsPerTile tiles) ->
     (exists head,
         length head = 48%nat
         /\ encodeCelChunk cel encoder = Ok (head ++ compressed))
     /\ decodeTilemap defaultProvider width height bitsPerTile masks stored
          None compression
        = TilemapOk
            ({| dtm_width := width; dtm_height := height;
                dtm_tiles := map (fun t => t mod 2 ^ bitsPerTile) tiles;
                dtm_masks := masks |},
             Some (map (fun t => t mod 2 ^ bitsPerTile) tiles)))
    /\ (~ In bitsPerTile [8; 16; 32] ->
        tiles <> [] ->
        forall decompressed,
          inflateZlib provider compressed = Ok decompressed ->
          decodeTilemap defaultProvider width height bitsPerTile masks stored
            None compression
          = TilemapThrow (UnsupportedBitsPerTile bitsPerTile)).
Proof.
  intros defaultProvider encoder compression cel width height bitsPerTile
         masks data stored tiles compressed provider Hv Hk Hcount Hstored.
  split.
  - intros Hbits Hdeflate Hinflate.
    assert (Hsize : exists size,
               (bitsPerTile = 8 /\ size = 1%nat)
               \/ (bitsPerTile = 16 /\ size = 2%nat)
               \/ (bitsPerTile = 32 /\ size = 4%nat)).
    { cbn [In] in Hbits.
      destruct Hbits as [<- | [<- | [<- | []]]];
        [exists 1%nat | exists 2%nat | exists 4%nat]; auto. }
    destruct Hsize as [size Hsize].
    split.
    + unfold encodeCelChunk. rewrite Hv, Hk.
      assert (Hpos : (bitsPerTile <? 0) = false).
      { destruct Hsize as [[-> _] | [[-> _] | [-> _]]]; reflexivity. }
      rewrite Hpos, Hdeflate. cbn [bindR].
      unfold w_bytes. eexists. split; [|reflexivity].
      unfold w_u16, w_i16, w_u8, w_u32, w_zeros.
      rewrite !length_app, !le_bytes_length, !repeat_length. reflexivity.
    + unfold decodeTilemap. fold provider. rewrite Hstored, Hinflate.
      destruct (Z.ltb_spec (width * height) 0); [lia|].
      rewrite Hcount, Nat2Z.id.
      rewrite (serializeTiles_supported tiles Hsize).
      pose proof (@readTiles_serialized bitsPerTile size Hsize tiles [] [] 0)
        as Hread.
      cbn [app] in Hread. rewrite app_nil_r in Hread.
      rewrite Hread by (simpl; lia). reflexivity.
  - intros Hbits Hne decompressed Hinflate.
    unfold decodeTilemap. fold provider. rewrite Hstored, Hinflate.
    destruct (Z.ltb_spec (width * height) 0); [lia|].
    rewrite Hcount, Nat2Z.id.
    destruct tiles as [|t tiles]; [contradiction|].
    cbn [length readTiles]. unfold readTile.
    cbn [In] in Hbits.
    destruct (Z.eqb_spec bitsPerTile 8); [exfalso; apply Hbits; auto|].
    destruct (Z.eqb_spec bitsPerTile 16); [exfalso; apply Hbits; auto|].
    destruct (Z.eqb_spec bitsPerTile 32); [exfalso; apply Hbits; auto|].
    reflexivity.
Qed.

(** Two tiles of 8 bits through a provider that stores the bytes as they
    are. *)
Lemma X26_witness :
  decodeTilemap noCompression 2 1 8 standardMasks storedTiles None None
  = TilemapOk ({| dtm_width := 2; dtm_height := 1; dtm_tiles := [1; 2];
                  dtm_masks := standardMasks |}, Some [1; 2]).
Proof.
  apply (proj1 (@X26_tilemap_round_trip noCompression noCompression None
                  tilemapCel 2 1 8 standardMasks _ storedTiles [1; 2]
                  [x01; x02] eq_refl eq_refl eq_refl eq_refl)
           (or_introl eq_refl) eq_refl eq_refl).
Defined.

(* ================================================================== *)
(** ** Tile pixels ([src/util/tile.ts]) *)

Lemma subarray_nonneg (data : Bytes) b e :
  0 <= b <= e ->
  subarray data b e = firstn (Z.to_nat (e - b)) (skipn (Z.to_nat b) data).
Proof.
  intros [Hb He]. unfold subarray, relative_index.
  destruct (Z.ltb_spec b 0); [lia|]. destruct (Z.ltb_spec e 0); [lia|].
  set (len := Z.of_nat (length data)).
  destruct (Z_le_gt_dec e len) as [Hel|Hel].
  - rewrite !Z.min_l by lia. reflexivity.
  - rewrite (Z.min_r e len) by lia.
    destruct (Z_le_gt_dec b len) as [Hbl|Hbl].
    + rewrite Z.min_l by lia.
      rewrite !firstn_all2; [reflexivity | |];
        rewrite length_skipn; unfold len in *; lia.
    + rewrite Z.min_r by lia.
      rewrite !skipn_all2 by (unfold len in *; lia).
      rewrite !firstn_nil. reflexivity.
Qed.

Lemma chunks_concat {A} (s : nat) :
  forall (n : nat) (l : list A),
    length l = (n * s)%nat ->
    concat (map (fun j => firstn s (skipn (j * s) l)) (seq 0 n)) = l.
Proof.
  induction n as [|n IH]; intros l Hlen.
  - destruct l; [reflexivity | discriminate].
  - cbn [seq map concat]. rewrite <- seq_shift, map_map.
    cbn [Nat.mul skipn].
    transitivity (firstn s l ++ skipn s l); [|apply firstn_skipn]. f_equal.
    etransitivity; [|apply (IH (skipn s l)); rewrite length_skipn; lia].
    f_equal. apply map_ext. intro j.
    rewrite skipn_skipn. do 2 f_equal. lia.
Qed.

(** X27.  [getTilePixels] for a colour depth of 8, 16 or 32: without
    decoded pixels it throws [MISSING_TILESET]; for a tile index outside
    [baseIndex .. baseIndex + tileCount - 1] it throws [OUT_OF_BOUNDS];
    otherwise it returns the run of the tile's bytes, cut short where the
    pixel array ends, and never fails.  When the pixel array holds exactly
    [tileCount] tiles, every tile has its full size and the tiles, in
    order, make up the array.  A tileset that [decodeTilesetPixels] has
    returned keeps its pixels, so that [getTilePixels] no longer throws
    [MISSING_TILESET] for it and decoding it again calls no provider;
    [decodeTilesetPixels] throws [MISSING_TILESET] itself when the
    tileset holds neither decoded nor compressed data. *)
Theorem X27_getTilePixels :
  forall (tileset : Tileset) (colorDepth : Z),
    In colorDepth [8; 16; 32] ->
    let size :=
      ts_tileWidth tileset * ts_tileHeight tileset * (colorDepth / 8) in
    (ts_decodedPixels tileset = None ->
     forall tileIndex,
       getTilePixels tileset tileIndex colorDepth
       = Throw (AseFormatError MISSING_TILESET))
    /\ (forall decodedPixels,
           ts_decodedPixels tileset = Some decodedPixels ->
           (forall tileIndex,
               tileIndex < ts_baseIndex tileset
               \/ ts_baseIndex tileset + ts_tileCount tileset <= tileIndex ->
               getTilePixels tileset tileIndex colorDepth
               = Throw (AseFormatError OUT_OF_BOUNDS))
           /\ (0 <= size ->
               forall k,
                 0 <= k < ts_tileCount tileset ->
                 getTilePixels tileset (ts_baseIndex tileset + k) colorDepth
                 = Ok (tileSlice decodedPixels size k)
                 /\ Z.of_nat (length (tileSlice decodedPixels size k)) <= size)
           /\ (0 <= size ->
               Z.of_nat (length decodedPixels) = ts_tileCount tileset * size ->
               (forall k,
                   0 <= k < ts_tileCount tileset ->
                   Z.of_nat (length (tileSlice decodedPixels size k)) = size)
               /\ concat (map (fun j => tileSlice decodedPixels size (Z.of_nat j))
                              (seq 0 (Z.to_nat (ts_tileCount tileset))))
                  = decodedPixels))
    /\ (forall (defaultProvider : CompressionProvider)
               (compression : option CompressionProvider),
           match decodeTilesetPixels defaultProvider tileset compression with
           | Ok (pixels, decodedTileset) =>
               ts_decodedPixels decodedTileset = Some pixels
               /\ (forall tileIndex,
                      getTilePixels decodedTileset tileIndex colorDepth
                      <> Throw (AseFormatError MISSING_TILESET))
               /\ (forall compression',
                      decodeTilesetPixels defaultProvider decodedTileset
                        compression'
                      = Ok (pixels, decodedTileset))
           | Throw e =>
               ts_decodedPixels tileset = None
               /\ (ts_compressedData tileset = None ->
                   e = AseFormatError MISSING_TILESET)
           end).
Proof.
  intros tileset colorDepth Hdepth size. split; [|split].
  - intros Hnone tileIndex. unfold getTilePixels. rewrite Hnone. reflexivity.
  - intros decodedPixels Hsome. split; [|split].
    + intros tileIndex Hout. unfold getTilePixels. rewrite Hsome.
      destruct (Z.ltb_spec (tileIndex - ts_baseIndex tileset) 0);
        [reflexivity|].
      destruct (Z.geb_spec (tileIndex - ts_baseIndex tileset)
                  (ts_tileCount tileset)); [reflexivity | lia].
    + intros Hsize k Hk. split.
      * unfold getTilePixels. rewrite Hsome. fold size.
        replace (ts_baseIndex tileset + k - ts_baseIndex tileset) with k by lia.
        destruct (Z.ltb_spec k 0); [lia|].
        destruct (Z.geb_spec k (ts_tileCount tileset)); [lia|].
        cbn [orb]. rewrite subarray_nonneg by nia.
        unfold tileSlice. do 3 f_equal. lia.
      * unfold tileSlice. rewrite length_firstn. lia.
    + intros Hsize Hlen. split.
      * intros k Hk. unfold tileSlice.
        rewrite length_firstn, length_skipn. nia.
      * unfold tileSlice.
        destruct (Z_le_gt_dec (ts_tileCount tileset) 0) as [Hc|Hc].
        { replace (Z.to_nat (ts_tileCount tileset)) with 0%nat by lia.
          destruct decodedPixels; [reflexivity|]. simpl length in Hlen. nia. }
        etransitivity;
          [|apply (@chunks_concat byte (Z.to_nat size)
                     (Z.to_nat (ts_tileCount tileset)) decodedPixels); nia].
        f_equal. apply map_ext. intro j. do 2 f_equal. nia.
  - intros defaultProvider compression.
    assert (Hget : forall t pixels tileIndex,
               ts_decodedPixels t = Some pixels ->
               getTilePixels t tileIndex colorDepth
               <> Throw (AseFormatError MISSING_TILESET)).
    { intros t pixels tileIndex Hp. unfold getTilePixels. rewrite Hp.
      destruct (_ || _); discriminate. }
    unfold decodeTilesetPixels.
    destruct (ts_decodedPixels tileset) as [decodedPixels|] eqn:Hd.
    + split; [exact Hd|]. split.
      * intro tileIndex. apply (Hget _ _ _ Hd).
      * intro compression'. rewrite Hd. reflexivity.
    + destruct (ts_compressedData tileset) as [compressedData|].
      * destruct (inflateZlib _ compressedData) as [decoded|e].
        -- split; [reflexivity|]. split.
           ++ intro tileIndex.
              apply (Hget (set_decodedPixels tileset decoded) decoded).
              reflexivity.
           ++ intro compression'. reflexivity.
        -- split; [reflexivity | discriminate].
      * split; [reflexivity|]. reflexivity.
Qed.

(** Two RGBA tiles of 2 by 1 pixels: the second tile is the second half
    of the pixel array. *)
Lemma X27_witness :
  getTilePixels twoTiles 2 32
  = Ok [x09; x0a; x0b; x0c; x0d; x0e; x0f; x10].
Proof.
  apply (proj1 (proj1 (proj2 (proj1 (proj2 (@X27_getTilePixels twoTiles 32
                                              (or_intror (or_intror
                                                            (or_introl eq_refl)))))
                                _ eq_refl))
                  ltac:(simpl; lia) 1 ltac:(simpl; lia))).
Defined.

(* ================================================================== *)
(** ** Conversion to RGBA ([src/util/decode.ts]) *)











(* ================================================================== *)
(** ** The UserData chunk: decoding what the encoder wrote
       ([src/chunks/user_data.ts], [src/chunks/encode.ts]) *)

Section UserDataRoundTrip.
Context {rt : JsRuntime}.

(** Decide the flag tests on the flags word the encoder wrote. *)
Ltac decide_flags :=
  repeat match goal with
         | |- context [has_flag ?a ?b] =>
             let c := eval vm_compute in (has_flag a b) in
             change (has_flag a b) with c
         end;
  cbv iota.

Ltac read_text :=
  erewrite bind_eq
    by (erewrite bind_eq by (apply string_back; assumption); reflexivity).

Ltac read_color :=
  erewrite bind_eq by (do 4 read_step; reflexivity).

(** X29.  [parseUserDataChunk] inverts [encodeUserDataChunk] on user data
    without properties whose text survives the string codec and whose
    colour components are bytes, but for one case: an empty text is not
    written (the encoder tests the text for truth), so it comes back as no
    text at all.  The reader stops behind the bytes. *)
Theorem X29_user_data_round_trip :
  forall (userData : UserData) (before after : Bytes),
    userData_in_range userData ->
    exists encoded,
      encodeUserDataChunk userData = Ok encoded
      /\ parseUserDataChunk (reader_at before (encoded ++ after))
         = Ok (userData_as_stored userData,
               reader_at (before ++ encoded) after).
Proof.
  intros [text color properties] before after (Hp & Ht & Hc).
  cbn [ud_text ud_color ud_properties] in *. subst properties.
  unfold encodeUserDataChunk, userData_as_stored, has_text.
  cbn [ud_text ud_color ud_properties].
  destruct text as [text|];
    [destruct (Z.eqb_spec (Z.of_nat (length text)) 0) as [Hempty|Hfull];
     cbn [negb]|];
    destruct color as [[r g b a]|];
    try (destruct Hc as (Hr & Hg & Hb & Ha);
         cbn [rgba_r rgba_g rgba_b rgba_a] in * );
    try (rewrite w_string_Ok by exact Ht); cbn [bindR];
    (eexists; split; [reflexivity|]);
    unfold parseUserDataChunk, u32, u8, w_u32, w_u8;
    cbn [app]; rewrite <- ?app_assoc;
    read_step; decide_flags;
    first [read_text | erewrite bind_eq by reflexivity];
    first [read_color | erewrite bind_eq by reflexivity];
    erewrite bind_eq by reflexivity;
    unfold ret;
    rewrite ?(@mod_small_unsigned 8 r), ?(@mod_small_unsigned 8 g),
      ?(@mod_small_unsigned 8 b), ?(@mod_small_unsigned 8 a)
      by (assumption || reflexivity);
    f_equal; f_equal; same_reader.
Qed.
End UserDataRoundTrip.

(** The text "walk" in red comes back; an empty text comes back as no
    text. *)
Lemma X29_witness :
  (exists encoded,
      encodeUserDataChunk (rt := exampleRuntime) walkUserData = Ok encoded
      /\ parseUserDataChunk (rt := exampleRuntime)
           (reader_at [] (encoded ++ []))
         = Ok (walkUserData, reader_at ([] ++ encoded) []))
  /\ (exists encoded,
         encodeUserDataChunk (rt := exampleRuntime) emptyTextUserData
         = Ok encoded
         /\ parseUserDataChunk (rt := exampleRuntime)
              (reader_at [] (encoded ++ []))
            = Ok ({| ud_text := None; ud_color := None;
                     ud_properties := None |},
                  reader_at ([] ++ encoded) [])).
Proof.
  split.
  - apply (@X29_user_data_round_trip exampleRuntime walkUserData [] []).
    unfold userData_in_range. simpl.
    split; [reflexivity|]. split; [apply walk_round_trips|].
    unfold is_unsigned. repeat split; lia.
  - apply (@X29_user_data_round_trip exampleRuntime emptyTextUserData [] []).
    unfold userData_in_range. simpl.
    split; [reflexivity|]. split; [|exact I].
    split; [simpl; lia|]. split; [reflexivity|]. reflexivity.
Defined.

(* ================================================================== *)
(** ** The Slice chunk: decoding what the encoder wrote
       ([src/chunks/slice.ts], [src/chunks/encode.ts]) *)

Lemma encodeSliceKeys_step w flags key rest :
  encodeSliceKeys w flags (key :: rest)
  = encodeSliceKeys (w ++ sliceKeyBytes flags key) flags rest.
Proof.
  unfold sliceKeyBytes. cbn [encodeSliceKeys]. cbv zeta. f_equal.
  destruct (key_center key) as [center|], (key_pivot key) as [pivot|];
    try (destruct (has_flag flags SliceFlags.Has9Patch));
    try (destruct (has_flag flags SliceFlags.HasPivot));
    unfold w_u32, w_i32; cbn [app]; rewrite <- ?app_assoc; reflexivity.
Qed.

Lemma encodeSliceKeys_all flags keys :
  forall w,
    encodeSliceKeys w flags keys = w ++ flat_map (sliceKeyBytes flags) keys.
Proof.
  induction keys as [|key rest IH]; intro w.
  - simpl. rewrite app_nil_r. reflexivity.
  - rewrite encodeSliceKeys_step, IH. cbn [flat_map].
    rewrite <- app_assoc. reflexivity.
Qed.

Lemma parseSliceKey_back flags key before after :
  key_in_range flags key ->
  parseSliceKey flags (reader_at before (sliceKeyBytes flags key ++ after))
  = Ok (key, reader_at (before ++ sliceKeyBytes flags key) after).
Proof.
  destruct key as [frameIndex x y width height center pivot].
  intros (Hf & Hx & Hy & Hw & Hh & Hc & Hp).
  cbn [key_frameIndex key_x key_y key_width key_height key_center key_pivot]
    in *.
  unfold sliceKeyBytes, parseSliceKey. cbn [encodeSliceKeys]. cbv zeta.
  cbn [key_frameIndex key_x key_y key_width key_height key_center key_pivot].
  destruct center as [[cx cy cw ch]|], pivot as [[px py]|];
    cbn [rect_x rect_y rect_width rect_height pt_x pt_y] in *;
    try (destruct Hc as (Hc & Hcx & Hcy & Hcw & Hch));
    try (destruct Hp as (Hp & Hpx & Hpy));
    rewrite Hc, Hp;
    unfold u32, i32, w_u32, w_i32; cbn [app]; rewrite <- ?app_assoc;
    do 5 read_step;
    first [ erewrite bind_eq by (do 4 read_step; reflexivity)
          | erewrite bind_eq by reflexivity ];
    first [ erewrite bind_eq by (do 2 read_step; reflexivity)
          | erewrite bind_eq by reflexivity ];
    unfold ret;
    rewrite (@mod_small_unsigned 32 frameIndex),
      (@mod_small_unsigned 32 width), (@mod_small_unsigned 32 height)
      by (assumption || reflexivity);
    rewrite ?(@mod_small_unsigned 32 cw), ?(@mod_small_unsigned 32 ch)
      by (assumption || reflexivity);
    rewrite !to_signed_mod by (assumption || lia);
    f_equal; f_equal; same_reader.
Qed.

Lemma parseSliceKeys_back flags keys :
  Forall (key_in_range flags) keys ->
  forall before after acc,
    repeat_push (length keys) (parseSliceKey flags) acc
      (reader_at before (flat_map (sliceKeyBytes flags) keys ++ after))
    = Ok (acc ++ keys,
          reader_at (before ++ flat_map (sliceKeyBytes flags) keys) after).
Proof.
  induction 1 as [|key rest Hkey _ IH]; intros before after acc.
  - simpl. unfold ret. rewrite !app_nil_r. reflexivity.
  - cbn [length repeat_push flat_map]. rewrite <- app_assoc.
    erewrite bind_eq by (apply parseSliceKey_back; exact Hkey).
    rewrite IH. rewrite <- !app_assoc. reflexivity.
Qed.

Section SliceRoundTrip.
Context {rt : JsRuntime}.

(** X30.  [parseSliceChunk] inverts [encodeSliceChunk] on slices with
    fewer than 2^32 keys whose fields fit their widths, whose name
    survives the string codec and whose keys carry a 9-patch centre and
    a pivot exactly when the slice's flags announce them: the slice comes
    back with its keys in order, without its user data, and the reader
    stops behind the bytes. *)
Theorem X30_slice_round_trip :
  forall (slice : Slice) (before after : Bytes),
    slice_in_range slice ->
    exists encoded,
      encodeSliceChunk slice = Ok encoded
      /\ parseSliceChunk (reader_at before (encoded ++ after))
         = Ok (slice_without_userData slice,
               reader_at (before ++ encoded) after).
Proof.
  intros slice before after (Hlen & Hflags & Hname & Hkeys).
  unfold encodeSliceChunk, w_u32, w_zeros.
  rewrite w_string_Ok by exact Hname. cbn [bindR].
  rewrite encodeSliceKeys_all.
  eexists. split; [reflexivity|].
  unfold parseSliceChunk, u32, slice_without_userData.
  cbn [app]. rewrite <- !app_assoc.
  do 3 read_step.
  erewrite bind_eq by (apply string_back; exact Hname).
  rewrite (@mod_small_unsigned 32 (Z.of_nat (length (slice_keys slice))))
    by (first [split; lia | reflexivity]).
  rewrite (@mod_small_unsigned 32 (slice_flags slice))
    by (assumption || reflexivity).
  rewrite Nat2Z.id.
  erewrite bind_eq by (apply parseSliceKeys_back; exact Hkeys).
  unfold ret. cbn [app]. f_equal. f_equal. same_reader.
Qed.
End SliceRoundTrip.

(** A slice with a pivot and one key. *)
Lemma X30_witness :
  exists encoded,
    encodeSliceChunk (rt := exampleRuntime) pivotSlice = Ok encoded
    /\ parseSliceChunk (rt := exampleRuntime) (reader_at [] (encoded ++ []))
       = Ok (pivotSlice, reader_at ([] ++ encoded) []).
Proof.
  apply (@X30_slice_round_trip exampleRuntime pivotSlice [] []).
  unfold slice_in_range. simpl.
  split; [lia|]. split; [split; [discriminate | reflexivity]|].
  split; [apply walk_round_trips|].
  constructor; [|constructor].
  unfold key_in_range, is_unsigned, is_signed. simpl.
  repeat split; (lia || discriminate || reflexivity).
Defined.
